(** * Stationarity transforms of statsmodels.tsa.statespace.tools

    A shallow embedding of [src/statsmodels/tsa/statespace/tools.py]:
    the companion matrix, the univariate Monahan transform and its inverse,
    the Ansley-Kohn multivariate transform (singular-value constraint,
    coefficients from partial autocorrelations) and its inverse.

    The program is written once, over an interface [Scalar] of the element
    type of the arrays (numpy's dtype), and read at two instances:
    - [R], the real numbers: the algorithm as mathematics;
    - [float], IEEE-754 binary64: the arithmetic numpy runs on float64
      arrays (elementwise [+ - * /] and [sqrt] are correctly rounded).

    Arrays are lists (a matrix is the list of its rows).  Python exceptions
    are values of [pyerr] in the [result] monad.  numpy's shape checking of
    operands that do not conform is outside the model: the theorems state
    the shapes they assume. *)

From Stdlib Require Import Floats.
From Stdlib Require Import List ZArith Bool Lia Reals Lra.
Import ListNotations.

Set Implicit Arguments.

(** ** Exceptions and results *)

Inductive pyerr : Type :=
| ValueError
| TypeError
| AttributeError
| IndexError
| ZeroDivisionError
| NameError
| LinAlgError.

Inductive result (A : Type) : Type :=
| Ok (a : A)
| Err (e : pyerr).

Arguments Ok {A} a.
Arguments Err {A} e.

Definition bind {A B : Type} (r : result A) (k : A -> result B) : result B :=
  match r with
  | Ok a => k a
  | Err e => Err e
  end.

Declare Scope py_scope.
Delimit Scope py_scope with py.
Notation "x <- r ;; k" := (bind r (fun x => k))
  (at level 61, r at next level, right associativity) : py_scope.

(** [for x in xs: acc = body(x, acc)] with exceptions. *)
Fixpoint for_each {A S : Type} (xs : list A) (body : A -> S -> result S)
  (acc : S) : result S :=
  match xs with
  | [] => Ok acc
  | x :: xs' => bind (body x acc) (for_each xs' body)
  end.

(** [[f(x) for x in xs]] with exceptions. *)
Fixpoint map_result {A B : Type} (f : A -> result B) (xs : list A)
  : result (list B) :=
  match xs with
  | [] => Ok []
  | x :: xs' =>
      bind (f x) (fun y => bind (map_result f xs') (fun ys => Ok (y :: ys)))
  end.

(** ** The element type of the arrays *)

Class Scalar (F : Type) : Type := {
  fzero : F;
  fone : F;
  fadd : F -> F -> F;
  fsub : F -> F -> F;
  fmul : F -> F -> F;
  fdiv : F -> F -> F;
  fopp : F -> F;
  fsqrt : F -> F;
  feqb : F -> F -> bool;
  fltb : F -> F -> bool;
  ffinite : F -> bool;
  of_int : Z -> F
}.

Definition Reqb (x y : R) : bool := if Req_dec_T x y then true else false.
Definition Rltb (x y : R) : bool := if Rlt_dec x y then true else false.

#[export] Instance R_Scalar : Scalar R := {|
  fzero := 0%R;
  fone := 1%R;
  fadd := Rplus;
  fsub := Rminus;
  fmul := Rmult;
  fdiv := Rdiv;
  fopp := Ropp;
  fsqrt := R_sqrt.sqrt;
  feqb := Reqb;
  fltb := Rltb;
  ffinite := fun _ => true;
  of_int := IZR
|}.

(** The binary64 number nearest to an integer (Python's int to float). *)
Definition float_of_Z (z : Z) : float :=
  SF2Prim (binary_normalize prec emax z 0 false).

#[export] Instance float_Scalar : Scalar float := {|
  fzero := 0%float;
  fone := 1%float;
  fadd := PrimFloat.add;
  fsub := PrimFloat.sub;
  fmul := PrimFloat.mul;
  fdiv := PrimFloat.div;
  fopp := PrimFloat.opp;
  fsqrt := PrimFloat.sqrt;
  feqb := PrimFloat.eqb;
  fltb := PrimFloat.ltb;
  ffinite := PrimFloat.is_finite;
  of_int := float_of_Z
|}.

(** The real number a binary64 value stands for (0 for nan and the
    infinities, which stand for none). *)
Definition float_to_R (x : float) : R :=
  match Prim2SF x with
  | S754_finite s m e =>
      ((if s then -1 else 1) * IZR (Zpos m) * powerRZ 2 e)%R
  | _ => 0%R
  end.

Declare Scope sc_scope.
Delimit Scope sc_scope with sc.
Infix "+" := fadd : sc_scope.
Infix "-" := fsub : sc_scope.
Infix "*" := fmul : sc_scope.
Infix "/" := fdiv : sc_scope.
Notation "- x" := (fopp x) : sc_scope.

(** ** Arrays *)

Abbreviation vector F := (list F) (only parsing).
Abbreviation matrix F := (list (list F)) (only parsing).

Fixpoint map2 {A B C : Type} (f : A -> B -> C) (xs : list A) (ys : list B)
  : list C :=
  match xs, ys with
  | x :: xs', y :: ys' => f x y :: map2 f xs' ys'
  | _, _ => []
  end.

Definition build {A : Type} (r c : nat) (f : nat -> nat -> A)
  : list (list A) :=
  map (fun i => map (fun j => f i j) (seq 0 c)) (seq 0 r).

Definition nrows {A : Type} (M : list (list A)) : nat := length M.
Definition ncols {A : Type} (M : list (list A)) : nat := length (hd [] M).

(** [M] has [r] rows of [c] entries each. *)
Definition has_shape {A : Type} (r c : nat) (M : list (list A)) : Prop :=
  length M = r /\ Forall (fun row => length row = c) M.

Definition is_shape {A : Type} (r c : nat) (M : list (list A)) : bool :=
  Nat.eqb (length M) r && forallb (fun row => Nat.eqb (length row) c) M.

(** [A.T], for a matrix of [c] columns. *)
Fixpoint transpose_n {A : Type} (c : nat) (M : list (list A))
  : list (list A) :=
  match M with
  | [] => repeat [] c
  | row :: M' => map2 cons row (transpose_n c M')
  end.

Definition transpose {A : Type} (M : list (list A)) : list (list A) :=
  transpose_n (ncols M) M.

(** [M[:, a:a+w]] *)
Definition get_cols {A : Type} (a w : nat) (M : list (list A))
  : list (list A) :=
  map (fun row => firstn w (skipn a row)) M.

(** A row after [row[a:a+len(x)] = x]. *)
Definition splice {A : Type} (a : nat) (row x : list A) : list A :=
  firstn a row ++ x ++ skipn (a + length x) row.

(** [M[:, a:a+w] = X], for [X] of the shape of the slice. *)
Definition set_cols {A : Type} (a : nat) (M X : list (list A))
  : list (list A) :=
  map2 (splice a) M X.

(** [M[r0:r0+m, :m]] *)
Definition get_block {A : Type} (r0 m : nat) (M : list (list A))
  : list (list A) :=
  map (firstn m) (firstn m (skipn r0 M)).

(** [M[r0:r0+m, :m] = X], for [X] of [m] rows and [m] columns. *)
Definition set_block {A : Type} (r0 m : nat) (M X : list (list A))
  : list (list A) :=
  firstn r0 M
  ++ map2 (splice 0) (firstn m (skipn r0 M)) X
  ++ skipn (r0 + m) M.

(** [np.concatenate(Ms, axis=1)] for matrices of [r] rows. *)
Fixpoint hstack {A : Type} (r : nat) (Ms : list (list (list A)))
  : list (list A) :=
  match Ms with
  | [] => repeat [] r
  | M :: Ms' => map2 (@app A) M (hstack r Ms')
  end.

(** [[M[:k, i*k:(i+1)*k] for i in range(order)]] *)
Definition split_blocks {A : Type} (k order : nat) (M : list (list A))
  : list (list (list A)) :=
  map (fun i => get_cols (i * k) k (firstn k M)) (seq 0 order).

Section Arrays.
Context {F : Type} `{Scalar F}.
Local Open Scope sc_scope.

(** [np.zeros((r, c))] *)
Definition zeros (r c : nat) : matrix F := repeat (repeat fzero c) r.

(** [np.eye(k)] *)
Fixpoint eye (k : nat) : matrix F :=
  match k with
  | 0 => []
  | S k' => (fone :: repeat fzero k') :: map (cons fzero) (eye k')
  end.

(** Elementwise operations. *)
Definition vadd (u v : vector F) : vector F := map2 fadd u v.
Definition vsub (u v : vector F) : vector F := map2 fsub u v.
Definition vopp (u : vector F) : vector F := map fopp u.
Definition vscale (c : F) (u : vector F) : vector F := map (fmul c) u.

Definition madd (A B : matrix F) : matrix F := map2 vadd A B.
Definition msub (A B : matrix F) : matrix F := map2 vsub A B.
Definition mopp (A : matrix F) : matrix F := map vopp A.
Definition mscale (c : F) (A : matrix F) : matrix F := map (vscale c) A.

(** Inner product of two vectors. *)
Fixpoint dotv (u v : vector F) : F :=
  match u, v with
  | a :: u', b :: v' => a * b + dotv u' v'
  | _, _ => fzero
  end.

(** [A . B^T]: entry (i, j) is the inner product of row i of [A] and
    row j of [B]. *)
Definition dot_T (A B : matrix F) : matrix F :=
  map (fun row => map (dotv row) B) A.

(** [np.dot(A, B)] for two-dimensional arrays. *)
Definition dot (A B : matrix F) : matrix F := dot_T A (transpose B).

(** [l^T X]: the combination of the rows of [X] with the weights [l],
    a vector of [c] entries. *)
Fixpoint vecmat (c : nat) (l : vector F) (X : matrix F) : vector F :=
  match l, X with
  | li :: l', xi :: X' => vadd (vscale li xi) (vecmat c l' X')
  | _, _ => repeat fzero c
  end.

End Arrays.

(** ** The routines of LAPACK the program calls

    [scipy.linalg.cholesky], [cho_factor], [solve_triangular], [cho_solve],
    [np.linalg.cholesky] and [np.linalg.inv] are library code.  They are
    modelled by the textbook algorithms LAPACK implements; over [R] the
    result does not depend on the order of the operations, and over
    [float] it does not for a matrix of one row and one column.

    The routines of scipy are called with their default
    [check_finite=True]: they first pass every operand through
    [np.asarray_chkfinite], which raises [ValueError] for an array that
    holds an infinity or a nan.  Those of numpy have no such check. *)

Section LinAlg.
Context {F : Type} `{Scalar F}.
Local Open Scope sc_scope.
Local Open Scope py_scope.

(** The lower Cholesky factor ([potrf], which reads the lower triangle
    only): [LinAlgError] when a pivot is not positive. *)
Fixpoint cholesky_n (n : nat) (A : matrix F) : result (matrix F) :=
  match n with
  | 0 => Ok []
  | S n' =>
      match A with
      | (a :: _) :: rows =>
          if fltb fzero a then
            let d := fsqrt a in
            let col := map (fun r => hd fzero r / d) rows in
            let S :=
              map2 (fun li r => map2 (fun lj x => x - li * lj) col (tl r))
                col rows in
            L' <- cholesky_n n' S ;;
            Ok ((d :: repeat fzero n') :: map2 cons col L')
          else Err LinAlgError
      | _ => Err ValueError
      end
  end.

(** [np.asarray_chkfinite(A)] passes. *)
Definition all_finite (A : matrix F) : bool :=
  forallb (forallb ffinite) A.

(** [np.linalg.cholesky(A)] *)
Definition np_linalg_cholesky (A : matrix F) : result (matrix F) :=
  cholesky_n (nrows A) A.

(** [scipy.linalg.cholesky(A, lower=True)] and the factor of
    [scipy.linalg.cho_factor(A, lower=True)] (whose entries above the
    diagonal, left as they were in [A], no caller reads). *)
Definition cholesky (A : matrix F) : result (matrix F) :=
  if all_finite A then cholesky_n (nrows A) A else Err ValueError.

(** [L X = B] by forward substitution ([trtrs]). *)
Fixpoint solve_lower_n (n : nat) (L B : matrix F) : result (matrix F) :=
  match n with
  | 0 => Ok []
  | S n' =>
      match L, B with
      | (d :: _) :: Lrows, b :: Brows =>
          if feqb d fzero then Err LinAlgError
          else
            let x := map (fun bj => bj / d) b in
            let B' :=
              map2 (fun lrow brow => vsub brow (vscale (hd fzero lrow) x))
                Lrows Brows in
            X' <- solve_lower_n n' (map (@tl F) Lrows) B' ;;
            Ok (x :: X')
      | _, _ => Err ValueError
      end
  end.

(** [L^T X = B] by back substitution ([trtrs] with [trans='T']). *)
Fixpoint solve_lower_T_n (n : nat) (L B : matrix F) : result (matrix F) :=
  match n with
  | 0 => Ok []
  | S n' =>
      match L, B with
      | (d :: _) :: Lrows, b :: Brows =>
          if feqb d fzero then Err LinAlgError
          else
            X' <- solve_lower_T_n n' (map (@tl F) Lrows) Brows ;;
            let col := map (hd fzero) Lrows in
            let s := vecmat (length b) col X' in
            Ok (map2 (fun bj sj => (bj - sj) / d) b s :: X')
      | _, _ => Err ValueError
      end
  end.

Inductive trans_flag : Type := NoTrans | Trans.

(** [scipy.linalg.solve_triangular(L, B, lower=True, trans=...)] *)
Definition solve_triangular (L B : matrix F) (trans : trans_flag)
  : result (matrix F) :=
  if all_finite L && all_finite B then
    match trans with
    | NoTrans => solve_lower_n (nrows L) L B
    | Trans => solve_lower_T_n (nrows L) L B
    end
  else Err ValueError.

(** [scipy.linalg.cho_solve((L, True), B)]: [(L L^T) X = B]. *)
Definition cho_solve (L B : matrix F) : result (matrix F) :=
  if all_finite L && all_finite B then
    Y <- solve_lower_n (nrows L) L B ;;
    solve_lower_T_n (nrows L) L Y
  else Err ValueError.

(** Gauss-Jordan elimination on the rows of [[A | I]].  The pivot of a
    column is its first entry that is not zero among the rows not yet
    used ([getrf] takes the largest; the inverse is the same). *)
Fixpoint pick_pivot (j : nat) (rows : list (vector F))
  : option (vector F * list (vector F)) :=
  match rows with
  | [] => None
  | r :: rows' =>
      if feqb (nth j r fzero) fzero then
        match pick_pivot j rows' with
        | Some (p, rest) => Some (p, r :: rest)
        | None => None
        end
      else Some (r, rows')
  end.

Definition eliminate (j : nat) (p : vector F) (r : vector F) : vector F :=
  vsub r (vscale (nth j r fzero) p).

Fixpoint gauss_jordan (steps j : nat) (used todo : list (vector F))
  : result (list (vector F)) :=
  match steps with
  | 0 => Ok used
  | S steps' =>
      match pick_pivot j todo with
      | None => Err LinAlgError
      | Some (p, rest) =>
          let p' := map (fun x => x / nth j p fzero) p in
          gauss_jordan steps' (S j)
            (map (eliminate j p') used ++ [p'])
            (map (eliminate j p') rest)
      end
  end.

(** [np.linalg.inv(A)]: [LinAlgError] for a matrix that is not square or
    is singular. *)
Definition inv (A : matrix F) : result (matrix F) :=
  let n := nrows A in
  if is_shape n n A then
    rows <- gauss_jordan n 0 [] (map2 (@app F) A (eye n)) ;;
    Ok (map (skipn n) rows)
  else Err LinAlgError.

End LinAlg.

(** ** Python values handed to [companion_matrix]

    An element of a polynomial is a Python number, a nested Python list
    (a matrix written row by row) or a numpy array of two dimensions.  The
    polynomial itself is an [int], a [list], a [tuple] or a numpy array of
    one dimension.  A list is a mutable object: [companion_matrix] returns,
    next to its result, the contents of its argument after the call. *)

Inductive item (F : Type) : Type :=
| INum (x : F)
| INested (rows : matrix F)
| IArr (rows : matrix F).

Arguments INum {F} x.
Arguments INested {F} rows.
Arguments IArr {F} rows.

Inductive pyobj (F : Type) : Type :=
| PyInt (n : Z)
| PyList (items : list (item F))
| PyTuple (items : list (item F))
| PyArr1 (xs : list F).

Arguments PyInt {F} n.
Arguments PyList {F} items.
Arguments PyTuple {F} items.
Arguments PyArr1 {F} xs.

Section CompanionMatrix.
Context {F : Type} `{Scalar F}.
Local Open Scope sc_scope.
Local Open Scope py_scope.

(** [len(x)]: a number has no length ([TypeError]). *)
Definition item_len (x : item F) : option nat :=
  match x with
  | INum _ => None
  | INested rows => Some (length rows)
  | IArr rows => Some (length rows)
  end.

Definition is_number (x : item F) : bool :=
  match x with
  | INum _ => true
  | _ => false
  end.

Definition number_of (x : item F) : F :=
  match x with
  | INum c => c
  | _ => fzero
  end.

Definition item_rows (x : item F) : matrix F :=
  match x with
  | INum _ => []
  | INested rows | IArr rows => rows
  end.

(** The elements of a sequence are matrices of one shape. *)
Definition same_shape (items : list (item F)) : bool :=
  match items with
  | [] => true
  | x :: _ =>
      forallb
        (fun y =>
           negb (is_number y)
           && is_shape (nrows (item_rows x)) (ncols (item_rows x))
                (item_rows y))
        items
  end.

(** The truth value of [x == 1].  A Python list is never equal to a
    number.  A numpy array compares entry by entry, and the truth value
    of an array of more than one entry is a [ValueError]. *)
Definition item_eq_one (x : item F) : result bool :=
  match x with
  | INum c => Ok (feqb c fone)
  | INested _ => Ok false
  | IArr rows =>
      match concat rows with
      | [] => Ok false
      | [c] => Ok (feqb c fone)
      | _ => Err ValueError
      end
  end.

(** [np.zeros((n*m, n*m))] with ones at [(i, i + m)], [i < (n-1)*m]. *)
Definition shift_matrix (n m : nat) : matrix F :=
  build (n * m) (n * m)
    (fun i j => if Nat.eqb j (i + m) then fone else fzero).

(** [matrix[:, 0] = v] *)
Definition set_col0 (M : matrix F) (v : vector F) : matrix F :=
  map2 (fun row x => x :: tl row) M v.

(** [matrix[:, 0] = -polynomial[1:] / polynomial[0]] for an array of one
    dimension. *)
Definition scalar_companion (n : nat) (c : vector F) : matrix F :=
  set_col0 (shift_matrix n 1)
    (map (fun ci => (- ci) / hd fzero c) (tl c)).

(** The arithmetic of an array of Python objects, element by element.
    [-x]: a list has no negation. *)
Definition object_neg (x : item F) : result (item F) :=
  match x with
  | INum c => Ok (INum (- c))
  | IArr M => Ok (IArr (mopp M))
  | INested _ => Err TypeError
  end.

(** [x / d] for a number [d]: between two Python numbers a division by
    zero is a [ZeroDivisionError]; an array divides entry by entry. *)
Definition object_div (x : item F) (d : F) : result (item F) :=
  match x with
  | INum c => if feqb d fzero then Err ZeroDivisionError else Ok (INum (c / d))
  | INested M | IArr M => Ok (IArr (map (map (fun a => a / d)) M))
  end.

(** [float(x)], which numpy calls to store an object in an array of
    floats: a number, or an array of a single entry. *)
Definition object_float (x : item F) : result F :=
  match x with
  | INum c => Ok c
  | INested [[c]] | IArr [[c]] => Ok c
  | _ => Err ValueError
  end.

(** [matrix[:, 0] = -polynomial[1:] / polynomial[0]] for an array of [n + 1]
    objects.  A divisor [polynomial[0]] that is a matrix is broadcast
    against the [n] numerators, and the quotients can be assigned to the
    column when they make one row of [n] entries. *)
Definition object_companion (n : nat) (items : list (item F))
  : result (matrix F) :=
  negated <- map_result object_neg (tl items) ;;
  quotients <-
    match hd (INum fzero) items with
    | INum d => qs <- map_result (fun x => object_div x d) negated ;; Ok [qs]
    | INested M0 | IArr M0 =>
        let c0 := ncols M0 in
        if Nat.eqb c0 1 || Nat.eqb c0 n || Nat.eqb n 1 then
          let w := Nat.max n c0 in
          let numerators :=
            if Nat.eqb n 1 then repeat (hd (INum fzero) negated) w
            else negated in
          map_result
            (fun row =>
               map_result (fun xd => object_div (fst xd) (snd xd))
                 (combine numerators
                    (if Nat.eqb c0 1 then repeat (hd fzero row) w
                     else row)))
            M0
        else Err ValueError
    end ;;
  match quotients with
  | [row] =>
      if Nat.eqb (length row) n then
        col <- map_result object_float row ;;
        Ok (set_col0 (shift_matrix n 1) col)
      else Err ValueError
  | _ => Err ValueError
  end.

(** [polynomial = np.asanyarray(polynomial)] for a list or a tuple of
    [n + 1] elements, followed by
    [matrix[:, 0] = -polynomial[1:] / polynomial[0]]:
    - numbers make an array of one dimension;
    - matrices of one shape make an array of three dimensions, whose
      quotient of shape [(n, r, c)] fits the column of [n] entries only
      for [n = r = c = 1] (numpy drops leading dimensions of length 1 of
      an assigned value);
    - otherwise the sequence is ragged.  numpy before 1.24 makes it an
      array of objects when a number is among the elements, and that is
      what the model follows: the module is written for those versions
      ([from __future__ import ...]); from 1.24 on [np.asanyarray] raises
      [ValueError] for every ragged sequence.  Matrices of unlike shapes
      end in an exception in all versions, taken to be the [ValueError]
      of 1.24 (before, it is a [ValueError] or a [TypeError], depending
      on the shapes). *)
Definition scalar_sequence (n : nat) (items : list (item F))
  : result (matrix F) :=
  if forallb is_number items then
    Ok (scalar_companion n (map number_of items))
  else if forallb (fun x => negb (is_number x)) items then
    if same_shape items then
      match map item_rows items with
      | [[[c0]]; [[c1]]] => Ok (scalar_companion 1 [c0; c1])
      | _ => Err ValueError
      end
    else Err ValueError
  else object_companion n items.

(** [matrix[i*m:(i+1)*m, :m] = X]: [ValueError] unless [X] has the shape
    of the slice (numpy's broadcasting of smaller shapes is not
    modelled). *)
Definition assign_block (i m : nat) (M X : matrix F) : result (matrix F) :=
  if is_shape m m X then Ok (set_block (i * m) m M X) else Err ValueError.

(** [-polynomial[i+1].T]: only an array has the attribute [T]. *)
Definition identity_block (x : item F) : result (matrix F) :=
  match x with
  | IArr C => Ok (mopp (transpose C))
  | _ => Err AttributeError
  end.

(** [-np.dot(inv, polynomial[i+1]).T] *)
Definition general_block (D : matrix F) (x : item F) : result (matrix F) :=
  match x with
  | INum c => Ok (mopp (transpose (mscale c D)))
  | INested C | IArr C =>
      if Nat.eqb (length C) (ncols D)
      then Ok (mopp (transpose (dot D C)))
      else Err ValueError
  end.

(** [for i in range(n): matrix[i*m:(i+1)*m, :m] = block(polynomial[i+1])] *)
Definition fill_blocks (m : nat) (block : item F -> result (matrix F))
  (coeffs : list (item F)) (M : matrix F) : result (matrix F) :=
  for_each (combine (seq 0 (length coeffs)) coeffs)
    (fun ic M => X <- block (snd ic) ;; assign_block (fst ic) m M X) M.

(** [np.linalg.inv(polynomial[0])] *)
Definition item_inv (x : item F) : result (matrix F) :=
  match x with
  | INum _ => Err LinAlgError
  | INested C | IArr C => inv C
  end.

(** The body of [companion_matrix] for a [list] or a [tuple]; [mutable]
    tells them apart.  The second component is the sequence after the
    call. *)
Definition companion_of_sequence (mutable : bool) (items : list (item F))
  : result (matrix F) * list (item F) :=
  let n := (length items - 1)%nat in
  if Nat.ltb n 1 then (Err ValueError, items)
  else
    let m := match item_len (nth 1 items (INum fzero)) with
             | Some l => l
             | None => 1%nat
             end in
    if Nat.eqb m 1 then (scalar_sequence n items, items)
    else
      match item_eq_one (hd (INum fzero) items) with
      | Err e => (Err e, items)
      | Ok true =>
          if mutable then
            let items' := IArr (eye m) :: tl items in
            (fill_blocks m identity_block (tl items') (shift_matrix n m),
             items')
          else (Err TypeError, items)
      | Ok false =>
          (D <- item_inv (hd (INum fzero) items) ;;
           fill_blocks m (general_block D) (tl items) (shift_matrix n m),
           items)
      end.

(** [companion_matrix(polynomial)]: the result, and the argument after
    the call. *)
Definition companion_matrix (polynomial : pyobj F)
  : result (matrix F) * pyobj F :=
  match polynomial with
  | PyInt n =>
      (if (n <? 0)%Z then Err ValueError
       else Ok (shift_matrix (Z.to_nat n) 1),
       polynomial)
  | PyArr1 xs =>
      let n := (length xs - 1)%nat in
      (if Nat.ltb n 1 then Err ValueError else Ok (scalar_companion n xs),
       polynomial)
  | PyList items =>
      let '(r, items') := companion_of_sequence true items in
      (r, PyList items')
  | PyTuple items =>
      let '(r, items') := companion_of_sequence false items in
      (r, PyTuple items')
  end.

End CompanionMatrix.

(** ** The univariate transform *)

Fixpoint set_nth {A : Type} (i : nat) (x : A) (l : list A) : list A :=
  match l, i with
  | [], _ => []
  | _ :: l', 0 => x :: l'
  | y :: l', S i' => y :: set_nth i' x l'
  end.

Section Univariate.
Context {F : Type} `{Scalar F}.
Local Open Scope sc_scope.

(** [y[k, i]] *)
Definition get2 (y : matrix F) (k i : nat) : F :=
  nth i (nth k y []) fzero.

(** [y[k, i] = v] *)
Definition set2 (y : matrix F) (k i : nat) (v : F) : matrix F :=
  set_nth k (set_nth i v (nth k y [])) y.

(** [y.diagonal()] of a matrix of [n] rows and columns *)
Definition diagonal (n : nat) (y : matrix F) : vector F :=
  map (fun k => get2 y k k) (seq 0 n).

(** [x / (1 + x**2)**0.5] *)
Definition squash (x : F) : F := x / fsqrt (fone + x * x).

(** [r / (1 - r**2)**0.5] *)
Definition unsquash (r : F) : F := r / fsqrt (fone - r * r).

(** The body of [for k in range(n)] in
    [constrain_stationary_univariate]. *)
Definition constrain_row (r : vector F) (y : matrix F) (k : nat)
  : matrix F :=
  let y :=
    fold_left
      (fun y i =>
         set2 y k i
           (get2 y (k - 1) i + nth k r fzero * get2 y (k - 1) (k - i - 1)))
      (seq 0 k) y in
  set2 y k k (nth k r fzero).

(** The array [y] at the end of [constrain_stationary_univariate]. *)
Definition constrain_table (unconstrained : vector F) : matrix F :=
  let n := length unconstrained in
  let r := map squash unconstrained in
  fold_left (constrain_row r) (seq 0 n) (zeros n n).

(** [constrain_stationary_univariate(unconstrained)]; on the empty array
    [y[n - 1, :]] is an [IndexError]. *)
Definition constrain_stationary_univariate (unconstrained : vector F)
  : result (vector F) :=
  let n := length unconstrained in
  let y := constrain_table unconstrained in
  match n with
  | 0 => Err IndexError
  | S n' => Ok (vopp (nth n' y []))
  end.

(** The body of [for k in range(n-1, 0, -1)] in
    [unconstrain_stationary_univariate]. *)
Definition unconstrain_row (y : matrix F) (k : nat) : matrix F :=
  fold_left
    (fun y i =>
       set2 y (k - 1) i
         ((get2 y k i - get2 y k k * get2 y k (k - i - 1))
          / (fone - get2 y k k * get2 y k k)))
    (seq 0 k) y.

(** The array [y] at the end of [unconstrain_stationary_univariate]. *)
Definition unconstrain_table (constrained : vector F) : matrix F :=
  let n := length constrained in
  let y := set_nth (n - 1) (vopp constrained) (zeros n n) in
  fold_left unconstrain_row (rev (seq 1 (n - 1))) y.

(** [r = y.diagonal()] *)
Definition unconstrain_reflection (constrained : vector F) : vector F :=
  diagonal (length constrained) (unconstrain_table constrained).

(** [unconstrain_stationary_univariate(constrained)].  No statement of
    the function raises, and the division of numpy arrays does not
    either. *)
Definition unconstrain_stationary_univariate (constrained : vector F)
  : vector F :=
  map unsquash (unconstrain_reflection constrained).

End Univariate.

(** ** The multivariate transform *)

(** The two representations of a sequence of coefficient matrices: a
    Python list of arrays, or one array of the blocks side by side. *)
Inductive coeffs (F : Type) : Type :=
| AsList (Ms : list (matrix F))
| Stacked (M : matrix F).

Arguments AsList {F} Ms.
Arguments Stacked {F} M.

(** [xs[i]] *)
Definition index {A : Type} (xs : list A) (i : nat) : result A :=
  match nth_error xs i with
  | Some x => Ok x
  | None => Err IndexError
  end.

(** The state of the recursion of Lemma 2.1 after a step. *)
Record ladder (F : Type) : Type := Ladder {
  forwards : matrix F;
  backwards : matrix F;
  autocovariances : matrix F;
  forward_variance : matrix F;
  backward_variance : matrix F;
  forward_factors : matrix F;
  backward_factors : matrix F
}.

Section Multivariate.
Context {F : Type} `{Scalar F}.
Local Open Scope sc_scope.
Local Open Scope py_scope.

(** [order] and [k_endog] when the caller leaves them to their default
    [None]. *)
Definition default_order (order : option nat) (Ms : list (matrix F))
  : nat :=
  match order with
  | Some o => o
  | None => length Ms
  end.

Definition default_k_endog (k_endog : option nat) (Ms : list (matrix F))
  : result nat :=
  match k_endog with
  | Some k => Ok k
  | None => A <- index Ms 0 ;; Ok (nrows A)
  end.

(** [_constrain_sv_less_than_one_python(unconstrained, order, k_endog)] *)
Definition _constrain_sv_less_than_one_python
  (unconstrained : list (matrix F)) (order k_endog : option nat)
  : result (list (matrix F)) :=
  let order := default_order order unconstrained in
  k_endog <- default_k_endog k_endog unconstrained ;;
  map_result
    (fun i =>
       A <- index unconstrained i ;;
       B <- cholesky (madd (eye k_endog) (dot A (transpose A))) ;;
       solve_triangular B A NoTrans)
    (seq 0 order).

(** [_unconstrain_sv_less_than_one(constrained, order, k_endog)] *)
Definition _unconstrain_sv_less_than_one
  (constrained : list (matrix F)) (order k_endog : option nat)
  : result (list (matrix F)) :=
  let order := default_order order constrained in
  k_endog <- default_k_endog k_endog constrained ;;
  map_result
    (fun i =>
       P <- index constrained i ;;
       B_inv <- cholesky (msub (eye k_endog) (dot P (transpose P))) ;;
       solve_triangular B_inv P NoTrans)
    (seq 0 order).

(** [M[:, s*k:(s+1)*k]] and its assignment. *)
Definition blk (k s : nat) (M : matrix F) : matrix F :=
  get_cols (s * k) k M.

Definition set_blk (k s : nat) (M X : matrix F) : matrix F :=
  set_cols (s * k) M X.

(** The body of [for k in range(s)] of the recursion. *)
Definition pacf_inner (k_endog s : nat)
  (prev_forwards prev_backwards : matrix F)
  (st : matrix F * matrix F * matrix F) (k : nat)
  : matrix F * matrix F * matrix F :=
  let '(fw, bw, ac) := st in
  let fw :=
    set_blk k_endog k fw
      (msub (blk k_endog k prev_forwards)
         (dot (blk k_endog s fw) (blk k_endog (s - k - 1) prev_backwards)))
  in
  let bw :=
    set_blk k_endog k bw
      (msub (blk k_endog k prev_backwards)
         (dot (blk k_endog s bw) (blk k_endog (s - k - 1) prev_forwards)))
  in
  let ac :=
    set_blk k_endog (s + 1) ac
      (madd (blk k_endog (s + 1) ac)
         (dot (blk k_endog (k + 1) ac)
            (transpose (blk k_endog (s - k - 1) prev_forwards))))
  in
  (fw, bw, ac).

(** The body of [for s in range(order)] of the recursion. *)
Definition pacf_step (k_endog : nat) (partial_autocorrelations : matrix F)
  (s : nat) (st : ladder F) : result (ladder F) :=
  let prev_forwards := forwards st in
  let prev_backwards := backwards st in
  let P := blk k_endog s partial_autocorrelations in
  X <- solve_triangular (backward_factors st) (transpose P) Trans ;;
  let fw :=
    set_blk k_endog s (forwards st)
      (dot (forward_factors st) (transpose X)) in
  Y <- solve_triangular (forward_factors st) P Trans ;;
  let bw :=
    set_blk k_endog s (backwards st)
      (dot (backward_factors st) (transpose Y)) in
  let tmp := dot (blk k_endog s fw) (backward_variance st) in
  let ac := set_blk k_endog (s + 1) (autocovariances st) (transpose tmp) in
  let '(fw, bw, ac) :=
    fold_left (pacf_inner k_endog s prev_forwards prev_backwards)
      (seq 0 s) (fw, bw, ac) in
  let bvar :=
    msub (backward_variance st)
      (dot (dot (blk k_endog s bw) (forward_variance st))
         (transpose (blk k_endog s bw))) in
  let fvar :=
    msub (forward_variance st)
      (dot tmp (transpose (blk k_endog s fw))) in
  ffac <- cholesky fvar ;;
  bfac <- cholesky bvar ;;
  Ok (Ladder fw bw ac fvar bvar ffac bfac).

(** The recursion run on the variance [error_variance]: the coefficients
    and the variance it ends with. *)
Definition pacf_recursion (partial_autocorrelations : matrix F)
  (error_variance : matrix F) (order k_endog : nat)
  : result (matrix F * matrix F) :=
  let ac :=
    set_blk k_endog 0 (zeros k_endog (k_endog * (order + 1)))
      error_variance in
  let fw := zeros k_endog (k_endog * order) in
  let bw := zeros k_endog (k_endog * order) in
  error_variance_factor <- cholesky error_variance ;;
  st <- for_each (seq 0 order) (pacf_step k_endog partial_autocorrelations)
          (Ladder fw bw ac error_variance error_variance
             error_variance_factor error_variance_factor) ;;
  Ok (forwards st, forward_variance st).

(** [np.eye(k_endog) * (order + k_endog)**10] *)
Definition surrogate_variance (order k_endog : nat) : matrix F :=
  mscale (of_int (Z.of_nat (order + k_endog) ^ 10)) (eye k_endog).

(** [for s in range(order): forwards[:, s*k:(s+1)*k] =
    np.dot(np.dot(transform, forwards[:, s*k:(s+1)*k]), inv_transform)] *)
Definition conjugate_blocks (order k_endog : nat)
  (transform inv_transform fw : matrix F) : matrix F :=
  fold_left
    (fun fw s =>
       set_blk k_endog s fw
         (dot (dot transform (blk k_endog s fw)) inv_transform))
    (seq 0 order) fw.

(** [_compute_coefficients_from_multivariate_pacf_python] *)
Definition _compute_coefficients_from_multivariate_pacf_python
  (partial_autocorrelations : list (matrix F)) (error_variance : matrix F)
  (order k_endog : nat) (transform_variance : bool)
  : result (matrix F * matrix F) :=
  P <- match partial_autocorrelations with
       | [] => Err ValueError
       | M :: _ => Ok (hstack (nrows M) partial_autocorrelations)
       end ;;
  if transform_variance then pacf_recursion P error_variance order k_endog
  else
    let initial_variance := error_variance in
    let error_variance := surrogate_variance order k_endog in
    r <- pacf_recursion P error_variance order k_endog ;;
    let '(fw, variance) := r in
    initial_variance_factor <- np_linalg_cholesky initial_variance ;;
    transformed_variance_factor <- np_linalg_cholesky variance ;;
    D <- inv transformed_variance_factor ;;
    let transform := dot initial_variance_factor D in
    inv_transform <- inv transform ;;
    Ok (conjugate_blocks order k_endog transform inv_transform fw,
        variance).

(** [k_endog, order = M.shape; order //= k_endog] and the list of the
    blocks of a stacked array. *)
Definition unstack (M : matrix F) : result (list (matrix F)) :=
  let k_endog := nrows M in
  match k_endog with
  | 0 => Err ZeroDivisionError
  | _ => Ok (split_blocks k_endog (ncols M / k_endog) M)
  end.

End Multivariate.

(** *** The global names of the module

    [constrain_stationary_multivariate_python] calls
    [_constrain_sv_less_than_one] and
    [_compute_coefficients_from_multivariate_pacf], two global names that
    Python looks up when the call is reached.  The module assigns them in
    one place, lines 738-740, to the functions
    [_constrain_sv_less_than_one_python] and
    [_compute_coefficients_from_multivariate_pacf_python], in the branch
    of [if not old_scipy_compat] that runs when scipy has no
    [find_best_blas_type]; that branch then ends in a [NameError] of its
    own (line 741 reads [constrain_stationary_multivariate_python] before
    its [def]), so a module that imports has taken the other branch and
    has both names unbound.  They are bound in a module whose user has
    assigned them. *)
Record module_names : Type := ModuleNames {
  constrain_sv_bound : bool;
  compute_coefficients_bound : bool
}.

(** The module as it is after a successful import. *)
Definition as_imported : module_names := ModuleNames false false.

(** The module with the assignments of lines 738-740 made. *)
Definition helpers_bound : module_names := ModuleNames true true.

Section MultivariateNames.
Context {F : Type} `{Scalar F}.
Local Open Scope py_scope.

(** The call [_constrain_sv_less_than_one(unconstrained, order, k_endog)] *)
Definition _constrain_sv_less_than_one (names : module_names)
  (unconstrained : list (matrix F)) (order k_endog : option nat)
  : result (list (matrix F)) :=
  if constrain_sv_bound names then
    _constrain_sv_less_than_one_python unconstrained order k_endog
  else Err NameError.

(** The call [_compute_coefficients_from_multivariate_pacf(...)] *)
Definition _compute_coefficients_from_multivariate_pacf
  (names : module_names)
  (partial_autocorrelations : list (matrix F)) (error_variance : matrix F)
  (order k_endog : nat) (transform_variance : bool)
  : result (matrix F * matrix F) :=
  if compute_coefficients_bound names then
    _compute_coefficients_from_multivariate_pacf_python
      partial_autocorrelations error_variance order k_endog
      transform_variance
  else Err NameError.

(** [constrain_stationary_multivariate_python] in a module whose global
    names are [names].  [_compute_coefficients_from_multivariate_pacf_python]
    returns one array of the blocks side by side: a caller that passed a
    list gets that array back, and for a caller that passed an array
    [np.concatenate(constrained, axis=1)] runs over the rows of it, arrays
    of one dimension, for which axis 1 is out of bounds. *)
Definition constrain_stationary_multivariate_python (names : module_names)
  (unconstrained : coeffs F) (variance : matrix F)
  (transform_variance : bool) : result (coeffs F * matrix F) :=
  Ms <- match unconstrained with
        | AsList Ms => Ok Ms
        | Stacked M => unstack M
        end ;;
  let order := length Ms in
  A0 <- index Ms 0 ;;
  let k_endog := nrows A0 in
  sv_constrained <-
    _constrain_sv_less_than_one names Ms (Some order) (Some k_endog) ;;
  r <- _compute_coefficients_from_multivariate_pacf names sv_constrained
         variance order k_endog transform_variance ;;
  let '(constrained, variance) := r in
  match unconstrained with
  | AsList _ => Ok (Stacked constrained, variance)
  | Stacked _ => Err IndexError
  end.

End MultivariateNames.

(** ** The inverse of the multivariate transform

    [scipy.linalg.solve_discrete_lyapunov] is library code; the functions
    that call it take it as the parameter [lyapunov]. *)

Section Unconstrain.
Context {F : Type} `{Scalar F}.
Variable lyapunov : matrix F -> matrix F -> result (matrix F).
Local Open Scope sc_scope.
Local Open Scope py_scope.

(** [Ms[i]] where the loops of the program keep the index in range. *)
Definition at_ (Ms : list (matrix F)) (i : nat) : matrix F := nth i Ms [].

(** [_compute_multivariate_acovf_from_coefficients] *)
Definition _compute_multivariate_acovf_from_coefficients
  (coefficients : list (matrix F)) (error_variance : matrix F)
  (order k_endog : option nat) (maxlag : option Z)
  : result (list (matrix F)) :=
  let order := default_order order coefficients in
  k_endog <- default_k_endog k_endog coefficients ;;
  let maxlag := match maxlag with
                | Some l => l
                | None => (Z.of_nat order - 1)%Z
                end in
  polynomial <- map_result
                  (fun i => C <- index coefficients i ;; Ok (IArr (mopp C)))
                  (seq 0 order) ;;
  c <- fst (companion_matrix (PyList (INum fone :: polynomial))) ;;
  let companion := transpose c in
  let selected_variance :=
    set_block 0 k_endog (zeros (nrows companion) (ncols companion))
      error_variance in
  stacked_cov <- lyapunov companion selected_variance ;;
  let autocovariances :=
    map (fun i => blk k_endog i (firstn k_endog stacked_cov))
      (seq 0 (Z.to_nat (Z.min (Z.of_nat order) (maxlag + 1)))) in
  let '(_, autocovariances) :=
    fold_left
      (fun st _ =>
         let '(stacked_cov, acc) := st in
         let stacked_cov := dot companion stacked_cov in
         (stacked_cov,
          acc ++ [get_cols (ncols stacked_cov - k_endog) k_endog
                    (firstn k_endog stacked_cov)]))
      (seq 0 (Z.to_nat (maxlag - (Z.of_nat order - 1))))
      (stacked_cov, autocovariances) in
  Ok autocovariances.

(** [for k in range(s): acc -= np.dot(Ms[k], term(k))] *)
Definition subtract_products (s : nat) (Ms : list (matrix F))
  (term : nat -> matrix F) (acc : matrix F) : matrix F :=
  fold_left (fun acc k => msub acc (dot (at_ Ms k) (term k))) (seq 0 s) acc.

(** The lists [forwards] and [backwards] after
    [for k in range(s): forwards.insert(k, ...); backwards.insert(k, ...)],
    from their last entries. *)
Definition levinson_update (s : nat)
  (prev_forwards prev_backwards : list (matrix F))
  (last_forward last_backward : matrix F)
  : list (matrix F) * list (matrix F) :=
  (map (fun k => msub (at_ prev_forwards k)
                   (dot last_forward (at_ prev_backwards (s - (k + 1)))))
     (seq 0 s) ++ [last_forward],
   map (fun k => msub (at_ prev_backwards k)
                   (dot last_backward (at_ prev_forwards (s - (k + 1)))))
     (seq 0 s) ++ [last_backward]).

(** The body of [for s in range(order)] of
    [_compute_multivariate_pacf_from_coefficients]; the state is
    [(forwards, backwards, partial_autocorrelations)]. *)
Definition pacf_from_coefficients_step (autocovariances : list (matrix F))
  (s : nat) (st : list (matrix F) * list (matrix F) * list (matrix F))
  : result (list (matrix F) * list (matrix F) * list (matrix F)) :=
  let '(prev_forwards, prev_backwards, partial_autocorrelations) := st in
  let forward_variance :=
    subtract_products s prev_forwards
      (fun k => at_ autocovariances (k + 1)) (at_ autocovariances 0) in
  let backward_variance :=
    subtract_products s prev_backwards
      (fun k => transpose (at_ autocovariances (k + 1)))
      (transpose (at_ autocovariances 0)) in
  forward_factor <- cholesky forward_variance ;;
  backward_factor <- cholesky backward_variance ;;
  last <-
    match s with
    | 0 =>
        X <- cho_solve forward_factor (at_ autocovariances 1) ;;
        Y <- cho_solve backward_factor
               (transpose (at_ autocovariances 1)) ;;
        Ok (transpose X, transpose Y)
    | _ =>
        let tmp_sum :=
          subtract_products s prev_forwards
            (fun k => transpose (at_ autocovariances (s - k)))
            (transpose (at_ autocovariances (s + 1))) in
        X <- cho_solve backward_factor (transpose tmp_sum) ;;
        Y <- cho_solve forward_factor tmp_sum ;;
        Ok (transpose X, transpose Y)
    end ;;
  let '(fw, bw) :=
    levinson_update s prev_forwards prev_backwards (fst last) (snd last) in
  P <- solve_triangular forward_factor (dot (at_ fw s) backward_factor)
         NoTrans ;;
  Ok (fw, bw, partial_autocorrelations ++ [P]).

(** [_compute_multivariate_pacf_from_coefficients] *)
Definition _compute_multivariate_pacf_from_coefficients
  (constrained : list (matrix F)) (error_variance : matrix F)
  (order k_endog : option nat) : result (list (matrix F)) :=
  let order' := default_order order constrained in
  k_endog' <- default_k_endog k_endog constrained ;;
  acovf <- _compute_multivariate_acovf_from_coefficients constrained
             error_variance (Some order') (Some k_endog')
             (Some (Z.of_nat order')) ;;
  let autocovariances := map (@transpose F) acovf in
  st <- for_each (seq 0 order')
          (pacf_from_coefficients_step autocovariances) ([], [], []) ;;
  Ok (snd st).

(** [unconstrain_stationary_multivariate] *)
Definition unconstrain_stationary_multivariate
  (constrained : coeffs F) (error_variance : matrix F)
  (transform_variance : bool) : result (coeffs F * matrix F) :=
  Ms <- match constrained with
        | AsList Ms => Ok Ms
        | Stacked M => unstack M
        end ;;
  let order := length Ms in
  C0 <- index Ms 0 ;;
  let k_endog := nrows C0 in
  partial_autocorrelations <-
    _compute_multivariate_pacf_from_coefficients Ms error_variance
      (Some order) (Some k_endog) ;;
  unconstrained <-
    _unconstrain_sv_less_than_one partial_autocorrelations
      (Some order) (Some k_endog) ;;
  match constrained with
  | AsList _ => Ok (AsList unconstrained, error_variance)
  | Stacked _ => Ok (Stacked (hstack k_endog unconstrained),
                     error_variance)
  end.

End Unconstrain.

(** ** A solver for the discrete Lyapunov equation

    The direct method of [scipy.linalg.solve_discrete_lyapunov(a, q)]: the
    linear system [(I - kron(a, a)) x = q.flatten()], reshaped.  It is one
    function the parameter [lyapunov] can stand for. *)

Section Lyapunov.
Context {F : Type} `{Scalar F}.
Local Open Scope sc_scope.
Local Open Scope py_scope.

(** [np.kron(A, B)] *)
Definition kron (A B : matrix F) : matrix F :=
  concat
    (map (fun arow =>
            map (fun brow => concat (map (fun a => vscale a brow) arow)) B)
       A).

(** [np.reshape(x, (r, c))] *)
Fixpoint reshape (r c : nat) (x : vector F) : matrix F :=
  match r with
  | 0 => []
  | S r' => firstn c x :: reshape r' c (skipn c x)
  end.

Definition solve_discrete_lyapunov_direct (a q : matrix F)
  : result (matrix F) :=
  let n := nrows a in
  D <- inv (msub (eye (n * n)) (kron a a)) ;;
  Ok (reshape n n (map (fun row => dotv row (concat q)) D)).

End Lyapunov.

(** ** The matrices the specification's examples speak of *)

(** Ones immediately below the main diagonal. *)
Definition sub_diagonal_3 {F : Type} `{Scalar F} : matrix F :=
  [[fzero; fzero; fzero]; [fone; fzero; fzero]; [fzero; fone; fzero]].

(** Ones immediately above the main diagonal. *)
Definition super_diagonal_3 {F : Type} `{Scalar F} : matrix F :=
  [[fzero; fone; fzero]; [fzero; fzero; fone]; [fzero; fzero; fzero]].

(** ** The stability test

    [np.linalg.eigvals] is read exactly: it returns the complex numbers
    [re + im i] for which the matrix maps some complex vector
    [xr + xi i], not zero, to its multiple by that number. *)

Section IsInvertible.
Local Open Scope R_scope.

(** A vector with an entry that is not zero. *)
Definition nonzero (v : vector R) : Prop := Exists (fun x => x <> 0) v.

(** [np.dot(M, x)] for a vector [x]. *)
Definition matvec (M : matrix R) (x : vector R) : vector R :=
  map (fun row => dotv row x) M.

Definition eigenvalue (M : matrix R) (re im : R) : Prop :=
  exists xr xi : vector R,
    length xr = nrows M /\ length xi = nrows M
    /\ (nonzero xr \/ nonzero xi)
    /\ matvec M xr = vsub (vscale re xr) (vscale im xi)
    /\ matvec M xi = vadd (vscale re xi) (vscale im xr).

(** [np.abs] of the complex number [re + im i]. *)
Definition cabs (re im : R) : R := R_sqrt.sqrt (re * re + im * im).

(** The polynomial of a list of coefficient matrices,
    [[1] + [-coefficients[i] for i in range(order)]], and the one of an
    array of scalar coefficients, [np.r_[1, -coefficients]]. *)
Definition coefficient_polynomial (coefficients : list (matrix R))
  : pyobj R :=
  PyList (INum 1 :: map (fun C => IArr (mopp C)) coefficients).

Definition scalar_polynomial (coefficients : vector R) : pyobj R :=
  PyArr1 (1 :: vopp coefficients).

(** The coefficient matrices of a result of the multivariate transform: a
    list as it is, an array of blocks side by side cut into its blocks. *)
Definition coefficient_matrices (constrained : coeffs R)
  : result (list (matrix R)) :=
  match constrained with
  | AsList Ms => Ok Ms
  | Stacked M => unstack M
  end.

(** [is_invertible(polynomial, threshold)] returns [True]:
    [np.all(np.abs(eigvals) < threshold)]. *)
Definition is_invertible (polynomial : pyobj R) (threshold : R) : Prop :=
  match fst (companion_matrix polynomial) with
  | Ok M => forall re im : R, eigenvalue M re im -> cabs re im < threshold
  | Err _ => False
  end.

End IsInvertible.

(** * Vocabulary of the statements and of their proofs

    Row blocks, quadratic and bilinear forms, complex numbers and vectors
    as pairs of real ones, and the invariants of the recursions. *)

Section BlockRows.
Context {F : Type} `{Scalar F}.
Local Open Scope py_scope.

(** The rows [r0 .. r0+m-1] after the assignment of the block. *)
Definition new_rows (r0 m : nat) (M X : matrix F) : matrix F :=
  map2 (splice 0) (firstn m (skipn r0 M)) X.

End BlockRows.

Section Vocabulary.
Local Open Scope R_scope.
Local Open Scope py_scope.

(** Row [i] of [np.eye(n)]. *)
Definition unit_vec (n i : nat) : vector R :=
  map (fun j => if Nat.eqb j i then 1 else 0) (seq 0 n).

(** Row [i] of [[I | I]]. *)
Definition aug_row (n i : nat) : vector R := unit_vec n i ++ unit_vec n i.

(** The quadratic form [v^T M v] of a symmetric matrix, read from the
    diagonal and the entries below it, as [potrf] reads the matrix. *)
Fixpoint qform_low (M : matrix R) (v : vector R) : R :=
  match v, M with
  | x :: w, row :: rows =>
      hd 0 row * x * x + 2 * x * dotv (map (hd 0) rows) w
      + qform_low (map (@tl R) rows) w
  | _, _ => 0
  end.

(** Positive definite, on the vectors of length [n]. *)
Definition pos_def (n : nat) (M : matrix R) : Prop :=
  forall v, length v = n -> nonzero v -> 0 < qform_low M v.

(** A lower triangular matrix with a positive diagonal, built the way
    [cholesky_n] builds its result. *)
Inductive lower_pos : nat -> matrix R -> Prop :=
| lower_pos_nil : lower_pos 0 []
| lower_pos_cons (n : nat) (d : R) (col : vector R) (L : matrix R) :
    0 < d -> length col = n -> lower_pos n L ->
    lower_pos (S n) ((d :: repeat 0 n) :: map2 cons col L).

(** [M - c c^T] *)
Definition rank1 (c : vector R) (M : matrix R) : matrix R :=
  map2 (fun ci r => map2 (fun cj x => x - ci * cj) c r) c M.

(** Every singular value of [P] is below one: [|P^T x| < |x|] for every
    [x <> 0].  (The largest singular value of [P] is the maximum of
    [|P^T x| / |x|] over the [x <> 0].) *)
Definition sv_lt_one (k : nat) (P : matrix R) : Prop :=
  forall x, length x = k -> nonzero x ->
    dotv (vecmat k x P) (vecmat k x P) < dotv x x.

(** [P] has a singular value that is one or more: [|P^T x| >= |x|] for
    some [x <> 0]. *)
Definition sv_ge_one (k : nat) (P : matrix R) : Prop :=
  exists x, length x = k /\ nonzero x
            /\ dotv x x <= dotv (vecmat k x P) (vecmat k x P).

(** One row of the table from the row before it. *)
Definition reflect_step (r : R) (Y : vector R) : vector R :=
  map2 (fun a b => a + r * b) Y (rev Y) ++ [r].

Definition reflect_rows (rs : vector R) : vector R :=
  fold_left (fun Y r => reflect_step r Y) rs [].

(** A complex number, as its real and imaginary parts. *)
Definition cx : Type := (R * R)%type.

Definition cx_add (z w : cx) : cx := (fst z + fst w, snd z + snd w).

Definition cx_mul (z w : cx) : cx :=
  (fst z * fst w - snd z * snd w, fst z * snd w + snd z * fst w).

Definition cx_real (x : R) : cx := (x, 0).

(** The square of the modulus. *)
Definition cx_norm2 (z : cx) : R := fst z * fst z + snd z * snd z.

(** Horner's rule: [acc z^m + y_0 z^(m-1) + ... + y_(m-1)]. *)
Definition horner (z acc : cx) (Y : vector R) : cx :=
  fold_left (fun h y => cx_add (cx_mul z h) (cx_real y)) Y acc.

(** [z^m + y_0 z^(m-1) + ... + y_(m-1)] and the polynomial of the
    coefficients in reverse, [1 + y_0 z + ... + y_(m-1) z^m]. *)
Definition monic_eval (z : cx) (Y : vector R) : cx := horner z (1, 0) Y.

Definition reverse_eval (z : cx) (Y : vector R) : cx :=
  cx_add (1, 0) (cx_mul z (horner z (0, 0) (rev Y))).

(** [x^T M z] *)
Definition bform (k : nat) (M : matrix R) (x z : vector R) : R :=
  dotv (vecmat k x M) z.

Definition sym_form (k : nat) (M : matrix R) : Prop :=
  forall x z, length x = k -> length z = k ->
    bform k M x z = bform k M z x.

(** A complex vector, as its real and imaginary parts. *)
Definition cvec : Type := (vector R * vector R)%type.

Definition cv_len (k : nat) (x : cvec) : Prop :=
  length (fst x) = k /\ length (snd x) = k.

Definition cv_zero (k : nat) : cvec := (repeat 0 k, repeat 0 k).

Definition cv_add (x y : cvec) : cvec :=
  (vadd (fst x) (fst y), vadd (snd x) (snd y)).

Definition cv_sub (x y : cvec) : cvec :=
  (vsub (fst x) (fst y), vsub (snd x) (snd y)).

(** The multiple of a vector by a complex number. *)
Definition cv_scale (z : cx) (x : cvec) : cvec :=
  (vsub (vscale (fst z) (fst x)) (vscale (snd z) (snd x)),
   vadd (vscale (fst z) (snd x)) (vscale (snd z) (fst x))).

(** [x^T M] *)
Definition cv_act (k : nat) (x : cvec) (M : matrix R) : cvec :=
  (vecmat k (fst x) M, vecmat k (snd x) M).

(** [acc z^m - y f_1 z^(m-1) - ... - y f_m] for the matrices [fs]. *)
Definition cv_horner (k : nat) (z : cx) (acc : cvec) (fs : list (matrix R))
  (y : cvec) : cvec :=
  fold_left (fun acc f => cv_sub (cv_scale z acc) (cv_act k y f)) fs acc.

(** [y (z^m I - f_1 z^(m-1) - ... - f_m)] *)
Definition fwd_poly (k : nat) (z : cx) (fs : list (matrix R)) (y : cvec)
  : cvec :=
  cv_horner k z y fs y.

(** [u (I - b_1 z - ... - b_m z^m)] *)
Definition bwd_poly (k : nat) (z : cx) (bs : list (matrix R)) (u : cvec)
  : cvec :=
  cv_add u (cv_scale z (cv_horner k z (cv_zero k) (rev bs) u)).

(** One step of the recursion: the coefficients after the step, from
    those before it and the two new matrices. *)
Definition levinson_blocks (phi : matrix R) (fs bs : list (matrix R))
  : list (matrix R) :=
  map2 (fun f b => msub f (dot phi b)) fs (rev bs) ++ [phi].

(** The Hermitian form of a real symmetric matrix. *)
Definition hform (k : nat) (M : matrix R) (x : cvec) : R :=
  bform k M (fst x) (fst x) + bform k M (snd x) (snd x).

(** The invariant of the recursion at the point [z]: the polynomials
    of the coefficients [fs] and [bs] vanish together only where the form
    of [Sf] does not exceed the form of [Sb]. *)
Definition stable_pair (k : nat) (z : cx) (fs bs : list (matrix R))
  (Sf Sb : matrix R) : Prop :=
  forall y u, cv_len k y -> cv_len k u ->
    cv_add (fwd_poly k z fs y) (bwd_poly k z bs u) = cv_zero k ->
    hform k Sf y - hform k Sb u <= 0.

(** The first [m] blocks of an array of blocks side by side. *)
Definition blocks (k m : nat) (M : matrix R) : list (matrix R) :=
  map (fun j => blk k j M) (seq 0 m).

(** What the recursion keeps true from one step to the next, at a point
    [z] outside the open unit disc. *)
Definition ladder_ok (k order : nat) (z : cx) (s : nat) (st : ladder R)
  : Prop :=
  has_shape k (k * order) (forwards st)
  /\ has_shape k (k * order) (backwards st)
  /\ has_shape k k (forward_variance st)
  /\ has_shape k k (backward_variance st)
  /\ sym_form k (forward_variance st)
  /\ sym_form k (backward_variance st)
  /\ cholesky (forward_variance st) = Ok (forward_factors st)
  /\ cholesky (backward_variance st) = Ok (backward_factors st)
  /\ stable_pair k z (blocks k s (forwards st)) (blocks k s (backwards st))
       (forward_variance st) (backward_variance st).

(** A row [a | b] of the elimination satisfies [b T = a]. *)
Definition gj_row (n : nat) (T : matrix R) (row : vector R) : Prop :=
  length row = (n + n)%nat /\ vecmat n (skipn n row) T = firstn n row.

(** The state of the elimination before column [j]. *)
Definition gj_inv (n : nat) (T : matrix R) (j : nat)
  (used todo : list (vector R)) : Prop :=
  Forall (gj_row n T) used /\ Forall (gj_row n T) todo
  /\ length used = j
  /\ (forall i c, (i < j)%nat -> (c < j)%nat ->
        nth c (nth i used []) 0 = if Nat.eqb c i then 1 else 0)
  /\ Forall (fun row => forall c, (c < j)%nat -> nth c row 0 = 0) todo.

(** [T phi Ti], the adjustment of the coefficients when the variance is
    not transformed. *)
Definition conjugate (T Ti phi : matrix R) : matrix R :=
  dot (dot T phi) Ti.

(** Block [i] of a vector of blocks of [k] entries. *)
Definition block_of (k i : nat) (v : vector R) : vector R :=
  map (fun t => nth (i * k + t) v 0) (seq 0 k).

End Vocabulary.

(** * Validation of shapes

    [shape] is a tuple of integers, [nrows] and [ncols] are integers and
    [nobs] is an integer or [None].  Both functions return [None] or raise
    a [ValueError]; [name] only enters the message of the exception.  The
    result below is the [raise] statement that ran, if one did. *)

Inductive shape_error : Type :=
| WrongNumberOfDimensions
| WrongNumberOfRows
| WrongNumberOfColumns
| TimeVaryingWithoutNobs
| WrongTimeDimension.

Section ValidateShapes.
Local Open Scope Z_scope.

(** [x in [1, nobs]] *)
Definition in_one_or_nobs (x : Z) (nobs : option Z) : bool :=
  (x =? 1) || match nobs with Some n => x =? n | None => false end.

(** [nobs is None] *)
Definition is_None (nobs : option Z) : bool :=
  match nobs with None => true | Some _ => false end.

(** [validate_matrix_shape(name, shape, nrows, ncols, nobs)] *)
Definition validate_matrix_shape (shape : list Z) (nrows ncols : Z)
  (nobs : option Z) : option shape_error :=
  let ndim := length shape in
  if negb (Nat.eqb ndim 2 || Nat.eqb ndim 3) then
    Some WrongNumberOfDimensions
  else if negb (nth 0 shape 0 =? nrows) then Some WrongNumberOfRows
  else if negb (nth 1 shape 0 =? ncols) then Some WrongNumberOfColumns
  else if is_None nobs && negb (Nat.eqb ndim 2 || (last shape 0 =? 1)) then
    Some TimeVaryingWithoutNobs
  else if Nat.eqb ndim 3 && negb (is_None nobs)
          && negb (in_one_or_nobs (last shape 0) nobs) then
    Some WrongTimeDimension
  else None.

(** [validate_vector_shape(name, shape, nrows, nobs)] *)
Definition validate_vector_shape (shape : list Z) (nrows : Z)
  (nobs : option Z) : option shape_error :=
  let ndim := length shape in
  if negb (Nat.eqb ndim 1 || Nat.eqb ndim 2) then
    Some WrongNumberOfDimensions
  else if negb (nth 0 shape 0 =? nrows) then Some WrongNumberOfRows
  else if is_None nobs && negb (Nat.eqb ndim 1 || (last shape 0 =? 1)) then
    Some TimeVaryingWithoutNobs
  else if Nat.eqb ndim 2 && negb (in_one_or_nobs (nth 1 shape 0) nobs) then
    Some WrongTimeDimension
  else None.

End ValidateShapes.

(** * Differencing a series

    [diff] on a numpy array of one dimension (for which
    [_is_using_pandas] is false), with numpy's slices, its subtraction of
    arrays and [np.diff(a, n, axis=0)] written out. *)

Section Diff.
Context {F : Type} `{Scalar F}.
Local Open Scope sc_scope.
Local Open Scope py_scope.

(** The position a slice bound [k] stands for in a sequence of length
    [n]: a negative bound counts from the end, and a bound beyond either
    end is clipped. *)
Definition slice_bound (n : nat) (k : Z) : nat :=
  if (k <? 0)%Z then Z.to_nat (Z.of_nat n + k)
  else Nat.min (Z.to_nat k) n.

(** [a[k:]] and [a[:k]] *)
Definition slice_from (k : Z) (a : vector F) : vector F :=
  skipn (slice_bound (length a) k) a.

Definition slice_upto (k : Z) (a : vector F) : vector F :=
  firstn (slice_bound (length a) k) a.

(** [a - b] for arrays of one dimension: entry by entry for equal
    lengths, an array of length one against every entry of the other,
    and a [ValueError] for other lengths, which do not broadcast. *)
Definition np_sub (a b : vector F) : result (vector F) :=
  if Nat.eqb (length a) (length b) then Ok (vsub a b)
  else
    match a, b with
    | [x], _ => Ok (map (fun y => x - y) b)
    | _, [y] => Ok (map (fun x => x - y) a)
    | _, _ => Err ValueError
    end.

(** [a[1:] - a[:-1]], two slices of one length. *)
Definition diff_once (a : vector F) : vector F :=
  vsub (slice_from 1 a) (slice_upto (-1) a).

(** [np.diff(a, n, axis=0)]: [a] itself for [n == 0], a [ValueError] for
    a negative [n]. *)
Definition np_diff (a : vector F) (n : Z) : result (vector F) :=
  if (n =? 0)%Z then Ok a
  else if (n <? 0)%Z then Err ValueError
  else Ok (Nat.iter (Z.to_nat n) diff_once a).

(** [while k_seasonal_diff > 0:
       differenced = differenced[k_seasons:] - differenced[:-k_seasons]
       k_seasonal_diff -= 1] *)
Fixpoint seasonal_differences (count : nat) (k_seasons : Z)
  (differenced : vector F) : result (vector F) :=
  match count with
  | 0 => Ok differenced
  | S count' =>
      differenced <-
        np_sub (slice_from k_seasons differenced)
          (slice_upto (- k_seasons) differenced) ;;
      seasonal_differences count' k_seasons differenced
  end.

(** The number of passes of the loop: none for [None]. *)
Definition passes (k_seasonal_diff : option Z) : nat :=
  match k_seasonal_diff with
  | None => 0
  | Some count => Z.to_nat count
  end.

(** [diff(series, k_diff, k_seasonal_diff, k_seasons)] *)
Definition diff (series : vector F) (k_diff : Z)
  (k_seasonal_diff : option Z) (k_seasons : Z) : result (vector F) :=
  differenced <-
    match k_seasonal_diff with
    | None => Ok series
    | Some count => seasonal_differences (Z.to_nat count) k_seasons series
    end ;;
  np_diff differenced k_diff.

(** The series of the differences at lag [s]:
    [x[s] - x[0], x[s+1] - x[1], ...]. *)
Definition lag_differences (s : nat) (x : vector F) : vector F :=
  map2 fsub (skipn s x) x.

End Diff.

(** * Roots of polynomials *)

(** [c_0 z^n + c_1 z^(n-1) + ... + c_n] at the complex number [z]. *)
Definition poly_eval (z : cx) (c : vector R) : cx := horner z (0, 0)%R c.

(** * The rows of the univariate transforms *)

Section UnivariateRows.
Local Open Scope R_scope.

(** The row before a row [W] of the table, as
    [unconstrain_stationary_univariate] computes it: with [r] the last
    entry of [W], the entries [(W_i - r W_(k-1-i)) / (1 - r^2)]. *)
Definition unreflect_step (W : vector R) : vector R :=
  let k := (length W - 1)%nat in
  let r := nth k W 0 in
  map (fun i => (nth i W 0 - r * nth (k - i - 1) W 0) / (1 - r * r))
    (seq 0 k).

(** Row [a] of the table of [unconstrain_stationary_univariate]. *)
Definition unreflect_rows (constrained : vector R) (a : nat) : vector R :=
  Nat.iter (length constrained - 1 - a) unreflect_step (vopp constrained).

End UnivariateRows.

(** * Triangular matrices and their inverses *)

Section Triangular.
Local Open Scope R_scope.

(** A lower triangular matrix whose diagonal has no zero. *)
Definition low_tri (n : nat) (T : matrix R) : Prop :=
  has_shape n n T
  /\ forall i, (i < n)%nat ->
       nth i (nth i T []) 0 <> 0
       /\ forall j, (i < j)%nat -> nth j (nth i T []) 0 = 0.

(** A row [a | b] the elimination is done with: [a] is row [i] of the
    identity, and [b] ends at its entry [i], which is not zero. *)
Definition used_row (n i : nat) (row : vector R) : Prop :=
  length row = (n + n)%nat
  /\ (forall c, (c < n)%nat -> nth c row 0 = if Nat.eqb c i then 1 else 0)
  /\ nth (n + i) row 0 <> 0
  /\ forall c, (i < c)%nat -> nth (n + c) row 0 = 0.

(** Row [i] of the elimination on [T] before column [j]: [a] is row [i]
    of [T] with its entries before column [j] cleared, and [b] ends at
    its entry [i], which is not zero. *)
Definition todo_row (n : nat) (T : matrix R) (j i : nat) (row : vector R)
  : Prop :=
  length row = (n + n)%nat
  /\ (forall c, (c < n)%nat ->
        nth c row 0 = if Nat.ltb c j then 0 else nth c (nth i T []) 0)
  /\ nth (n + i) row 0 <> 0
  /\ forall c, (i < c)%nat -> nth (n + c) row 0 = 0.

(** The state of the elimination on a triangular matrix before column
    [j]. *)
Definition gj_tri (n : nat) (T : matrix R) (j : nat)
  (used todo : list (vector R)) : Prop :=
  length used = j /\ length todo = (n - j)%nat
  /\ (forall i, (i < j)%nat -> used_row n i (nth i used []))
  /\ (forall i, (j <= i < n)%nat -> todo_row n T j i (nth (i - j) todo [])).

End Triangular.

(** * Properties *)

(** ** Deciding comparisons of real numbers *)

Section RealDecisions.
Local Open Scope R_scope.

Lemma Reqb_true (x y : R) : x = y -> Reqb x y = true.
Proof. intros E. unfold Reqb. destruct (Req_dec_T x y); congruence. Qed.

Lemma Reqb_false (x y : R) : x <> y -> Reqb x y = false.
Proof. intros E. unfold Reqb. destruct (Req_dec_T x y); congruence. Qed.

Lemma Rltb_true (x y : R) : x < y -> Rltb x y = true.
Proof. intros E. unfold Rltb. destruct (Rlt_dec x y); tauto. Qed.

Lemma Rltb_false (x y : R) : ~ x < y -> Rltb x y = false.
Proof. intros E. unfold Rltb. destruct (Rlt_dec x y); tauto. Qed.

End RealDecisions.

(** ** The finiteness checks of scipy over the real numbers

    Every real number is finite: over [R] the routines of scipy are the
    algorithms alone. *)

Section RealRoutines.
Local Open Scope py_scope.

Lemma all_finite_real (A : matrix R) : all_finite A = true.
Proof.
  unfold all_finite. apply forallb_forall. intros row _.
  apply forallb_forall. reflexivity.
Qed.

Lemma cholesky_real (A : matrix R) : cholesky A = cholesky_n (nrows A) A.
Proof. unfold cholesky. now rewrite all_finite_real. Qed.

Lemma np_linalg_cholesky_real (A : matrix R) :
  np_linalg_cholesky A = cholesky A.
Proof. now rewrite cholesky_real. Qed.

Lemma solve_triangular_real (L B : matrix R) (trans : trans_flag) :
  solve_triangular L B trans
  = match trans with
    | NoTrans => solve_lower_n (nrows L) L B
    | Trans => solve_lower_T_n (nrows L) L B
    end.
Proof. unfold solve_triangular. now rewrite !all_finite_real. Qed.

End RealRoutines.

(** ** The global names [constrain_stationary_multivariate_python] reads *)

Section ModuleNames.
Context {F : Type} `{Scalar F}.
Local Open Scope py_scope.

(** With both names bound the function is the composition of the two
    helpers. *)
Lemma constrain_multivariate_bound (unconstrained : coeffs F)
  (variance : matrix F) (transform_variance : bool) :
  constrain_stationary_multivariate_python helpers_bound unconstrained
    variance transform_variance
  = (Ms <- match unconstrained with
           | AsList Ms => Ok Ms
           | Stacked M => unstack M
           end ;;
     A0 <- index Ms 0 ;;
     sv_constrained <-
       _constrain_sv_less_than_one_python Ms (Some (length Ms))
         (Some (nrows A0)) ;;
     r <- _compute_coefficients_from_multivariate_pacf_python sv_constrained
            variance (length Ms) (nrows A0) transform_variance ;;
     let '(constrained, variance) := r in
     match unconstrained with
     | AsList _ => Ok (Stacked constrained, variance)
     | Stacked _ => Err IndexError
     end).
Proof. reflexivity. Qed.

(** A call that returns has found both names bound. *)
Lemma constrain_multivariate_names (names : module_names)
  (unconstrained : coeffs F) (variance : matrix F)
  (transform_variance : bool) (r : coeffs F * matrix F) :
  constrain_stationary_multivariate_python names unconstrained variance
    transform_variance = Ok r ->
  names = helpers_bound.
Proof.
  destruct names as [[ | ] [ | ]]; [ reflexivity | | | ]; intros E; exfalso;
    unfold constrain_stationary_multivariate_python,
      _constrain_sv_less_than_one,
      _compute_coefficients_from_multivariate_pacf in E;
    cbn [constrain_sv_bound compute_coefficients_bound] in E;
    repeat match type of E with
           | bind ?r _ = Ok _ => destruct r; cbn [bind] in E
           end; discriminate.
Qed.

(** A call that reaches the first of the two names in the module as
    imported ends there. *)
Lemma constrain_multivariate_as_imported (Ms : list (matrix F))
  (variance : matrix F) (transform_variance : bool) :
  Ms <> [] ->
  constrain_stationary_multivariate_python as_imported (AsList Ms) variance
    transform_variance = Err NameError.
Proof.
  intros HMs. destruct Ms as [ | A0 Ms']; [ congruence | ]. reflexivity.
Qed.

End ModuleNames.

(** ** The companion matrix on the examples of the specification *)

(** C5 as stated fails: the matrix returned for 3 is not the one with the
    ones immediately below the main diagonal. *)
Lemma companion_matrix_3_not_sub_diagonal :
  fst (companion_matrix (F:=R) (PyInt 3)) <> Ok sub_diagonal_3.
Proof.
  cbn. intros E. injection E as E1 _. lra.
Qed.

(** C5 (amended).  [companion_matrix(3)] is the matrix of three rows and
    columns whose only entries that are not zero are the ones immediately
    above the main diagonal, and [companion_matrix([1, -0.5])] is
    [[[0.5]]], on float64 arrays and over the real numbers. *)
Theorem companion_matrix_examples :
  (forall (F : Type) (S : Scalar F),
      fst (companion_matrix (F:=F) (PyInt 3)) = Ok super_diagonal_3)
  /\ fst (companion_matrix (F:=float) (PyList [INum 1%float; INum (-0.5)%float]))
     = Ok [[0.5%float]]
  /\ fst (companion_matrix (F:=R) (PyList [INum 1%R; INum (-0.5)%R]))
     = Ok [[0.5%R]].
Proof.
  split; [ | split ].
  - intros F S. reflexivity.
  - vm_compute. reflexivity.
  - cbn. do 3 f_equal. lra.
Qed.

(** ** The argument of [companion_matrix] after the call *)

(** C7 at a failing input: called on a list that starts with the marker
    1, [companion_matrix] leaves the identity matrix in the caller's
    list. *)
Lemma companion_matrix_mutates_list :
  companion_matrix (F:=float)
    (PyList [INum 1%float; IArr [[0.5; 0]; [0; 0.25]]%float])
  = (Ok [[-0.5; -0]; [-0; -0.25]]%float,
     PyList [IArr [[1; 0]; [0; 1]]%float; IArr [[0.5; 0]; [0; 0.25]]%float]).
Proof. vm_compute. reflexivity. Qed.

(** The same assignment on a tuple is a [TypeError]. *)
Lemma companion_matrix_rejects_tuple :
  companion_matrix (F:=float)
    (PyTuple [INum 1%float; IArr [[0.5; 0]; [0; 0.25]]%float])
  = (Err TypeError,
     PyTuple [INum 1%float; IArr [[0.5; 0]; [0; 0.25]]%float]).
Proof. vm_compute. reflexivity. Qed.

(** ** The inverse univariate transform on a unit root *)

Lemma unsquash_zero_float : unsquash (F:=float) 0%float = 0%float.
Proof. vm_compute. reflexivity. Qed.

Lemma nth_unconstrain (c : vector float) (k : nat) :
  nth k (unconstrain_stationary_univariate c) 0%float
  = unsquash (nth k (unconstrain_reflection c) 0%float).
Proof.
  unfold unconstrain_stationary_univariate.
  rewrite <- unsquash_zero_float at 1. apply map_nth.
Qed.

(** C8 as stated fails: on [[-1.0]] the diagonal value is 1 and the call
    returns [[inf]]. *)
Lemma unconstrain_unit_root_returns :
  unconstrain_reflection (F:=float) [(-1)%float] = [1%float]
  /\ unconstrain_stationary_univariate (F:=float) [(-1)%float]
     = [infinity].
Proof. split; vm_compute; reflexivity. Qed.

(** C8 (amended).  [unconstrain_stationary_univariate] checks nothing and
    raises nothing: it returns an array of the length of its input, and
    where a diagonal value [r_k] is exactly 1 (or -1) the entry returned,
    [r_k / sqrt(1 - r_k^2)], is [inf] (or [-inf]) on float64 arrays. *)
Theorem unconstrain_univariate_total (c : vector float) :
  length (unconstrain_stationary_univariate c) = length c
  /\ forall k : nat,
      (nth k (unconstrain_reflection c) 0%float = 1%float ->
       nth k (unconstrain_stationary_univariate c) 0%float = infinity)
      /\ (nth k (unconstrain_reflection c) 0%float = (-1)%float ->
          nth k (unconstrain_stationary_univariate c) 0%float
          = neg_infinity).
Proof.
  split.
  - unfold unconstrain_stationary_univariate, unconstrain_reflection, diagonal.
    now rewrite !length_map, length_seq.
  - intros k. rewrite nth_unconstrain.
    split; intros ->; vm_compute; reflexivity.
Qed.

Lemma unconstrain_univariate_total_witness :
  nth 0 (unconstrain_stationary_univariate (F:=float) [(-1)%float]) 0%float
  = infinity.
Proof.
  apply (proj2 (unconstrain_univariate_total [(-1)%float]) 0%nat).
  vm_compute. reflexivity.
Defined.

(** ** The variance returned by [unconstrain_stationary_multivariate] *)

Lemma bind_ok {A B : Type} (r : result A) (k : A -> result B) (b : B) :
  bind r k = Ok b -> exists a, r = Ok a /\ k a = Ok b.
Proof. destruct r as [a | e]; cbn; [ eauto | discriminate ]. Qed.

(** C10.  Whatever its input and whatever solver of the Lyapunov equation
    it is run with, [unconstrain_stationary_multivariate] returns the
    [error_variance] it was given as the second component of its result,
    and its result does not depend on [transform_variance]. *)
Theorem unconstrain_multivariate_variance
  {F : Type} {S : Scalar F}
  (lyapunov : matrix F -> matrix F -> result (matrix F))
  (constrained : coeffs F) (error_variance : matrix F)
  (transform_variance : bool) :
  (forall r,
      unconstrain_stationary_multivariate lyapunov constrained
        error_variance transform_variance = Ok r ->
      snd r = error_variance)
  /\ (forall b : bool,
        unconstrain_stationary_multivariate lyapunov constrained
          error_variance b
        = unconstrain_stationary_multivariate lyapunov constrained
            error_variance transform_variance).
Proof.
  split; [ | reflexivity ].
  intros r E. unfold unconstrain_stationary_multivariate in E.
  apply bind_ok in E as (Ms & _ & E).
  apply bind_ok in E as (C0 & _ & E).
  apply bind_ok in E as (P & _ & E).
  apply bind_ok in E as (U & _ & E).
  destruct constrained; injection E as <-; reflexivity.
Qed.

Lemma unconstrain_multivariate_variance_witness :
  exists r,
    unconstrain_stationary_multivariate solve_discrete_lyapunov_direct
      (Stacked [[0.375; 0.125]]%float) [[2]]%float true = Ok r
    /\ snd r = [[2]]%float.
Proof.
  eexists. split.
  - vm_compute. reflexivity.
  - apply (proj1 (unconstrain_multivariate_variance
                    solve_discrete_lyapunov_direct
                    (Stacked [[0.375; 0.125]]%float) [[2]]%float true)).
    vm_compute. reflexivity.
Defined.

(** ** Shapes and blocks *)

Section Shapes.
Context {A : Type}.

Lemma has_shape_nil (c : nat) : has_shape 0 c (@nil (list A)).
Proof. split; [ reflexivity | constructor ]. Qed.

Lemma has_shape_cons (r c : nat) (row : list A) (M : list (list A)) :
  length row = c -> has_shape r c M -> has_shape (S r) c (row :: M).
Proof.
  intros Hl [Hr Hc]. split; [ cbn; now rewrite Hr | now constructor ].
Qed.

Lemma has_shape_inv (r c : nat) (row : list A) (M : list (list A)) :
  has_shape (S r) c (row :: M) -> length row = c /\ has_shape r c M.
Proof.
  intros [Hr Hc]. inversion Hc; subst. cbn in Hr.
  repeat split; auto.
Qed.

Lemma has_shape_zero_rows (c : nat) (M : list (list A)) :
  has_shape 0 c M -> M = [].
Proof. intros [Hr _]. now destruct M. Qed.

Lemma has_shape_S_rows (r c : nat) (M : list (list A)) :
  has_shape (S r) c M ->
  exists row M', M = row :: M' /\ length row = c /\ has_shape r c M'.
Proof.
  intros Hs. destruct M as [ | row M'].
  - destruct Hs as [Hr _]. discriminate.
  - exists row, M'. split; [ reflexivity | now apply has_shape_inv ].
Qed.

Lemma is_shape_true (r c : nat) (M : list (list A)) :
  has_shape r c M -> is_shape r c M = true.
Proof.
  intros [Hr Hc]. unfold is_shape. apply andb_true_intro. split.
  - now apply Nat.eqb_eq.
  - apply forallb_forall. intros row Hin.
    rewrite Forall_forall in Hc. apply Nat.eqb_eq. now apply Hc.
Qed.

Lemma length_map2 {B C : Type} (f : A -> B -> C) (xs : list A) (ys : list B) :
  length (map2 f xs ys) = Nat.min (length xs) (length ys).
Proof.
  revert ys. induction xs as [ | x xs IH]; intros [ | y ys]; cbn; auto.
Qed.

Lemma Forall_map2 {B C : Type} (P : C -> Prop) (f : A -> B -> C)
  (xs : list A) (ys : list B) :
  (forall x y, In x xs -> In y ys -> P (f x y)) -> Forall P (map2 f xs ys).
Proof.
  revert ys. induction xs as [ | x xs IH]; intros [ | y ys] Hf; cbn;
    constructor.
  - apply Hf; now left.
  - apply IH. intros x' y' Hx Hy. apply Hf; now right.
Qed.

Lemma length_splice (a : nat) (row x : list A) :
  a + length x <= length row -> length (splice a row x) = length row.
Proof.
  intros Hle. unfold splice.
  rewrite !length_app, length_firstn, length_skipn. lia.
Qed.

Lemma slice_splice_same (a : nat) (row x : list A) :
  a <= length row ->
  firstn (length x) (skipn a (splice a row x)) = x.
Proof.
  intros Hle. unfold splice.
  rewrite skipn_app, length_firstn, Nat.min_l by assumption.
  rewrite Nat.sub_diag, skipn_firstn_comm, Nat.sub_diag. cbn.
  rewrite firstn_app, Nat.sub_diag, firstn_all. cbn. apply app_nil_r.
Qed.

Lemma slice_splice_before (a a' w : nat) (row x : list A) :
  a' + w <= a -> a <= length row ->
  firstn w (skipn a' (splice a row x)) = firstn w (skipn a' row).
Proof.
  intros Hb Hle. unfold splice.
  rewrite skipn_app, length_firstn, Nat.min_l by assumption.
  replace (a' - a) with 0 by lia. cbn [skipn].
  rewrite firstn_app, length_skipn, length_firstn, Nat.min_l by assumption.
  replace (w - (a - a')) with 0 by lia. cbn. rewrite app_nil_r.
  rewrite skipn_firstn_comm, firstn_firstn.
  now rewrite Nat.min_l by lia.
Qed.

Lemma slice_splice_after (a a' w : nat) (row x : list A) :
  a + length x <= a' -> a + length x <= length row ->
  firstn w (skipn a' (splice a row x)) = firstn w (skipn a' row).
Proof.
  intros Hb Hle. unfold splice. rewrite app_assoc.
  rewrite skipn_app, length_app, length_firstn, Nat.min_l by lia.
  rewrite (skipn_all2 (firstn a row ++ x))
    by (rewrite length_app, length_firstn; lia).
  cbn. rewrite skipn_skipn. f_equal. f_equal. lia.
Qed.

End Shapes.

(** ** Column blocks of a stacked array *)

Section ColumnBlocks.
Context {F : Type} `{Scalar F}.

Lemma has_shape_set_cols (r c a w : nat) (M X : matrix F) :
  has_shape r c M -> has_shape r w X -> a + w <= c ->
  has_shape r c (set_cols a M X).
Proof.
  intros [Hr Hc] [Hr' Hc'] Hle. unfold set_cols. split.
  - rewrite length_map2. lia.
  - apply Forall_map2. intros row x Hrow Hx.
    rewrite Forall_forall in Hc, Hc'.
    rewrite length_splice; rewrite ?(Hc' x Hx), ?(Hc row Hrow); auto.
Qed.

Lemma get_cols_set_cols_same (r c a w : nat) (M X : matrix F) :
  has_shape r c M -> has_shape r w X -> a <= c ->
  get_cols a w (set_cols a M X) = X.
Proof.
  revert M X. induction r as [ | r IH]; intros M X HM HX Hle.
  - apply has_shape_zero_rows in HM, HX. now subst.
  - apply has_shape_S_rows in HM as (row & M' & -> & Hrow & HM').
    apply has_shape_S_rows in HX as (x & X' & -> & Hx & HX').
    cbn. f_equal.
    + rewrite <- Hx. apply slice_splice_same. lia.
    + now apply IH.
Qed.

Lemma get_cols_set_cols_other (r c a a' w : nat) (M X : matrix F) :
  has_shape r c M -> has_shape r w X -> a + w <= c ->
  a' + w <= a \/ a + w <= a' ->
  get_cols a' w (set_cols a M X) = get_cols a' w M.
Proof.
  revert M X. induction r as [ | r IH]; intros M X HM HX Hle Hd.
  - apply has_shape_zero_rows in HM, HX. now subst.
  - apply has_shape_S_rows in HM as (row & M' & -> & Hrow & HM').
    apply has_shape_S_rows in HX as (x & X' & -> & Hx & HX').
    cbn. f_equal.
    + destruct Hd as [Hd | Hd].
      * apply slice_splice_before; lia.
      * apply slice_splice_after; lia.
    + now apply IH.
Qed.

Lemma has_shape_get_cols (r c a w : nat) (M : matrix F) :
  has_shape r c M -> a + w <= c -> has_shape r w (get_cols a w M).
Proof.
  intros [Hr Hc] Hle. unfold get_cols. split.
  - now rewrite length_map.
  - apply Forall_map. rewrite Forall_forall in *. intros row Hin.
    rewrite length_firstn, length_skipn, (Hc row Hin). lia.
Qed.

Lemma block_bound (k order s : nat) : s < order -> s * k + k <= k * order.
Proof. intros Hs. nia. Qed.

Lemma blk_set_blk_same (k order s : nat) (M X : matrix F) :
  has_shape k (k * order) M -> has_shape k k X -> s < order ->
  blk k s (set_blk k s M X) = X.
Proof.
  intros HM HX Hs. unfold blk, set_blk.
  pose proof (block_bound k Hs).
  eapply get_cols_set_cols_same; eauto. lia.
Qed.

Lemma blk_set_blk_other (k order s s' : nat) (M X : matrix F) :
  has_shape k (k * order) M -> has_shape k k X -> s < order -> s' <> s ->
  blk k s' (set_blk k s M X) = blk k s' M.
Proof.
  intros HM HX Hs Hne. unfold blk, set_blk.
  eapply get_cols_set_cols_other; eauto.
  - now apply block_bound.
  - nia.
Qed.

Lemma has_shape_set_blk (k order s : nat) (M X : matrix F) :
  has_shape k (k * order) M -> has_shape k k X -> s < order ->
  has_shape k (k * order) (set_blk k s M X).
Proof.
  intros HM HX Hs. unfold set_blk.
  eapply has_shape_set_cols; eauto. now apply block_bound.
Qed.

Lemma has_shape_blk (k order s : nat) (M : matrix F) :
  has_shape k (k * order) M -> s < order -> has_shape k k (blk k s M).
Proof.
  intros HM Hs. unfold blk. eapply has_shape_get_cols; eauto.
  now apply block_bound.
Qed.

(** [for s in range(n): M[:, s*k:(s+1)*k] = g(M[:, s*k:(s+1)*k])] *)
Lemma fold_blocks (k order : nat) (g : matrix F -> matrix F) :
  (forall X, has_shape k k X -> has_shape k k (g X)) ->
  forall (n : nat) (M : matrix F),
    has_shape k (k * order) M -> n <= order ->
    let M' := fold_left (fun M s => set_blk k s M (g (blk k s M)))
                (seq 0 n) M in
    has_shape k (k * order) M'
    /\ forall s, s < order ->
         blk k s M' = if Nat.ltb s n then g (blk k s M) else blk k s M.
Proof.
  intros Hg n. induction n as [ | n IH]; intros M HM Hn.
  - cbn. split; [ assumption | ]. intros s Hs. reflexivity.
  - rewrite seq_S, fold_left_app. cbn [fold_left Nat.add].
    destruct (IH M HM ltac:(lia)) as [HM' Hb].
    set (M' := fold_left _ (seq 0 n) M) in *.
    assert (Hn' : n < order) by lia.
    pose proof (has_shape_blk HM' Hn') as Hblk.
    split.
    + apply has_shape_set_blk; auto.
    + intros s Hs. destruct (Nat.eq_dec s n) as [-> | Hne].
      * erewrite blk_set_blk_same by eauto.
        rewrite (Hb n Hn'), Nat.ltb_irrefl.
        destruct (Nat.ltb_spec n (S n)); [ reflexivity | lia ].
      * erewrite blk_set_blk_other by eauto.
        rewrite (Hb s Hs).
        destruct (Nat.ltb_spec s n), (Nat.ltb_spec s (S n));
          try reflexivity; lia.
Qed.

End ColumnBlocks.

(** ** Shapes of products and transposes *)

Section ProductShapes.
Context {F : Type} `{Scalar F}.

Lemma length_repeat_nil (c : nat) : length (repeat (@nil F) c) = c.
Proof. apply repeat_length. Qed.

Lemma has_shape_transpose_n (r c : nat) (M : matrix F) :
  has_shape r c M -> has_shape c r (transpose_n c M).
Proof.
  revert M. induction r as [ | r IH]; intros M HM.
  - apply has_shape_zero_rows in HM as ->. cbn. split.
    + apply repeat_length.
    + apply Forall_forall. intros x Hx. apply repeat_spec in Hx. now subst.
  - apply has_shape_S_rows in HM as (row & M' & -> & Hrow & HM').
    destruct (IH M' HM') as [Hl Hf]. cbn. split.
    + rewrite length_map2. lia.
    + apply Forall_map2. intros x col _ Hcol.
      rewrite Forall_forall in Hf. cbn. now rewrite (Hf col Hcol).
Qed.

Lemma ncols_shape (r c : nat) (M : matrix F) :
  has_shape (S r) c M -> ncols M = c.
Proof.
  intros HM. apply has_shape_S_rows in HM as (row & M' & -> & Hrow & _).
  exact Hrow.
Qed.

Lemma has_shape_transpose (r c : nat) (M : matrix F) :
  has_shape (S r) c M -> has_shape c (S r) (transpose M).
Proof.
  intros HM. unfold transpose. rewrite (ncols_shape HM).
  now apply has_shape_transpose_n.
Qed.

Lemma has_shape_dot_T (A B : matrix F) :
  has_shape (length A) (length B) (dot_T A B).
Proof.
  unfold dot_T. split.
  - now rewrite length_map.
  - apply Forall_map, Forall_forall. intros row _. now rewrite length_map.
Qed.

Lemma has_shape_dot (k c : nat) (A B : matrix F) :
  length A = k -> has_shape k c B -> has_shape k c (dot A B).
Proof.
  intros HA HB. destruct k as [ | k].
  - destruct A; [ | discriminate ]. apply has_shape_nil.
  - unfold dot. pose proof (has_shape_transpose HB) as [Hl _].
    rewrite <- HA, <- Hl. apply has_shape_dot_T.
Qed.

End ProductShapes.

(** ** The conjugation of the coefficient blocks *)

Section TransformVariance.
Context {F : Type} `{Scalar F}.
Local Open Scope py_scope.

Lemma conjugate_blocks_spec (order k : nat) (T Ti fw : matrix F) (s : nat) :
  has_shape k k T -> has_shape k k Ti -> has_shape k (k * order) fw ->
  s < order ->
  blk k s (conjugate_blocks order k T Ti fw) = dot (dot T (blk k s fw)) Ti.
Proof.
  intros HT HTi Hfw Hs. unfold conjugate_blocks.
  destruct (fold_blocks (k:=k) (order:=order)
              (fun X => dot (dot T X) Ti)) with (n := order) (M := fw)
    as [_ Hb]; auto.
  - intros X HX. apply has_shape_dot; [ | assumption ].
    unfold dot, dot_T. rewrite length_map. apply HT.
  - rewrite (Hb s Hs). now destruct (Nat.ltb_spec s order); [ | lia ].
Qed.

End TransformVariance.

Section TransformVarianceClaim.
Context {F : Type} `{Scalar F}.
Local Open Scope py_scope.

Lemma bind_ext {A B : Type} (r : result A) (f g : A -> result B) :
  (forall a, f a = g a) -> bind r f = bind r g.
Proof. intros E. destruct r; cbn; [ apply E | reflexivity ]. Qed.

End TransformVarianceClaim.

(** ** Row blocks of the companion matrix *)

Section RowBlocks.
Context {F : Type} `{Scalar F}.
Local Open Scope py_scope.

Lemma has_shape_build {A : Type} (r c : nat) (f : nat -> nat -> A) :
  has_shape r c (build r c f).
Proof.
  unfold build. split.
  - now rewrite length_map, length_seq.
  - apply Forall_map, Forall_forall. intros i _.
    now rewrite length_map, length_seq.
Qed.

Lemma Forall_firstn {A : Type} (P : A -> Prop) (n : nat) (l : list A) :
  Forall P l -> Forall P (firstn n l).
Proof.
  intros Hl. rewrite <- (firstn_skipn n l) in Hl.
  now apply Forall_app in Hl.
Qed.

Lemma Forall_skipn {A : Type} (P : A -> Prop) (n : nat) (l : list A) :
  Forall P l -> Forall P (skipn n l).
Proof.
  intros Hl. rewrite <- (firstn_skipn n l) in Hl.
  now apply Forall_app in Hl.
Qed.

Lemma has_shape_firstn_skipn (r c a h : nat) (M : matrix F) :
  has_shape r c M -> a + h <= r -> has_shape h c (firstn h (skipn a M)).
Proof.
  intros [Hr Hc] Hle. split.
  - rewrite length_firstn, length_skipn. lia.
  - now apply Forall_firstn, Forall_skipn.
Qed.

Lemma has_shape_new_rows (r c r0 m : nat) (M X : matrix F) :
  has_shape r c M -> has_shape m m X -> r0 + m <= r -> m <= c ->
  has_shape m c (new_rows r0 m M X).
Proof.
  intros HM HX Hle Hmc. unfold new_rows.
  apply has_shape_set_cols with (w := m).
  - eapply has_shape_firstn_skipn; eauto.
  - assumption.
  - lia.
Qed.

Lemma set_block_splice (r c r0 m : nat) (M X : matrix F) :
  has_shape r c M -> has_shape m m X -> r0 + m <= r -> m <= c ->
  set_block r0 m M X = splice r0 M (new_rows r0 m M X).
Proof.
  intros HM HX Hle Hmc. unfold set_block, splice. fold (new_rows r0 m M X).
  now rewrite (proj1 (has_shape_new_rows r0 HM HX Hle Hmc)).
Qed.

Lemma has_shape_set_block (r c r0 m : nat) (M X : matrix F) :
  has_shape r c M -> has_shape m m X -> r0 + m <= r -> m <= c ->
  has_shape r c (set_block r0 m M X).
Proof.
  intros HM HX Hle Hmc.
  erewrite set_block_splice by eauto.
  destruct (has_shape_new_rows r0 HM HX Hle Hmc) as [Hl Hf].
  destruct HM as [Hr Hc]. split.
  - rewrite length_splice; lia.
  - unfold splice. rewrite !Forall_app. repeat split.
    + now apply Forall_firstn.
    + assumption.
    + now apply Forall_skipn.
Qed.

Lemma firstn_splice_0 (m : nat) (rows X : matrix F) :
  Forall (fun x => length x = m) X -> length X <= length rows ->
  map (firstn m) (map2 (splice 0) rows X) = X.
Proof.
  intros HX. revert rows. induction HX as [ | x X Hx HX IH]; intros rows Hl.
  - now destruct rows.
  - destruct rows as [ | row rows]; [ cbn in Hl; lia | ].
    cbn. f_equal.
    + unfold splice. cbn. rewrite firstn_app, <- Hx.
      rewrite Nat.sub_diag, firstn_all. cbn. apply app_nil_r.
    + apply IH. cbn in Hl. lia.
Qed.

Lemma get_block_set_block_same (r c r0 m : nat) (M X : matrix F) :
  has_shape r c M -> has_shape m m X -> r0 + m <= r -> m <= c ->
  get_block r0 m (set_block r0 m M X) = X.
Proof.
  intros HM HX Hle Hmc.
  erewrite set_block_splice by eauto. unfold get_block.
  destruct (has_shape_new_rows r0 HM HX Hle Hmc) as [Hl _].
  rewrite <- Hl at 2. rewrite slice_splice_same by (destruct HM; lia).
  unfold new_rows. apply firstn_splice_0.
  - apply HX.
  - destruct HM as [Hr _], HX as [HXl _].
    rewrite length_firstn, length_skipn. lia.
Qed.

Lemma get_block_set_block_other (r c r0 r0' m : nat) (M X : matrix F) :
  has_shape r c M -> has_shape m m X -> r0 + m <= r -> m <= c ->
  r0' + m <= r0 \/ r0 + m <= r0' ->
  get_block r0' m (set_block r0 m M X) = get_block r0' m M.
Proof.
  intros HM HX Hle Hmc Hd.
  erewrite set_block_splice by eauto. unfold get_block.
  destruct (has_shape_new_rows r0 HM HX Hle Hmc) as [Hl _].
  destruct HM as [Hr _]. f_equal. destruct Hd as [Hd | Hd].
  - apply slice_splice_before; lia.
  - apply slice_splice_after; lia.
Qed.

End RowBlocks.

Section FillBlocks.
Context {F : Type} `{Scalar F}.
Local Open Scope py_scope.

Lemma has_shape_mopp (r c : nat) (M : matrix F) :
  has_shape r c M -> has_shape r c (mopp M).
Proof.
  intros [Hr Hc]. unfold mopp. split.
  - now rewrite length_map.
  - apply Forall_map. rewrite Forall_forall in *. intros row Hin.
    unfold vopp. rewrite length_map. auto.
Qed.

(** The loop that fills the first block column: block [i] of the result is
    what [block] makes of coefficient [i]. *)
Lemma fill_blocks_from (m r c : nat) (block : item F -> result (matrix F))
  (cs : list (item F)) (Xs : list (matrix F)) :
  Forall2 (fun ci X => block ci = Ok X /\ has_shape m m X) cs Xs ->
  forall (s : nat) (M : matrix F),
    has_shape r c M -> (s + length cs) * m <= r -> m <= c ->
    exists M',
      for_each (combine (seq s (length cs)) cs)
        (fun ic M => X <- block (snd ic) ;; assign_block (fst ic) m M X) M
      = Ok M'
      /\ has_shape r c M'
      /\ (forall j, j < length cs ->
            get_block ((s + j) * m) m M' = nth j Xs [])
      /\ (forall i, i < s -> get_block (i * m) m M' = get_block (i * m) m M).
Proof.
  induction 1 as [ | ci X cs Xs [Hb HX] _ IH]; intros s M HM Hle Hmc.
  - exists M. cbn. split; [ reflexivity | ]. split; [ assumption | ].
    split; [ intros j Hj; lia | reflexivity ].
  - cbn [length] in *. cbn [seq combine for_each fst snd].
    rewrite Hb. cbn [bind]. unfold assign_block at 1.
    rewrite (is_shape_true HX).
    assert (Hs : s * m + m <= r) by nia.
    assert (HM1 : has_shape r c (set_block (s * m) m M X))
      by (eapply has_shape_set_block; eauto).
    destruct (IH (S s) _ HM1) as (M' & E & HM' & Hnew & Hold);
      [ nia | assumption | ].
    exists M'. cbn [bind]. split; [ exact E | ]. split; [ exact HM' | ].
    split.
    + intros [ | j] Hj.
      * rewrite Nat.add_0_r, (Hold s) by lia.
        eapply get_block_set_block_same; eauto.
      * replace (s + S j) with (S s + j) by lia.
        rewrite Hnew by lia. reflexivity.
    + intros i Hi. rewrite Hold by lia.
      eapply get_block_set_block_other; eauto. left. nia.
Qed.

Lemma fill_blocks_spec (m n : nat) (block : item F -> result (matrix F))
  (cs : list (item F)) (Xs : list (matrix F)) :
  Forall2 (fun ci X => block ci = Ok X /\ has_shape m m X) cs Xs ->
  n = length cs ->
  exists M,
    fill_blocks m block cs (shift_matrix n m) = Ok M
    /\ forall i, i < n -> get_block (i * m) m M = nth i Xs [].
Proof.
  intros Hcs ->. unfold fill_blocks.
  destruct cs as [ | c0 cs'].
  { eexists. split; [ reflexivity | ]. cbn. intros i Hi. lia. }
  set (n := length (c0 :: cs')) in *.
  edestruct fill_blocks_from with (s := 0) (r := n * m) (c := n * m)
    as (M & E & _ & Hnew & _);
    [ exact Hcs | apply has_shape_build | | | ].
  - apply Nat.le_refl.
  - subst n. cbn [length]. nia.
  - exists M. split; [ exact E | ]. intros i Hi. now rewrite <- Hnew.
Qed.

(** The loop depends on [block] through its values on the coefficients
    only. *)
Lemma fill_blocks_ext (m : nat) (block block' : item F -> result (matrix F))
  (cs : list (item F)) (M : matrix F) :
  Forall (fun ci => block ci = block' ci) cs ->
  fill_blocks m block cs M = fill_blocks m block' cs M.
Proof.
  unfold fill_blocks. generalize 0 as s. intros s Hcs. revert s M.
  induction Hcs as [ | ci cs E _ IH]; intros s M; [ reflexivity | ].
  cbn [length seq combine for_each fst snd]. rewrite E.
  destruct (block' ci) as [X | e]; [ | reflexivity ].
  cbn [bind]. destruct (assign_block s m M X); [ | reflexivity ].
  cbn [bind]. apply IH.
Qed.

End FillBlocks.

(** ** The identity matrix over the real numbers *)

Lemma nth_map_seq {A : Type} (f : nat -> A) (d : A) (n s j : nat) :
  j < n -> nth j (map f (seq s n)) d = f (s + j).
Proof.
  revert s j. induction n as [ | n IH]; intros s j Hj; [ lia | ].
  destruct j as [ | j]; cbn.
  - now rewrite Nat.add_0_r.
  - rewrite IH by lia. f_equal. lia.
Qed.

Lemma map2_map_same {A B C : Type} (f : B -> B -> C) (g : A -> B)
  (l : list A) :
  map2 f (map g l) (map g l) = map (fun a => f (g a) (g a)) l.
Proof. induction l as [ | a l IH]; cbn; [ reflexivity | now f_equal ]. Qed.

Section IdentityMatrix.
Local Open Scope R_scope.

Lemma length_unit_vec (n i : nat) : length (unit_vec n i) = n.
Proof. unfold unit_vec. now rewrite length_map, length_seq. Qed.

Lemma nth_unit_vec (n i j : nat) :
  (j < n)%nat -> nth j (unit_vec n i) 0 = if Nat.eqb j i then 1 else 0.
Proof. intros Hj. unfold unit_vec. now rewrite nth_map_seq. Qed.

Lemma map_const_seq (n s : nat) (c : R) :
  map (fun _ => c) (seq s n) = repeat c n.
Proof.
  revert s. induction n as [ | n IH]; intros s; cbn;
    [ reflexivity | now rewrite IH ].
Qed.

Lemma unit_vec_S_0 (n : nat) : unit_vec (S n) 0 = 1 :: repeat 0 n.
Proof.
  unfold unit_vec. cbn [seq map Nat.eqb]. f_equal.
  rewrite <- seq_shift, map_map. cbn [Nat.eqb]. apply map_const_seq.
Qed.

Lemma unit_vec_S_S (n i : nat) : unit_vec (S n) (S i) = 0 :: unit_vec n i.
Proof.
  unfold unit_vec. cbn [seq map Nat.eqb]. f_equal.
  now rewrite <- seq_shift, map_map.
Qed.

Lemma eye_rows (n : nat) : eye (F:=R) n = map (unit_vec n) (seq 0 n).
Proof.
  induction n as [ | n IH]; [ reflexivity | ].
  cbn [eye seq map]. rewrite unit_vec_S_0.
  apply f_equal2; [ reflexivity | ].
  rewrite IH, <- seq_shift, !map_map.
  apply map_ext. intros i. now rewrite unit_vec_S_S.
Qed.

Lemma has_shape_eye (n : nat) : has_shape n n (eye (F:=R) n).
Proof.
  rewrite eye_rows. split.
  - now rewrite length_map, length_seq.
  - apply Forall_map, Forall_forall. intros i _. apply length_unit_vec.
Qed.

Lemma nth_aug_row (n i j : nat) :
  (j < n)%nat -> nth j (aug_row n i) 0 = if Nat.eqb j i then 1 else 0.
Proof.
  intros Hj. unfold aug_row.
  rewrite app_nth1 by now rewrite length_unit_vec.
  now apply nth_unit_vec.
Qed.

Lemma vsub_vscale_zero (r p : vector R) :
  (length r <= length p)%nat -> vsub r (vscale 0 p) = r.
Proof.
  revert p. induction r as [ | x r IH]; intros [ | y p] Hl; cbn in *;
    try reflexivity; try lia.
  f_equal; [ lra | apply IH; lia ].
Qed.

Lemma eliminate_other (n i j : nat) :
  (j < n)%nat -> i <> j ->
  eliminate j (aug_row n j) (aug_row n i) = aug_row n i.
Proof.
  intros Hj Hne. unfold eliminate. cbn [fzero R_Scalar].
  rewrite nth_aug_row by assumption.
  destruct (Nat.eqb_spec j i); [ congruence | ].
  apply vsub_vscale_zero. unfold aug_row.
  rewrite !length_app, !length_unit_vec. lia.
Qed.

Lemma divide_by_pivot (n j : nat) :
  (j < n)%nat ->
  map (fun x => x / nth j (aug_row n j) 0) (aug_row n j) = aug_row n j.
Proof.
  intros Hj. rewrite nth_aug_row, Nat.eqb_refl by assumption.
  rewrite <- (map_id (aug_row n j)) at 2. apply map_ext. intros x. lra.
Qed.

Lemma gauss_jordan_identity (n steps j : nat) :
  (j + steps <= n)%nat ->
  gauss_jordan steps j (map (aug_row n) (seq 0 j))
    (map (aug_row n) (seq j steps))
  = Ok (map (aug_row n) (seq 0 (j + steps))).
Proof.
  revert j. induction steps as [ | steps IH]; intros j Hle.
  - cbn. now rewrite Nat.add_0_r.
  - cbn [seq map gauss_jordan pick_pivot].
    cbn [fzero feqb R_Scalar]. rewrite nth_aug_row by lia.
    rewrite Nat.eqb_refl, Reqb_false by lra.
    cbn [fzero fdiv R_Scalar]. rewrite divide_by_pivot by lia.
    rewrite !map_map.
    rewrite (map_ext_in _ (aug_row n) (seq 0 j)).
    2:{ intros i Hi. apply in_seq in Hi. apply eliminate_other; lia. }
    rewrite (map_ext_in _ (aug_row n) (seq (S j) steps)).
    2:{ intros i Hi. apply in_seq in Hi. apply eliminate_other; lia. }
    match goal with
    | |- gauss_jordan _ _ ?u _ = _ =>
        replace u with (map (aug_row n) (seq 0 (S j)))
          by (rewrite seq_S, map_app; reflexivity)
    end.
    rewrite IH by lia. do 3 f_equal. lia.
Qed.

Lemma inv_eye (n : nat) : inv (eye (F:=R) n) = Ok (eye n).
Proof.
  unfold inv, nrows. destruct (has_shape_eye n) as [Hl Hf].
  rewrite Hl, (is_shape_true (has_shape_eye n)).
  rewrite eye_rows, map2_map_same.
  change (fun a => unit_vec n a ++ unit_vec n a) with (aug_row n).
  pose proof (gauss_jordan_identity (n:=n) n 0) as E.
  cbn [seq map Nat.add] in E. rewrite E by lia. cbn [bind].
  f_equal. rewrite map_map. apply map_ext. intros i. unfold aug_row.
  rewrite skipn_app, skipn_all2 by (rewrite length_unit_vec; lia).
  now rewrite length_unit_vec, Nat.sub_diag.
Qed.

End IdentityMatrix.

Section IdentityProduct.
Local Open Scope R_scope.

Lemma dotv_zeros (k : nat) (v : vector R) : dotv (repeat 0 k) v = 0.
Proof.
  revert v. induction k as [ | k IH]; intros [ | x v]; cbn; try reflexivity.
  rewrite IH. lra.
Qed.

Lemma map_map2 {A B C D : Type} (f : C -> D) (g : A -> B -> C)
  (xs : list A) (ys : list B) :
  map f (map2 g xs ys) = map2 (fun x y => f (g x y)) xs ys.
Proof.
  revert ys. induction xs as [ | x xs IH]; intros [ | y ys]; cbn;
    try reflexivity.
  now f_equal.
Qed.

Lemma map2_fst {A B : Type} (xs : list A) (ys : list B) :
  (length xs <= length ys)%nat -> map2 (fun x _ => x) xs ys = xs.
Proof.
  revert ys. induction xs as [ | x xs IH]; intros [ | y ys] Hl; cbn in *;
    try reflexivity; try lia.
  f_equal. apply IH. lia.
Qed.

Lemma map2_snd {A B C : Type} (h : B -> C) (xs : list A) (ys : list B) :
  (length ys <= length xs)%nat -> map2 (fun _ y => h y) xs ys = map h ys.
Proof.
  revert ys. induction xs as [ | x xs IH]; intros [ | y ys] Hl; cbn in *;
    try reflexivity; try lia.
  f_equal. apply IH. lia.
Qed.

Lemma map2_ext {A B C : Type} (f g : A -> B -> C) (xs : list A)
  (ys : list B) :
  (forall x y, f x y = g x y) -> map2 f xs ys = map2 g xs ys.
Proof.
  intros E. revert ys.
  induction xs as [ | x xs IH]; intros [ | y ys]; cbn; try reflexivity.
  now rewrite E, IH.
Qed.

Lemma dot_T_eye (k c : nat) (C : matrix R) :
  has_shape k c C -> dot_T (eye k) (transpose_n c C) = C.
Proof.
  revert C. induction k as [ | k IH]; intros C HC.
  - apply has_shape_zero_rows in HC as ->. reflexivity.
  - apply has_shape_S_rows in HC as (row & C' & -> & Hrow & HC').
    destruct (has_shape_transpose_n HC') as [HTl _].
    unfold dot_T in *. cbn [eye transpose_n map]. f_equal.
    + rewrite map_map2.
      rewrite (map2_ext _ (fun x _ => x)).
      * apply map2_fst. lia.
      * intros x col. cbn. rewrite dotv_zeros. lra.
    + rewrite map_map. etransitivity; [ | apply (IH C' HC') ].
      apply map_ext. intros e. rewrite map_map2.
      rewrite (map2_ext _ (fun _ col => dotv e col)).
      * apply map2_snd. lia.
      * intros x col. cbn. lra.
Qed.

Lemma dot_eye (m : nat) (C : matrix R) :
  has_shape (S m) (S m) C -> dot (eye (S m)) C = C.
Proof.
  intros HC. unfold dot, transpose. rewrite (ncols_shape HC).
  now apply dot_T_eye.
Qed.

End IdentityProduct.

(** ** The first block column of the companion matrix *)

Section CompanionBlocks.
Context {F : Type} `{Scalar F}.

Lemma nth_map_default {A B : Type} (f : A -> B) (l : list A) (i : nat)
  (d : A) (d' : B) :
  i < length l -> nth i (map f l) d' = f (nth i l d).
Proof.
  intros Hi. rewrite nth_indep with (d' := f d) by now rewrite length_map.
  apply map_nth.
Qed.

Lemma Forall2_map_both {A B C : Type} (P : B -> C -> Prop) (f : A -> B)
  (g : A -> C) (l : list A) :
  Forall (fun a => P (f a) (g a)) l -> Forall2 P (map f l) (map g l).
Proof. induction 1; cbn; constructor; auto. Qed.

(** [companion_matrix] on a sequence whose second element is an array of
    [m <> 1] rows. *)
Lemma companion_of_matrices (mutable : bool) (c0 : item F) (C1 : matrix F)
  (rest : list (item F)) :
  length C1 <> 1 ->
  let items := c0 :: IArr C1 :: rest in
  let n := S (length rest) in
  let m := length C1 in
  companion_of_sequence mutable items
  = match item_eq_one c0 with
    | Err e => (Err e, items)
    | Ok true =>
        if mutable then
          (fill_blocks m identity_block (IArr C1 :: rest) (shift_matrix n m),
           IArr (eye m) :: IArr C1 :: rest)
        else (Err TypeError, items)
    | Ok false =>
        (bind (item_inv c0)
           (fun D =>
              fill_blocks m (general_block D) (IArr C1 :: rest)
                (shift_matrix n m)),
         items)
    end.
Proof.
  intros Hm items n m. unfold companion_of_sequence.
  change (length items - 1) with (S (length rest) - 0).
  rewrite Nat.sub_0_r. fold n.
  change (nth 1 items (INum fzero)) with (IArr C1).
  change (item_len (IArr C1)) with (Some m).
  change (hd (INum fzero) items) with c0.
  change (tl items) with (IArr C1 :: rest).
  change (n <? 1) with false. cbv iota.
  destruct (Nat.eqb_spec m 1) as [E | _]; [ contradiction | ].
  reflexivity.
Qed.

Lemma companion_general_blocks (m : nat) (C0 D : matrix F)
  (Cs : list (matrix F)) :
  2 <= m -> Cs <> [] -> Forall (has_shape m m) Cs ->
  inv C0 = Ok D -> has_shape m m D ->
  exists M,
    fst (companion_matrix (PyList (INested C0 :: map IArr Cs))) = Ok M
    /\ forall i, i < length Cs ->
         get_block (i * m) m M = mopp (transpose (dot D (nth i Cs []))).
Proof.
  intros Hm Hne HCs HD HDs.
  destruct Cs as [ | C1 Cs']; [ congruence | ]. clear Hne.
  set (Cs := C1 :: Cs') in *.
  assert (HC1 : length C1 = m) by (inversion HCs; subst; firstorder).
  destruct m as [ | [ | m']]; try lia.
  set (m := S (S m')) in *.
  edestruct fill_blocks_spec
    with (m := m) (n := length Cs) (block := general_block D)
         (cs := map (@IArr F) Cs)
         (Xs := map (fun C => mopp (transpose (dot D C))) Cs)
    as (M & E & Hb).
  { apply Forall2_map_both. eapply Forall_impl; [ | exact HCs ].
    intros C HC. cbn. rewrite (ncols_shape HDs), (proj1 HC), Nat.eqb_refl.
    split; [ reflexivity | ].
    apply has_shape_mopp, has_shape_transpose, has_shape_dot; auto.
    apply HDs. }
  { now rewrite length_map. }
  exists M. split.
  - unfold companion_matrix. subst Cs. cbn [map].
    rewrite companion_of_matrices by (rewrite HC1; subst m; lia).
    cbn [item_eq_one item_inv fst]. rewrite HD, HC1. cbn [bind].
    cbn [length map] in E. rewrite !length_map in *. exact E.
  - intros i Hi. rewrite Hb by assumption.
    exact (@nth_map_default _ _ (fun C => mopp (transpose (dot D C)))
             Cs i [] [] Hi).
Qed.

End CompanionBlocks.

Section CompanionIdentityMarker.
Local Open Scope R_scope.

Lemma companion_identity_marker (m : nat) (Cs : list (matrix R)) :
  (2 <= m)%nat -> Cs <> [] -> Forall (has_shape m m) Cs ->
  exists M,
    fst (companion_matrix (PyList (INum 1 :: map IArr Cs))) = Ok M
    /\ (forall i, (i < length Cs)%nat ->
          get_block (i * m) m M = mopp (transpose (nth i Cs [])))
    /\ fst (companion_matrix (PyList (INested (eye m) :: map IArr Cs)))
       = Ok M.
Proof.
  intros Hm Hne HCs.
  destruct Cs as [ | C1 Cs']; [ congruence | ]. clear Hne.
  set (Cs := C1 :: Cs') in *.
  assert (HC1 : length C1 = m) by (inversion HCs; subst; firstorder).
  destruct m as [ | [ | m']]; try lia.
  set (m := S (S m')) in *.
  edestruct (@fill_blocks_spec R _)
    with (m := m) (n := length Cs) (block := @identity_block R _)
         (cs := map (@IArr R) Cs)
         (Xs := map (fun C : matrix R => mopp (transpose C)) Cs)
    as (M & E & Hb).
  { apply Forall2_map_both. eapply Forall_impl; [ | exact HCs ].
    intros C HC. cbn. split; [ reflexivity | ].
    now apply has_shape_mopp, has_shape_transpose. }
  { now rewrite length_map. }
  exists M. split; [ | split ].
  - unfold companion_matrix. subst Cs. cbn [map].
    rewrite companion_of_matrices by (rewrite HC1; subst m; lia).
    cbn [item_eq_one fst fone feqb R_Scalar].
    rewrite Reqb_true by reflexivity. rewrite HC1, length_map. exact E.
  - intros i Hi. rewrite Hb by assumption.
    exact (@nth_map_default _ _ (fun C : matrix R => mopp (transpose C))
             Cs i [] [] Hi).
  - unfold companion_matrix. subst Cs. cbn [map].
    rewrite companion_of_matrices by (rewrite HC1; subst m; lia).
    cbn [item_eq_one item_inv fst]. rewrite HC1, inv_eye, length_map.
    cbn [bind]. rewrite <- E. apply fill_blocks_ext.
    change (IArr C1 :: map IArr Cs') with (map (@IArr R) (C1 :: Cs')).
    apply Forall_map. eapply Forall_impl; [ | exact HCs ].
    intros C HC. cbn [general_block identity_block].
    rewrite (ncols_shape (has_shape_eye m)), (proj1 HC), Nat.eqb_refl.
    unfold m. now rewrite (dot_eye HC).
Qed.

(** What the code computes.  For a matrix lag polynomial whose leading
    coefficient is given as a nested list [C_0] that [np.linalg.inv]
    inverts, block [i] of the first block column is [-(C_0^{-1} C_i)^T]
    (the transpose of the whole product).  With the marker 1 in place of
    [C_0] block [i] is [-C_i^T], and the result is the one for the
    identity matrix given as a nested list. *)
Theorem companion_matrix_first_block_column
  (m : nat) (C0 D : matrix R) (Cs : list (matrix R)) :
  (2 <= m)%nat -> Cs <> [] -> Forall (has_shape m m) Cs ->
  inv C0 = Ok D -> has_shape m m D ->
  (exists M,
      fst (companion_matrix (PyList (INested C0 :: map IArr Cs))) = Ok M
      /\ forall i, (i < length Cs)%nat ->
           get_block (i * m) m M = mopp (transpose (dot D (nth i Cs []))))
  /\ (exists M,
         fst (companion_matrix (PyList (INum 1 :: map IArr Cs))) = Ok M
         /\ (forall i, (i < length Cs)%nat ->
               get_block (i * m) m M = mopp (transpose (nth i Cs [])))
         /\ fst (companion_matrix
                   (PyList (INested (eye m) :: map IArr Cs)))
            = Ok M).
Proof.
  intros Hm Hne HCs HD HDs. split.
  - now apply companion_general_blocks.
  - now apply companion_identity_marker.
Qed.

End CompanionIdentityMarker.

Lemma inverse_of_unit_upper_triangle :
  exists D, inv (F:=R) [[1; 1]; [0; 1]]%R = Ok D /\ has_shape 2 2 D.
Proof.
  eexists. split.
  - unfold inv. cbn -[Reqb].
    rewrite Reqb_false by lra. cbn -[Reqb].
    rewrite Reqb_false by lra. cbn -[Reqb].
    reflexivity.
  - repeat constructor.
Qed.

Lemma companion_matrix_first_block_column_witness :
  exists D : matrix R,
    inv [[1; 1]; [0; 1]]%R = Ok D /\ has_shape 2 2 D
    /\ (exists M,
          fst (companion_matrix
                 (PyList (INested [[1; 1]; [0; 1]]%R
                            :: map IArr [[[0; 0]; [1; 0]]%R])))
          = Ok M
          /\ forall i, i < 1 ->
               get_block (i * 2) 2 M
               = mopp (transpose
                         (dot D (nth i [[[0; 0]; [1; 0]]%R] []))))
    /\ (exists M,
          fst (companion_matrix
                 (PyList (INum 1%R :: map IArr [[[0; 0]; [1; 0]]%R])))
          = Ok M
          /\ (forall i, i < 1 ->
                get_block (i * 2) 2 M
                = mopp (transpose (nth i [[[0; 0]; [1; 0]]%R] [])))
          /\ fst (companion_matrix
                    (PyList (INested (eye 2)
                               :: map IArr [[[0; 0]; [1; 0]]%R])))
             = Ok M).
Proof.
  destruct inverse_of_unit_upper_triangle as (D & ED & HD).
  exists D. split; [ exact ED | ]. split; [ exact HD | ].
  apply (@companion_matrix_first_block_column 2 [[1; 1]; [0; 1]]%R D
           [[[0; 0]; [1; 0]]%R]).
  - lia.
  - discriminate.
  - repeat constructor.
  - exact ED.
  - exact HD.
Defined.

(** The block of the claim, [-C_0^{-1} C_i^T], is not the block of the
    matrix returned. *)
Lemma companion_matrix_block_transposes_product :
  exists M D,
    fst (companion_matrix (F:=float)
           (PyList [INested [[1; 1]; [0; 1]]%float;
                    IArr [[0; 0]; [1; 0]]%float])) = Ok M
    /\ inv [[1; 1]; [0; 1]]%float = Ok D
    /\ get_block 0 2 M = mopp (transpose (dot D [[0; 0]; [1; 0]]%float))
    /\ get_block 0 2 M <> mopp (dot D (transpose [[0; 0]; [1; 0]]%float)).
Proof.
  eexists. eexists. split; [ vm_compute; reflexivity | ].
  split; [ vm_compute; reflexivity | ].
  split; [ vm_compute; reflexivity | ].
  intros E.
  apply (f_equal (fun M => PrimFloat.ltb 0%float (nth 0 (nth 0 M []) 0%float)))
    in E.
  vm_compute in E. discriminate.
Qed.

(** ** Vectors over the real numbers *)

Section RealVectors.
Local Open Scope R_scope.

Lemma length_vadd (u v : vector R) :
  length (vadd u v) = Nat.min (length u) (length v).
Proof. apply length_map2. Qed.

Lemma length_vsub (u v : vector R) :
  length (vsub u v) = Nat.min (length u) (length v).
Proof. apply length_map2. Qed.

Lemma length_vscale (a : R) (u : vector R) :
  length (vscale a u) = length u.
Proof. apply length_map. Qed.

Lemma length_vecmat (c : nat) (l : vector R) (X : matrix R) :
  Forall (fun row => length row = c) X -> length (vecmat c l X) = c.
Proof.
  intros HX. revert l. induction HX as [ | row X Hrow HX IH]; intros l.
  - destruct l; cbn; apply repeat_length.
  - destruct l as [ | a l]; cbn; [ apply repeat_length | ].
    rewrite length_vadd, length_vscale, IH, Hrow. apply Nat.min_id.
Qed.

Lemma dotv_comm (u v : vector R) : dotv u v = dotv v u.
Proof.
  revert v. induction u as [ | a u IH]; intros [ | b v]; cbn;
    try reflexivity.
  rewrite IH. lra.
Qed.

Lemma dotv_nil_r (u : vector R) : dotv u [] = 0.
Proof. now destruct u. Qed.

Lemma dotv_repeat_zero_r (u : vector R) (n : nat) : dotv u (repeat 0 n) = 0.
Proof. rewrite dotv_comm. apply dotv_zeros. Qed.

Lemma dotv_vadd_l (u v w : vector R) :
  length u = length v ->
  dotv (vadd u v) w = dotv u w + dotv v w.
Proof.
  unfold vadd. revert v w. induction u as [ | a u IH]; intros [ | b v] [ | c w] Hl;
    cbn in *; try lra; try lia.
  rewrite IH by lia. lra.
Qed.

Lemma dotv_vsub_l (u v w : vector R) :
  length u = length v ->
  dotv (vsub u v) w = dotv u w - dotv v w.
Proof.
  unfold vsub. revert v w. induction u as [ | a u IH]; intros [ | b v] [ | c w] Hl;
    cbn in *; try lra; try lia.
  rewrite IH by lia. lra.
Qed.

Lemma dotv_vscale_l (a : R) (u w : vector R) :
  dotv (vscale a u) w = a * dotv u w.
Proof.
  unfold vscale. revert w. induction u as [ | b u IH]; intros [ | c w]; cbn; try lra.
  rewrite IH. lra.
Qed.

Lemma dotv_vadd_r (u v w : vector R) :
  length u = length v ->
  dotv w (vadd u v) = dotv w u + dotv w v.
Proof.
  intros Hl. rewrite dotv_comm, dotv_vadd_l by assumption.
  now rewrite (dotv_comm u), (dotv_comm v).
Qed.

Lemma dotv_vscale_r (a : R) (u w : vector R) :
  dotv w (vscale a u) = a * dotv w u.
Proof. now rewrite dotv_comm, dotv_vscale_l, dotv_comm. Qed.

Lemma dotv_self_nonneg (v : vector R) : 0 <= dotv v v.
Proof.
  induction v as [ | a v IH]; cbn; [ lra | ].
  pose proof (Rle_0_sqr a) as Ha. unfold Rsqr in Ha. lra.
Qed.

Lemma dotv_self_pos (v : vector R) : nonzero v -> 0 < dotv v v.
Proof.
  induction 1 as [a v Ha | a v _ IH]; cbn.
  - pose proof (dotv_self_nonneg v). nra.
  - pose proof (Rle_0_sqr a) as Ha. unfold Rsqr in Ha. lra.
Qed.

Lemma dotv_self_zero (v : vector R) : dotv v v = 0 -> ~ nonzero v.
Proof. intros E Hv. apply dotv_self_pos in Hv. lra. Qed.

Lemma nonzero_repeat_zero (n : nat) : ~ nonzero (repeat 0 n).
Proof.
  induction n as [ | n IH]; cbn; intros Hv; inversion Hv; subst; auto.
Qed.

Lemma nonzero_cons (a : R) (v : vector R) :
  nonzero (a :: v) <-> a <> 0 \/ nonzero v.
Proof. unfold nonzero. apply Exists_cons. Qed.

Lemma nonzero_dec (v : vector R) : nonzero v \/ v = repeat 0 (length v).
Proof.
  induction v as [ | a v [IH | IH]]; cbn.
  - now right.
  - left. now apply Exists_cons_tl.
  - destruct (Req_dec_T a 0) as [-> | Ha].
    + right. now f_equal.
    + left. now apply Exists_cons_hd.
Qed.

Lemma vadd_zeros_l (n : nat) (v : vector R) :
  length v = n -> vadd (repeat 0 n) v = v.
Proof.
  unfold vadd. revert v. induction n as [ | n IH]; intros [ | a v] Hl; cbn in *;
    try reflexivity; try lia.
  f_equal; [ lra | apply IH; lia ].
Qed.

Lemma vscale_zeros (a : R) (n : nat) : vscale a (repeat 0 n) = repeat 0 n.
Proof.
  unfold vscale. induction n as [ | n IH]; cbn; [ reflexivity | ].
  f_equal; [ lra | exact IH ].
Qed.

Lemma vscale_zero_l (v : vector R) : vscale 0 v = repeat 0 (length v).
Proof.
  unfold vscale. induction v as [ | a v IH]; cbn; [ reflexivity | ].
  f_equal; [ lra | exact IH ].
Qed.

Lemma vecmat_zeros_l (c n : nat) (X : matrix R) :
  Forall (fun row => length row = c) X ->
  vecmat c (repeat 0 n) X = repeat 0 c.
Proof.
  intros HX. revert n. induction HX as [ | row X Hrow HX IH]; intros n.
  - now destruct n.
  - destruct n as [ | n]; cbn [repeat vecmat]; [ reflexivity | ].
    rewrite IH, vscale_zero_l, Hrow. apply vadd_zeros_l, repeat_length.
Qed.

End RealVectors.

(** ** Positive definite matrices and the Cholesky factor *)

Section PositiveDefinite.
Local Open Scope R_scope.

Lemma map2_map_r {A B B' C : Type} (f : A -> B' -> C) (g : B -> B')
  (xs : list A) (ys : list B) :
  map2 f xs (map g ys) = map2 (fun x y => f x (g y)) xs ys.
Proof.
  revert ys. induction xs as [ | x xs IH]; intros [ | y ys]; cbn;
    try reflexivity.
  now f_equal.
Qed.

Lemma has_shape_tails (n c : nat) (rows : matrix R) :
  has_shape n (S c) rows -> has_shape n c (map (@tl R) rows).
Proof.
  intros [Hl Hf]. split.
  - now rewrite length_map.
  - apply Forall_map. eapply Forall_impl; [ | exact Hf ].
    intros [ | a row] Hrow; cbn in *; lia.
Qed.

Lemma has_shape_rank1 (n : nat) (c : vector R) (M : matrix R) :
  length c = n -> has_shape n n M -> has_shape n n (rank1 c M).
Proof.
  intros Hc [Hl Hf]. unfold rank1. split.
  - rewrite length_map2. lia.
  - apply Forall_map2. intros ci r _ Hr. rewrite Forall_forall in Hf.
    rewrite length_map2, (Hf r Hr). lia.
Qed.

Lemma qform_low_zeros (M : matrix R) (n : nat) :
  qform_low M (repeat 0 n) = 0.
Proof.
  revert M. induction n as [ | n IH]; intros [ | row rows]; cbn;
    try reflexivity.
  rewrite IH, dotv_repeat_zero_r. lra.
Qed.

Lemma map2_ext_Forall {A B C : Type} (P : B -> Prop) (f g : A -> B -> C)
  (xs : list A) (ys : list B) :
  Forall P ys -> (forall x y, P y -> f x y = g x y) ->
  map2 f xs ys = map2 g xs ys.
Proof.
  intros Hys E. revert xs.
  induction Hys as [ | y ys Hy _ IH]; intros [ | x xs]; cbn;
    try reflexivity.
  now rewrite E, IH.
Qed.

Lemma dotv_heads_rank1 (c0 : R) (c w : vector R) (rows : matrix R) :
  length c = length w -> length rows = length w ->
  dotv (map2 (fun ci r => hd 0 r - ci * c0) c rows) w
  = dotv (map (hd 0) rows) w - c0 * dotv c w.
Proof.
  revert c rows. induction w as [ | y w IH]; intros c rows Hc Hr.
  - destruct c; [ | discriminate ]. destruct rows; [ | discriminate ].
    cbn. lra.
  - destruct c as [ | c1 c]; [ discriminate | ].
    destruct rows as [ | r rows]; [ discriminate | ].
    cbn [map2 map dotv]. rewrite IH by (cbn in *; lia).
    cbn [fadd fmul R_Scalar]. lra.
Qed.

Lemma qform_rank1 (n : nat) (c w : vector R) (M : matrix R) :
  length c = n -> length w = n -> has_shape n n M ->
  qform_low (rank1 c M) w = qform_low M w - dotv c w * dotv c w.
Proof.
  revert c w M. induction n as [ | n IH]; intros c w M Hc Hw HM.
  - destruct w; [ | discriminate ]. destruct c; [ | discriminate ].
    cbn. lra.
  - destruct c as [ | c0 c]; [ discriminate | ].
    destruct w as [ | y w]; [ discriminate | ].
    apply has_shape_S_rows in HM as (row & rows & -> & Hrow & Hrows).
    destruct row as [ | b row]; [ discriminate | ].
    injection Hc as Hc. injection Hw as Hw.
    assert (Htl : has_shape n n (map (@tl R) rows))
      by now apply has_shape_tails.
    unfold rank1. cbn [map2 qform_low hd dotv].
    rewrite (@map2_ext_Forall _ _ _ (fun r => length r = S n) _
               (fun ci r => (hd 0 r - ci * c0)
                            :: map2 (fun cj x => x - ci * cj) c (tl r))).
    2:{ apply Hrows. }
    2:{ intros ci [ | a r] Hr; [ discriminate | reflexivity ]. }
    rewrite !map_map2. cbn [hd tl].
    rewrite dotv_heads_rank1 by (destruct Hrows; lia).
    rewrite <- (map2_map_r (fun ci r => map2 (fun cj x => x - ci * cj) c r)
                  (@tl R)).
    fold (rank1 c (map (@tl R) rows)).
    rewrite (IH c w _ Hc Hw Htl). cbn [fsub fmul fadd R_Scalar]. lra.
Qed.

End PositiveDefinite.

Section CholeskyFactor.
Local Open Scope R_scope.

Lemma cholesky_n_step (n : nat) (a : R) (r0 : vector R) (rows : matrix R) :
  let col := map (fun r => hd 0 r / sqrt a) rows in
  cholesky_n (S n) ((a :: r0) :: rows)
  = if Rltb 0 a then
      bind (cholesky_n n (rank1 col (map (@tl R) rows)))
        (fun L' => Ok ((sqrt a :: repeat 0 n) :: map2 cons col L'))
    else Err LinAlgError.
Proof.
  intros col. cbn [cholesky_n fltb fzero fsqrt fdiv R_Scalar].
  unfold rank1. rewrite map2_map_r. reflexivity.
Qed.

Lemma dotv_map_div (d : R) (rows : matrix R) (w : vector R) :
  d <> 0 ->
  dotv (map (fun r => hd 0 r / d) rows) w
  = dotv (map (hd 0) rows) w / d.
Proof.
  intros Hd. revert w. induction rows as [ | r rows IH]; intros [ | y w];
    cbn [map dotv]; try (cbn; field; assumption).
  rewrite IH. cbn [fadd fmul R_Scalar]. field. assumption.
Qed.

Lemma length_col (d : R) (rows : matrix R) :
  length (map (fun r : vector R => hd 0 r / d) rows) = length rows.
Proof. apply length_map. Qed.

(** Completing the square on the first variable. *)
Lemma qform_step (n : nat) (a x : R) (r0 w : vector R) (rows : matrix R) :
  0 < a -> has_shape n (S n) rows -> length w = n ->
  let col := map (fun r => hd 0 r / sqrt a) rows in
  qform_low ((a :: r0) :: rows) (x :: w)
  = (sqrt a * x + dotv col w) * (sqrt a * x + dotv col w)
    + qform_low (rank1 col (map (@tl R) rows)) w.
Proof.
  intros Ha Hrows Hw col.
  pose proof (sqrt_lt_R0 a Ha) as Hd.
  pose proof (sqrt_sqrt a (Rlt_le _ _ Ha)) as Hdd.
  rewrite (qform_rank1 (n:=n)).
  - subst col. rewrite dotv_map_div by lra. cbn [qform_low hd].
    set (h := dotv (map (hd 0) rows) w).
    set (q := qform_low (map (@tl R) rows) w).
    rewrite <- Hdd at 1. field. lra.
  - subst col. rewrite length_col. apply Hrows.
  - assumption.
  - now apply has_shape_tails.
Qed.

Lemma has_shape_lower_pos (n : nat) (L : matrix R) :
  lower_pos n L -> has_shape n n L.
Proof.
  induction 1 as [ | n d col L Hd Hcol HL [Hl Hf]].
  - apply has_shape_nil.
  - split.
    + cbn. rewrite length_map2. lia.
    + constructor.
      * cbn. now rewrite repeat_length.
      * apply Forall_map2. intros ci row _ Hrow. cbn.
        rewrite Forall_forall in Hf. now rewrite (Hf row Hrow).
Qed.

Lemma vecmat_cons_cols (c : nat) (w col : vector R) (X : matrix R) :
  length col = length X ->
  vecmat (S c) w (map2 cons col X) = dotv w col :: vecmat c w X.
Proof.
  revert col X. induction w as [ | y w IH]; intros col X Hl.
  - destruct (map2 cons col X); destruct X; reflexivity.
  - destruct col as [ | c1 col]; destruct X as [ | r X]; try discriminate.
    + reflexivity.
    + cbn [map2 vecmat dotv]. rewrite IH by (cbn in Hl; lia).
      reflexivity.
Qed.

Lemma vecmat_lower_cons (n : nat) (d x : R) (col w : vector R)
  (L : matrix R) :
  length col = n -> has_shape n n L ->
  vecmat (S n) (x :: w) ((d :: repeat 0 n) :: map2 cons col L)
  = (x * d + dotv w col) :: vecmat n w L.
Proof.
  intros Hcol [Hl Hf]. cbn [vecmat].
  rewrite vecmat_cons_cols by lia.
  unfold vscale at 1. cbn [map]. fold (vscale x (repeat 0 n)).
  rewrite vscale_zeros. unfold vadd at 1. cbn [map2].
  fold (vadd (repeat 0 n) (vecmat n w L)).
  rewrite vadd_zeros_l by now apply length_vecmat.
  reflexivity.
Qed.

Lemma nonzero_cons_zero (v : vector R) : nonzero (0 :: v) -> nonzero v.
Proof. intros Hv. apply nonzero_cons in Hv as [Hv | Hv]; tauto. Qed.

(** The Cholesky factorisation succeeds exactly on the positive definite
    matrices, and its factor [L] satisfies [v^T M v = |L^T v|^2]. *)
Lemma cholesky_n_spec (n : nat) (M : matrix R) :
  has_shape n n M ->
  (pos_def n M ->
   exists L, cholesky_n n M = Ok L /\ lower_pos n L
             /\ forall v, length v = n ->
                  qform_low M v = dotv (vecmat n v L) (vecmat n v L))
  /\ (forall L, cholesky_n n M = Ok L -> pos_def n M)
  /\ (forall e, cholesky_n n M = Err e -> e = LinAlgError).
Proof.
  revert M. induction n as [ | n IH]; intros M HM.
  - apply has_shape_zero_rows in HM as ->. cbn. repeat split.
    + intros _. exists []. repeat split; [ constructor | ].
      intros [ | ] Hv; [ reflexivity | discriminate ].
    + intros L _ v Hv Hnz. destruct v; [ inversion Hnz | discriminate ].
    + discriminate.
  - apply has_shape_S_rows in HM as (row & rows & -> & Hrow & Hrows).
    destruct row as [ | a r0]; [ discriminate | ].
    set (col := map (fun r => hd 0 r / sqrt a) rows).
    set (S' := rank1 col (map (@tl R) rows)).
    assert (HS : has_shape n n S').
    { apply has_shape_rank1.
      - subst col. rewrite length_col. apply Hrows.
      - now apply has_shape_tails. }
    destruct (IH S' HS) as (IHpd & IHok & IHerr).
    rewrite cholesky_n_step. fold col. fold S'.
    repeat split.
    + intros Hpd.
      assert (Ha : 0 < a).
      { specialize (Hpd (1 :: repeat 0 n)). cbn [qform_low hd] in Hpd.
        rewrite dotv_repeat_zero_r, qform_low_zeros in Hpd.
        assert (0 < a * 1 * 1 + 2 * 1 * 0 + 0); [ | lra ].
        apply Hpd.
        - cbn. now rewrite repeat_length.
        - apply Exists_cons_hd. lra. }
      assert (HpdS : pos_def n S').
      { intros w Hw Hnz.
        specialize (Hpd ((- dotv col w / sqrt a) :: w)).
        rewrite (qform_step _ _ _ Ha Hrows Hw) in Hpd. fold col S' in Hpd.
        pose proof (sqrt_lt_R0 a Ha) as Hd.
        replace (sqrt a * (- dotv col w / sqrt a) + dotv col w) with 0
          in Hpd by (field; lra).
        rewrite Rmult_0_l, Rplus_0_l in Hpd. apply Hpd.
        - cbn. now rewrite Hw.
        - now apply Exists_cons_tl. }
      destruct (IHpd HpdS) as (L' & E & HL' & Hq).
      rewrite Rltb_true, E by assumption. cbn [bind].
      eexists. split; [ reflexivity | ]. split.
      * constructor; auto.
        -- now apply sqrt_lt_R0.
        -- subst col. rewrite length_col. apply Hrows.
      * intros [ | x w] Hv; [ discriminate | ]. injection Hv as Hw.
        rewrite (qform_step _ _ _ Ha Hrows Hw). fold col S'.
        rewrite vecmat_lower_cons.
        -- cbn [dotv]. rewrite <- (Hq w Hw), (dotv_comm w col).
           cbn [fadd fmul R_Scalar]. lra.
        -- subst col. rewrite length_col. apply Hrows.
        -- now apply has_shape_lower_pos.
    + intros L E. destruct (Rlt_dec 0 a) as [Ha | Ha].
      2:{ rewrite Rltb_false in E by assumption. discriminate. }
      rewrite Rltb_true in E by assumption.
      apply bind_ok in E as (L' & E' & _).
      pose proof (IHok L' E') as HpdS.
      intros [ | x w] Hv Hnz; [ discriminate | ]. injection Hv as Hw.
      rewrite (qform_step _ _ _ Ha Hrows Hw). fold col S'.
      pose proof (sqrt_lt_R0 a Ha) as Hd.
      destruct (nonzero_dec w) as [Hw' | Hw'].
      * specialize (HpdS w Hw Hw').
        set (t := sqrt a * x + dotv col w) in *. nra.
      * rewrite Hw' in *. rewrite dotv_repeat_zero_r, qform_low_zeros.
        apply nonzero_cons in Hnz as [Hx | Hnz].
        -- assert (0 < (sqrt a * x) * (sqrt a * x)); [ | lra ].
           assert (sqrt a * x <> 0) by (apply Rmult_integral_contrapositive; split; lra).
           nra.
        -- exfalso. revert Hnz. apply nonzero_repeat_zero.
    + intros e E. destruct (Rlt_dec 0 a) as [Ha | Ha].
      * rewrite Rltb_true in E by assumption.
        destruct (cholesky_n n S') as [L' | e'] eqn:E'.
        -- discriminate.
        -- cbn in E. injection E as <-. now apply IHerr.
      * rewrite Rltb_false in E by assumption. congruence.
Qed.

End CholeskyFactor.

(** ** Entries of sums and multiples of vectors *)

Section VectorEntries.
Local Open Scope R_scope.

Lemma nth_map2 {A B C : Type} (f : A -> B -> C) (xs : list A) (ys : list B)
  (i : nat) (dx : A) (dy : B) (d : C) :
  (i < length xs)%nat -> (i < length ys)%nat ->
  nth i (map2 f xs ys) d = f (nth i xs dx) (nth i ys dy).
Proof.
  revert ys i. induction xs as [ | x xs IH]; intros [ | y ys] [ | i] Hx Hy;
    cbn in *; try lia; try reflexivity.
  apply IH; lia.
Qed.

Lemma nth_vadd (u v : vector R) (i : nat) :
  (i < length u)%nat -> (i < length v)%nat ->
  nth i (vadd u v) 0 = nth i u 0 + nth i v 0.
Proof. intros Hu Hv. unfold vadd. now rewrite (nth_map2 _ _ _ 0 0). Qed.

Lemma nth_vsub (u v : vector R) (i : nat) :
  (i < length u)%nat -> (i < length v)%nat ->
  nth i (vsub u v) 0 = nth i u 0 - nth i v 0.
Proof. intros Hu Hv. unfold vsub. now rewrite (nth_map2 _ _ _ 0 0). Qed.

Lemma nth_vscale (a : R) (u : vector R) (i : nat) :
  nth i (vscale a u) 0 = a * nth i u 0.
Proof.
  unfold vscale. revert i. induction u as [ | x u IH]; intros [ | i]; cbn;
    try lra.
  apply IH.
Qed.

Lemma nth_repeat_zero (n i : nat) : nth i (repeat 0 n) 0 = 0.
Proof.
  revert i. induction n as [ | n IH]; intros [ | i]; cbn; auto.
Qed.

Lemma nth_map_div (d : R) (b : vector R) (i : nat) :
  nth i (map (fun bj => bj / d) b) 0 = nth i b 0 / d.
Proof.
  revert i. induction b as [ | x b IH]; intros [ | i]; cbn; try lra.
  apply IH.
Qed.

End VectorEntries.

(** Two vectors of [c] entries are equal when their entries are. *)
Ltac len_simpl :=
  repeat first
    [ rewrite length_vadd | rewrite length_vsub | rewrite length_vscale
    | rewrite length_map | rewrite repeat_length
    | match goal with
      | H : length ?v = _ |- context [length ?v] => rewrite H
      end ].

Ltac vec_eq c :=
  apply nth_ext with (d := 0%R) (d' := 0%R);
  [ len_simpl; try lia
  | let i := fresh "i" in
    let Hi := fresh "Hi" in
    intros i Hi;
    assert (i < c)%nat by (revert Hi; len_simpl; lia);
    clear Hi;
    repeat first [ rewrite nth_vadd | rewrite nth_vsub | rewrite nth_vscale
                 | rewrite nth_repeat_zero | rewrite nth_map_div ];
    len_simpl; try lia;
    cbn [fzero fone fadd fsub fmul fdiv fopp R_Scalar] ].

Section TriangularSolve.
Local Open Scope R_scope.

Lemma map_tl_map2_cons (col : vector R) (L : matrix R) :
  length col = length L -> map (@tl R) (map2 cons col L) = L.
Proof.
  revert L. induction col as [ | c col IH]; intros [ | r L] Hl; cbn in *;
    try reflexivity; try lia.
  f_equal. apply IH. lia.
Qed.

Lemma map2_heads (A : Type) (g : R -> vector R -> A) (col : vector R)
  (L B : matrix R) :
  length col = length L ->
  map2 (fun lrow brow => g (hd 0 lrow) brow) (map2 cons col L) B
  = map2 g col B.
Proof.
  revert L B. induction col as [ | c col IH]; intros [ | r L] [ | b B] Hl;
    cbn in *; try reflexivity; try lia.
  f_equal. apply IH. lia.
Qed.

Lemma vecmat_rank_rows (c : nat) (y col x : vector R) (B : matrix R) :
  length col = length B -> length x = c ->
  Forall (fun row => length row = c) B ->
  vecmat c y (map2 (fun ci brow => vsub brow (vscale ci x)) col B)
  = vsub (vecmat c y B) (vscale (dotv y col) x).
Proof.
  intros Hl Hx HB. revert y col Hl.
  induction HB as [ | b B Hb HB IH]; intros y col Hl.
  - destruct col; [ | discriminate ].
    destruct y; cbn [map2 vecmat dotv]; vec_eq c; lra.
  - destruct col as [ | c0 col]; [ discriminate | ].
    destruct y as [ | y0 y]; cbn [map2 vecmat dotv].
    + vec_eq c. lra.
    + rewrite IH by (cbn in Hl; lia).
      assert (Hv : length (vecmat c y B) = c) by now apply length_vecmat.
      vec_eq c. lra.
Qed.

End TriangularSolve.

Section TriangularSystems.
Local Open Scope R_scope.

(** Forward substitution solves [L X = B]: for every [y],
    [(y^T L) X = y^T B]. *)
Lemma solve_lower_n_spec (n : nat) (L : matrix R) :
  lower_pos n L ->
  forall (c : nat) (B : matrix R),
    has_shape n c B ->
    exists X,
      solve_lower_n n L B = Ok X /\ has_shape n c X
      /\ forall y, length y = n ->
           vecmat c (vecmat n y L) X = vecmat c y B.
Proof.
  induction 1 as [ | n d col L Hd Hcol HL IH]; intros c B HB.
  - apply has_shape_zero_rows in HB as ->. exists []. cbn.
    repeat split; [ constructor | ].
    intros [ | ] Hy; [ reflexivity | discriminate ].
  - apply has_shape_S_rows in HB as (b & Brows & -> & Hb & HBrows).
    pose proof (has_shape_lower_pos HL) as [HLl HLf].
    cbn [solve_lower_n feqb fzero fdiv R_Scalar].
    rewrite Reqb_false by lra.
    rewrite map_tl_map2_cons by lia.
    set (x := map (fun bj => bj / d) b).
    assert (Hx : length x = c) by (subst x; now rewrite length_map).
    rewrite (map2_heads (fun ci brow => vsub brow (vscale ci x))) by lia.
    set (B' := map2 (fun ci brow => vsub brow (vscale ci x)) col Brows).
    assert (HB' : has_shape n c B').
    { destruct HBrows as [HBl HBf]. subst B'. split.
      - rewrite length_map2. lia.
      - apply Forall_map2. intros ci brow _ Hbrow.
        rewrite Forall_forall in HBf.
        rewrite length_vsub, length_vscale, (HBf brow Hbrow), Hx.
        apply Nat.min_id. }
    destruct (IH c B' HB') as (X' & E & HX' & Hsol).
    rewrite E. cbn [bind]. exists (x :: X'). split; [ reflexivity | ].
    split; [ now apply has_shape_cons | ].
    intros [ | y0 y] Hy; [ discriminate | ]. injection Hy as Hy.
    rewrite vecmat_lower_cons by (auto using has_shape_lower_pos).
    cbn [vecmat]. rewrite (Hsol y Hy). subst B'.
    destruct HBrows as [HBl HBf].
    rewrite vecmat_rank_rows by (auto; lia).
    assert (Hv : length (vecmat c y Brows) = c) by now apply length_vecmat.
    vec_eq c. subst x. rewrite nth_map_div. field. lra.
Qed.

(** Back substitution: [L^T y = x] has a solution. *)
Lemma lower_pos_transpose_onto (n : nat) (L : matrix R) :
  lower_pos n L ->
  forall x, length x = n ->
    exists y, length y = n /\ vecmat n y L = x.
Proof.
  induction 1 as [ | n d col L Hd Hcol HL IH]; intros x Hx.
  - destruct x; [ | discriminate ]. exists []. now split.
  - destruct x as [ | x0 x]; [ discriminate | ]. injection Hx as Hx.
    destruct (IH x Hx) as (y & Hy & E).
    exists (((x0 - dotv y col) / d) :: y). split; [ cbn; lia | ].
    rewrite vecmat_lower_cons by (auto using has_shape_lower_pos).
    rewrite E. f_equal. field. lra.
Qed.

Lemma vecmat_nonzero (n : nat) (y : vector R) (L : matrix R) :
  lower_pos n L -> length y = n -> nonzero (vecmat n y L) -> nonzero y.
Proof.
  intros HL Hy Hnz. destruct (nonzero_dec y) as [Hy' | Hy']; [ assumption | ].
  exfalso. rewrite Hy' in Hnz.
  rewrite vecmat_zeros_l in Hnz by apply (has_shape_lower_pos HL).
  revert Hnz. apply nonzero_repeat_zero.
Qed.

End TriangularSystems.

(** ** The quadratic forms of [I + A A^T] and [I - P P^T] *)

Section GramForms.
Local Open Scope R_scope.

Lemma dotv_map2_lin (s : R) (u v w : vector R) :
  length u = length w -> length v = length w ->
  dotv (map2 (fun a b => a + s * b) u v) w = dotv u w + s * dotv v w.
Proof.
  revert u v. induction w as [ | c w IH]; intros [ | a u] [ | b v] Hu Hv;
    try discriminate; cbn [map2 dotv]; [ cbn; lra | ].
  rewrite IH by (cbn in *; lia). cbn [fadd fmul R_Scalar]. lra.
Qed.

Lemma heads_map2 (f : R -> R -> R) (n c : nat) (M N : matrix R) :
  has_shape n (S c) M -> has_shape n (S c) N ->
  map (hd 0) (map2 (map2 f) M N) = map2 f (map (hd 0) M) (map (hd 0) N)
  /\ map (@tl R) (map2 (map2 f) M N)
     = map2 (map2 f) (map (@tl R) M) (map (@tl R) N).
Proof.
  revert M N. induction n as [ | n IH]; intros M N HM HN.
  - apply has_shape_zero_rows in HM as ->. now split.
  - apply has_shape_S_rows in HM as (r & M' & -> & Hr & HM').
    apply has_shape_S_rows in HN as (t & N' & -> & Ht & HN').
    destruct r as [ | a r]; [ discriminate | ].
    destruct t as [ | b t]; [ discriminate | ].
    destruct (IH M' N' HM' HN') as [E1 E2].
    cbn [map2 map hd tl]. now rewrite E1, E2.
Qed.

Lemma qform_low_lin (s : R) (n : nat) (M N : matrix R) (v : vector R) :
  has_shape n n M -> has_shape n n N -> length v = n ->
  qform_low (map2 (map2 (fun a b => a + s * b)) M N) v
  = qform_low M v + s * qform_low N v.
Proof.
  revert M N v. induction n as [ | n IH]; intros M N v HM HN Hv.
  - destruct v; [ | discriminate ]. cbn. lra.
  - destruct v as [ | x w]; [ discriminate | ]. injection Hv as Hv.
    apply has_shape_S_rows in HM as (r & Mrows & -> & Hr & HMrows).
    apply has_shape_S_rows in HN as (t & Nrows & -> & Ht & HNrows).
    destruct r as [ | a r]; [ discriminate | ].
    destruct t as [ | b t]; [ discriminate | ].
    destruct (heads_map2 (fun a b => a + s * b) HMrows HNrows) as [E1 E2].
    cbn [map2 qform_low hd]. rewrite E1, E2.
    rewrite dotv_map2_lin
      by (rewrite length_map; destruct HMrows, HNrows; lia).
    rewrite IH by (auto using has_shape_tails). lra.
Qed.

Lemma qform_low_madd (n : nat) (M N : matrix R) (v : vector R) :
  has_shape n n M -> has_shape n n N -> length v = n ->
  qform_low (madd M N) v = qform_low M v + qform_low N v.
Proof.
  intros HM HN Hv. rewrite <- (Rmult_1_l (qform_low N v)).
  rewrite <- (qform_low_lin 1 _ HM HN Hv). f_equal. unfold madd, vadd.
  apply map2_ext. intros r t. apply map2_ext. intros a b. cbn. lra.
Qed.

Lemma qform_low_msub (n : nat) (M N : matrix R) (v : vector R) :
  has_shape n n M -> has_shape n n N -> length v = n ->
  qform_low (msub M N) v = qform_low M v - qform_low N v.
Proof.
  intros HM HN Hv.
  replace (qform_low M v - qform_low N v)
    with (qform_low M v + -1 * qform_low N v) by lra.
  rewrite <- (qform_low_lin (-1) _ HM HN Hv). f_equal. unfold msub, vsub.
  apply map2_ext. intros r t. apply map2_ext. intros a b. cbn. lra.
Qed.

Lemma dotv_map_zero {A : Type} (l : list A) (w : vector R) :
  dotv (map (fun _ => 0) l) w = 0.
Proof.
  revert w. induction l as [ | a l IH]; intros [ | y w]; cbn; try reflexivity.
  rewrite IH. lra.
Qed.

Lemma qform_low_eye (n : nat) (v : vector R) :
  length v = n -> qform_low (eye n) v = dotv v v.
Proof.
  revert v. induction n as [ | n IH]; intros [ | x w] Hv; try discriminate.
  - reflexivity.
  - cbn [eye qform_low hd dotv]. rewrite !map_map. cbn [hd tl].
    rewrite dotv_map_zero, map_id, IH by (cbn in Hv; lia).
    cbn [fone fadd fmul R_Scalar]. lra.
Qed.

Lemma dotv_rows_vecmat (c : nat) (a w : vector R) (A : matrix R) :
  length a = c -> Forall (fun row => length row = c) A ->
  dotv (map (fun row => dotv row a) A) w = dotv a (vecmat c w A).
Proof.
  intros Ha HA. revert w. induction HA as [ | r A Hr HA IH]; intros w.
  - destruct w; cbn [map dotv vecmat]; now rewrite ?dotv_repeat_zero_r.
  - destruct w as [ | y w]; cbn [map dotv vecmat].
    + now rewrite dotv_repeat_zero_r.
    + rewrite IH, dotv_vadd_r, dotv_vscale_r, (dotv_comm r a).
      * cbn [fadd fmul R_Scalar]. lra.
      * rewrite length_vscale, length_vecmat; auto.
Qed.

Lemma qform_low_gram (r c : nat) (A : matrix R) (v : vector R) :
  has_shape r c A -> length v = r ->
  qform_low (dot_T A A) v = dotv (vecmat c v A) (vecmat c v A).
Proof.
  revert A v. induction r as [ | r IH]; intros A v HA Hv.
  - destruct v; [ | discriminate ].
    apply has_shape_zero_rows in HA as ->. cbn.
    now rewrite dotv_repeat_zero_r.
  - destruct v as [ | x w]; [ discriminate | ]. injection Hv as Hv.
    apply has_shape_S_rows in HA as (a & A' & -> & Ha & HA').
    unfold dot_T. cbn [map qform_low hd vecmat]. rewrite !map_map.
    cbn [hd tl].
    rewrite (dotv_rows_vecmat a w Ha (proj2 HA')).
    change (map (fun row => map (dotv row) A') A') with (dot_T A' A').
    rewrite (IH A' w HA' Hv).
    set (u := vecmat c w A').
    assert (Hu : length u = c) by (apply length_vecmat, HA').
    rewrite dotv_vadd_l, !dotv_vadd_r, !dotv_vscale_l, !dotv_vscale_r
      by (rewrite length_vscale; lia).
    rewrite (dotv_comm u a). lra.
Qed.

Lemma transpose_n_cons_cols (r : nat) (row : vector R) (T : matrix R) :
  length row = length T ->
  transpose_n (S r) (map2 cons row T) = row :: transpose_n r T.
Proof.
  revert T. induction row as [ | x row IH]; intros [ | t T] Hl;
    try discriminate.
  - reflexivity.
  - cbn [map2 transpose_n]. rewrite IH by (cbn in Hl; lia). reflexivity.
Qed.

Lemma transpose_n_involutive (r c : nat) (A : matrix R) :
  has_shape r c A -> transpose_n r (transpose_n c A) = A.
Proof.
  revert A. induction r as [ | r IH]; intros A HA.
  - apply has_shape_zero_rows in HA as ->. cbn.
    destruct c; reflexivity.
  - apply has_shape_S_rows in HA as (row & A' & -> & Hrow & HA').
    cbn [transpose_n]. rewrite transpose_n_cons_cols.
    + now rewrite IH.
    + rewrite Hrow. symmetry. apply (has_shape_transpose_n HA').
Qed.

Lemma dot_transpose_self (k : nat) (A : matrix R) :
  has_shape k k A -> dot A (transpose A) = dot_T A A.
Proof.
  intros HA. destruct k as [ | k].
  - apply has_shape_zero_rows in HA as ->. reflexivity.
  - unfold dot. f_equal.
    pose proof (has_shape_transpose HA) as HT.
    unfold transpose at 1. rewrite (ncols_shape HT).
    unfold transpose. rewrite (ncols_shape HA).
    now apply transpose_n_involutive.
Qed.

End GramForms.

Section ProductAsRows.
Local Open Scope R_scope.

Lemma map2_map_map {A A' B B' C : Type} (f : A' -> B' -> C) (g : A -> A')
  (h : B -> B') (xs : list A) (ys : list B) :
  map2 f (map g xs) (map h ys) = map2 (fun x y => f (g x) (h y)) xs ys.
Proof.
  revert ys. induction xs as [ | x xs IH]; intros [ | y ys]; cbn;
    try reflexivity.
  now f_equal.
Qed.

Lemma map_repeat {A B : Type} (f : A -> B) (a : A) (n : nat) :
  map f (repeat a n) = repeat (f a) n.
Proof. induction n as [ | n IH]; cbn; [ reflexivity | now f_equal ]. Qed.

Lemma dotv_transpose_n (n c : nat) (row : vector R) (X : matrix R) :
  has_shape n c X -> length row = n ->
  map (dotv row) (transpose_n c X) = vecmat c row X.
Proof.
  revert row X. induction n as [ | n IH]; intros row X HX Hrow.
  - apply has_shape_zero_rows in HX as ->.
    destruct row; [ | discriminate ]. cbn. now rewrite map_repeat.
  - apply has_shape_S_rows in HX as (r & X' & -> & Hr & HX').
    destruct row as [ | a row]; [ discriminate | ]. injection Hrow as Hrow.
    cbn [transpose_n vecmat]. rewrite <- (IH row X' HX' Hrow).
    rewrite map_map2. unfold vadd, vscale. rewrite map2_map_map.
    reflexivity.
Qed.

Lemma dot_as_rows (n c : nat) (L X : matrix R) :
  has_shape n c X -> has_shape n n L ->
  dot L X = map (fun row => vecmat c row X) L.
Proof.
  intros HX [HLl HLf]. destruct n as [ | n].
  - destruct L; [ reflexivity | discriminate ].
  - unfold dot, dot_T, transpose. rewrite (ncols_shape HX).
    apply map_ext_in. intros row Hrow. rewrite Forall_forall in HLf.
    apply dotv_transpose_n with (n := S n); auto.
Qed.

Lemma vscale_one (v : vector R) : vscale 1 v = v.
Proof.
  unfold vscale. rewrite <- (map_id v) at 2. apply map_ext. intros x.
  cbn. lra.
Qed.

Lemma vadd_zeros_r (n : nat) (v : vector R) :
  length v = n -> vadd v (repeat 0 n) = v.
Proof.
  unfold vadd. revert v. induction n as [ | n IH]; intros [ | a v] Hl;
    cbn in *; try reflexivity; try lia.
  f_equal; [ lra | apply IH; lia ].
Qed.

Lemma vecmat_unit (n c i : nat) (M : matrix R) :
  has_shape n c M -> (i < n)%nat ->
  vecmat c (unit_vec n i) M = nth i M [].
Proof.
  revert i M. induction n as [ | n IH]; intros i M HM Hi; [ lia | ].
  apply has_shape_S_rows in HM as (r & M' & -> & Hr & HM').
  destruct i as [ | i].
  - rewrite unit_vec_S_0. cbn [vecmat nth].
    rewrite vecmat_zeros_l by apply HM'.
    rewrite vscale_one. now apply vadd_zeros_r.
  - rewrite unit_vec_S_S. cbn [vecmat nth].
    rewrite IH by (auto; lia). rewrite vscale_zero_l, Hr.
    apply vadd_zeros_l.
    destruct HM' as [Hl Hf]. rewrite Forall_forall in Hf.
    apply Hf, nth_In. lia.
Qed.

(** The solution of forward substitution, as a product of matrices. *)
Lemma solve_lower_n_dot (n c : nat) (L B : matrix R) :
  lower_pos n L -> has_shape n c B ->
  exists X,
    solve_lower_n n L B = Ok X /\ has_shape n c X /\ dot L X = B
    /\ forall y, length y = n ->
         vecmat c (vecmat n y L) X = vecmat c y B.
Proof.
  intros HL HB.
  destruct (solve_lower_n_spec HL HB) as (X & E & HX & Hsol).
  exists X. repeat split; auto.
  - apply HX.
  - apply HX.
  - pose proof (has_shape_lower_pos HL) as HLs.
    rewrite (dot_as_rows HX HLs).
    apply nth_ext with (d := []) (d' := []).
    + rewrite length_map. destruct HLs, HB. lia.
    + intros i Hi. rewrite length_map in Hi.
      rewrite (@nth_map_default _ _ (fun row => vecmat c row X) L i [] [] Hi).
      assert (Hin : (i < n)%nat) by (destruct HLs; lia).
      rewrite <- (vecmat_unit HLs Hin), <- (vecmat_unit HB Hin).
      apply Hsol, length_unit_vec.
Qed.

End ProductAsRows.

(** ** The singular-value constraint and its inverse *)

Section SingularValues.
Local Open Scope R_scope.
Local Open Scope py_scope.

Lemma has_shape_madd (r c : nat) (M N : matrix R) :
  has_shape r c M -> has_shape r c N -> has_shape r c (madd M N).
Proof.
  intros [HMl HMf] [HNl HNf]. unfold madd. split.
  - rewrite length_map2. lia.
  - apply Forall_map2. intros u v Hu Hv. rewrite Forall_forall in HMf, HNf.
    rewrite length_vadd, (HMf u Hu), (HNf v Hv). apply Nat.min_id.
Qed.

Lemma has_shape_msub (r c : nat) (M N : matrix R) :
  has_shape r c M -> has_shape r c N -> has_shape r c (msub M N).
Proof.
  intros [HMl HMf] [HNl HNf]. unfold msub. split.
  - rewrite length_map2. lia.
  - apply Forall_map2. intros u v Hu Hv. rewrite Forall_forall in HMf, HNf.
    rewrite length_vsub, (HMf u Hu), (HNf v Hv). apply Nat.min_id.
Qed.

Lemma has_shape_gram (k : nat) (A : matrix R) :
  has_shape k k A -> has_shape k k (dot_T A A).
Proof.
  intros [Hl _]. pose proof (has_shape_dot_T A A) as HG.
  now rewrite Hl in HG.
Qed.

(** The loop body of [_constrain_sv_less_than_one_python]. *)
Lemma constrain_sv_step (k : nat) (A : matrix R) :
  has_shape k k A ->
  exists P,
    (B <- cholesky (madd (eye k) (dot A (transpose A))) ;;
     solve_triangular B A NoTrans) = Ok P
    /\ has_shape k k P /\ sv_lt_one k P.
Proof.
  intros HA. rewrite (dot_transpose_self HA).
  set (M := madd (eye k) (dot_T A A)).
  assert (HM : has_shape k k M)
    by (apply has_shape_madd; auto using has_shape_eye, has_shape_gram).
  assert (Hq : forall v, length v = k ->
                 qform_low M v
                 = dotv v v + dotv (vecmat k v A) (vecmat k v A)).
  { intros v Hv. subst M.
    rewrite (qform_low_madd (n:=k)) by (auto using has_shape_eye, has_shape_gram).
    now rewrite qform_low_eye, (qform_low_gram _ HA) by assumption. }
  assert (Hpd : pos_def k M).
  { intros v Hv Hnz. rewrite (Hq v Hv).
    pose proof (dotv_self_pos Hnz).
    pose proof (dotv_self_nonneg (vecmat k v A)). lra. }
  destruct (cholesky_n_spec HM) as (Hex & _ & _).
  destruct (Hex Hpd) as (L & E & HL & HqL).
  rewrite cholesky_real. unfold nrows. rewrite (proj1 HM), E. cbn [bind].
  destruct (solve_lower_n_dot HL HA) as (P & EP & HP & _ & Hsol).
  rewrite solve_triangular_real. unfold nrows.
  rewrite (proj1 (has_shape_lower_pos HL)), EP.
  exists P. split; [ reflexivity | ]. split; [ exact HP | ].
  intros x Hx Hnz.
  destruct (lower_pos_transpose_onto HL x Hx) as (y & Hy & Ey).
  assert (Hynz : nonzero y)
    by (apply (vecmat_nonzero y HL Hy); now rewrite Ey).
  rewrite <- Ey at 1 2. rewrite (Hsol y Hy).
  rewrite <- Ey, <- (HqL y Hy), (Hq y Hy).
  pose proof (dotv_self_pos Hynz). lra.
Qed.

(** The loop body of [_unconstrain_sv_less_than_one] on a matrix with
    singular values below one. *)
Lemma unconstrain_sv_step (k : nat) (P : matrix R) :
  has_shape k k P -> sv_lt_one k P ->
  exists B_inv A,
    cholesky (msub (eye k) (dot P (transpose P))) = Ok B_inv
    /\ solve_triangular B_inv P NoTrans = Ok A
    /\ lower_pos k B_inv
    /\ (forall v, length v = k ->
          dotv (vecmat k v B_inv) (vecmat k v B_inv)
          = dotv v v - dotv (vecmat k v P) (vecmat k v P))
    /\ has_shape k k A
    /\ dot B_inv A = P.
Proof.
  intros HP Hsv. rewrite (dot_transpose_self HP).
  set (M := msub (eye k) (dot_T P P)).
  assert (HM : has_shape k k M)
    by (apply has_shape_msub; auto using has_shape_eye, has_shape_gram).
  assert (Hq : forall v, length v = k ->
                 qform_low M v
                 = dotv v v - dotv (vecmat k v P) (vecmat k v P)).
  { intros v Hv. subst M.
    rewrite (qform_low_msub (n:=k)) by (auto using has_shape_eye, has_shape_gram).
    now rewrite qform_low_eye, (qform_low_gram _ HP) by assumption. }
  assert (Hpd : pos_def k M).
  { intros v Hv Hnz. rewrite (Hq v Hv). specialize (Hsv v Hv Hnz). lra. }
  destruct (cholesky_n_spec HM) as (Hex & _ & _).
  destruct (Hex Hpd) as (L & E & HL & HqL).
  destruct (solve_lower_n_dot HL HP) as (A & EA & HA & Hdot & _).
  exists L, A. rewrite cholesky_real, solve_triangular_real. unfold nrows.
  rewrite (proj1 HM), (proj1 (has_shape_lower_pos HL)).
  repeat split; auto; try apply HA.
  intros v Hv. now rewrite <- (HqL v Hv), (Hq v Hv).
Qed.

(** The loop body of [_unconstrain_sv_less_than_one] on a matrix with a
    singular value of one or more. *)
Lemma unconstrain_sv_step_fails (k : nat) (P : matrix R) :
  has_shape k k P -> sv_ge_one k P ->
  (B_inv <- cholesky (msub (eye k) (dot P (transpose P))) ;;
   solve_triangular B_inv P NoTrans) = Err LinAlgError.
Proof.
  intros HP (x & Hx & Hnz & Hge). rewrite (dot_transpose_self HP).
  set (M := msub (eye k) (dot_T P P)).
  assert (HM : has_shape k k M)
    by (apply has_shape_msub; auto using has_shape_eye, has_shape_gram).
  assert (Hq : qform_low M x
               = dotv x x - dotv (vecmat k x P) (vecmat k x P)).
  { subst M.
    rewrite (qform_low_msub (n:=k)) by (auto using has_shape_eye, has_shape_gram).
    now rewrite qform_low_eye, (qform_low_gram _ HP) by assumption. }
  destruct (cholesky_n_spec HM) as (_ & Hok & Herr).
  rewrite cholesky_real. unfold nrows. rewrite (proj1 HM).
  destruct (cholesky_n k M) as [L | e] eqn:E.
  - specialize (Hok L eq_refl x Hx Hnz). lra.
  - cbn. f_equal. now apply Herr.
Qed.

End SingularValues.

(** ** Loops over a list of matrices *)

Section MapResult.
Context {A B : Type}.
Local Open Scope py_scope.

Lemma firstn_skipn_S (xs : list A) (s n : nat) (d : A) :
  s < length xs ->
  firstn (S n) (skipn s xs) = nth s xs d :: firstn n (skipn (S s) xs).
Proof.
  revert s. induction xs as [ | x xs IH]; intros [ | s] Hs; cbn in *;
    try lia.
  - reflexivity.
  - rewrite <- IH by lia. reflexivity.
Qed.

Lemma index_nth (xs : list A) (i : nat) (d : A) :
  i < length xs -> index xs i = Ok (nth i xs d).
Proof.
  intros Hi. unfold index.
  now rewrite (nth_error_nth' xs d Hi).
Qed.

(** [[f(xs[i]) for i in range(s, s + n)]] *)
Lemma map_result_index (f : A -> result B) (xs : list A) (n s : nat) :
  s + n <= length xs ->
  map_result (fun i => x <- index xs i ;; f x) (seq s n)
  = map_result f (firstn n (skipn s xs)).
Proof.
  revert s. induction n as [ | n IH]; intros s Hle; [ reflexivity | ].
  destruct xs as [ | x0 xs']; [ cbn in Hle; lia | ].
  set (xs := x0 :: xs') in *.
  rewrite (firstn_skipn_S xs n x0) by lia.
  cbn [seq map_result]. rewrite (index_nth xs x0) by lia. cbn [bind].
  now rewrite IH by lia.
Qed.

Lemma map_result_ok (Q : A -> B -> Prop) (f : A -> result B) (xs : list A) :
  Forall (fun x => exists y, f x = Ok y /\ Q x y) xs ->
  exists ys, map_result f xs = Ok ys /\ Forall2 Q xs ys.
Proof.
  induction 1 as [ | x xs (y & E & HQ) _ (ys & Es & HQs)].
  - exists []. split; [ reflexivity | constructor ].
  - exists (y :: ys). cbn. rewrite E. cbn. rewrite Es. cbn.
    split; [ reflexivity | now constructor ].
Qed.

Lemma map_result_err (e : pyerr) (f : A -> result B) (xs : list A) :
  Forall (fun x => (exists y, f x = Ok y) \/ f x = Err e) xs ->
  Exists (fun x => f x = Err e) xs ->
  map_result f xs = Err e.
Proof.
  induction 1 as [ | x xs Hx Hxs IH]; intros Hex; [ inversion Hex | ].
  cbn. destruct Hx as [(y & E) | E]; rewrite E; cbn; [ | reflexivity ].
  inversion Hex as [? ? E' | ? ? Hex']; subst; [ congruence | ].
  now rewrite (IH Hex').
Qed.

End MapResult.

Section SingularValueClaims.
Local Open Scope R_scope.
Local Open Scope py_scope.

Lemma default_k_endog_shape (k : nat) (Ms : list (matrix R))
  (k_endog : option nat) :
  Forall (has_shape k k) Ms ->
  k_endog = Some k \/ (k_endog = None /\ Ms <> []) ->
  default_k_endog k_endog Ms = Ok k.
Proof.
  intros HMs [-> | [-> Hne]]; [ reflexivity | ].
  destruct Ms as [ | M Ms]; [ congruence | ]. cbn.
  inversion HMs as [ | ? ? HM _]; subst. unfold nrows. f_equal. apply HM.
Qed.

Lemma Forall2_length_eq {A B : Type} (Q : A -> B -> Prop) (xs : list A)
  (ys : list B) : Forall2 Q xs ys -> length ys = length xs.
Proof. induction 1; cbn; auto. Qed.

Lemma Forall2_right {A B : Type} (Q : A -> B -> Prop) (P : B -> Prop)
  (xs : list A) (ys : list B) :
  (forall x y, Q x y -> P y) -> Forall2 Q xs ys -> Forall P ys.
Proof. intros HQ. induction 1; constructor; eauto. Qed.

(** C3 (in exact arithmetic).  For square matrices [A_i] of real numbers,
    no factorisation of [I + A_i A_i^T] fails and every matrix [P_i] that
    [_constrain_sv_less_than_one_python] returns has its singular values
    strictly below one. *)
Theorem constrain_sv_less_than_one_bound
  (k : nat) (unconstrained : list (matrix R)) (order k_endog : option nat) :
  Forall (has_shape k k) unconstrained ->
  (forall o, order = Some o -> (o <= length unconstrained)%nat) ->
  k_endog = Some k \/ (k_endog = None /\ unconstrained <> []) ->
  exists constrained,
    _constrain_sv_less_than_one_python unconstrained order k_endog
    = Ok constrained
    /\ length constrained = default_order order unconstrained
    /\ Forall (fun P => has_shape k k P /\ sv_lt_one k P) constrained.
Proof.
  intros HAs Ho Hk. unfold _constrain_sv_less_than_one_python.
  rewrite (default_k_endog_shape HAs Hk). cbn [bind].
  set (n := default_order order unconstrained).
  assert (Hn : (n <= length unconstrained)%nat).
  { subst n. destruct order as [o | ]; cbn; [ now apply Ho | lia ]. }
  rewrite (map_result_index
             (fun A => B <- cholesky (madd (eye k) (dot A (transpose A))) ;;
                       solve_triangular B A NoTrans)) by (cbn; lia).
  cbn [skipn].
  destruct (map_result_ok
              (fun (_ : matrix R) P => has_shape k k P /\ sv_lt_one k P)
              (fun A => B <- cholesky (madd (eye k) (dot A (transpose A))) ;;
                        solve_triangular B A NoTrans)
              (xs := firstn n unconstrained))
    as (Ps & E & HPs).
  { apply Forall_firstn. eapply Forall_impl; [ | exact HAs ].
    intros A HA. destruct (constrain_sv_step HA) as (P & EP & HP).
    now exists P. }
  exists Ps. split; [ exact E | ]. split.
  - rewrite (Forall2_length_eq HPs), length_firstn. lia.
  - eapply Forall2_right; [ | exact HPs ]. auto.
Qed.

Lemma sv_lt_one_zero : sv_lt_one 1 [[0]].
Proof.
  intros [ | x [ | ]] Hx Hnz; try discriminate.
  apply dotv_self_pos in Hnz. cbn in *. lra.
Qed.

Lemma constrain_sv_less_than_one_bound_witness :
  exists constrained,
    _constrain_sv_less_than_one_python [[[2]]; [[-3]]] None None
    = Ok constrained
    /\ length constrained = 2%nat
    /\ Forall (fun P => has_shape 1 1 P /\ sv_lt_one 1 P) constrained.
Proof.
  apply (@constrain_sv_less_than_one_bound 1 [[[2]]; [[-3]]] None None).
  - repeat constructor.
  - discriminate.
  - right. split; [ reflexivity | discriminate ].
Defined.

(** C3 on float64 arrays: the matrix returned for [A = [[2^30]]] is
    [[[1.0]]], whose singular value is one. *)
Lemma constrain_sv_reaches_one_in_binary64 :
  exists P,
    _constrain_sv_less_than_one_python (F:=float)
      [[[1073741824%float]]] None None = Ok [P]
    /\ ~ sv_lt_one 1 (map (map float_to_R) P).
Proof.
  exists [[1%float]]. split; [ vm_compute; reflexivity | ].
  intros Hsv. specialize (Hsv [1] eq_refl).
  assert (E : float_to_R 1%float = 1).
  { unfold float_to_R.
    replace (Prim2SF 1%float) with (S754_finite false 4503599627370496 (-52))
      by (vm_compute; reflexivity).
    unfold powerRZ. change (Pos.to_nat 52) with 52%nat.
    assert (H2 : 2 ^ 52 = IZR 4503599627370496).
    { change 2 with (IZR 2). rewrite pow_IZR. f_equal. }
    rewrite H2. field. }
  cbn [map] in Hsv. rewrite E in Hsv. cbn in Hsv.
  assert (Hnz : nonzero [1]) by (apply Exists_cons_hd; lra).
  specialize (Hsv Hnz). lra.
Qed.

End SingularValueClaims.

Section UnconstrainSingularValues.
Local Open Scope R_scope.
Local Open Scope py_scope.

Lemma unconstrain_sv_step_total (k : nat) (P : matrix R) :
  has_shape k k P ->
  (exists A,
      (B_inv <- cholesky (msub (eye k) (dot P (transpose P))) ;;
       solve_triangular B_inv P NoTrans) = Ok A)
  \/ (B_inv <- cholesky (msub (eye k) (dot P (transpose P))) ;;
      solve_triangular B_inv P NoTrans) = Err LinAlgError.
Proof.
  intros HP.
  set (M := msub (eye k) (dot P (transpose P))).
  assert (HM : has_shape k k M).
  { subst M. rewrite (dot_transpose_self HP).
    apply has_shape_msub; auto using has_shape_eye, has_shape_gram. }
  destruct (cholesky_n_spec HM) as (Hex & Hok & Herr).
  rewrite cholesky_real. unfold nrows. rewrite (proj1 HM).
  destruct (cholesky_n k M) as [L | e] eqn:E.
  - left. destruct (Hex (Hok L eq_refl)) as (L' & E' & HL & _).
    injection E' as <-. cbn [bind].
    destruct (solve_lower_n_dot HL HP) as (A & EA & _).
    exists A. rewrite solve_triangular_real. unfold nrows.
    now rewrite (proj1 (has_shape_lower_pos HL)).
  - right. cbn. f_equal. now apply Herr.
Qed.

Lemma In_firstn_nth_error {A : Type} (xs : list A) (i n : nat) (x : A) :
  (i < n)%nat -> nth_error xs i = Some x -> In x (firstn n xs).
Proof.
  revert i n. induction xs as [ | y xs IH]; intros [ | i] [ | n] Hi E;
    cbn in *; try discriminate; try lia.
  - left. congruence.
  - right. apply (IH i); [ lia | assumption ].
Qed.

(** C9 (in exact arithmetic).  On square matrices of real numbers,
    [_unconstrain_sv_less_than_one] fails with [LinAlgError] as soon as
    one of the matrices it visits has a singular value of one or more
    ([I - P_i P_i^T] is then not positive definite), and when all have
    their singular values below one it returns the matrices [A_i] with
    [B^{-1} A_i = P_i], where [B^{-1}] is the lower Cholesky factor of
    [I - P_i P_i^T]. *)
Theorem unconstrain_sv_less_than_one_spec
  (k : nat) (constrained : list (matrix R)) (order k_endog : option nat) :
  Forall (has_shape k k) constrained ->
  (forall o, order = Some o -> (o <= length constrained)%nat) ->
  k_endog = Some k \/ (k_endog = None /\ constrained <> []) ->
  let n := default_order order constrained in
  ((exists i P, (i < n)%nat /\ nth_error constrained i = Some P
                /\ sv_ge_one k P) ->
   _unconstrain_sv_less_than_one constrained order k_endog
   = Err LinAlgError)
  /\ (Forall (sv_lt_one k) (firstn n constrained) ->
      exists unconstrained,
        _unconstrain_sv_less_than_one constrained order k_endog
        = Ok unconstrained
        /\ Forall2
             (fun P A =>
                exists B_inv,
                  cholesky (msub (eye k) (dot P (transpose P))) = Ok B_inv
                  /\ lower_pos k B_inv
                  /\ (forall v, length v = k ->
                        dotv (vecmat k v B_inv) (vecmat k v B_inv)
                        = dotv v v - dotv (vecmat k v P) (vecmat k v P))
                  /\ dot B_inv A = P)
             (firstn n constrained) unconstrained).
Proof.
  intros HPs Ho Hk n. unfold _unconstrain_sv_less_than_one.
  rewrite (default_k_endog_shape HPs Hk). cbn [bind]. fold n.
  assert (Hn : (n <= length constrained)%nat).
  { subst n. destruct order as [o | ]; cbn; [ now apply Ho | lia ]. }
  rewrite (map_result_index
             (fun P =>
                B_inv <- cholesky (msub (eye k) (dot P (transpose P))) ;;
                solve_triangular B_inv P NoTrans)) by (cbn; lia).
  cbn [skipn].
  assert (HPn : Forall (has_shape k k) (firstn n constrained))
    by now apply Forall_firstn.
  split.
  - intros (i & P & Hi & EP & Hge). apply map_result_err.
    + eapply Forall_impl; [ | exact HPn ].
      intros P' HP'. now apply unconstrain_sv_step_total.
    + apply Exists_exists. exists P. split.
      * now apply (In_firstn_nth_error constrained Hi).
      * apply unconstrain_sv_step_fails; [ | assumption ].
        rewrite Forall_forall in HPs. apply HPs.
        now apply (nth_error_In constrained i).
  - intros Hsv. apply map_result_ok.
    rewrite Forall_forall in *. intros P HP.
    destruct (unconstrain_sv_step (HPn P HP) (Hsv P HP))
      as (B_inv & A & EB & EA & HL & Hq & _ & Hdot).
    exists A. split.
    + now rewrite EB.
    + exists B_inv. auto.
Qed.

Lemma sv_ge_one_one : sv_ge_one 1 [[1]].
Proof.
  exists [1]. split; [ reflexivity | ]. split.
  - apply Exists_cons_hd. lra.
  - cbn. lra.
Qed.

Lemma unconstrain_sv_less_than_one_spec_witness :
  _unconstrain_sv_less_than_one [[[0]]; [[1]]] None None
  = Err LinAlgError.
Proof.
  apply (@unconstrain_sv_less_than_one_spec 1 [[[0]]; [[1]]] None None).
  - repeat constructor.
  - discriminate.
  - right. split; [ reflexivity | discriminate ].
  - exists 1%nat, [[1]]. split; [ cbn; lia | ].
    split; [ reflexivity | exact sv_ge_one_one ].
Defined.

End UnconstrainSingularValues.

(** A leading coefficient passed as a numpy array: the truth value of
    [polynomial[0] == 1] is a [ValueError]. *)
Lemma companion_matrix_array_leading_coefficient :
  fst (companion_matrix (F:=float)
         (PyList [IArr [[1; 1]; [0; 1]]%float; IArr [[0; 0]; [1; 0]]%float]))
  = Err ValueError.
Proof. vm_compute. reflexivity. Qed.
(** ** The table of [constrain_stationary_univariate] *)

Section SetNth.
Context {A : Type}.

Lemma length_set_nth (i : nat) (x : A) (l : list A) :
  length (set_nth i x l) = length l.
Proof.
  revert i. induction l as [ | y l IH]; intros [ | i]; cbn; auto.
Qed.

Lemma nth_set_nth_same (i : nat) (x d : A) (l : list A) :
  i < length l -> nth i (set_nth i x l) d = x.
Proof.
  revert i. induction l as [ | y l IH]; intros [ | i] Hi; cbn in *;
    try lia; auto.
  apply IH. lia.
Qed.

Lemma nth_set_nth_other (i j : nat) (x d : A) (l : list A) :
  i <> j -> nth j (set_nth i x l) d = nth j l d.
Proof.
  revert i j. induction l as [ | y l IH]; intros [ | i] [ | j] Hij; cbn;
    try reflexivity; try lia.
  apply IH. lia.
Qed.

End SetNth.

Section Tables.
Local Open Scope R_scope.

Lemma has_shape_set2 (n : nat) (y : matrix R) (k i : nat) (v : R) :
  has_shape n n y -> has_shape n n (set2 y k i v).
Proof.
  intros [Hl Hf]. unfold set2. split.
  - now rewrite length_set_nth.
  - rewrite Forall_forall in *. intros row Hrow.
    apply In_nth with (d := []) in Hrow as (a & Ha & <-).
    rewrite length_set_nth in Ha.
    destruct (Nat.eq_dec k a) as [-> | Hne].
    + rewrite nth_set_nth_same by lia. rewrite length_set_nth.
      apply Hf, nth_In. lia.
    + rewrite nth_set_nth_other by assumption. apply Hf, nth_In. lia.
Qed.

Lemma get2_set2_same (n : nat) (y : matrix R) (k i : nat) (v : R) :
  has_shape n n y -> (k < n)%nat -> (i < n)%nat ->
  get2 (set2 y k i v) k i = v.
Proof.
  intros [Hl Hf] Hk Hi. unfold get2, set2.
  rewrite nth_set_nth_same by lia. apply nth_set_nth_same.
  rewrite Forall_forall in Hf. rewrite (Hf (nth k y [])); [ lia | ].
  apply nth_In. lia.
Qed.

Lemma get2_set2_other (n : nat) (y : matrix R) (k i k' i' : nat) (v : R) :
  has_shape n n y -> (k <> k' \/ i <> i') ->
  get2 (set2 y k i v) k' i' = get2 y k' i'.
Proof.
  intros [Hl Hf] Hne. unfold get2, set2.
  destruct (Nat.eq_dec k k') as [<- | Hk].
  - destruct (Nat.lt_ge_cases k (length y)) as [Hlt | Hge].
    + rewrite nth_set_nth_same by assumption.
      apply nth_set_nth_other. destruct Hne; [ contradiction | assumption ].
    + rewrite !(nth_overflow _ []); rewrite ?length_set_nth; try lia.
      reflexivity.
  - now rewrite nth_set_nth_other.
Qed.

(** The loop [for i in range(k)] writes the entries of row [k] from those
    of row [k - 1]. *)
Lemma constrain_inner (n k m : nat) (rk : R) (y : matrix R) :
  has_shape n n y -> (1 <= k < n)%nat -> (m <= k)%nat ->
  let y' :=
    fold_left
      (fun y i =>
         set2 y k i (get2 y (k - 1) i + rk * get2 y (k - 1) (k - i - 1)))
      (seq 0 m) y in
  has_shape n n y'
  /\ (forall a i, a <> k -> get2 y' a i = get2 y a i)
  /\ (forall i, (i < m)%nat ->
        get2 y' k i
        = get2 y (k - 1) i + rk * get2 y (k - 1) (k - i - 1))
  /\ (forall i, (m <= i)%nat -> get2 y' k i = get2 y k i).
Proof.
  intros Hy Hk. induction m as [ | m IH]; intros Hm; cbn zeta.
  - cbn [seq fold_left].
    split; [ assumption | ]. split; [ reflexivity | ].
    split; [ intros i Hi; lia | reflexivity ].
  - rewrite seq_S, fold_left_app. cbn [fold_left Nat.add].
    destruct IH as (Hs & Hrows & Hlow & Hhigh); [ lia | ].
    cbn zeta in Hs, Hrows, Hlow, Hhigh.
    set (y' := fold_left _ (seq 0 m) y) in *.
    split; [ now apply has_shape_set2 | ].
    split; [ | split ].
    + intros a i Ha. rewrite (get2_set2_other _ Hs) by (left; lia).
      now apply Hrows.
    + intros i Hi. destruct (Nat.eq_dec i m) as [-> | Hne].
      * rewrite (get2_set2_same _ Hs) by lia.
        rewrite !Hrows by lia. reflexivity.
      * rewrite (get2_set2_other _ Hs) by (right; lia).
        apply Hlow. lia.
    + intros i Hi. rewrite (get2_set2_other _ Hs) by (right; lia).
      apply Hhigh. lia.
Qed.

Lemma length_reflect_step (r : R) (Y : vector R) :
  length (reflect_step r Y) = S (length Y).
Proof.
  unfold reflect_step.
  rewrite length_app, length_map2, length_rev, Nat.min_id. cbn. lia.
Qed.

Lemma length_reflect_rows (rs : vector R) :
  length (reflect_rows rs) = length rs.
Proof.
  unfold reflect_rows.
  enough (forall Y, length (fold_left (fun Y r => reflect_step r Y) rs Y)
                    = (length Y + length rs)%nat) as E by apply (E []).
  induction rs as [ | r rs IH]; intros Y; cbn; [ lia | ].
  rewrite IH, length_reflect_step. lia.
Qed.

Lemma reflect_rows_snoc (rs : vector R) (r : R) :
  reflect_rows (rs ++ [r]) = reflect_step r (reflect_rows rs).
Proof. unfold reflect_rows. now rewrite fold_left_app. Qed.

Lemma nth_reflect_step (r : R) (Y : vector R) (i : nat) :
  (i <= length Y)%nat ->
  nth i (reflect_step r Y) 0
  = if Nat.eqb i (length Y) then r
    else nth i Y 0 + r * nth (length Y - i - 1) Y 0.
Proof.
  intros Hi. unfold reflect_step.
  destruct (Nat.eqb_spec i (length Y)) as [-> | Hne].
  - rewrite app_nth2; rewrite length_map2, length_rev, Nat.min_id;
      [ | lia ].
    now rewrite Nat.sub_diag.
  - rewrite app_nth1
      by (rewrite length_map2, length_rev, Nat.min_id; lia).
    rewrite (nth_map2 _ _ _ 0 0) by (rewrite ?length_rev; lia).
    rewrite rev_nth by lia. do 3 f_equal. lia.
Qed.

End Tables.

Section UnivariateTable.
Local Open Scope R_scope.

Lemma has_shape_zeros (r c : nat) : has_shape r c (zeros (F:=R) r c).
Proof.
  unfold zeros. split; [ apply repeat_length | ].
  apply Forall_forall. intros row Hrow. apply repeat_spec in Hrow as ->.
  apply repeat_length.
Qed.

Lemma firstn_S_snoc {A : Type} (l : list A) (k : nat) (d : A) :
  (k < length l)%nat -> firstn (S k) l = firstn k l ++ [nth k l d].
Proof.
  revert k. induction l as [ | x l IH]; intros [ | k] Hk; cbn in *;
    try lia; try reflexivity.
  f_equal. apply IH. lia.
Qed.

(** After [k] rounds of [for k in range(n)], the rows above [k] hold the
    rows of the recursion. *)
Lemma constrain_table_rows (u : vector R) (k : nat) :
  let n := length u in
  let r := map squash u in
  let T := fold_left (constrain_row r) (seq 0 k) (zeros n n) in
  (k <= n)%nat ->
  has_shape n n T
  /\ forall j i, (j < k)%nat -> (i <= j)%nat ->
       get2 T j i = nth i (reflect_rows (firstn (S j) r)) 0.
Proof.
  intros n r. induction k as [ | k IH]; intros T Hk.
  - split; [ apply has_shape_zeros | ]. intros j i Hj. lia.
  - subst T. rewrite seq_S, fold_left_app. cbn [fold_left Nat.add].
    destruct IH as [Hs Hrows]; [ lia | ].
    set (T := fold_left (constrain_row r) (seq 0 k) (zeros n n)) in *.
    assert (Hr : length r = n) by (subst r; apply length_map).
    assert (HY : reflect_rows (firstn (S k) r)
                 = reflect_step (nth k r 0) (reflect_rows (firstn k r))).
    { rewrite (firstn_S_snoc _ 0) by lia. apply reflect_rows_snoc. }
    assert (HlY : length (reflect_rows (firstn k r)) = k).
    { rewrite length_reflect_rows, length_firstn. lia. }
    unfold constrain_row.
    destruct (Nat.eq_dec k 0) as [-> | Hk0].
    + cbn [seq fold_left]. split; [ now apply has_shape_set2 | ].
      intros j i Hj Hi. assert (j = 0%nat) as -> by lia.
      assert (i = 0%nat) as -> by lia.
      rewrite (get2_set2_same _ Hs) by lia. rewrite HY.
      rewrite nth_reflect_step by lia. now rewrite HlY.
    + destruct (@constrain_inner n k k (nth k r 0) T Hs) as
        (Hs' & Hother & Hlow & _); [ lia | lia | ].
      cbn zeta in Hs', Hother, Hlow.
      set (T' := fold_left _ (seq 0 k) T) in *.
      split; [ now apply has_shape_set2 | ].
      intros j i Hj Hi.
      destruct (Nat.eq_dec j k) as [-> | Hjk].
      * rewrite HY, nth_reflect_step by lia. rewrite HlY.
        destruct (Nat.eqb_spec i k) as [-> | Hik].
        -- now rewrite (get2_set2_same _ Hs') by lia.
        -- rewrite (get2_set2_other _ Hs') by (right; lia).
           rewrite Hlow by lia.
           rewrite !Hrows by lia.
           replace (S (k - 1)) with k by lia. reflexivity.
      * rewrite (get2_set2_other _ Hs') by (left; lia).
        rewrite Hother by assumption. apply Hrows; lia.
Qed.

(** The result of [constrain_stationary_univariate] is the last row of
    the recursion, negated. *)
Lemma constrain_univariate_rows (u c : vector R) :
  constrain_stationary_univariate u = Ok c ->
  u <> [] /\ c = vopp (reflect_rows (map squash u)).
Proof.
  unfold constrain_stationary_univariate.
  destruct (length u) as [ | n'] eqn:En; [ discriminate | ].
  intros E. injection E as <-.
  split; [ intros ->; discriminate | ]. f_equal.
  destruct (@constrain_table_rows u (length u)) as [Hs Hrows]; [ lia | ].
  cbn zeta in Hs, Hrows. fold (constrain_table u) in Hs, Hrows.
  destruct Hs as [Hl Hf]. rewrite Forall_forall in Hf.
  apply nth_ext with (d := 0) (d' := 0).
  - rewrite length_reflect_rows, length_map.
    apply Hf, nth_In. lia.
  - intros i Hi. rewrite (Hf (nth n' (constrain_table u) [])) in Hi
      by (apply nth_In; lia).
    specialize (Hrows n' i). unfold get2 in Hrows.
    cbn [fzero R_Scalar] in Hrows.
    rewrite Hrows by lia.
    rewrite <- En. rewrite firstn_all2 by (rewrite length_map; lia).
    reflexivity.
Qed.

End UnivariateTable.

(** ** Polynomials with real coefficients at a complex point *)

Section ComplexPolynomials.
Local Open Scope R_scope.

Lemma cx_eq (z w : cx) : fst z = fst w -> snd z = snd w -> z = w.
Proof. destruct z, w. cbn. now intros -> ->. Qed.

Lemma cx_norm2_nonneg (z : cx) : 0 <= cx_norm2 z.
Proof. unfold cx_norm2. nra. Qed.

Lemma cx_norm2_zero (z : cx) : cx_norm2 z = 0 -> z = (0, 0).
Proof. unfold cx_norm2. intros E. apply cx_eq; cbn; nra. Qed.

Lemma cx_norm2_mul (z w : cx) : cx_norm2 (cx_mul z w) = cx_norm2 z * cx_norm2 w.
Proof. unfold cx_norm2, cx_mul. cbn. ring. Qed.

Lemma horner_snoc (z acc : cx) (Y : vector R) (y : R) :
  horner z acc (Y ++ [y]) = cx_add (cx_mul z (horner z acc Y)) (cx_real y).
Proof. unfold horner. now rewrite fold_left_app. Qed.

Lemma horner_cons (z acc : cx) (Y : vector R) (y : R) :
  horner z acc (y :: Y) = horner z (cx_add (cx_mul z acc) (cx_real y)) Y.
Proof. reflexivity. Qed.

(** Horner's rule is linear in the coefficients and the leading term. *)
Lemma horner_combine (z : cx) (r : R) (Y Z : vector R) (a b : cx) :
  length Y = length Z ->
  horner z (cx_add a (cx_mul (cx_real r) b))
    (map2 (fun y y' => y + r * y') Y Z)
  = cx_add (horner z a Y) (cx_mul (cx_real r) (horner z b Z)).
Proof.
  revert Z a b. induction Y as [ | y Y IH]; intros [ | y' Z] a b Hl;
    try discriminate; [ reflexivity | ].
  cbn [map2]. rewrite !horner_cons.
  rewrite <- IH by (cbn in Hl; lia).
  f_equal. apply cx_eq; cbn; ring.
Qed.

Lemma rev_map2 {A B C : Type} (f : A -> B -> C) (xs : list A) (ys : list B) :
  length xs = length ys ->
  rev (map2 f xs ys) = map2 f (rev xs) (rev ys).
Proof.
  revert ys. induction xs as [ | x xs IH]; intros [ | y ys] Hl;
    try discriminate; [ reflexivity | ].
  cbn [map2 rev]. rewrite IH by (cbn in Hl; lia).
  assert (Hr : length (rev xs) = length (rev ys))
    by (rewrite !length_rev; cbn in Hl; lia).
  clear IH Hl. revert Hr. generalize (rev xs) (rev ys).
  intros l. induction l as [ | a l IH]; intros [ | b l'] Hl;
    try discriminate; [ reflexivity | ].
  cbn [app map2]. f_equal. apply IH. cbn in Hl. lia.
Qed.

(** The two polynomials of a row, from those of the row before. *)
Lemma monic_eval_step (z : cx) (r : R) (Y : vector R) :
  monic_eval z (reflect_step r Y)
  = cx_add (cx_mul z (monic_eval z Y))
      (cx_mul (cx_real r) (reverse_eval z Y)).
Proof.
  unfold monic_eval, reverse_eval, reflect_step. rewrite horner_snoc.
  replace (1, 0) with (cx_add (1, 0) (cx_mul (cx_real r) (0, 0))) at 1
    by (apply cx_eq; cbn; ring).
  rewrite horner_combine by now rewrite length_rev.
  apply cx_eq; cbn; ring.
Qed.

Lemma reverse_eval_step (z : cx) (r : R) (Y : vector R) :
  reverse_eval z (reflect_step r Y)
  = cx_add (reverse_eval z Y)
      (cx_mul (cx_real r) (cx_mul z (monic_eval z Y))).
Proof.
  unfold monic_eval, reverse_eval, reflect_step.
  rewrite rev_app_distr. cbn [rev app].
  rewrite rev_map2 by now rewrite length_rev. rewrite rev_involutive.
  rewrite horner_cons.
  replace (cx_add (cx_mul z (0, 0)) (cx_real r))
    with (cx_add (0, 0) (cx_mul (cx_real r) (1, 0)))
    by (apply cx_eq; cbn; ring).
  rewrite horner_combine by now rewrite length_rev.
  apply cx_eq; cbn; ring.
Qed.

(** Outside the open unit disc the polynomial of a row dominates its
    reverse and does not vanish, when the coefficients of reflection lie
    strictly between -1 and 1. *)
Lemma reflect_rows_dominate (z : cx) (rs : vector R) :
  1 <= cx_norm2 z ->
  Forall (fun r => r * r < 1) rs ->
  cx_norm2 (reverse_eval z (reflect_rows rs))
  <= cx_norm2 (monic_eval z (reflect_rows rs))
  /\ 0 < cx_norm2 (monic_eval z (reflect_rows rs)).
Proof.
  intros Hz Hrs. induction rs as [ | r rs IH] using rev_ind.
  - unfold reflect_rows, monic_eval, reverse_eval, cx_norm2. cbn. lra.
  - apply Forall_app in Hrs as [Hrs Hr]. inversion_clear Hr as [ | ? ? Hr' _].
    destruct (IH Hrs) as [Hle Hpos]. clear IH.
    rewrite reflect_rows_snoc, monic_eval_step, reverse_eval_step.
    set (q := monic_eval z (reflect_rows rs)) in *.
    set (q' := reverse_eval z (reflect_rows rs)) in *.
    assert (Hzq : cx_norm2 (cx_mul z q) = cx_norm2 z * cx_norm2 q)
      by apply cx_norm2_mul.
    set (w := cx_mul z q) in *. clearbody w. clearbody q q'.
    assert (Hdiff :
      cx_norm2 (cx_add w (cx_mul (cx_real r) q'))
      - cx_norm2 (cx_add q' (cx_mul (cx_real r) w))
      = (1 - r * r) * (cx_norm2 w - cx_norm2 q')).
    { unfold cx_norm2, cx_add, cx_mul, cx_real. cbn. ring. }
    assert (Hw : cx_norm2 q <= cx_norm2 w) by (rewrite Hzq; nra).
    split; [ nra | ].
    pose proof (cx_norm2_nonneg (cx_add w (cx_mul (cx_real r) q'))) as H0.
    destruct H0 as [H0 | H0]; [ assumption | exfalso ].
    assert (H1 : cx_norm2 (cx_add q' (cx_mul (cx_real r) w)) = 0).
    { pose proof (cx_norm2_nonneg (cx_add q' (cx_mul (cx_real r) w))).
      nra. }
    symmetry in H0. apply cx_norm2_zero in H0, H1.
    unfold cx_add, cx_mul, cx_real in H0, H1. cbn in H0, H1.
    injection H0 as Ha Hb. injection H1 as Hc Hd.
    assert (Hfw : (1 - r * r) * fst w = 0).
    { transitivity
        (fst w + (r * fst q' - 0 * snd q')
         - r * (fst q' + (r * fst w - 0 * snd w))); [ ring | ].
      rewrite Ha, Hc. ring. }
    assert (Hsw : (1 - r * r) * snd w = 0).
    { transitivity
        (snd w + (r * snd q' + 0 * fst q')
         - r * (snd q' + (r * snd w + 0 * fst w))); [ ring | ].
      rewrite Hb, Hd. ring. }
    apply Rmult_integral in Hfw as [Hfw | Hfw]; [ lra | ].
    apply Rmult_integral in Hsw as [Hsw | Hsw]; [ lra | ].
    assert (cx_norm2 w = 0) by (unfold cx_norm2; rewrite Hfw, Hsw; ring).
    nra.
Qed.

End ComplexPolynomials.

(** ** The eigenvalues of the companion matrix of a scalar polynomial *)

Section ScalarCompanion.
Local Open Scope R_scope.

Lemma dotv_unit_vec (n i : nat) (x : vector R) :
  length x = n -> dotv (unit_vec n i) x = nth i x 0.
Proof.
  revert i x. induction n as [ | n IH]; intros i [ | a x] Hx;
    try discriminate.
  - now destruct i.
  - injection Hx as Hx. destruct i as [ | i].
    + rewrite unit_vec_S_0. cbn [dotv nth]. rewrite dotv_zeros.
      cbn [fadd fmul R_Scalar]. ring.
    + rewrite unit_vec_S_S. cbn [dotv nth]. rewrite IH by assumption.
      cbn [fadd fmul R_Scalar]. ring.
Qed.

Lemma shift_matrix_rows (n m : nat) :
  shift_matrix (F:=R) n m
  = map (fun i => unit_vec (n * m) (i + m)) (seq 0 (n * m)).
Proof. reflexivity. Qed.

Lemma nth_matvec (M : matrix R) (x : vector R) (r : nat) :
  nth r (matvec M x) 0 = dotv (nth r M []) x.
Proof.
  unfold matvec. change 0 with (dotv (F:=R) [] x) at 1.
  apply (map_nth (fun row => dotv row x)).
Qed.

Lemma length_scalar_companion (c0 : R) (cs : vector R) :
  length (scalar_companion (length cs) (c0 :: cs)) = length cs.
Proof.
  unfold scalar_companion, set_col0, shift_matrix, build.
  rewrite length_map2, !length_map, length_seq. cbn [tl]. lia.
Qed.

(** Row [r] of the companion matrix applied to a vector. *)
Lemma scalar_companion_row (c0 : R) (cs x : vector R) (r : nat) :
  length x = length cs -> (r < length cs)%nat ->
  nth r (matvec (scalar_companion (length cs) (c0 :: cs)) x) 0
  = (- nth r cs 0 / c0) * nth 0 x 0 + nth (S r) x 0.
Proof.
  intros Hx Hr. rewrite nth_matvec.
  unfold scalar_companion, set_col0. rewrite shift_matrix_rows.
  cbn [hd tl]. rewrite Nat.mul_1_r.
  rewrite (nth_map2 _ _ _ [] 0)
    by (rewrite ?length_map, ?length_seq; lia).
  rewrite (nth_map_seq _ []) by lia.
  cbn [fopp fdiv fzero R_Scalar].
  rewrite (nth_indep _ 0 ((fun ci : R => - ci / c0) 0))
    by (rewrite length_map; lia).
  rewrite (map_nth (fun ci : R => - ci / c0) cs 0).
  destruct x as [ | x0 x]; [ cbn in Hx; lia | ].
  destruct (length cs) as [ | n] eqn:En; [ lia | ].
  cbn [Nat.add]. rewrite Nat.add_1_r, unit_vec_S_S. cbn [tl dotv nth].
  injection Hx as Hx. rewrite dotv_unit_vec by assumption.
  cbn [fadd fmul fopp fdiv fzero R_Scalar]. reflexivity.
Qed.

End ScalarCompanion.

Section ScalarCompanionRoots.
Local Open Scope R_scope.

Lemma not_nonzero_entries (v : vector R) :
  (forall i, (i < length v)%nat -> nth i v 0 = 0) -> ~ nonzero v.
Proof.
  intros Hz Hv. apply Exists_exists in Hv as (x & Hin & Hx).
  apply In_nth with (d := 0) in Hin as (i & Hi & <-). auto.
Qed.

(** An eigenvalue of the companion matrix of [1 + c_1 L + ... + c_n L^n]
    is a root of [z^n + c_1 z^(n-1) + ... + c_n]. *)
Lemma scalar_companion_root (cs : vector R) (re im : R) :
  eigenvalue (scalar_companion (length cs) (1 :: cs)) re im ->
  monic_eval (re, im) cs = (0, 0).
Proof.
  intros (xr & xi & Hxr & Hxi & Hnz & Er & Ei).
  unfold nrows in Hxr, Hxi. rewrite length_scalar_companion in Hxr, Hxi.
  set (z := (re, im)).
  assert (Hrow : forall r, (r < length cs)%nat ->
            (nth (S r) xr 0, nth (S r) xi 0)
            = cx_add (cx_mul z (nth r xr 0, nth r xi 0))
                (cx_mul (cx_real (nth r cs 0)) (nth 0 xr 0, nth 0 xi 0))).
  { intros r Hr.
    pose proof (@scalar_companion_row 1 cs xr r Hxr Hr) as E1.
    pose proof (@scalar_companion_row 1 cs xi r Hxi Hr) as E2.
    rewrite Er in E1. rewrite Ei in E2.
    rewrite nth_vsub, !nth_vscale in E1 by (rewrite length_vscale; lia).
    rewrite nth_vadd, !nth_vscale in E2 by (rewrite length_vscale; lia).
    cbn [fmul R_Scalar] in E1, E2.
    apply cx_eq; cbn; lra. }
  assert (Hall : forall r, (r <= length cs)%nat ->
            (nth r xr 0, nth r xi 0)
            = cx_mul (horner z (1, 0) (firstn r cs))
                (nth 0 xr 0, nth 0 xi 0)).
  { induction r as [ | r IH]; intros Hr.
    - cbn [firstn horner fold_left]. apply cx_eq; cbn; ring.
    - rewrite Hrow by lia. rewrite IH by lia.
      rewrite (firstn_S_snoc _ 0) by lia. rewrite horner_snoc.
      apply cx_eq; cbn; ring. }
  pose proof (Hall (length cs) (le_n _)) as Hend.
  rewrite firstn_all in Hend. fold (monic_eval z cs) in Hend.
  rewrite !nth_overflow in Hend by lia.
  apply (f_equal cx_norm2) in Hend. rewrite cx_norm2_mul in Hend.
  unfold cx_norm2 at 1 in Hend. cbn [fst snd] in Hend.
  apply cx_norm2_zero.
  destruct (Req_dec (cx_norm2 (nth 0 xr 0, nth 0 xi 0)) 0) as [H0 | H0].
  - exfalso. apply cx_norm2_zero in H0.
    assert (Hzero : forall r, (r <= length cs)%nat ->
              nth r xr 0 = 0 /\ nth r xi 0 = 0).
    { intros r Hr. specialize (Hall r Hr). rewrite H0 in Hall.
      unfold cx_mul in Hall. cbn in Hall. injection Hall as -> ->.
      split; ring. }
    destruct Hnz as [Hnz | Hnz]; revert Hnz; apply not_nonzero_entries;
      intros i Hi; apply Hzero; lia.
  - assert (E : cx_norm2 (monic_eval z cs)
                * cx_norm2 (nth 0 xr 0, nth 0 xi 0) = 0) by lra.
    apply Rmult_integral in E as [E | E]; [ assumption | contradiction ].
Qed.

Lemma squash_square (x : R) : squash x * squash x < 1.
Proof.
  unfold squash. cbn [fone fadd fmul fdiv fsqrt R_Scalar].
  assert (Hp : 0 < 1 + x * x) by nra.
  pose proof (sqrt_lt_R0 _ Hp) as Hs.
  pose proof (sqrt_sqrt (1 + x * x) (Rlt_le _ _ Hp)) as Hss.
  set (s := R_sqrt.sqrt (1 + x * x)) in *.
  replace (x / s * (x / s)) with (x * x / (s * s)) by (field; lra).
  rewrite Hss. apply Rmult_lt_reg_r with (1 + x * x); [ assumption | ].
  unfold Rdiv. rewrite Rmult_assoc, Rinv_l by lra. lra.
Qed.

Lemma vopp_involutive (v : vector R) : vopp (vopp v) = v.
Proof.
  unfold vopp. rewrite map_map. rewrite <- (map_id v) at 2.
  apply map_ext. intros x. cbn. ring.
Qed.

Lemma cabs_below_one (re im : R) :
  re * re + im * im < 1 -> cabs re im < 1.
Proof.
  intros Hlt. unfold cabs. rewrite <- sqrt_1.
  apply sqrt_lt_1_alt. nra.
Qed.

(** The coefficients [constrain_stationary_univariate] returns pass the
    stability test. *)
Lemma constrain_univariate_stable (u c : vector R) :
  constrain_stationary_univariate u = Ok c ->
  is_invertible (PyArr1 (1 :: vopp c)) 1.
Proof.
  intros E. apply constrain_univariate_rows in E as [Hu ->].
  rewrite vopp_involutive.
  set (Y := reflect_rows (map squash u)).
  assert (HlY : length Y = length u)
    by (subst Y; now rewrite length_reflect_rows, length_map).
  unfold is_invertible, companion_matrix. cbn [fst length Nat.sub].
  rewrite Nat.sub_0_r.
  destruct (Nat.ltb_spec (length Y) 1) as [Hlt | Hge].
  { destruct u; [ contradiction | cbn [length] in HlY; lia ]. }
  intros re im Hev. apply scalar_companion_root in Hev.
  apply cabs_below_one.
  destruct (Rlt_le_dec (re * re + im * im) 1) as [Hin | Hout];
    [ assumption | exfalso ].
  destruct (@reflect_rows_dominate (re, im) (map squash u)) as [_ Hpos].
  - unfold cx_norm2. cbn. lra.
  - apply Forall_forall. intros r Hr.
    apply in_map_iff in Hr as (x & <- & _). apply squash_square.
  - fold Y in Hpos. rewrite Hev in Hpos. unfold cx_norm2 in Hpos.
    cbn in Hpos. lra.
Qed.

End ScalarCompanionRoots.

(** ** Products of vectors and matrices *)

Section LinearMaps.
Local Open Scope R_scope.

Lemma dotv_vsub_r (u v w : vector R) :
  length u = length v ->
  dotv w (vsub u v) = dotv w u - dotv w v.
Proof.
  intros Hl. rewrite dotv_comm, dotv_vsub_l by assumption.
  now rewrite (dotv_comm u), (dotv_comm v).
Qed.

Lemma vecmat_nil_l (c : nat) (A : matrix R) : vecmat c [] A = repeat 0 c.
Proof. reflexivity. Qed.

Lemma vecmat_nil_r (c : nat) (y : vector R) : vecmat c y [] = repeat 0 c.
Proof. now destruct y. Qed.

Lemma vecmat_vadd (c : nat) (y z : vector R) (A : matrix R) :
  Forall (fun row => length row = c) A -> length y = length z ->
  vecmat c (vadd y z) A = vadd (vecmat c y A) (vecmat c z A).
Proof.
  intros HA. revert y z.
  induction HA as [ | row A Hrow HA IH]; intros y z Hl.
  - rewrite !vecmat_nil_r. vec_eq c. lra.
  - destruct y as [ | a y], z as [ | b z]; try discriminate.
    + change (vadd [] []) with (@nil R). rewrite !vecmat_nil_l.
      vec_eq c. lra.
    + change (vadd (a :: y) (b :: z)) with ((a + b) :: vadd y z).
      cbn [vecmat]. rewrite IH by (cbn in Hl; lia).
      assert (length (vecmat c y A) = c) by now apply length_vecmat.
      assert (length (vecmat c z A) = c) by now apply length_vecmat.
      vec_eq c. lra.
Qed.

Lemma vecmat_vsub (c : nat) (y z : vector R) (A : matrix R) :
  Forall (fun row => length row = c) A -> length y = length z ->
  vecmat c (vsub y z) A = vsub (vecmat c y A) (vecmat c z A).
Proof.
  intros HA. revert y z.
  induction HA as [ | row A Hrow HA IH]; intros y z Hl.
  - rewrite !vecmat_nil_r. vec_eq c. lra.
  - destruct y as [ | a y], z as [ | b z]; try discriminate.
    + change (vsub [] []) with (@nil R). rewrite !vecmat_nil_l.
      vec_eq c. lra.
    + change (vsub (a :: y) (b :: z)) with ((a - b) :: vsub y z).
      cbn [vecmat]. rewrite IH by (cbn in Hl; lia).
      assert (length (vecmat c y A) = c) by now apply length_vecmat.
      assert (length (vecmat c z A) = c) by now apply length_vecmat.
      vec_eq c. lra.
Qed.

Lemma vecmat_vscale (c : nat) (a : R) (y : vector R) (A : matrix R) :
  Forall (fun row => length row = c) A ->
  vecmat c (vscale a y) A = vscale a (vecmat c y A).
Proof.
  intros HA. revert y.
  induction HA as [ | row A Hrow HA IH]; intros y.
  - rewrite !vecmat_nil_r. vec_eq c. lra.
  - destruct y as [ | b y].
    + change (vscale a []) with (@nil R). rewrite !vecmat_nil_l.
      vec_eq c. lra.
    + change (vscale a (b :: y)) with ((a * b) :: vscale a y).
      cbn [vecmat]. rewrite IH.
      assert (length (vecmat c y A) = c) by now apply length_vecmat.
      vec_eq c. lra.
Qed.

Lemma vecmat_msub (n c : nat) (y : vector R) (A B : matrix R) :
  has_shape n c A -> has_shape n c B ->
  vecmat c y (msub A B) = vsub (vecmat c y A) (vecmat c y B).
Proof.
  revert y A B. induction n as [ | n IH]; intros y A B HA HB.
  - apply has_shape_zero_rows in HA as ->.
    apply has_shape_zero_rows in HB as ->.
    change (msub [] []) with (@nil (list R)). rewrite !vecmat_nil_r.
    vec_eq c. lra.
  - apply has_shape_S_rows in HA as (a & A' & -> & Ha & HA').
    apply has_shape_S_rows in HB as (b & B' & -> & Hb & HB').
    change (msub (a :: A') (b :: B')) with (vsub a b :: msub A' B').
    destruct y as [ | y0 y].
    + rewrite !vecmat_nil_l. vec_eq c. lra.
    + cbn [vecmat]. rewrite (IH y A' B' HA' HB').
      assert (length (vecmat c y A') = c)
        by (apply length_vecmat, HA').
      assert (length (vecmat c y B') = c)
        by (apply length_vecmat, HB').
      vec_eq c. lra.
Qed.

Lemma length_vopp (u : vector R) : length (vopp u) = length u.
Proof. apply length_map. Qed.

Lemma nth_vopp (u : vector R) (i : nat) : nth i (vopp u) 0 = - nth i u 0.
Proof.
  unfold vopp. revert i. induction u as [ | x u IH]; intros [ | i]; cbn;
    try lra.
  apply IH.
Qed.

Lemma vecmat_mopp (n c : nat) (y : vector R) (A : matrix R) :
  has_shape n c A -> vecmat c y (mopp A) = vopp (vecmat c y A).
Proof.
  revert y A. induction n as [ | n IH]; intros y A HA.
  - apply has_shape_zero_rows in HA as ->.
    change (mopp []) with (@nil (list R)). rewrite !vecmat_nil_r.
    unfold vopp. rewrite map_repeat. f_equal. cbn. ring.
  - apply has_shape_S_rows in HA as (a & A' & -> & Ha & HA').
    change (mopp (a :: A')) with (vopp a :: mopp A').
    destruct y as [ | y0 y].
    + rewrite !vecmat_nil_l. unfold vopp. rewrite map_repeat.
      f_equal. cbn. ring.
    + cbn [vecmat]. rewrite (IH y A' HA').
      assert (length (vecmat c y A') = c)
        by (apply length_vecmat, HA').
      assert (length (vopp a) = c) by now rewrite length_vopp.
      assert (length (vopp (vecmat c y A')) = c)
        by now rewrite length_vopp.
      apply nth_ext with (d := 0) (d' := 0).
      * rewrite length_vopp. len_simpl. lia.
      * intros i Hi. assert (i < c)%nat by (revert Hi; len_simpl; lia).
        rewrite nth_vadd, nth_vscale, !nth_vopp, nth_vadd, nth_vscale
          by (len_simpl; lia).
        cbn [fmul R_Scalar]. ring.
Qed.

(** [y (A X) = (y A) X] *)
Lemma vecmat_rows (n c : nat) (y : vector R) (A X : matrix R) :
  Forall (fun row => length row = c) X ->
  Forall (fun row => length row = n) A ->
  vecmat c y (map (fun row => vecmat c row X) A)
  = vecmat c (vecmat n y A) X.
Proof.
  intros HX HA. revert y. induction HA as [ | a A Ha HA IH]; intros y.
  - cbn [map]. rewrite !vecmat_nil_r. now rewrite vecmat_zeros_l.
  - destruct y as [ | y0 y]; cbn [map vecmat].
    + now rewrite vecmat_zeros_l.
    + rewrite IH, vecmat_vadd, vecmat_vscale; auto.
      rewrite length_vscale, length_vecmat; auto.
Qed.

End LinearMaps.

(** ** Transposes, and the systems [L^T X = B] *)

Section Adjoints.
Local Open Scope R_scope.

Lemma matvec_cons (row : vector R) (M : matrix R) (x : vector R) :
  matvec (row :: M) x = dotv row x :: matvec M x.
Proof. reflexivity. Qed.

Lemma length_matvec (M : matrix R) (x : vector R) :
  length (matvec M x) = length M.
Proof. apply length_map. Qed.

(** [X^T v = (v^T X)^T] *)
Lemma matvec_transpose (n c : nat) (X : matrix R) (v : vector R) :
  has_shape (S n) c X -> length v = S n ->
  matvec (transpose X) v = vecmat c v X.
Proof.
  intros HX Hv. unfold transpose. rewrite (ncols_shape HX).
  rewrite <- (@dotv_transpose_n _ _ v X HX Hv). unfold matvec.
  apply map_ext. intros row. apply dotv_comm.
Qed.

Lemma transpose_involutive (n c : nat) (X : matrix R) :
  has_shape (S n) (S c) X -> transpose (transpose X) = X.
Proof.
  intros HX. pose proof (has_shape_transpose HX) as HT.
  unfold transpose at 1. rewrite (ncols_shape HT).
  unfold transpose. rewrite (ncols_shape HX).
  now apply transpose_n_involutive.
Qed.

(** [w^T X^T = (X w)^T] *)
Lemma vecmat_transpose (n c : nat) (X : matrix R) (w : vector R) :
  has_shape (S n) (S c) X -> length w = S c ->
  vecmat (S n) w (transpose X) = matvec X w.
Proof.
  intros HX Hw. pose proof (has_shape_transpose HX) as HT.
  rewrite <- (@matvec_transpose _ _ (transpose X) w HT Hw).
  now rewrite (transpose_involutive HX).
Qed.

Lemma dot_rows (n c : nat) (A X : matrix R) :
  has_shape (S n) c X -> Forall (fun row => length row = S n) A ->
  dot A X = map (fun row => vecmat c row X) A.
Proof.
  intros HX HA. unfold dot, dot_T, transpose. rewrite (ncols_shape HX).
  apply map_ext_in. intros row Hrow. rewrite Forall_forall in HA.
  apply dotv_transpose_n with (n := S n); auto.
Qed.

(** [y (A X) = (y A) X] *)
Lemma vecmat_dot (n c : nat) (y : vector R) (A X : matrix R) :
  has_shape (S n) c X -> Forall (fun row => length row = S n) A ->
  vecmat c y (dot A X) = vecmat c (vecmat (S n) y A) X.
Proof.
  intros HX HA. rewrite (dot_rows HX HA).
  apply vecmat_rows; [ apply HX | assumption ].
Qed.

(** [(A a) . w = a . (w^T A)] *)
Lemma dotv_matvec (c : nat) (a w : vector R) (A : matrix R) :
  length a = c -> Forall (fun row => length row = c) A ->
  dotv (matvec A a) w = dotv a (vecmat c w A).
Proof. intros Ha HA. now apply dotv_rows_vecmat. Qed.

Lemma map_hd_map2_cons (col : vector R) (L : matrix R) :
  length col = length L -> map (hd 0) (map2 cons col L) = col.
Proof.
  revert L. induction col as [ | c col IH]; intros [ | r L] Hl; cbn in *;
    try reflexivity; try lia.
  f_equal. apply IH. lia.
Qed.

Lemma dotv_map2_quot (d : R) (b s w : vector R) :
  d <> 0 -> length b = length s ->
  d * dotv (map2 (fun bj sj => (bj - sj) / d) b s) w
  = dotv b w - dotv s w.
Proof.
  intros Hd. revert s w.
  induction b as [ | b0 b IH]; intros [ | s0 s] [ | w0 w] Hl;
    try discriminate; cbn [map2 dotv]; cbn [fadd fmul fzero R_Scalar];
    try lra.
  specialize (IH s w ltac:(cbn in Hl; lia)).
  rewrite Rmult_plus_distr_l, IH. field. assumption.
Qed.

(** Back substitution solves [L^T X = B]: for every [w],
    [L^T (X w) = B w]. *)
Lemma solve_lower_T_n_spec (n : nat) (L : matrix R) :
  lower_pos n L ->
  forall (c : nat) (B : matrix R),
    has_shape n c B ->
    exists X,
      solve_lower_T_n n L B = Ok X /\ has_shape n c X
      /\ forall w, length w = c ->
           vecmat n (matvec X w) L = matvec B w.
Proof.
  induction 1 as [ | n d col L Hd Hcol HL IH]; intros c B HB.
  - apply has_shape_zero_rows in HB as ->. exists []. cbn.
    repeat split; constructor.
  - apply has_shape_S_rows in HB as (b & Brows & -> & Hb & HBrows).
    pose proof (has_shape_lower_pos HL) as [HLl HLf].
    cbn [solve_lower_T_n feqb fzero fdiv fsub R_Scalar].
    rewrite Reqb_false by lra.
    rewrite map_tl_map2_cons by lia.
    destruct (IH c Brows HBrows) as (X' & E & HX' & Hsol).
    rewrite E. cbn [bind]. rewrite map_hd_map2_cons by lia.
    set (s := vecmat (length b) col X').
    assert (Hs : length s = c).
    { subst s. rewrite Hb. apply length_vecmat, HX'. }
    eexists. split; [ reflexivity | ]. split.
    + apply has_shape_cons; [ | assumption ].
      rewrite length_map2. lia.
    + intros w Hw. rewrite !matvec_cons.
      rewrite vecmat_lower_cons by (auto; split; auto).
      rewrite (Hsol w Hw). f_equal.
      rewrite Rmult_comm, dotv_map2_quot by (lra || congruence).
      subst s. rewrite Hb.
      rewrite (dotv_comm (vecmat c col X')).
      rewrite <- (dotv_matvec (c:=c)) by (auto; apply HX').
      lra.
Qed.

End Adjoints.

(** ** Bilinear forms *)

Section BilinearForms.
Local Open Scope R_scope.

Variable k : nat.
Variable M : matrix R.
Hypothesis HM : Forall (fun row => length row = k) M.

Lemma bform_vadd_l (x x' z : vector R) :
  length x = length x' ->
  bform k M (vadd x x') z = bform k M x z + bform k M x' z.
Proof.
  intros Hl. unfold bform. rewrite vecmat_vadd by assumption.
  apply dotv_vadd_l. now rewrite !length_vecmat.
Qed.

Lemma bform_vsub_l (x x' z : vector R) :
  length x = length x' ->
  bform k M (vsub x x') z = bform k M x z - bform k M x' z.
Proof.
  intros Hl. unfold bform. rewrite vecmat_vsub by assumption.
  apply dotv_vsub_l. now rewrite !length_vecmat.
Qed.

Lemma bform_vscale_l (a : R) (x z : vector R) :
  bform k M (vscale a x) z = a * bform k M x z.
Proof.
  unfold bform. rewrite vecmat_vscale by assumption.
  apply dotv_vscale_l.
Qed.

Lemma bform_vadd_r (x z z' : vector R) :
  length z = length z' ->
  bform k M x (vadd z z') = bform k M x z + bform k M x z'.
Proof. intros Hl. unfold bform. now apply dotv_vadd_r. Qed.

Lemma bform_vsub_r (x z z' : vector R) :
  length z = length z' ->
  bform k M x (vsub z z') = bform k M x z - bform k M x z'.
Proof. intros Hl. unfold bform. now apply dotv_vsub_r. Qed.

Lemma bform_vscale_r (a : R) (x z : vector R) :
  bform k M x (vscale a z) = a * bform k M x z.
Proof. unfold bform. apply dotv_vscale_r. Qed.

Lemma bform_zeros_l (n : nat) (z : vector R) :
  bform k M (repeat 0 n) z = 0.
Proof.
  unfold bform. rewrite vecmat_zeros_l by assumption. apply dotv_zeros.
Qed.

Lemma bform_zeros_r (n : nat) (x : vector R) :
  bform k M x (repeat 0 n) = 0.
Proof. unfold bform. apply dotv_repeat_zero_r. Qed.

End BilinearForms.

Section SymmetricForms.
Local Open Scope R_scope.

Lemma rows_heads_tails (k n : nat) (rows : matrix R) :
  has_shape n (S k) rows ->
  rows = map2 cons (map (hd 0) rows) (map (@tl R) rows).
Proof.
  revert rows. induction n as [ | n IH]; intros rows Hr.
  - now apply has_shape_zero_rows in Hr as ->.
  - apply has_shape_S_rows in Hr as (r & rows' & -> & Hlen & Hr').
    destruct r as [ | a r]; [ discriminate | ].
    cbn [map map2 hd tl]. f_equal. now apply IH.
Qed.

(** The form of a matrix, from its first row and column and the form of
    the rest. *)
Lemma bform_cons (k : nat) (a x x' : R) (r0 w w' : vector R)
  (rows : matrix R) :
  length r0 = k -> has_shape k (S k) rows ->
  bform (S k) ((a :: r0) :: rows) (x :: w) (x' :: w')
  = x * a * x' + x' * dotv w (map (hd 0) rows) + x * dotv r0 w'
    + bform k (map (@tl R) rows) w w'.
Proof.
  intros Hr0 Hrows. unfold bform. cbn [vecmat].
  rewrite (rows_heads_tails Hrows) at 1.
  pose proof (has_shape_tails Hrows) as Htl.
  rewrite vecmat_cons_cols by (rewrite !length_map; reflexivity).
  change (vscale x (a :: r0)) with ((x * a) :: vscale x r0).
  change (vadd (x * a :: vscale x r0)
            (dotv w (map (hd 0) rows) :: vecmat k w (map (@tl R) rows)))
    with ((x * a + dotv w (map (hd 0) rows))
          :: vadd (vscale x r0) (vecmat k w (map (@tl R) rows))).
  cbn [dotv]. rewrite dotv_vadd_l, dotv_vscale_l.
  - cbn [fadd fmul R_Scalar]. ring.
  - rewrite length_vscale, Hr0. symmetry. apply length_vecmat, Htl.
Qed.

(** On a symmetric matrix the form read from the lower triangle is the
    form of the matrix. *)
Lemma qform_low_bform (k : nat) (M : matrix R) (v : vector R) :
  has_shape k k M -> sym_form k M -> length v = k ->
  qform_low M v = bform k M v v.
Proof.
  revert M v. induction k as [ | k IH]; intros M v HM Hsym Hv.
  - destruct v; [ | discriminate ]. reflexivity.
  - apply has_shape_S_rows in HM as (r & rows & -> & Hr & Hrows).
    destruct r as [ | a r0]; [ discriminate | ]. injection Hr as Hr0.
    destruct v as [ | x w]; [ discriminate | ]. injection Hv as Hw.
    pose proof (has_shape_tails Hrows) as Htl.
    assert (Hcol : length (map (hd 0) rows) = k)
      by (rewrite length_map; apply Hrows).
    assert (Hsub : sym_form k (map (@tl R) rows)).
    { intros y z Hy Hz.
      pose proof (Hsym (0 :: y) (0 :: z) ltac:(cbn; lia) ltac:(cbn; lia))
        as E.
      rewrite !bform_cons in E by assumption. lra. }
    assert (Hedge : dotv r0 w = dotv w (map (hd 0) rows)).
    { pose proof (Hsym (1 :: repeat 0 k) (0 :: w)
                    ltac:(cbn; rewrite repeat_length; lia)
                    ltac:(cbn; lia)) as E.
      rewrite !bform_cons in E by assumption.
      rewrite bform_zeros_l, bform_zeros_r in E by apply Htl.
      rewrite dotv_zeros, dotv_repeat_zero_r in E. lra. }
    rewrite bform_cons by assumption.
    cbn [qform_low hd]. rewrite (IH _ _ Htl Hsub Hw).
    rewrite (dotv_comm (map (hd 0) rows) w). rewrite Hedge. ring.
Qed.

(** The factor of a symmetric matrix factors its form. *)
Lemma cholesky_bform (k : nat) (M L : matrix R) :
  has_shape k k M -> sym_form k M -> cholesky M = Ok L ->
  lower_pos k L
  /\ (forall x z, length x = k -> length z = k ->
        bform k M x z = dotv (vecmat k x L) (vecmat k z L))
  /\ (forall v, length v = k -> nonzero v -> 0 < bform k M v v).
Proof.
  intros HM Hsym E. rewrite cholesky_real in E. unfold nrows in E.
  rewrite (proj1 HM) in E.
  destruct (cholesky_n_spec HM) as (Hex & Hpd & _).
  specialize (Hpd L E). destruct (Hex Hpd) as (L' & E' & HL & Hq).
  rewrite E in E'. injection E' as <-.
  pose proof (has_shape_lower_pos HL) as [_ HLf].
  assert (Hdiag : forall v, length v = k ->
            bform k M v v = dotv (vecmat k v L) (vecmat k v L)).
  { intros v Hv. rewrite <- (@qform_low_bform k M v HM Hsym Hv). now apply Hq. }
  split; [ assumption | ]. split.
  - intros x z Hx Hz.
    pose proof (Hdiag (vadd x z)
                  ltac:(rewrite length_vadd; lia)) as Exz.
    rewrite bform_vadd_l, !bform_vadd_r in Exz
      by (try apply HM; congruence).
    rewrite vecmat_vadd in Exz by (auto; congruence).
    rewrite dotv_vadd_l, !dotv_vadd_r in Exz
      by (rewrite !length_vecmat; auto).
    rewrite (Hdiag x Hx), (Hdiag z Hz) in Exz.
    rewrite (Hsym z x Hz Hx) in Exz.
    rewrite (dotv_comm (vecmat k z L) (vecmat k x L)) in Exz. lra.
  - intros v Hv Hnz. rewrite <- (@qform_low_bform k M v HM Hsym Hv).
    now apply Hpd.
Qed.

End SymmetricForms.

(** ** Complex row vectors

    A complex vector is kept as its real and imaginary parts; the
    matrices of the program are real and act on each part. *)

Section ComplexVectors.
Local Open Scope R_scope.

End ComplexVectors.

Ltac len_tac :=
  repeat first
    [ rewrite length_vadd | rewrite length_vsub | rewrite length_vscale
    | rewrite length_vopp | rewrite repeat_length
    | rewrite length_vecmat
        by (first
              [ assumption
              | match goal with
                | H : has_shape _ _ ?X |- Forall _ ?X => exact (proj2 H)
                end ])
    | match goal with
      | H : length ?v = _ |- context [length ?v] => rewrite H
      end ];
  try lia.

(** Two vectors of [k] entries with equal entries are equal. *)
Ltac pointwise k :=
  apply nth_ext with (d := 0%R) (d' := 0%R);
  [ len_tac
  | let i := fresh "i" in
    let Hi := fresh "Hi" in
    intros i Hi;
    assert (i < k)%nat by (revert Hi; len_tac);
    clear Hi;
    repeat first
      [ rewrite nth_vadd by len_tac | rewrite nth_vsub by len_tac
      | rewrite nth_vscale | rewrite nth_vopp | rewrite nth_repeat_zero ];
    cbn [fzero fone fadd fsub fmul fdiv fopp R_Scalar]; try ring ].

Lemma cvec_ext (x y : cvec) : fst x = fst y -> snd x = snd y -> x = y.
Proof. destruct x, y. cbn. now intros -> ->. Qed.

Ltac cv_eq k :=
  apply cvec_ext;
  unfold cv_add, cv_sub, cv_scale, cv_zero, cv_act; cbn [fst snd];
  pointwise k.

Section ComplexVectorLaws.
Local Open Scope R_scope.

Variable k : nat.

Lemma cv_len_zero : cv_len k (cv_zero k).
Proof. split; apply repeat_length. Qed.

Lemma cv_len_add (x y : cvec) :
  cv_len k x -> cv_len k y -> cv_len k (cv_add x y).
Proof. intros [? ?] [? ?]. split; cbn; len_tac. Qed.

Lemma cv_len_sub (x y : cvec) :
  cv_len k x -> cv_len k y -> cv_len k (cv_sub x y).
Proof. intros [? ?] [? ?]. split; cbn; len_tac. Qed.

Lemma cv_len_scale (z : cx) (x : cvec) :
  cv_len k x -> cv_len k (cv_scale z x).
Proof. intros [? ?]. split; cbn; len_tac. Qed.

Lemma cv_len_act (x : cvec) (M : matrix R) :
  Forall (fun row => length row = k) M -> cv_len k (cv_act k x M).
Proof. intros HM. split; cbn; len_tac. Qed.

Lemma cv_act_sub (x y : cvec) (M : matrix R) :
  Forall (fun row => length row = k) M -> cv_len k x -> cv_len k y ->
  cv_act k (cv_sub x y) M = cv_sub (cv_act k x M) (cv_act k y M).
Proof.
  intros HM [? ?] [? ?]. unfold cv_act, cv_sub. cbn [fst snd].
  rewrite !vecmat_vsub by (auto; congruence). reflexivity.
Qed.

Lemma cv_act_scale (z : cx) (x : cvec) (M : matrix R) :
  Forall (fun row => length row = k) M -> cv_len k x ->
  cv_act k (cv_scale z x) M = cv_scale z (cv_act k x M).
Proof.
  intros HM [? ?]. unfold cv_act, cv_scale. cbn [fst snd].
  rewrite vecmat_vsub, vecmat_vadd, !vecmat_vscale
    by (auto; len_tac).
  reflexivity.
Qed.

Lemma cv_act_zero (M : matrix R) :
  Forall (fun row => length row = k) M ->
  cv_act k (cv_zero k) M = cv_zero k.
Proof.
  intros HM. unfold cv_act, cv_zero. cbn [fst snd].
  now rewrite vecmat_zeros_l.
Qed.

End ComplexVectorLaws.

(** ** The polynomials of the recursion of Lemma 2.1 *)

Section LevinsonPolynomials.
Local Open Scope R_scope.

Variable k' : nat.
Let k := S k'.
Variable z : cx.

Lemma cv_act_levinson (y : cvec) (f phi c : matrix R) :
  has_shape k k f -> has_shape k k phi -> has_shape k k c ->
  cv_act k y (msub f (dot phi c))
  = cv_sub (cv_act k y f) (cv_act k (cv_act k y phi) c).
Proof.
  intros Hf Hphi Hc. unfold cv_act, cv_sub. cbn [fst snd].
  assert (Hd : has_shape k k (dot phi c))
    by (apply has_shape_dot; [ apply Hphi | assumption ]).
  rewrite !(vecmat_msub _ Hf Hd).
  rewrite !(vecmat_dot _ Hc (proj2 Hphi)). reflexivity.
Qed.

Lemma cv_horner_cons (acc y : cvec) (f : matrix R) (fs : list (matrix R)) :
  cv_horner k z acc (f :: fs) y
  = cv_horner k z (cv_sub (cv_scale z acc) (cv_act k y f)) fs y.
Proof. reflexivity. Qed.

Lemma cv_horner_snoc (acc y : cvec) (f : matrix R) (fs : list (matrix R)) :
  cv_horner k z acc (fs ++ [f]) y
  = cv_sub (cv_scale z (cv_horner k z acc fs y)) (cv_act k y f).
Proof. unfold cv_horner. now rewrite fold_left_app. Qed.

Lemma cv_len_horner (acc y : cvec) (fs : list (matrix R)) :
  Forall (has_shape k k) fs -> cv_len k acc ->
  cv_len k (cv_horner k z acc fs y).
Proof.
  intros Hfs. revert acc. induction Hfs as [ | f fs Hf Hfs IH];
    intros acc Hacc; [ assumption | ].
  rewrite cv_horner_cons. apply IH.
  apply cv_len_sub; [ now apply cv_len_scale | apply cv_len_act, Hf ].
Qed.

Lemma cv_horner_sub (a1 a2 y1 y2 : cvec) (fs : list (matrix R)) :
  Forall (has_shape k k) fs ->
  cv_len k a1 -> cv_len k a2 -> cv_len k y1 -> cv_len k y2 ->
  cv_horner k z (cv_sub a1 a2) fs (cv_sub y1 y2)
  = cv_sub (cv_horner k z a1 fs y1) (cv_horner k z a2 fs y2).
Proof.
  intros Hfs. revert a1 a2.
  induction Hfs as [ | f fs Hf Hfs IH]; intros a1 a2 H1 H2 Hy1 Hy2;
    [ reflexivity | ].
  pose proof (proj2 Hf) as Hf'.
  rewrite !cv_horner_cons.
  rewrite <- IH; auto using cv_len_sub, cv_len_scale, cv_len_act.
  f_equal. rewrite cv_act_sub by auto.
  destruct H1, H2, Hy1, Hy2. cv_eq k.
Qed.

Lemma cv_horner_scale (c : cx) (a y : cvec) (fs : list (matrix R)) :
  Forall (has_shape k k) fs -> cv_len k a -> cv_len k y ->
  cv_horner k z (cv_scale c a) fs (cv_scale c y)
  = cv_scale c (cv_horner k z a fs y).
Proof.
  intros Hfs. revert a.
  induction Hfs as [ | f fs Hf Hfs IH]; intros a Ha Hy; [ reflexivity | ].
  pose proof (proj2 Hf) as Hf'.
  rewrite !cv_horner_cons.
  rewrite <- IH; auto using cv_len_sub, cv_len_scale, cv_len_act.
  f_equal. rewrite cv_act_scale by auto.
  destruct Ha, Hy. cv_eq k.
Qed.

(** The coefficients [f_j - phi c_j] split the polynomial in two. *)
Lemma cv_horner_levinson (phi : matrix R) (a1 a2 y : cvec)
  (fs cs : list (matrix R)) :
  has_shape k k phi ->
  Forall (has_shape k k) fs -> Forall (has_shape k k) cs ->
  length fs = length cs ->
  cv_len k a1 -> cv_len k a2 ->
  cv_horner k z (cv_sub a1 a2)
    (map2 (fun f c => msub f (dot phi c)) fs cs) y
  = cv_sub (cv_horner k z a1 fs y)
      (cv_horner k z a2 cs (cv_act k y phi)).
Proof.
  intros Hphi Hfs. revert cs a1 a2.
  induction Hfs as [ | f fs Hf Hfs IH]; intros cs a1 a2 Hcs Hl H1 H2.
  - destruct cs; [ reflexivity | discriminate ].
  - destruct cs as [ | c cs]; [ discriminate | ].
    inversion_clear Hcs as [ | ? ? Hc Hcs'].
    pose proof (proj2 Hf) as Hf'. pose proof (proj2 Hc) as Hc'.
    pose proof (proj2 Hphi) as Hphi'.
    cbn [map2]. rewrite !cv_horner_cons.
    rewrite <- IH; auto using cv_len_sub, cv_len_scale, cv_len_act.
    f_equal. rewrite cv_act_levinson by assumption.
    destruct H1, H2. cv_eq k.
Qed.

Lemma Forall_rev {A : Type} (P : A -> Prop) (l : list A) :
  Forall P l -> Forall P (rev l).
Proof.
  intros Hl. apply Forall_forall. intros x Hx. apply in_rev in Hx.
  rewrite Forall_forall in Hl. auto.
Qed.

Lemma levinson_polys (phi phib : matrix R) (fs bs : list (matrix R))
  (y u : cvec) :
  has_shape k k phi -> has_shape k k phib ->
  Forall (has_shape k k) fs -> Forall (has_shape k k) bs ->
  length fs = length bs ->
  cv_len k y -> cv_len k u ->
  cv_add (fwd_poly k z (levinson_blocks phi fs bs) y)
    (bwd_poly k z (levinson_blocks phib bs fs) u)
  = cv_add
      (fwd_poly k z fs (cv_scale z (cv_sub y (cv_act k u phib))))
      (bwd_poly k z bs (cv_sub u (cv_act k y phi))).
Proof.
  intros Hphi Hphib Hfs Hbs Hl Hy Hu.
  pose proof (proj2 Hphi) as Hphi'. pose proof (proj2 Hphib) as Hphib'.
  pose proof (Forall_rev Hfs) as Hrfs. pose proof (Forall_rev Hbs) as Hrbs.
  pose proof (cv_len_zero k) as H0.
  pose proof (cv_len_act y Hphi') as Hyp.
  pose proof (cv_len_act u Hphib') as Hup.
  unfold fwd_poly, bwd_poly, levinson_blocks.
  rewrite cv_horner_snoc.
  rewrite rev_app_distr. cbn [rev app].
  rewrite rev_map2 by now rewrite length_rev.
  rewrite rev_involutive, cv_horner_cons.
  (* the forward polynomial *)
  replace y with (cv_sub y (cv_zero k)) at 1
    by (destruct Hy; cv_eq k).
  rewrite cv_horner_levinson
    by (auto; rewrite length_rev; assumption).
  (* the backward polynomial *)
  replace (cv_sub (cv_scale z (cv_zero k)) (cv_act k u phib))
    with (cv_sub (cv_zero k) (cv_act k u phib))
    by (destruct Hup; cv_eq k).
  rewrite cv_horner_levinson
    by (auto; rewrite length_rev; congruence).
  (* the right-hand side *)
  rewrite cv_horner_scale by (auto using cv_len_sub).
  rewrite cv_horner_sub by auto.
  replace (cv_zero k) with (cv_sub (cv_zero k) (cv_zero k)) at 3
    by (cv_eq k).
  rewrite cv_horner_sub by auto.
  pose proof (cv_len_horner y Hfs Hy) as [? ?].
  pose proof (cv_len_horner (cv_act k u phib) Hfs Hup) as [? ?].
  pose proof (cv_len_horner u Hrbs H0) as [? ?].
  pose proof (cv_len_horner (cv_act k y phi) Hrbs H0) as [? ?].
  destruct Hy, Hu, Hyp, Hup.
  set (A1 := cv_horner k z y fs y) in *.
  set (A2 := cv_horner k z (cv_act k u phib) fs (cv_act k u phib)) in *.
  set (G1 := cv_horner k z (cv_zero k) (rev bs) u) in *.
  set (G2 := cv_horner k z (cv_zero k) (rev bs) (cv_act k y phi)) in *.
  cv_eq k.
Qed.

End LevinsonPolynomials.

(** ** The stability of the coefficients of the recursion *)

Section LevinsonForms.
Local Open Scope R_scope.

Variable k' : nat.
Let k := S k'.
Variable z : cx.
Hypothesis Hz : 1 <= cx_norm2 z.

Lemma hform_scale (M : matrix R) (x : cvec) :
  Forall (fun row => length row = k) M -> cv_len k x ->
  hform k M (cv_scale z x) = cx_norm2 z * hform k M x.
Proof.
  intros HM [Hr Hi]. unfold hform, cv_scale, cx_norm2. cbn [fst snd].
  rewrite bform_vsub_l, bform_vadd_l by (auto; len_tac).
  rewrite !bform_vsub_r, !bform_vadd_r by (auto; len_tac).
  rewrite !bform_vscale_l, !bform_vscale_r by assumption.
  ring.
Qed.

Lemma hform_zero (M : matrix R) :
  Forall (fun row => length row = k) M -> hform k M (cv_zero k) = 0.
Proof.
  intros HM. unfold hform, cv_zero. cbn [fst snd].
  rewrite bform_zeros_l by assumption. ring.
Qed.

Section Step.

Variables Sf Sb Sf' Sb' phi phib : matrix R.
Hypothesis HS : has_shape k k Sf.
Hypothesis HSb : has_shape k k Sb.
Hypothesis Hphi : has_shape k k phi.
Hypothesis Hphib : has_shape k k phib.
Hypothesis Hsym : sym_form k Sf.
Hypothesis Hsymb : sym_form k Sb.
Hypothesis Hpsd : forall v, length v = k -> 0 <= bform k Sf v v.
Hypothesis Hcross :
  forall y u, length y = k -> length u = k ->
    bform k Sb (vecmat k y phi) u = bform k Sf y (vecmat k u phib).
Hypothesis Hnew :
  forall x, length x = k ->
    bform k Sf' x x
    = bform k Sf x x - bform k Sb (vecmat k x phi) (vecmat k x phi).
Hypothesis Hnewb :
  forall x, length x = k ->
    bform k Sb' x x
    = bform k Sb x x - bform k Sf (vecmat k x phib) (vecmat k x phib).

Lemma form_step (y u : vector R) :
  length y = k -> length u = k ->
  bform k Sf (vsub y (vecmat k u phib)) (vsub y (vecmat k u phib))
  - bform k Sb (vsub u (vecmat k y phi)) (vsub u (vecmat k y phi))
  = bform k Sf' y y - bform k Sb' u u.
Proof.
  intros Hy Hu.
  pose proof (proj2 HS) as HS'. pose proof (proj2 HSb) as HSb'.
  assert (Ha : length (vecmat k u phib) = k) by len_tac.
  assert (Hb : length (vecmat k y phi) = k) by len_tac.
  rewrite !bform_vsub_l, !bform_vsub_r by (auto; congruence).
  rewrite (Hnew y Hy), (Hnewb u Hu).
  rewrite (Hsym (vecmat k u phib) y Ha Hy).
  rewrite (Hsymb u (vecmat k y phi) Hu Hb).
  rewrite (Hcross y u Hy Hu). ring.
Qed.

Lemma stable_pair_step (fs bs : list (matrix R)) :
  Forall (has_shape k k) fs -> Forall (has_shape k k) bs ->
  length fs = length bs ->
  stable_pair k z fs bs Sf Sb ->
  stable_pair k z (levinson_blocks phi fs bs) (levinson_blocks phib bs fs)
    Sf' Sb'.
Proof.
  intros Hfs Hbs Hl IH y u Hy Hu E.
  rewrite (levinson_polys (k':=k')) in E by assumption.
  pose proof (proj2 HS) as HS'. pose proof (proj2 HSb) as HSb'.
  pose proof (cv_len_act y (proj2 Hphi)) as Hyp.
  pose proof (cv_len_act u (proj2 Hphib)) as Hup.
  set (w := cv_sub y (cv_act k u phib)) in *.
  set (v := cv_sub u (cv_act k y phi)) in *.
  assert (Hw : cv_len k w) by now apply cv_len_sub.
  assert (Hv : cv_len k v) by now apply cv_len_sub.
  specialize (IH (cv_scale z w) v (cv_len_scale z Hw) Hv E).
  rewrite hform_scale in IH by assumption.
  assert (Hpos : 0 <= hform k Sf w).
  { unfold hform. destruct Hw as [Hw1 Hw2].
    pose proof (Hpsd _ Hw1). pose proof (Hpsd _ Hw2). lra. }
  assert (Hstep : hform k Sf w - hform k Sb v
                  = hform k Sf' y - hform k Sb' u).
  { unfold hform, w, v, cv_sub, cv_act. cbn [fst snd].
    destruct Hy as [Hy1 Hy2], Hu as [Hu1 Hu2].
    pose proof (form_step _ _ Hy1 Hu1). pose proof (form_step _ _ Hy2 Hu2).
    lra. }
  nra.
Qed.

End Step.

End LevinsonForms.

Section LevinsonEnds.
Local Open Scope R_scope.

Variable k' : nat.
Local Abbreviation k := (S k').
Variable z : cx.

Lemma psd_of_pd (M : matrix R) :
  Forall (fun row => length row = k) M ->
  (forall v, length v = k -> nonzero v -> 0 < bform k M v v) ->
  forall v, length v = k -> 0 <= bform k M v v.
Proof.
  intros HM Hpd v Hv. destruct (nonzero_dec v) as [Hnz | E].
  - left. now apply Hpd.
  - rewrite E. rewrite bform_zeros_l by assumption. lra.
Qed.

Lemma cv_horner_zero (cs : list (matrix R)) :
  Forall (has_shape k k) cs ->
  cv_horner k z (cv_zero k) cs (cv_zero k) = cv_zero k.
Proof.
  induction 1 as [ | c cs Hc Hcs IH]; [ reflexivity | ].
  rewrite cv_horner_cons, cv_act_zero by apply Hc.
  replace (cv_sub (cv_scale z (cv_zero k)) (cv_zero k)) with (cv_zero k)
    by (symmetry; cv_eq (S k')).
  exact IH.
Qed.

(** Before the first step the two polynomials are [y] and [u]. *)
Lemma stable_pair_init (Sf : matrix R) :
  Forall (fun row => length row = k) Sf ->
  stable_pair k z [] [] Sf Sf.
Proof.
  intros HS y u [Hy1 Hy2] [Hu1 Hu2] E.
  unfold fwd_poly, bwd_poly in E. cbn [rev cv_horner fold_left] in E.
  assert (Hu : u = cv_scale (-1, 0) y).
  { apply cvec_ext; unfold cv_scale; cbn [fst snd].
    - pose proof (f_equal fst E) as E1.
      unfold cv_add, cv_scale, cv_zero in E1. cbn [fst snd] in E1.
      pointwise (S k').
      apply (f_equal (fun v => nth i v 0)) in E1.
      rewrite !nth_vadd, nth_vsub, !nth_vscale, !nth_repeat_zero in E1
        by len_tac.
      cbn [fmul R_Scalar] in E1. lra.
    - pose proof (f_equal snd E) as E1.
      unfold cv_add, cv_scale, cv_zero in E1. cbn [fst snd] in E1.
      pointwise (S k').
      apply (f_equal (fun v => nth i v 0)) in E1.
      rewrite !nth_vadd, !nth_vscale, !nth_repeat_zero in E1
        by len_tac.
      cbn [fmul R_Scalar] in E1. lra. }
  rewrite Hu. rewrite hform_scale by (auto; split; assumption).
  unfold cx_norm2. cbn [fst snd]. lra.
Qed.

(** After the last step: where the polynomial of the coefficients
    vanishes the vector is zero. *)
Lemma stable_pair_final (fs bs : list (matrix R)) (Sf Sb : matrix R)
  (y : cvec) :
  Forall (has_shape k k) bs ->
  Forall (fun row => length row = k) Sf ->
  Forall (fun row => length row = k) Sb ->
  (forall v, length v = k -> nonzero v -> 0 < bform k Sf v v) ->
  stable_pair k z fs bs Sf Sb ->
  cv_len k y -> fwd_poly k z fs y = cv_zero k ->
  ~ nonzero (fst y) /\ ~ nonzero (snd y).
Proof.
  intros Hbs HSf HSb Hpd Hst Hy E.
  specialize (Hst y (cv_zero k) Hy (cv_len_zero k)).
  unfold bwd_poly in Hst.
  rewrite cv_horner_zero in Hst by now apply Forall_rev.
  rewrite E, hform_zero in Hst by assumption.
  assert (E0 : cv_add (cv_zero k)
                 (cv_add (cv_zero k) (cv_scale z (cv_zero k)))
               = cv_zero k) by cv_eq (S k').
  specialize (Hst E0). unfold hform in Hst. destruct Hy as [Hy1 Hy2].
  pose proof (psd_of_pd HSf Hpd) as Hpsd.
  pose proof (Hpsd _ Hy1). pose proof (Hpsd _ Hy2).
  split; intros Hnz; apply Hpd in Hnz; auto; lra.
Qed.

End LevinsonEnds.

(** ** One step of [_compute_coefficients_from_multivariate_pacf_python] *)

Section ForEach.
Local Open Scope py_scope.

Lemma for_each_from {S : Type} (body : nat -> S -> result S)
  (Inv : nat -> S -> Prop) (n a : nat) (st0 st : S) :
  Inv a st0 ->
  (forall s st st', a <= s < a + n -> Inv s st -> body s st = Ok st' ->
     Inv (Datatypes.S s) st') ->
  for_each (seq a n) body st0 = Ok st -> Inv (a + n) st.
Proof.
  revert a st0. induction n as [ | n IH]; intros a st0 H0 Hstep E.
  - cbn in E. injection E as <-. now rewrite Nat.add_0_r.
  - cbn [seq for_each] in E. apply bind_ok in E as (st1 & E1 & E).
    replace (a + Datatypes.S n) with (Datatypes.S a + n) by lia.
    apply (IH (Datatypes.S a) st1).
    + apply (Hstep a st0); [ lia | assumption | assumption ].
    + intros s st' st'' Hs. apply Hstep. lia.
    + exact E.
Qed.

End ForEach.

Section PacfStepForms.
Local Open Scope R_scope.

Variable k' : nat.
Local Abbreviation k := (S k').

(** The form of [Sf - phi Sb phi^T]. *)
Lemma bform_update (Sf Sb phi : matrix R) (x z : vector R) :
  has_shape k k Sf -> has_shape k k Sb -> has_shape k k phi ->
  length x = k -> length z = k ->
  bform k (msub Sf (dot (dot phi Sb) (transpose phi))) x z
  = bform k Sf x z - bform k Sb (vecmat k x phi) (vecmat k z phi).
Proof.
  intros HSf HSb Hphi Hx Hz. unfold bform.
  pose proof (has_shape_transpose Hphi) as HT.
  assert (H1 : has_shape k k (dot phi Sb))
    by (apply has_shape_dot; [ apply Hphi | assumption ]).
  assert (H2 : has_shape k k (dot (dot phi Sb) (transpose phi)))
    by (apply has_shape_dot; [ apply H1 | assumption ]).
  rewrite (vecmat_msub _ HSf H2).
  rewrite (vecmat_dot _ HT (proj2 H1)).
  rewrite (vecmat_dot _ HSb (proj2 Hphi)).
  rewrite (vecmat_transpose _ Hphi) by len_tac.
  rewrite dotv_vsub_l
    by (rewrite length_matvec, (proj1 Hphi); len_tac).
  rewrite (dotv_matvec (c:=k)) by (len_tac || apply Hphi).
  reflexivity.
Qed.

(** [x (L X^T) = (X (x L))^T] *)
Lemma vecmat_dot_transpose (L X : matrix R) (x : vector R) :
  has_shape k k L -> has_shape k k X -> length x = k ->
  vecmat k x (dot L (transpose X)) = matvec X (vecmat k x L).
Proof.
  intros HL HX Hx.
  rewrite (vecmat_dot _ (has_shape_transpose HX) (proj2 HL)).
  apply (vecmat_transpose _ HX). len_tac.
Qed.

(** The two new coefficients [phi = L P Lb^-1] and [phib = Lb P^T L^-1]
    satisfy [phi Sb = Sf phib^T]. *)
Lemma cross_forms (Sf Sb Lf Lb P X Y : matrix R) (y u : vector R) :
  has_shape k k Lf -> has_shape k k Lb -> has_shape k k P ->
  has_shape k k X -> has_shape k k Y ->
  (forall x z, length x = k -> length z = k ->
     bform k Sf x z = dotv (vecmat k x Lf) (vecmat k z Lf)) ->
  (forall x z, length x = k -> length z = k ->
     bform k Sb x z = dotv (vecmat k x Lb) (vecmat k z Lb)) ->
  (forall w, length w = k ->
     vecmat k (matvec X w) Lb = matvec (transpose P) w) ->
  (forall w, length w = k -> vecmat k (matvec Y w) Lf = matvec P w) ->
  length y = k -> length u = k ->
  bform k Sb (vecmat k y (dot Lf (transpose X))) u
  = bform k Sf y (vecmat k u (dot Lb (transpose Y))).
Proof.
  intros HLf HLb HP HX HY HSf HSb HsX HsY Hy Hu.
  rewrite !vecmat_dot_transpose by assumption.
  assert (Hyl : length (vecmat k y Lf) = k) by len_tac.
  assert (Hul : length (vecmat k u Lb) = k) by len_tac.
  rewrite HSb by (rewrite ?length_matvec, ?(proj1 HX); auto).
  rewrite HSf by (rewrite ?length_matvec, ?(proj1 HY); auto).
  rewrite (HsX _ Hyl), (HsY _ Hul).
  rewrite (matvec_transpose _ HP Hyl).
  rewrite (dotv_comm (vecmat k y Lf)).
  rewrite (dotv_matvec (c:=k)) by (auto; apply HP).
  apply dotv_comm.
Qed.

End PacfStepForms.

Section PacfInner.
Local Open Scope R_scope.

Variables k order s : nat.
Variables prev_fw prev_bw : matrix R.
Hypothesis Hpf : has_shape k (k * order) prev_fw.
Hypothesis Hpb : has_shape k (k * order) prev_bw.
Hypothesis Hs : (s < order)%nat.

(** The loop [for k in range(s)] rewrites the blocks before [s], each
    from the arrays of the step before and block [s]. *)
Lemma pacf_inner_fold (m : nat) (fw1 bw1 ac1 : matrix R) :
  has_shape k (k * order) fw1 -> has_shape k (k * order) bw1 ->
  (m <= s)%nat ->
  let r :=
    fold_left (pacf_inner k s prev_fw prev_bw) (seq 0 m) (fw1, bw1, ac1) in
  has_shape k (k * order) (fst (fst r))
  /\ has_shape k (k * order) (snd (fst r))
  /\ forall j, (j < order)%nat ->
       blk k j (fst (fst r))
       = (if Nat.ltb j m
          then msub (blk k j prev_fw)
                 (dot (blk k s fw1) (blk k (s - j - 1) prev_bw))
          else blk k j fw1)
       /\ blk k j (snd (fst r))
          = (if Nat.ltb j m
             then msub (blk k j prev_bw)
                    (dot (blk k s bw1) (blk k (s - j - 1) prev_fw))
             else blk k j bw1).
Proof.
  intros Hfw Hbw. induction m as [ | m IH]; intros Hm r.
  - subst r. cbn [seq fold_left fst snd].
    split; [ assumption | ]. split; [ assumption | ].
    intros j Hj. split; reflexivity.
  - subst r. rewrite seq_S, fold_left_app. cbn [fold_left Nat.add].
    destruct IH as (Hf & Hb & Hblk); [ lia | ].
    destruct (fold_left (pacf_inner k s prev_fw prev_bw) (seq 0 m)
                (fw1, bw1, ac1)) as [[fw bw] ac].
    cbn [fst snd] in Hf, Hb, Hblk. cbn [pacf_inner fst snd].
    assert (Hm' : (m < order)%nat) by lia.
    assert (Hsm : (s - m - 1 < order)%nat) by lia.
    destruct (Hblk s Hs) as [Efs Ebs].
    destruct (Nat.ltb_spec s m) as [ | _]; [ lia | ].
    rewrite Efs, Ebs.
    assert (HXf : has_shape k k
              (msub (blk k m prev_fw)
                 (dot (blk k s fw1) (blk k (s - m - 1) prev_bw)))).
    { apply has_shape_msub; [ now apply (has_shape_blk Hpf) | ].
      apply has_shape_dot; [ | now apply (has_shape_blk Hpb) ].
      apply (has_shape_blk Hfw Hs). }
    assert (HXb : has_shape k k
              (msub (blk k m prev_bw)
                 (dot (blk k s bw1) (blk k (s - m - 1) prev_fw)))).
    { apply has_shape_msub; [ now apply (has_shape_blk Hpb) | ].
      apply has_shape_dot; [ | now apply (has_shape_blk Hpf) ].
      apply (has_shape_blk Hbw Hs). }
    split; [ now apply has_shape_set_blk | ].
    split; [ now apply has_shape_set_blk | ].
    intros j Hj. destruct (Hblk j Hj) as [Ef Eb].
    destruct (Nat.eq_dec j m) as [-> | Hne].
    + rewrite (blk_set_blk_same Hf HXf Hm'), (blk_set_blk_same Hb HXb Hm').
      destruct (Nat.ltb_spec m (S m)); [ now split | lia ].
    + rewrite (blk_set_blk_other Hf HXf Hm' Hne),
        (blk_set_blk_other Hb HXb Hm' Hne).
      rewrite Ef, Eb.
      destruct (Nat.ltb_spec j m), (Nat.ltb_spec j (S m));
        try lia; now split.
Qed.

End PacfInner.

Section PacfStep.
Local Open Scope R_scope.
Local Open Scope py_scope.

Lemma map2_seq_rev {A B C : Type} (g : A -> B -> C) (f1 : nat -> A)
  (f2 : nat -> B) (s : nat) :
  map2 g (map f1 (seq 0 s)) (rev (map f2 (seq 0 s)))
  = map (fun j => g (f1 j) (f2 (s - j - 1)%nat)) (seq 0 s).
Proof.
  apply nth_ext with (d := g (f1 0%nat) (f2 0%nat))
                     (d' := g (f1 0%nat) (f2 0%nat)).
  - now rewrite length_map2, length_rev, !length_map, length_seq,
      Nat.min_id.
  - intros j Hj.
    rewrite length_map2, length_rev, !length_map, length_seq, Nat.min_id
      in Hj.
    rewrite (nth_map2 _ _ _ (f1 0%nat) (f2 0%nat))
      by (rewrite ?length_rev, !length_map, length_seq; lia).
    rewrite rev_nth by (rewrite length_map, length_seq; lia).
    rewrite length_map, length_seq.
    rewrite !nth_map_seq by lia. cbn [Nat.add].
    now replace (s - S j)%nat with (s - j - 1)%nat by lia.
Qed.

Lemma blocks_length (k m : nat) (M : matrix R) : length (blocks k m M) = m.
Proof. unfold blocks. now rewrite length_map, length_seq. Qed.

Lemma blocks_shape (k order m : nat) (M : matrix R) :
  has_shape k (k * order) M -> (m <= order)%nat ->
  Forall (has_shape k k) (blocks k m M).
Proof.
  intros HM Hm. unfold blocks. apply Forall_forall. intros X HX.
  apply in_map_iff in HX as (j & <- & Hj). apply in_seq in Hj.
  apply (has_shape_blk HM). lia.
Qed.

(** The blocks after a step are [levinson_blocks] of those before. *)
Lemma blocks_levinson (k s : nat) (phi : matrix R) (prev other new : matrix R) :
  blk k s new = phi ->
  (forall j, (j < s)%nat ->
     blk k j new
     = msub (blk k j prev) (dot phi (blk k (s - j - 1) other))) ->
  blocks k (S s) new
  = levinson_blocks phi (blocks k s prev) (blocks k s other).
Proof.
  intros Hs Hj. unfold blocks, levinson_blocks.
  rewrite seq_S, map_app. cbn [map Nat.add]. rewrite Hs. f_equal.
  rewrite map2_seq_rev. apply map_ext_in. intros j Hin.
  apply in_seq in Hin. apply Hj. lia.
Qed.

End PacfStep.

Section PacfStepInvariant.
Local Open Scope R_scope.
Local Open Scope py_scope.

Variable k' : nat.
Local Abbreviation k := (S k').
Variable order : nat.
Variable z : cx.
Hypothesis Hz : 1 <= cx_norm2 z.
Variable P : matrix R.
Hypothesis HP : has_shape k (k * order) P.

Lemma pacf_step_ok (s : nat) (st st' : ladder R) :
  (s < order)%nat ->
  ladder_ok k order z s st ->
  pacf_step k P s st = Ok st' ->
  ladder_ok k order z (S s) st'.
Proof.
  intros Hs (Hfw & Hbw & Hfv & Hbv & Hsf & Hsb & Ecf & Ecb & Hst) E.
  destruct (cholesky_bform Hfv Hsf Ecf) as (HLf & Hff & Hpdf).
  destruct (cholesky_bform Hbv Hsb Ecb) as (HLb & Hfb & Hpdb).
  pose proof (has_shape_lower_pos HLf) as HLfs.
  pose proof (has_shape_lower_pos HLb) as HLbs.
  pose proof (has_shape_blk HP Hs) as HPs.
  pose proof (has_shape_transpose HPs) as HPt.
  unfold pacf_step in E. rewrite !solve_triangular_real in E. unfold nrows in E.
  rewrite (proj1 HLfs), (proj1 HLbs) in E.
  destruct (solve_lower_T_n_spec HLb HPt) as (X & EX & HX & HsX).
  destruct (solve_lower_T_n_spec HLf HPs) as (Y & EY & HY & HsY).
  rewrite EX in E. cbn [bind] in E. rewrite EY in E. cbn [bind] in E.
  set (phi := dot (forward_factors st) (transpose X)) in *.
  set (phib := dot (backward_factors st) (transpose Y)) in *.
  assert (Hphi : has_shape k k phi).
  { apply has_shape_dot; [ apply HLfs | now apply has_shape_transpose ]. }
  assert (Hphib : has_shape k k phib).
  { apply has_shape_dot; [ apply HLbs | now apply has_shape_transpose ]. }
  set (fw1 := set_blk k s (forwards st) phi) in *.
  set (bw1 := set_blk k s (backwards st) phib) in *.
  assert (Hfw1 : has_shape k (k * order) fw1)
    by now apply has_shape_set_blk.
  assert (Hbw1 : has_shape k (k * order) bw1)
    by now apply has_shape_set_blk.
  assert (Ephi : blk k s fw1 = phi) by now apply (blk_set_blk_same Hfw).
  assert (Ephib : blk k s bw1 = phib) by now apply (blk_set_blk_same Hbw).
  rewrite Ephi in E.
  match type of E with
  | context [fold_left ?f ?l ?a] =>
      destruct (@pacf_inner_fold k order s (forwards st) (backwards st)
                  Hfw Hbw Hs s fw1 bw1
                  (set_blk k (s + 1) (autocovariances st)
                     (transpose (dot phi (backward_variance st))))
                  Hfw1 Hbw1 (le_n s)) as (HfF & HbF & Hblk);
      destruct (fold_left f l a) as [[fwF bwF] acF]
  end.
  cbn [fst snd] in HfF, HbF, Hblk.
  destruct (Hblk s Hs) as [EfF EbF].
  rewrite Nat.ltb_irrefl, Ephi in EfF. rewrite Nat.ltb_irrefl, Ephib in EbF.
  rewrite EfF, EbF in E.
  apply bind_ok in E as (ffac & Ecf' & E).
  apply bind_ok in E as (bfac & Ecb' & E).
  injection E as <-.
  unfold ladder_ok. cbn [forwards backwards forward_variance
    backward_variance forward_factors backward_factors].
  set (Sf := forward_variance st) in *.
  set (Sb := backward_variance st) in *.
  assert (HSf' : has_shape k k
            (msub Sf (dot (dot phi Sb) (transpose phi)))).
  { apply has_shape_msub; [ assumption | ].
    apply has_shape_dot; [ | now apply has_shape_transpose ].
    unfold dot, dot_T. rewrite length_map. apply Hphi. }
  assert (HSb' : has_shape k k
            (msub Sb (dot (dot phib Sf) (transpose phib)))).
  { apply has_shape_msub; [ assumption | ].
    apply has_shape_dot; [ | now apply has_shape_transpose ].
    unfold dot, dot_T. rewrite length_map. apply Hphib. }
  split; [ assumption | ]. split; [ assumption | ].
  split; [ assumption | ]. split; [ assumption | ].
  split.
  { intros x y Hx Hy. rewrite !bform_update by assumption.
    rewrite (Hsf x y Hx Hy).
    rewrite (Hsb (vecmat k x phi) (vecmat k y phi)) by len_tac.
    reflexivity. }
  split.
  { intros x y Hx Hy. rewrite !bform_update by assumption.
    rewrite (Hsb x y Hx Hy).
    rewrite (Hsf (vecmat k x phib) (vecmat k y phib)) by len_tac.
    reflexivity. }
  split; [ assumption | ]. split; [ assumption | ].
  rewrite (@blocks_levinson k s phi (forwards st) (backwards st) fwF).
  rewrite (@blocks_levinson k s phib (backwards st) (forwards st) bwF).
  - apply (stable_pair_step (k':=k') Hz) with (Sf := Sf) (Sb := Sb);
      try assumption.
    + apply (@psd_of_pd k' Sf (proj2 Hfv) Hpdf).
    + intros y u Hy Hu. unfold phi, phib.
      apply (@cross_forms k' Sf Sb _ _ (blk (S k') s P) X Y y u
               HLfs HLbs HPs HX HY Hff Hfb HsX HsY Hy Hu).
    + intros x Hx. now apply bform_update.
    + intros x Hx. now apply bform_update.
    + apply (blocks_shape Hfw). lia.
    + apply (blocks_shape Hbw). lia.
    + now rewrite !blocks_length.
  - assumption.
  - intros j Hj. destruct (Hblk j ltac:(lia)) as [_ Eb].
    destruct (Nat.ltb_spec j s); [ | lia ].
    now rewrite Eb, Ephib.
  - assumption.
  - intros j Hj. destruct (Hblk j ltac:(lia)) as [Ef _].
    destruct (Nat.ltb_spec j s); [ | lia ].
    now rewrite Ef, Ephi.
Qed.

End PacfStepInvariant.

Section PacfRecursion.
Local Open Scope R_scope.
Local Open Scope py_scope.

Variable k' : nat.
Local Abbreviation k := (S k').

Lemma sym_form_transpose (V : matrix R) :
  has_shape k k V -> transpose V = V -> sym_form k V.
Proof.
  intros HV E x y Hx Hy. unfold bform.
  rewrite <- E at 1. rewrite (vecmat_transpose _ HV) by assumption.
  rewrite (dotv_matvec (c:=k)) by (auto; apply HV).
  apply dotv_comm.
Qed.

(** The coefficients the recursion ends with have no root outside the
    open unit disc: [y (z^p I - phi_1 z^(p-1) - ... - phi_p) = 0] only
    for [y = 0]. *)
Lemma pacf_recursion_stable (order : nat) (P V fw var : matrix R) :
  has_shape k (k * order) P -> has_shape k k V -> sym_form k V ->
  pacf_recursion P V order k = Ok (fw, var) ->
  has_shape k (k * order) fw /\ has_shape k k var
  /\ forall (z : cx) (y : cvec),
       1 <= cx_norm2 z -> cv_len k y ->
       fwd_poly k z (blocks k order fw) y = cv_zero k ->
       ~ nonzero (fst y) /\ ~ nonzero (snd y).
Proof.
  intros HP HV Hsym E. unfold pacf_recursion in E.
  apply bind_ok in E as (L & EL & E).
  apply bind_ok in E as (st & Est & E). injection E as <- <-.
  set (st0 := Ladder _ _ _ _ _ _ _) in Est.
  assert (Hall : forall z, 1 <= cx_norm2 z -> ladder_ok k order z order st).
  { intros z Hz.
    apply (@for_each_from _ (pacf_step k P) (ladder_ok k order z)
             order 0 st0 st).
    - unfold ladder_ok, st0. cbn [forwards backwards forward_variance
        backward_variance forward_factors backward_factors].
      repeat (split; [ first [ apply has_shape_zeros | assumption ] | ]).
      apply stable_pair_init, HV.
    - intros s sa sb Hs. apply (pacf_step_ok Hz HP). lia.
    - exact Est. }
  assert (H1 : 1 <= cx_norm2 (1, 0)) by (unfold cx_norm2; cbn; lra).
  split; [ apply (Hall (1, 0) H1) | ].
  split; [ apply (Hall (1, 0) H1) | ].
  intros z y Hz Hy Ey.
  destruct (Hall z Hz)
    as (Hfw & Hbw & Hfv & Hbv & Hsf & Hsb & Ecf & Ecb & Hst).
  destruct (cholesky_bform Hfv Hsf Ecf) as (_ & _ & Hpd).
  apply (@stable_pair_final k' z (blocks k order (forwards st))
           (blocks k order (backwards st))
           (forward_variance st) (backward_variance st) y);
    auto.
  - apply (blocks_shape Hbw). lia.
  - apply Hfv.
  - apply Hbv.
Qed.

End PacfRecursion.

(** ** The inverse computed by elimination *)

Section GaussJordan.
Local Open Scope R_scope.
Local Open Scope py_scope.

Variable n : nat.
Variable T : matrix R.
Hypothesis HT : has_shape n n T.

Lemma skipn_map2 {A B C : Type} (f : A -> B -> C) (m : nat) (xs : list A)
  (ys : list B) :
  skipn m (map2 f xs ys) = map2 f (skipn m xs) (skipn m ys).
Proof.
  revert xs ys. induction m as [ | m IH]; intros [ | x xs] [ | y ys];
    cbn [skipn map2]; try reflexivity.
  - now destruct (skipn m xs).
  - apply IH.
Qed.

Lemma firstn_map2 {A B C : Type} (f : A -> B -> C) (m : nat) (xs : list A)
  (ys : list B) :
  firstn m (map2 f xs ys) = map2 f (firstn m xs) (firstn m ys).
Proof.
  revert xs ys. induction m as [ | m IH]; intros [ | x xs] [ | y ys];
    cbn [firstn map2]; try reflexivity.
  f_equal. apply IH.
Qed.

Lemma gj_row_scale (d : R) (row : vector R) :
  gj_row n T row -> gj_row n T (map (fun x => x / d) row).
Proof.
  intros [Hl Hv]. split; [ now rewrite length_map | ].
  rewrite skipn_map, firstn_map, <- Hv.
  change (map (fun x => x / d) (skipn n row))
    with (map (fun x => x / d) (skipn n row)).
  assert (E : forall v : vector R, map (fun x => x / d) v = vscale (/ d) v).
  { intros v. unfold vscale. apply map_ext. intros x. cbn. unfold Rdiv.
    ring. }
  rewrite !E. apply vecmat_vscale, HT.
Qed.

Lemma gj_row_eliminate (j : nat) (p row : vector R) :
  gj_row n T p -> gj_row n T row -> gj_row n T (eliminate j p row).
Proof.
  intros [Hlp Hp] [Hl Hv]. unfold eliminate. split.
  - rewrite length_vsub, length_vscale. lia.
  - unfold vsub. rewrite skipn_map2, firstn_map2.
    fold (vsub (skipn n row) (skipn n (vscale (nth j row fzero) p))).
    fold (vsub (firstn n row) (firstn n (vscale (nth j row fzero) p))).
    unfold vscale. rewrite skipn_map, firstn_map.
    fold (vscale (nth j row fzero) (skipn n p)).
    fold (vscale (nth j row fzero) (firstn n p)).
    rewrite vecmat_vsub, vecmat_vscale, Hp, Hv; auto; try apply HT.
    rewrite length_vscale, !length_skipn. lia.
Qed.

Lemma nth_eliminate (j c : nat) (p row : vector R) :
  length p = length row ->
  nth c (eliminate j p row) 0 = nth c row 0 - nth j row 0 * nth c p 0.
Proof.
  intros Hl. unfold eliminate.
  destruct (Nat.lt_ge_cases c (length row)) as [Hc | Hc].
  - rewrite nth_vsub, nth_vscale by (rewrite ?length_vscale; lia).
    reflexivity.
  - rewrite (nth_overflow (vsub _ _))
      by (rewrite length_vsub, length_vscale; lia).
    rewrite (@nth_overflow _ row c) by lia.
    rewrite (@nth_overflow _ p c) by lia. ring.
Qed.

Lemma pick_pivot_spec (j : nat) (rows : list (vector R)) (p : vector R)
  (rest : list (vector R)) :
  pick_pivot j rows = Some (p, rest) ->
  nth j p 0 <> 0 /\ In p rows /\ incl rest rows
  /\ length rows = S (length rest).
Proof.
  revert p rest. induction rows as [ | r rows IH]; intros p rest E;
    cbn [pick_pivot] in E; [ discriminate | ].
  cbn [feqb fzero R_Scalar] in E. unfold Reqb in E.
  destruct (Req_dec_T (nth j r 0) 0) as [Hz | Hnz].
  - destruct (pick_pivot j rows) as [[p0 rest0] | ] eqn:E0;
      [ | discriminate ].
    injection E as <- <-. destruct (IH p0 rest0 eq_refl) as (H1 & H2 & H3 & H4).
    repeat split.
    + assumption.
    + now right.
    + intros x [<- | Hx]; [ now left | right; now apply H3 ].
    + cbn. lia.
  - injection E as <- <-. repeat split.
    + assumption.
    + now left.
    + intros x Hx. now right.
Qed.

Lemma gauss_jordan_inv (steps j : nat) (used todo rows : list (vector R)) :
  gj_inv n T j used todo -> length todo = steps -> (j + steps <= n)%nat ->
  gauss_jordan steps j used todo = Ok rows ->
  gj_inv n T (j + steps) rows [].
Proof.
  revert j used todo. induction steps as [ | steps IH];
    intros j used todo Hinv Hl Hn E.
  - cbn in E. injection E as <-. destruct todo; [ | discriminate ].
    now rewrite Nat.add_0_r.
  - cbn [gauss_jordan] in E.
    destruct (pick_pivot j todo) as [[p rest] | ] eqn:Ep; [ | discriminate ].
    apply pick_pivot_spec in Ep as (Hpiv & Hin & Hincl & Hlen).
    destruct Hinv as (Hu & Ht & Hlu & Hdiag & Hzero).
    rewrite Forall_forall in Hu, Ht, Hzero.
    set (p' := map (fun x => fdiv x (nth j p fzero)) p) in *.
    assert (Ep' : p' = map (fun x => x / nth j p 0) p) by reflexivity.
    assert (Hp' : gj_row n T p')
      by (rewrite Ep'; apply gj_row_scale, Ht, Hin).
    assert (Hp'l : length p' = (n + n)%nat) by apply Hp'.
    assert (Hjn : (j < n + n)%nat) by lia.
    assert (Hp'j : nth j p' 0 = 1).
    { rewrite Ep', nth_map_div. now field. }
    assert (Hp'c : forall c, (c < j)%nat -> nth c p' 0 = 0).
    { intros c Hc. rewrite Ep', nth_map_div.
      rewrite (Hzero p Hin c Hc). now field. }
    replace (j + S steps)%nat with (S j + steps)%nat by lia.
    apply IH in E; [ assumption | | rewrite length_map; lia | lia ].
    split; [ | split; [ | split; [ | split ] ] ].
    + apply Forall_app. split.
      * apply Forall_forall. intros r Hr.
        apply in_map_iff in Hr as (r0 & <- & Hr0).
        apply gj_row_eliminate; auto.
      * now constructor.
    + apply Forall_forall. intros r Hr.
      apply in_map_iff in Hr as (r0 & <- & Hr0).
      apply gj_row_eliminate; auto.
    + rewrite length_app, length_map. cbn. lia.
    + intros i c Hi Hc.
      destruct (Nat.eq_dec i j) as [-> | Hij].
      * rewrite app_nth2; rewrite length_map, Hlu; [ | lia ].
        rewrite Nat.sub_diag. cbn [nth].
        destruct (Nat.eqb_spec c j) as [-> | Hcj]; [ assumption | ].
        apply Hp'c. lia.
      * rewrite app_nth1 by (rewrite length_map; lia).
        change (@nil R) with (eliminate j p' []) at 1.
        rewrite map_nth.
        assert (Hri : In (nth i used []) used) by (apply nth_In; lia).
        rewrite nth_eliminate
          by (transitivity (n + n)%nat;
              [ exact Hp'l | symmetry; apply (Hu _ Hri) ]).
        destruct (Nat.eq_dec c j) as [-> | Hcj].
        -- rewrite Hp'j. destruct (Nat.eqb_spec j i); [ lia | ]. ring.
        -- rewrite (Hp'c c) by lia. rewrite Hdiag by lia. ring.
    + apply Forall_forall. intros r Hr.
      apply in_map_iff in Hr as (r0 & <- & Hr0). intros c Hc.
      rewrite nth_eliminate
        by (transitivity (n + n)%nat;
            [ exact Hp'l | symmetry; apply (Ht _ (Hincl _ Hr0)) ]).
      destruct (Nat.eq_dec c j) as [-> | Hcj].
      * rewrite Hp'j. ring.
      * rewrite (Hp'c c) by lia.
        rewrite (Hzero r0 (Hincl _ Hr0) c) by lia. ring.
Qed.

End GaussJordan.

Section InverseSpec.
Local Open Scope R_scope.
Local Open Scope py_scope.

Lemma map_cons_cols (a : R) (M : matrix R) :
  map (cons a) M = map2 cons (repeat a (length M)) M.
Proof.
  induction M as [ | r M IH]; cbn; [ reflexivity | now f_equal ].
Qed.

Lemma length_eye (n : nat) : length (eye (F:=R) n) = n.
Proof. apply has_shape_eye. Qed.

Lemma vecmat_eye (n : nat) (w : vector R) :
  length w = n -> vecmat n w (eye n) = w.
Proof.
  revert w. induction n as [ | n IH]; intros [ | a w] Hw;
    try discriminate; [ reflexivity | ].
  injection Hw as Hw. cbn [eye vecmat].
  rewrite map_cons_cols, length_eye.
  rewrite vecmat_cons_cols by (now rewrite repeat_length, length_eye).
  rewrite IH by assumption. cbn [fzero fone R_Scalar].
  rewrite dotv_repeat_zero_r.
  change (vscale a (1 :: repeat 0 n)) with ((a * 1) :: vscale a (repeat 0 n)).
  rewrite vscale_zeros.
  change (vadd (a * 1 :: repeat 0 n) (0 :: w))
    with ((a * 1 + 0) :: vadd (repeat 0 n) w).
  rewrite vadd_zeros_l by assumption. f_equal. ring.
Qed.

(** [np.linalg.inv] returns a left inverse: [(w S) T = w]. *)
Lemma inv_left_inverse (n : nat) (T S : matrix R) :
  has_shape n n T -> inv T = Ok S ->
  has_shape n n S
  /\ forall w, length w = n -> vecmat n (vecmat n w S) T = w.
Proof.
  intros HT E. unfold inv, nrows in E.
  rewrite (proj1 HT), (is_shape_true HT) in E.
  apply bind_ok in E as (rows & E & ES). injection ES as <-.
  assert (H0 : gj_inv n T 0 [] (map2 (@app R) T (eye n))).
  { split; [ constructor | ]. split; [ | split; [ reflexivity | split ] ].
    - apply Forall_forall. intros row Hrow.
      apply In_nth with (d := []) in Hrow as (i & Hi & <-).
      rewrite length_map2, length_eye, (proj1 HT), Nat.min_id in Hi.
      rewrite (nth_map2 _ _ _ [] [])
        by (rewrite ?length_eye, ?(proj1 HT); lia).
      assert (Hti : length (nth i T []) = n).
      { destruct HT as [Hl Hf]. rewrite Forall_forall in Hf.
        apply Hf, nth_In. lia. }
      rewrite eye_rows. rewrite (nth_map_seq _ []) by lia. cbn [Nat.add].
      split.
      + rewrite length_app, Hti, length_unit_vec. reflexivity.
      + rewrite skipn_app, firstn_app, Hti, Nat.sub_diag.
        rewrite skipn_all2 by lia. rewrite firstn_all2 by lia.
        cbn [skipn firstn app]. rewrite app_nil_r.
        now apply vecmat_unit.
    - intros i c Hi. lia.
    - apply Forall_forall. intros row _ c Hc. lia. }
  assert (Hfin : gj_inv n T (0 + n) rows []).
  { apply (@gauss_jordan_inv n T HT n 0 [] (map2 (@app R) T (eye n)) rows);
      auto.
    now rewrite length_map2, length_eye, (proj1 HT), Nat.min_id. }
  cbn [Nat.add] in Hfin.
  destruct Hfin as (Hrows & _ & Hlen & Hdiag & _).
  rewrite Forall_forall in Hrows.
  assert (HS : has_shape n n (map (skipn n) rows)).
  { split; [ now rewrite length_map | ].
    apply Forall_forall. intros r Hr.
    apply in_map_iff in Hr as (r0 & <- & Hr0).
    rewrite length_skipn, (proj1 (Hrows r0 Hr0)). lia. }
  split; [ assumption | ].
  intros w Hw.
  rewrite <- (vecmat_rows (n:=n) w (proj2 HT) (proj2 HS)).
  rewrite map_map.
  replace (map (fun x => vecmat n (skipn n x) T) rows) with (eye (F:=R) n);
    [ now apply vecmat_eye | ].
  rewrite eye_rows.
  apply nth_ext with (d := unit_vec n 0) (d' := vecmat n (skipn n []) T).
  - now rewrite !length_map, length_seq.
  - intros i Hi. rewrite length_map, length_seq in Hi.
    rewrite nth_map_seq by assumption. cbn [Nat.add].
    rewrite (map_nth (fun x => vecmat n (skipn n x) T)).
    assert (Hin : In (nth i rows []) rows) by (apply nth_In; lia).
    destruct (Hrows _ Hin) as [Hl ->].
    apply nth_ext with (d := 0) (d' := 0).
    + rewrite length_unit_vec, length_firstn, Hl. lia.
    + intros c Hc. rewrite length_unit_vec in Hc.
      rewrite nth_unit_vec by assumption.
      rewrite nth_firstn. destruct (Nat.ltb_spec c n); [ | lia ].
      symmetry. now apply Hdiag.
Qed.

End InverseSpec.

(** ** The coefficients after the change of variance (Lemma 2.3) *)

Section Conjugation.
Local Open Scope R_scope.

Variable k' : nat.
Local Abbreviation k := (S k').
Variable z : cx.
Hypothesis Hz : 1 <= cx_norm2 z.
Variables T Ti : matrix R.
Hypothesis HT : has_shape k k T.
Hypothesis HS : has_shape k k Ti.
Hypothesis HST : forall w, length w = k -> vecmat k (vecmat k w Ti) T = w.

Lemma has_shape_conjugate (phi : matrix R) :
  has_shape k k phi -> has_shape k k (conjugate T Ti phi).
Proof.
  intros Hphi. unfold conjugate. apply has_shape_dot; [ | assumption ].
  unfold dot, dot_T. rewrite length_map. apply HT.
Qed.

Lemma cv_act_conjugate (y : cvec) (phi : matrix R) :
  has_shape k k phi -> cv_len k y ->
  cv_act k (cv_act k y (conjugate T Ti phi)) T
  = cv_act k (cv_act k y T) phi.
Proof.
  intros Hphi [Hy1 Hy2]. unfold cv_act, conjugate. cbn [fst snd].
  assert (HTp : has_shape k k (dot T phi))
    by (apply has_shape_dot; [ apply HT | assumption ]).
  rewrite !(vecmat_dot _ HS (proj2 HTp)).
  rewrite !(vecmat_dot _ Hphi (proj2 HT)).
  rewrite !HST by len_tac. reflexivity.
Qed.

Lemma cv_horner_conjugate (acc y : cvec) (fs : list (matrix R)) :
  Forall (has_shape k k) fs -> cv_len k acc -> cv_len k y ->
  cv_act k (cv_horner k z acc (map (conjugate T Ti) fs) y) T
  = cv_horner k z (cv_act k acc T) fs (cv_act k y T).
Proof.
  intros Hfs. revert acc.
  induction Hfs as [ | f fs Hf Hfs IH]; intros acc Hacc Hy;
    [ reflexivity | ].
  pose proof (has_shape_conjugate Hf) as Hc.
  pose proof (proj2 Hc) as Hc'. pose proof (proj2 HT) as HT'.
  cbn [map]. rewrite !cv_horner_cons.
  rewrite IH by (auto using cv_len_sub, cv_len_scale, cv_len_act).
  f_equal.
  rewrite cv_act_sub, cv_act_scale, cv_act_conjugate
    by (auto using cv_len_scale, cv_len_act).
  reflexivity.
Qed.

Lemma hform_eye (x : cvec) :
  cv_len k x ->
  hform k (eye k) x = dotv (fst x) (fst x) + dotv (snd x) (snd x).
Proof.
  intros [H1 H2]. unfold hform, bform. now rewrite !vecmat_eye.
Qed.

Lemma cv_norm_zero (x : cvec) :
  cv_len k x -> hform k (eye k) x <= 0 ->
  ~ nonzero (fst x) /\ ~ nonzero (snd x).
Proof.
  intros Hx Hle. rewrite hform_eye in Hle by assumption.
  pose proof (dotv_self_nonneg (fst x)).
  pose proof (dotv_self_nonneg (snd x)).
  split; apply dotv_self_zero; lra.
Qed.

Lemma not_nonzero_zeros (v : vector R) :
  ~ nonzero v -> v = repeat 0 (length v).
Proof. intros Hv. destruct (nonzero_dec v); [ contradiction | assumption ]. Qed.

(** With [y T = 0] the polynomial of the conjugated coefficients is
    [z^p y]. *)
Lemma cv_horner_grows (acc y : cvec) (fs : list (matrix R)) :
  Forall (has_shape k k) fs -> cv_len k acc -> cv_len k y ->
  cv_act k y T = cv_zero k ->
  hform k (eye k) acc
  <= hform k (eye k) (cv_horner k z acc (map (conjugate T Ti) fs) y).
Proof.
  intros Hfs. revert acc.
  induction Hfs as [ | f fs Hf Hfs IH]; intros acc Hacc Hy Ey;
    [ cbn; lra | ].
  pose proof (has_shape_conjugate Hf) as Hc.
  pose proof (proj2 (has_shape_eye k)) as He.
  cbn [map]. rewrite cv_horner_cons.
  assert (E0 : cv_act k y (conjugate T Ti f) = cv_zero k).
  { destruct Hy as [Hy1 Hy2]. unfold cv_act, conjugate. cbn [fst snd].
    assert (HTp : has_shape k k (dot T f))
      by (apply has_shape_dot; [ apply HT | assumption ]).
    rewrite !(vecmat_dot _ HS (proj2 HTp)).
    rewrite !(vecmat_dot _ Hf (proj2 HT)).
    apply (f_equal fst) in Ey as E1. apply (f_equal snd) in Ey as E2.
    cbn [cv_act cv_zero fst snd] in E1, E2. rewrite E1, E2.
    rewrite !vecmat_zeros_l by (apply Hf || apply HS). reflexivity. }
  rewrite E0.
  replace (cv_sub (cv_scale z acc) (cv_zero k)) with (cv_scale z acc)
    by (destruct Hacc; cv_eq (S k')).
  etransitivity; [ | apply IH; auto using cv_len_scale ].
  rewrite hform_scale by assumption.
  assert (0 <= hform k (eye k) acc).
  { rewrite hform_eye by assumption.
    pose proof (dotv_self_nonneg (fst acc)).
    pose proof (dotv_self_nonneg (snd acc)). lra. }
  nra.
Qed.

Lemma conjugate_stable (fs : list (matrix R)) :
  Forall (has_shape k k) fs ->
  (forall y, cv_len k y -> fwd_poly k z fs y = cv_zero k ->
     ~ nonzero (fst y) /\ ~ nonzero (snd y)) ->
  forall y, cv_len k y ->
    fwd_poly k z (map (conjugate T Ti) fs) y = cv_zero k ->
    ~ nonzero (fst y) /\ ~ nonzero (snd y).
Proof.
  intros Hfs Hst y Hy E.
  pose proof (cv_len_act y (proj2 HT)) as HyT.
  assert (EyT : cv_act k y T = cv_zero k).
  { destruct (Hst (cv_act k y T) HyT) as [H1 H2].
    - unfold fwd_poly. rewrite <- cv_horner_conjugate by assumption.
      fold (fwd_poly k z (map (conjugate T Ti) fs) y). rewrite E.
      apply cv_act_zero, HT.
    - apply not_nonzero_zeros in H1, H2.
      destruct HyT as [L1 L2]. rewrite L1 in H1. rewrite L2 in H2.
      apply cvec_ext; assumption. }
  apply cv_norm_zero; [ assumption | ].
  pose proof (cv_horner_grows Hfs Hy Hy EyT) as Hle.
  fold (fwd_poly k z (map (conjugate T Ti) fs) y) in Hle. rewrite E in Hle.
  rewrite hform_zero in Hle by apply (has_shape_eye k). exact Hle.
Qed.

End Conjugation.

(** ** The rows of the companion matrix of a matrix polynomial *)

Section BlockTails.
Context {F : Type} `{Scalar F}.
Local Open Scope py_scope.

Lemma skipn_splice_0 (m : nat) (rows X : matrix F) :
  Forall (fun x => length x = m) X -> length X = length rows ->
  map (skipn m) (map2 (splice 0) rows X) = map (skipn m) rows.
Proof.
  intros HX. revert rows. induction HX as [ | x X Hx HX IH]; intros rows Hl.
  - destruct rows; [ reflexivity | discriminate ].
  - destruct rows as [ | row rows]; [ discriminate | ].
    cbn [map2 map]. f_equal.
    + unfold splice. cbn [firstn app Nat.add].
      rewrite skipn_app, <- Hx, Nat.sub_diag, skipn_all. reflexivity.
    + apply IH. cbn in Hl. lia.
Qed.

(** The assignment of a block leaves the columns after it as they were. *)
Lemma set_block_tails (r c r0 m : nat) (M X : matrix F) :
  has_shape r c M -> has_shape m m X -> r0 + m <= r ->
  map (skipn m) (set_block r0 m M X) = map (skipn m) M.
Proof.
  intros [Hr Hc] [HXl HXf] Hle. unfold set_block.
  rewrite !map_app. rewrite skipn_splice_0.
  - rewrite <- !map_app. f_equal.
    replace (skipn (r0 + m) M) with (skipn m (skipn r0 M))
      by (rewrite skipn_skipn; f_equal; lia).
    rewrite (firstn_skipn m (skipn r0 M)). apply firstn_skipn.
  - assumption.
  - rewrite length_firstn, length_skipn. lia.
Qed.

Lemma fill_blocks_tails (m r c : nat) (block : item F -> result (matrix F))
  (cs : list (item F)) (Xs : list (matrix F)) :
  Forall2 (fun ci X => block ci = Ok X /\ has_shape m m X) cs Xs ->
  forall (s : nat) (M M' : matrix F),
    has_shape r c M -> (s + length cs) * m <= r -> m <= c ->
    for_each (combine (seq s (length cs)) cs)
      (fun ic M => X <- block (snd ic) ;; assign_block (fst ic) m M X) M
    = Ok M' ->
    map (skipn m) M' = map (skipn m) M.
Proof.
  induction 1 as [ | ci X cs Xs [Hb HX] _ IH]; intros s M M' HM Hle Hmc E.
  - cbn in E. now injection E as <-.
  - cbn [length] in *. cbn [seq combine for_each fst snd] in E.
    rewrite Hb in E. cbn [bind] in E. unfold assign_block at 1 in E.
    rewrite (is_shape_true HX) in E. cbn [bind] in E.
    assert (Hs : s * m + m <= r) by nia.
    assert (HM1 : has_shape r c (set_block (s * m) m M X))
      by (eapply has_shape_set_block; eauto).
    rewrite (IH (S s) _ M' HM1) by (assumption || nia).
    eapply set_block_tails; eauto.
Qed.

End BlockTails.

Section CompanionRows.
Local Open Scope R_scope.

Lemma dotv_app (a b x : vector R) :
  dotv (a ++ b) x
  = dotv a (firstn (length a) x) + dotv b (skipn (length a) x).
Proof.
  revert x. induction a as [ | a0 a IH]; intros x.
  - cbn. ring.
  - destruct x as [ | x0 x].
    + cbn [app dotv length firstn skipn]. rewrite dotv_nil_r. cbn. ring.
    + cbn [app dotv length firstn skipn]. rewrite IH.
      cbn [fadd fmul R_Scalar]. ring.
Qed.

Lemma firstn_unit_vec (m N i : nat) :
  (m <= i)%nat -> (m <= N)%nat ->
  firstn m (unit_vec N i) = repeat 0 m.
Proof.
  intros Hi HN. apply nth_ext with (d := 0) (d' := 0).
  - rewrite length_firstn, length_unit_vec, repeat_length. lia.
  - intros c Hc. rewrite length_firstn, length_unit_vec in Hc.
    rewrite nth_firstn. destruct (Nat.ltb_spec c m); [ | lia ].
    rewrite nth_unit_vec by lia. rewrite nth_repeat_zero.
    destruct (Nat.eqb_spec c i); [ lia | reflexivity ].
Qed.

Lemma matvec_mopp (A : matrix R) (x : vector R) :
  matvec (mopp A) x = vopp (matvec A x).
Proof.
  unfold matvec, mopp, vopp. rewrite !map_map. apply map_ext.
  intros row. revert x. induction row as [ | a row IH]; intros [ | x0 x];
    cbn [map dotv]; cbn [fzero fopp fadd fmul R_Scalar]; try ring.
  fold (vopp row). unfold vopp. rewrite IH. cbn [fopp R_Scalar]. ring.
Qed.

(** A row of the companion matrix, under the first block column [Xs] and
    the shifted identity, applied to a vector. *)
Lemma shifted_row_dotv (m N r : nat) (xrow row x : vector R) :
  length xrow = m -> (m <= N)%nat -> length x = N ->
  firstn m row = xrow ->
  skipn m row = skipn m (unit_vec N (r + m)) ->
  dotv row x = dotv xrow (firstn m x) + nth (r + m) x 0.
Proof.
  intros Hx HN Hlx Hf Hs.
  rewrite <- (firstn_skipn m row), Hf, Hs, dotv_app, Hx. f_equal.
  rewrite <- (@dotv_unit_vec N (r + m) x Hlx).
  rewrite <- (firstn_skipn m (unit_vec N (r + m))) at 2.
  rewrite dotv_app, length_firstn, length_unit_vec.
  rewrite firstn_unit_vec by lia.
  rewrite Nat.min_l by lia. rewrite dotv_zeros. ring.
Qed.

End CompanionRows.

Section MarkerCompanion.
Local Open Scope R_scope.
Local Open Scope py_scope.

Lemma mopp_involutive (A : matrix R) : mopp (mopp A) = A.
Proof.
  unfold mopp. rewrite map_map. rewrite <- (map_id A) at 2.
  apply map_ext. apply vopp_involutive.
Qed.

Lemma transpose_mopp_rows (k' : nat) (C : matrix R) (x : vector R) :
  has_shape (S k') (S k') C -> length x = S k' ->
  matvec (mopp (transpose (mopp C))) x = vecmat (S k') x C.
Proof.
  intros HC Hx. rewrite matvec_mopp.
  rewrite (matvec_transpose _ (has_shape_mopp HC) Hx).
  rewrite (vecmat_mopp _ HC). apply vopp_involutive.
Qed.

(** The companion matrix of [[1, -phi_1, ..., -phi_p]] for matrices of
    two rows or more: row [i m + t] applied to [x] is entry [t] of
    [x_0^T phi_(i+1) + x_(i+1)], for the blocks [x_0, ..., x_(p-1)] of
    [x]. *)
Lemma marker_companion_rows (m' : nat) (fs : list (matrix R)) :
  let m := S (S m') in
  fs <> [] -> Forall (has_shape m m) fs ->
  exists M,
    fst (companion_matrix (coefficient_polynomial fs)) = Ok M
    /\ length M = (length fs * m)%nat
    /\ forall x, length x = (length fs * m)%nat ->
         forall i t, (i < length fs)%nat -> (t < m)%nat ->
           nth (i * m + t) (matvec M x) 0
           = nth t (vecmat m (firstn m x) (nth i fs [])) 0
             + nth (i * m + t + m) x 0.
Proof.
  intros m Hne Hfs.
  destruct fs as [ | C1 fs']; [ congruence | ]. clear Hne.
  set (fs := C1 :: fs') in *.
  set (p := length fs).
  assert (HC1 : length (mopp C1) = m).
  { unfold mopp. rewrite length_map. inversion Hfs; subst. firstorder. }
  set (Xs := map (fun C : matrix R => mopp (transpose (mopp C))) fs).
  assert (HF : Forall2
                 (fun ci X => identity_block ci = Ok X /\ has_shape m m X)
                 (map (fun C => IArr (mopp C)) fs) Xs).
  { subst Xs. apply Forall2_map_both. eapply Forall_impl; [ | exact Hfs ].
    intros C HC. cbn. split; [ reflexivity | ].
    now apply has_shape_mopp, has_shape_transpose, has_shape_mopp. }
  assert (Hlen : length (map (fun C => IArr (mopp C)) fs) = p)
    by now rewrite length_map.
  destruct (@fill_blocks_from R m (p * m)%nat (p * m)%nat (@identity_block R _)
              _ _ HF 0%nat (shift_matrix p m))
    as (M & E & HM & Hnew & _);
    [ apply has_shape_build | rewrite Hlen; lia
    | subst p fs; cbn [length]; nia | ].
  rewrite Hlen in E, Hnew.
  pose proof (@fill_blocks_tails R m (p * m)%nat (p * m)%nat
                (@identity_block R _) _ _ HF 0%nat (shift_matrix p m) M
                (has_shape_build _ _ _)) as Htl.
  rewrite Hlen in Htl. specialize (Htl (Nat.le_refl _)).
  specialize (Htl ltac:(subst p fs; cbn [length]; nia) E).
  exists M. split; [ | split ].
  - unfold coefficient_polynomial, companion_matrix. subst fs.
    cbn [map]. rewrite companion_of_matrices by (rewrite HC1; subst m; lia).
    cbn [item_eq_one fst fone feqb R_Scalar].
    rewrite Reqb_true by reflexivity. rewrite HC1.
    unfold fill_blocks. cbn [length]. rewrite length_map. exact E.
  - apply HM.
  - intros x Hx i t Hi Ht. rewrite nth_matvec.
    assert (Hr : (i * m + t < p * m)%nat) by (subst p; nia).
    assert (Hrow : In (nth (i * m + t)%nat M []) M)
      by (apply nth_In; rewrite (proj1 HM); exact Hr).
    pose proof (Hnew i Hi) as Hblk.
    cbn [Nat.add] in Hblk.
    assert (Hfirst : firstn m (nth (i * m + t)%nat M [])
                     = nth t (nth i Xs []) []).
    { rewrite <- Hblk. unfold get_block.
      change (@nil R) with (firstn m (@nil R)) at 2.
      rewrite map_nth. rewrite nth_firstn.
      destruct (Nat.ltb_spec t m); [ | lia ].
      rewrite nth_skipn. reflexivity. }
    assert (Htail : skipn m (nth (i * m + t)%nat M [])
                    = skipn m (unit_vec (p * m)%nat (i * m + t + m)%nat)).
    { apply (f_equal (fun l => nth (i * m + t)%nat l [])) in Htl.
      change (@nil R) with (skipn m (@nil R)) in Htl.
      rewrite !map_nth in Htl. rewrite Htl. f_equal.
      rewrite shift_matrix_rows. rewrite (nth_map_seq _ []) by exact Hr.
      reflexivity. }
    assert (HXi : nth i Xs [] = mopp (transpose (mopp (nth i fs [])))).
    { subst Xs.
      exact (@nth_map_default _ _
               (fun C : matrix R => mopp (transpose (mopp C))) fs i [] []
               Hi). }
    assert (HCi : has_shape m m (nth i fs [])).
    { rewrite Forall_forall in Hfs. apply Hfs, nth_In. exact Hi. }
    assert (Hx0 : length (firstn m x) = m)
      by (rewrite length_firstn, Hx; subst p; nia).
    rewrite (@shifted_row_dotv m (p * m)%nat (i * m + t)%nat
               (nth t (nth i Xs []) []) _ x); auto.
    + f_equal. rewrite HXi.
      transitivity
        (nth t (matvec (mopp (transpose (mopp (nth i fs []))))
                  (firstn m x)) 0);
        [ now rewrite nth_matvec | ].
      f_equal. now apply transpose_mopp_rows.
    + rewrite HXi.
      pose proof (has_shape_mopp
                    (has_shape_transpose (has_shape_mopp HCi))) as [Hl Hf].
      rewrite Forall_forall in Hf. apply Hf, nth_In. lia.
    + subst p. nia.
Qed.

End MarkerCompanion.

Section ScalarMarkerCompanion.
Local Open Scope R_scope.
Local Open Scope py_scope.

Lemma map_result_map {A B : Type} (f : A -> result B) (g : A -> B)
  (xs : list A) :
  Forall (fun x => f x = Ok (g x)) xs -> map_result f xs = Ok (map g xs).
Proof.
  induction 1 as [ | x xs Hx _ IH]; [ reflexivity | ].
  cbn [map_result map]. rewrite Hx. cbn [bind]. rewrite IH. reflexivity.
Qed.

Lemma shape_1_1 (C : matrix R) :
  has_shape 1 1 C -> C = [[hd 0 (hd [] C)]].
Proof.
  intros [Hl Hf]. destruct C as [ | r [ | ]]; try discriminate.
  inversion_clear Hf as [ | ? ? Hr _].
  destruct r as [ | a [ | ]]; try discriminate. reflexivity.
Qed.

(** The column of the companion matrix for the marker 1 followed by
    arrays of one row and one column: a ragged sequence, which numpy makes
    an array of objects. *)
Lemma object_companion_arrays (fs : list (matrix R)) :
  Forall (has_shape 1 1) fs ->
  scalar_sequence (length fs)
    (INum 1 :: map (fun C : matrix R => IArr (mopp C)) fs)
  = Ok (scalar_companion (length fs)
          (1 :: map (fun C : matrix R => - hd 0 (hd [] C)) fs)).
Proof.
  intros Hfs. destruct fs as [ | C1 fs'].
  - reflexivity.
  - set (fs := C1 :: fs') in *.
    unfold scalar_sequence.
    replace (forallb is_number
               (INum 1 :: map (fun C : matrix R => IArr (mopp C)) fs))
      with false by reflexivity.
    replace (forallb (fun x : item R => negb (is_number x))
               (INum 1 :: map (fun C : matrix R => IArr (mopp C)) fs))
      with false by reflexivity.
    unfold object_companion. cbn [tl hd].
    rewrite (@map_result_map _ _ object_neg
               (fun it : item R => IArr (mopp (item_rows it))))
      by (apply Forall_map, Forall_forall; reflexivity).
    cbn [bind]. rewrite map_map.
    rewrite (@map_result_map _ _ (fun x : item R => object_div x 1)
               (fun it : item R =>
                  IArr (map (map (fun a : R => a / 1)) (item_rows it))))
      by (apply Forall_map, Forall_forall; reflexivity).
    cbn [bind]. rewrite map_map, length_map, Nat.eqb_refl.
    rewrite (@map_result_map _ _ object_float
               (fun it : item R => hd 0 (hd [] (item_rows it)))).
    + cbn [bind]. rewrite map_map. unfold scalar_companion.
      cbn [tl hd item_rows]. do 2 f_equal.
      rewrite map_map. apply map_ext_in. intros C HC.
      rewrite Forall_forall in Hfs.
      rewrite (shape_1_1 (Hfs C HC)). reflexivity.
    + apply Forall_map, Forall_forall. intros C HC.
      rewrite Forall_forall in Hfs.
      rewrite (shape_1_1 (Hfs C HC)). reflexivity.
Qed.

(** The same rows for matrices of one row and one column, which
    [companion_matrix] treats as scalars. *)
Lemma scalar_coefficient_rows (fs : list (matrix R)) :
  fs <> [] -> Forall (has_shape 1 1) fs ->
  exists M,
    fst (companion_matrix (coefficient_polynomial fs)) = Ok M
    /\ length M = (length fs * 1)%nat
    /\ forall x, length x = (length fs * 1)%nat ->
         forall i t, (i < length fs)%nat -> (t < 1)%nat ->
           nth (i * 1 + t) (matvec M x) 0
           = nth t (vecmat 1 (firstn 1 x) (nth i fs [])) 0
             + nth (i * 1 + t + 1) x 0.
Proof.
  intros Hne Hfs.
  set (cs := map (fun C : matrix R => - hd 0 (hd [] C)) fs).
  assert (Hcs : length cs = length fs) by (subst cs; apply length_map).
  exists (scalar_companion (length cs) (1 :: cs)).
  split; [ | split ].
  - rewrite Hcs. subst cs. clear Hcs.
    destruct fs as [ | C1 fs']; [ congruence | ].
    unfold coefficient_polynomial, companion_matrix, companion_of_sequence.
    cbn [map length Nat.sub nth item_len fst].
    assert (HC1 : length (mopp C1) = 1%nat).
    { unfold mopp. rewrite length_map. inversion Hfs; subst. firstorder. }
    rewrite HC1. cbn [Nat.eqb Nat.ltb Nat.leb fst].
    rewrite length_map.
    change (IArr (mopp C1) :: map (fun C => IArr (mopp C)) fs')
      with (map (fun C : matrix R => IArr (mopp C)) (C1 :: fs')).
    change (S (length fs')) with (length (C1 :: fs')).
    change (- hd 0 (hd [] C1)
            :: map (fun C : matrix R => - hd 0 (hd [] C)) fs')
      with (map (fun C : matrix R => - hd 0 (hd [] C)) (C1 :: fs')).
    apply object_companion_arrays. exact Hfs.
  - rewrite length_scalar_companion. lia.
  - intros x Hx i t Hi Ht. assert (t = 0%nat) as -> by lia.
    rewrite Nat.mul_1_r in Hx. rewrite Nat.mul_1_r, !Nat.add_0_r.
    rewrite scalar_companion_row by lia.
    assert (HCi : has_shape 1 1 (nth i fs [])).
    { rewrite Forall_forall in Hfs. apply Hfs, nth_In. exact Hi. }
    rewrite (shape_1_1 HCi).
    destruct x as [ | x0 x]; [ cbn in Hx; lia | ].
    subst cs.
    rewrite (nth_indep _ 0 ((fun C : matrix R => - hd 0 (hd [] C)) []))
      by (rewrite length_map; lia).
    rewrite (map_nth (fun C : matrix R => - hd 0 (hd [] C)) fs []).
    rewrite (shape_1_1 HCi).
    cbn [hd firstn vecmat vscale vadd map map2 nth repeat].
    cbn [fzero fadd fmul R_Scalar]. rewrite Nat.add_1_r. field.
Qed.

End ScalarMarkerCompanion.

(** ** From an eigenvector of the companion matrix to a root *)

Section CompanionEigen.
Local Open Scope R_scope.

Variable k' : nat.
Local Abbreviation k := (S k').

Lemma length_block_of (i : nat) (v : vector R) : length (block_of k i v) = k.
Proof. unfold block_of. now rewrite length_map, length_seq. Qed.

Lemma nth_block_of (i t : nat) (v : vector R) :
  (t < k)%nat -> nth t (block_of k i v) 0 = nth (i * k + t) v 0.
Proof. intros Ht. unfold block_of. now rewrite nth_map_seq. Qed.

Lemma block_of_first (v : vector R) :
  (k <= length v)%nat -> block_of k 0 v = firstn k v.
Proof.
  intros Hl. apply nth_ext with (d := 0) (d' := 0).
  - rewrite length_block_of, length_firstn. lia.
  - intros t Ht. rewrite length_block_of in Ht.
    rewrite nth_block_of by assumption. rewrite nth_firstn.
    destruct (Nat.ltb_spec t k); [ reflexivity | lia ].
Qed.

Lemma block_of_overflow (i : nat) (v : vector R) :
  (length v <= i * k)%nat -> block_of k i v = repeat 0 k.
Proof.
  intros Hl. apply nth_ext with (d := 0) (d' := 0).
  - now rewrite length_block_of, repeat_length.
  - intros t Ht. rewrite length_block_of in Ht.
    rewrite nth_block_of by assumption. rewrite nth_repeat_zero.
    apply nth_overflow. lia.
Qed.

Variable fs : list (matrix R).
Variable M : matrix R.
Variables re im : R.
Hypothesis Hfs : Forall (has_shape k k) fs.
Hypothesis Hne : fs <> [].
Hypothesis HM : length M = (length fs * k)%nat.
Hypothesis Hrows :
  forall x, length x = (length fs * k)%nat ->
    forall i t, (i < length fs)%nat -> (t < k)%nat ->
      nth (i * k + t) (matvec M x) 0
      = nth t (vecmat k (firstn k x) (nth i fs [])) 0
        + nth (i * k + t + k) x 0.

Lemma companion_eigen_root :
  eigenvalue M re im ->
  exists y, cv_len k y /\ (nonzero (fst y) \/ nonzero (snd y))
            /\ fwd_poly k (re, im) fs y = cv_zero k.
Proof.
  intros (xr & xi & Hxr & Hxi & Hnz & Er & Ei).
  unfold nrows in Hxr, Hxi. rewrite HM in Hxr, Hxi.
  set (p := length fs) in *.
  assert (Hp : (1 <= p)%nat).
  { subst p. destruct fs; [ congruence | cbn; lia ]. }
  set (z := (re, im)).
  set (X := fun i => (block_of k i xr, block_of k i xi) : cvec).
  assert (HX : forall i, cv_len k (X i))
    by (intros i; split; apply length_block_of).
  assert (Hk : (k <= length xr)%nat /\ (k <= length xi)%nat) by nia.
  assert (Hstep : forall i, (i < p)%nat ->
            X (S i) = cv_sub (cv_scale z (X i)) (cv_act k (X 0%nat) (nth i fs []))).
  { intros i Hi.
    assert (HCi : has_shape k k (nth i fs [])).
    { rewrite Forall_forall in Hfs. apply Hfs, nth_In. exact Hi. }
    destruct (HX i) as [H1 H2].
    subst X. cbn beta in *. cbn [fst snd] in H1, H2.
    pose proof (length_block_of (S i) xr) as L1.
    pose proof (length_block_of (S i) xi) as L2.
    pose proof (length_block_of 0 xr) as L3.
    pose proof (length_block_of 0 xi) as L4.
    apply cvec_ext; unfold cv_sub, cv_scale, cv_act, z; cbn [fst snd].
    - pointwise (S k').
      rewrite !nth_block_of by assumption.
      pose proof (Hrows xr Hxr Hi H) as E.
      rewrite Er in E.
      rewrite nth_vsub, !nth_vscale in E
        by (rewrite !length_vscale; nia).
      rewrite <- (block_of_first xr) in E by apply Hk.
      cbn [fmul R_Scalar] in E.
      replace (S i * k + i0)%nat with (i * k + i0 + k)%nat by lia.
      lra.
    - pointwise (S k').
      rewrite !nth_block_of by assumption.
      pose proof (Hrows xi Hxi Hi H) as E.
      rewrite Ei in E.
      rewrite nth_vadd, !nth_vscale in E
        by (rewrite !length_vscale; nia).
      rewrite <- (block_of_first xi) in E by apply Hk.
      cbn [fmul R_Scalar] in E.
      replace (S i * k + i0)%nat with (i * k + i0 + k)%nat by lia.
      lra. }
  assert (Hall : forall i, (i <= p)%nat ->
            X i = cv_horner k z (X 0%nat) (firstn i fs) (X 0%nat)).
  { induction i as [ | i IH]; intros Hi; [ reflexivity | ].
    rewrite Hstep by lia. rewrite IH by lia.
    rewrite (firstn_S_snoc _ []) by (fold p; lia).
    now rewrite cv_horner_snoc. }
  exists (X 0%nat). split; [ apply HX | ]. split.
  - destruct (nonzero_dec (fst (X 0%nat))) as [ | E1]; [ now left | ].
    destruct (nonzero_dec (snd (X 0%nat))) as [ | E2]; [ now right | ].
    exfalso.
    assert (E0 : X 0%nat = cv_zero k).
    { destruct (HX 0%nat) as [L1 L2]. rewrite L1 in E1. rewrite L2 in E2.
      now apply cvec_ext. }
    assert (HXz : forall i, (i <= p)%nat -> X i = cv_zero k).
    { intros i Hi. rewrite (Hall i Hi), E0.
      apply cv_horner_zero. now apply Forall_firstn. }
    assert (Hent : forall r, (r < p * k)%nat ->
              nth r xr 0 = 0 /\ nth r xi 0 = 0).
    { intros r Hr.
      assert (Hq : (r / k < p)%nat) by (apply Nat.Div0.div_lt_upper_bound; lia).
      assert (Hm : (r mod k < k)%nat) by (apply Nat.mod_upper_bound; lia).
      pose proof (HXz (r / k)%nat ltac:(lia)) as Eb.
      assert (Er' : r = (r / k * k + r mod k)%nat).
      { rewrite (Nat.div_mod_eq r k) at 1. lia. }
      rewrite Er'. rewrite <- !nth_block_of by assumption.
      apply (f_equal fst) in Eb as Eb1. apply (f_equal snd) in Eb as Eb2.
      subst X. cbn [fst snd cv_zero] in Eb1, Eb2. rewrite Eb1, Eb2.
      now rewrite nth_repeat_zero. }
    destruct Hnz as [Hnz | Hnz]; revert Hnz; apply not_nonzero_entries;
      intros i Hi; apply Hent; lia.
  - unfold fwd_poly. rewrite <- (firstn_all fs). fold p.
    rewrite <- (Hall p (le_n p)). subst X. cbn beta.
    rewrite !block_of_overflow by lia. reflexivity.
Qed.

End CompanionEigen.

(** ** The coefficients [constrain_stationary_multivariate_python] returns *)

Section MultivariateShapes.
Local Open Scope R_scope.
Local Open Scope py_scope.

Lemma has_shape_hstack (k : nat) (Ps : list (matrix R)) :
  Forall (has_shape k k) Ps ->
  has_shape k (k * length Ps) (hstack k Ps).
Proof.
  induction 1 as [ | P Ps [HPl HPf] _ [IHl IHf]]; cbn [hstack length].
  - rewrite Nat.mul_0_r. split; [ apply repeat_length | ].
    apply Forall_forall. intros row Hrow.
    now apply repeat_spec in Hrow as ->.
  - split.
    + rewrite length_map2. lia.
    + apply Forall_map2. intros a b Ha Hb.
      rewrite Forall_forall in HPf, IHf.
      rewrite length_app, (HPf a Ha), (IHf b Hb). lia.
Qed.

Lemma cholesky_lower_pos (k : nat) (M L : matrix R) :
  has_shape k k M -> cholesky M = Ok L -> lower_pos k L.
Proof.
  intros HM E. rewrite cholesky_real in E. unfold nrows in E. rewrite (proj1 HM) in E.
  destruct (cholesky_n_spec HM) as (Hex & Hpd & _).
  destruct (Hex (Hpd L E)) as (L' & E' & HL & _).
  rewrite E in E'. now injection E' as <-.
Qed.

Lemma vecmat_mscale (c : nat) (a : R) (y : vector R) (A : matrix R) :
  Forall (fun row => length row = c) A ->
  vecmat c y (mscale a A) = vscale a (vecmat c y A).
Proof.
  intros HA. revert y. induction HA as [ | r A Hr HA IH]; intros y.
  - change (mscale a []) with (@nil (list R)). rewrite !vecmat_nil_r.
    now rewrite vscale_zeros.
  - change (mscale a (r :: A)) with (vscale a r :: mscale a A).
    destruct y as [ | y0 y].
    + rewrite !vecmat_nil_l. now rewrite vscale_zeros.
    + cbn [vecmat]. rewrite IH.
      assert (length (vecmat c y A) = c) by now apply length_vecmat.
      vec_eq c. lra.
Qed.

Lemma has_shape_mscale (r c : nat) (a : R) (A : matrix R) :
  has_shape r c A -> has_shape r c (mscale a A).
Proof.
  intros [Hl Hf]. unfold mscale. split; [ now rewrite length_map | ].
  apply Forall_map. rewrite Forall_forall in *. intros row Hrow.
  rewrite length_vscale. auto.
Qed.

Lemma surrogate_variance_form (order k : nat) :
  has_shape k k (surrogate_variance (F:=R) order k)
  /\ sym_form k (surrogate_variance (F:=R) order k).
Proof.
  unfold surrogate_variance. split.
  - apply has_shape_mscale, has_shape_eye.
  - intros x y Hx Hy. unfold bform.
    rewrite !vecmat_mscale by apply has_shape_eye.
    rewrite !vecmat_eye by assumption.
    rewrite !dotv_vscale_l. now rewrite dotv_comm.
Qed.

Lemma split_blocks_blocks (k order : nat) (M : matrix R) :
  length M = k -> split_blocks k order M = blocks k order M.
Proof.
  intros Hl. unfold split_blocks, blocks, blk.
  rewrite firstn_all2 by lia. reflexivity.
Qed.

(** The matrices [P_i] have the shape of the matrices [A_i]. *)
Lemma constrain_sv_shapes (k : nat) (Ms Ps : list (matrix R)) :
  Forall (has_shape k k) Ms ->
  _constrain_sv_less_than_one_python Ms (Some (length Ms)) (Some k) = Ok Ps ->
  length Ps = length Ms /\ Forall (has_shape k k) Ps.
Proof.
  intros HMs E. unfold _constrain_sv_less_than_one_python in E.
  cbn [default_order default_k_endog bind] in E.
  rewrite (map_result_index
             (fun A => B <- cholesky (madd (eye k) (dot A (transpose A))) ;;
                       solve_triangular B A NoTrans)) in E by (cbn; lia).
  cbn [skipn] in E. rewrite firstn_all in E.
  destruct (map_result_ok
              (fun (_ : matrix R) P => has_shape k k P)
              (fun A => B <- cholesky (madd (eye k) (dot A (transpose A))) ;;
                        solve_triangular B A NoTrans)
              (xs := Ms))
    as (Ps' & E' & HPs).
  { eapply Forall_impl; [ | exact HMs ].
    intros A HA. destruct (constrain_sv_step HA) as (P & EP & HP & _).
    now exists P. }
  rewrite E in E'. injection E' as <-. split.
  - apply (Forall2_length_eq HPs).
  - eapply Forall2_right; [ | exact HPs ]. auto.
Qed.

End MultivariateShapes.

Section MultivariateStability.
Local Open Scope R_scope.
Local Open Scope py_scope.

Variable k' : nat.
Local Abbreviation k := (S k').

(** Coefficients without a root outside the open unit disc pass the
    stability test. *)
Lemma stable_coefficients_invertible (fs : list (matrix R)) :
  fs <> [] -> Forall (has_shape k k) fs ->
  (forall (z : cx) (y : cvec),
     1 <= cx_norm2 z -> cv_len k y ->
     fwd_poly k z fs y = cv_zero k ->
     ~ nonzero (fst y) /\ ~ nonzero (snd y)) ->
  is_invertible (coefficient_polynomial fs) 1.
Proof.
  intros Hne Hfs Hst.
  assert (Hrows : exists M,
            fst (companion_matrix (coefficient_polynomial fs)) = Ok M
            /\ length M = (length fs * k)%nat
            /\ forall x, length x = (length fs * k)%nat ->
                 forall i t, (i < length fs)%nat -> (t < k)%nat ->
                   nth (i * k + t) (matvec M x) 0
                   = nth t (vecmat k (firstn k x) (nth i fs [])) 0
                     + nth (i * k + t + k) x 0).
  { destruct k' as [ | m'].
    - now apply scalar_coefficient_rows.
    - now apply marker_companion_rows. }
  destruct Hrows as (M & E & HM & Hrows).
  unfold is_invertible. rewrite E. intros re im Hev.
  apply cabs_below_one.
  destruct (Rlt_le_dec (re * re + im * im) 1) as [Hin | Hout];
    [ assumption | exfalso ].
  destruct (companion_eigen_root Hfs Hne HM Hrows Hev)
    as (y & Hy & Hnz & Ey).
  destruct (Hst (re, im) y Hout Hy Ey) as [H1 H2].
  destruct Hnz; contradiction.
Qed.

Lemma has_shape_conjugate_blocks (order : nat) (T Ti fw : matrix R) :
  has_shape k k T -> has_shape k k Ti -> has_shape k (k * order) fw ->
  has_shape k (k * order) (conjugate_blocks order k T Ti fw)
  /\ blocks k order (conjugate_blocks order k T Ti fw)
     = map (conjugate T Ti) (blocks k order fw).
Proof.
  intros HT HTi Hfw. split.
  - unfold conjugate_blocks.
    destruct (fold_blocks (k:=k) (order:=order)
                (fun X => dot (dot T X) Ti)) with (n := order) (M := fw)
      as [Hs _]; auto.
    intros X HX. apply has_shape_dot; [ | assumption ].
    unfold dot, dot_T. rewrite length_map. apply HT.
  - unfold blocks. rewrite map_map. apply map_ext_in. intros s Hs.
    apply in_seq in Hs. apply conjugate_blocks_spec; auto. lia.
Qed.

Lemma unstack_blocks (order : nat) (M : matrix R) :
  has_shape k (k * order) M -> unstack M = Ok (blocks k order M).
Proof.
  intros HM. unfold unstack, nrows. rewrite (proj1 HM).
  rewrite (ncols_shape HM). rewrite Nat.mul_comm, Nat.div_mul by lia.
  now rewrite (split_blocks_blocks _ _ (proj1 HM)).
Qed.

(** The coefficients [constrain_stationary_multivariate_python] returns
    pass the stability test. *)
Lemma constrain_multivariate_stable (names : module_names)
  (Ms : list (matrix R))
  (variance : matrix R) (transform_variance : bool)
  (constrained : coeffs R) (var : matrix R) (cs : list (matrix R)) :
  Forall (has_shape k k) Ms -> has_shape k k variance ->
  transpose variance = variance ->
  constrain_stationary_multivariate_python names (AsList Ms) variance
    transform_variance = Ok (constrained, var) ->
  coefficient_matrices constrained = Ok cs ->
  is_invertible (coefficient_polynomial cs) 1.
Proof.
  intros HMs HV Hsym E Ecs.
  pose proof (constrain_multivariate_names _ _ _ _ E) as ->.
  rewrite constrain_multivariate_bound in E. cbn [bind] in E.
  destruct Ms as [ | A0 Ms']; [ discriminate | ].
  set (Ms := A0 :: Ms') in *.
  change (index Ms 0) with (Ok (A := matrix R) A0) in E. cbn [bind] in E.
  assert (HA0 : nrows A0 = k).
  { inversion HMs; subst. unfold nrows. firstorder. }
  rewrite HA0 in E.
  apply bind_ok in E as (Ps & EPs & E).
  apply bind_ok in E as ([fw0 var0] & Er & E). injection E as <- <-.
  destruct (constrain_sv_shapes HMs EPs) as [HlP HPs].
  set (order := length Ms) in *.
  assert (Hord : (1 <= order)%nat) by (subst order Ms; cbn; lia).
  unfold _compute_coefficients_from_multivariate_pacf_python in Er.
  destruct Ps as [ | P0 Ps']; [ subst order; cbn in HlP; lia | ].
  set (Ps := P0 :: Ps') in *. cbn [bind] in Er.
  assert (HP0 : nrows P0 = k).
  { inversion HPs; subst. unfold nrows. firstorder. }
  rewrite HP0 in Er.
  pose proof (has_shape_hstack HPs) as HP. rewrite HlP in HP.
  fold order in HP.
  assert (Hfinal : forall fw : matrix R,
            has_shape k (k * order) fw ->
            (forall (z : cx) (y : cvec),
               1 <= cx_norm2 z -> cv_len k y ->
               fwd_poly k z (blocks k order fw) y = cv_zero k ->
               ~ nonzero (fst y) /\ ~ nonzero (snd y)) ->
            coefficient_matrices (Stacked fw) = Ok cs ->
            is_invertible (coefficient_polynomial cs) 1).
  { intros fw Hfw Hst Ecs'. cbn [coefficient_matrices] in Ecs'.
    rewrite (@unstack_blocks order fw Hfw) in Ecs'. injection Ecs' as <-.
    apply stable_coefficients_invertible.
    - unfold blocks. destruct order; [ lia | ].
      rewrite seq_S, map_app. intros Hnil.
      apply app_eq_nil in Hnil as [_ Hnil]. discriminate.
    - apply (blocks_shape Hfw). lia.
    - exact Hst. }
  destruct transform_variance.
  - destruct (@pacf_recursion_stable k' order _ _ _ _ HP HV
                (@sym_form_transpose k' _ HV Hsym) Er)
      as (Hfw & _ & Hst).
    now apply (Hfinal fw0).
  - apply bind_ok in Er as ([fw var1] & Erec & Er). cbn beta iota in Er.
    apply bind_ok in Er as (L0 & EL0 & Er).
    apply bind_ok in Er as (Lt & ELt & Er).
    apply bind_ok in Er as (D & ED & Er).
    apply bind_ok in Er as (Ti & ETi & Er). injection Er as <- <-.
    rewrite np_linalg_cholesky_real in EL0, ELt.
    destruct (surrogate_variance_form order k) as [HSs HSsym].
    destruct (@pacf_recursion_stable k' order _ _ _ _ HP HSs HSsym Erec)
      as (Hfw & Hvar & Hst).
    pose proof (has_shape_lower_pos (cholesky_lower_pos HV EL0)) as HL0.
    pose proof (has_shape_lower_pos (cholesky_lower_pos Hvar ELt)) as HLt.
    destruct (inv_left_inverse HLt ED) as [HD _].
    assert (HT : has_shape k k (dot L0 D))
      by (apply has_shape_dot; [ apply HL0 | assumption ]).
    destruct (inv_left_inverse HT ETi) as [HTi Hinv].
    destruct (@has_shape_conjugate_blocks order _ _ _ HT HTi Hfw)
      as [Hcfw Hcb].
    apply (Hfinal _ Hcfw); [ | assumption ].
    intros z y Hz Hy Ey. rewrite Hcb in Ey.
    apply (conjugate_stable Hz HT HTi Hinv (blocks_shape Hfw (le_n _)))
      with (y := y); auto.
    intros y' Hy' Ey'. now apply (Hst z y').
Qed.

End MultivariateStability.

(** * Stability of the constrained coefficients *)

Section StabilityClaim.
Local Open Scope R_scope.
Local Open Scope py_scope.

Ltac sqrt_one :=
  repeat match goal with
         | |- context [sqrt ?a] =>
             replace (sqrt a) with 1
               by (replace a with 1 by lra; symmetry; apply sqrt_1)
         end.

Ltac eval_step :=
  cbn -[Rltb Reqb]; sqrt_one;
  first [ rewrite Rltb_true by lra | rewrite Reqb_false by lra ].

(** C1 (in exact arithmetic): the coefficients that
    [constrain_stationary_univariate] returns, and the coefficient
    matrices that [constrain_stationary_multivariate_python] returns for a
    list of [k_endog x k_endog] matrices ([k_endog >= 1], any order) and a
    symmetric [k_endog x k_endog] variance, with either setting of
    [transform_variance] and whatever the module's global names are bound
    to, pass [is_invertible]: every eigenvalue of the companion matrix of
    the polynomial [1 - c_1 z - ... - c_p z^p] has modulus strictly less
    than 1. *)
Theorem constrain_stationary_stable :
  (forall unconstrained constrained : vector R,
      constrain_stationary_univariate unconstrained = Ok constrained ->
      is_invertible (scalar_polynomial constrained) 1)
  /\ (forall (names : module_names) (k_endog : nat)
        (unconstrained : list (matrix R))
        (variance : matrix R) (transform_variance : bool)
        (constrained : coeffs R) (transformed_variance : matrix R)
        (coefficients : list (matrix R)),
        (0 < k_endog)%nat ->
        Forall (has_shape k_endog k_endog) unconstrained ->
        has_shape k_endog k_endog variance ->
        transpose variance = variance ->
        constrain_stationary_multivariate_python names
          (AsList unconstrained) variance transform_variance
        = Ok (constrained, transformed_variance) ->
        coefficient_matrices constrained = Ok coefficients ->
        is_invertible (coefficient_polynomial coefficients) 1).
Proof.
  split.
  - intros u c E. now apply constrain_univariate_stable with (u := u).
  - intros names [ | k'] Ms variance tv constrained var cs Hk HMs HV Hsym
      E Ecs; [ lia | ].
    now apply (@constrain_multivariate_stable k' names Ms variance tv
                 constrained var cs).
Qed.

Lemma constrain_stationary_stable_witness :
  (exists constrained,
      constrain_stationary_univariate [0; 0] = Ok constrained
      /\ is_invertible (scalar_polynomial constrained) 1)
  /\ (exists constrained transformed_variance coefficients,
         constrain_stationary_multivariate_python helpers_bound
           (AsList [[[0]]]) [[1]] true
         = Ok (constrained, transformed_variance)
         /\ coefficient_matrices constrained = Ok coefficients
         /\ is_invertible (coefficient_polynomial coefficients) 1).
Proof.
  assert (E1 : exists c, constrain_stationary_univariate [0; 0] = Ok c)
    by (eexists; reflexivity).
  assert (E2 : exists fw var,
             constrain_stationary_multivariate_python helpers_bound
               (AsList [[[0]]]) [[1]] true = Ok (Stacked fw, var)
             /\ exists cs, coefficient_matrices (Stacked fw) = Ok cs).
  { do 2 eexists.
    rewrite constrain_multivariate_bound.
    unfold _compute_coefficients_from_multivariate_pacf_python,
      pacf_recursion, pacf_step.
    repeat eval_step. cbn -[Rltb Reqb].
    split; [ reflexivity | eexists; reflexivity ]. }
  destruct E1 as (c & E1). destruct E2 as (fw & var & E2 & cs & E3).
  split.
  - exists c. split; [ exact E1 | ].
    exact (proj1 constrain_stationary_stable [0; 0] c E1).
  - exists (Stacked fw), var, cs. split; [ exact E2 | ].
    split; [ exact E3 | ].
    apply (proj2 constrain_stationary_stable helpers_bound 1%nat [[[0]]]
             [[1]] true (Stacked fw) var cs); auto.
    + repeat constructor.
    + repeat constructor.
Defined.

End StabilityClaim.

Section StabilityInBinary64.
Local Open Scope R_scope.
Local Open Scope py_scope.

Lemma float_to_R_minus_one : float_to_R (-1)%float = -1.
Proof.
  unfold float_to_R.
  replace (Prim2SF (-1)%float)
    with (S754_finite true 4503599627370496 (-52))
    by (vm_compute; reflexivity).
  unfold powerRZ. change (Pos.to_nat 52) with 52%nat.
  assert (H2 : 2 ^ 52 = IZR 4503599627370496).
  { change 2 with (IZR 2). rewrite pow_IZR. f_equal. }
  rewrite H2. field.
Qed.

(** C1 on float64 arrays: for the input [[2^30]] the function returns
    [[-1.0]], and the companion matrix [[-1]] of the polynomial
    [1 + z] has the eigenvalue -1, of modulus one. *)
Lemma constrain_univariate_unit_root_in_binary64 :
  exists c,
    constrain_stationary_univariate (F:=float) [1073741824%float] = Ok c
    /\ ~ is_invertible (scalar_polynomial (map float_to_R c)) 1.
Proof.
  exists [(-1)%float]. split; [ vm_compute; reflexivity | ].
  cbn [map]. rewrite float_to_R_minus_one.
  unfold is_invertible, scalar_polynomial, companion_matrix.
  cbn -[Rltb Reqb].
  intros Hall. specialize (Hall (-1) 0).
  assert (Hev : eigenvalue [[- - (-1) / 1]] (-1) 0).
  { exists [1], [0]. repeat split.
    - left. apply Exists_cons_hd. lra.
    - cbn. repeat f_equal; lra.
    - cbn. repeat f_equal; lra. }
  specialize (Hall Hev). unfold cabs in Hall.
  replace (-1 * -1 + 0 * 0) with 1 in Hall by ring.
  rewrite sqrt_1 in Hall. lra.
Qed.
End StabilityInBinary64.

(** * The round trip through the multivariate transforms *)

Section RoundTrip.
Local Open Scope py_scope.

(** Called with an array, [constrain_stationary_multivariate_python]
    returns nothing, whatever the module's global names are bound to: it
    ends in an exception, the one [np.concatenate(constrained, axis=1)]
    raises if no step before it raised. *)
Lemma constrain_multivariate_stacked_raises {F : Type} `{Scalar F}
  (names : module_names) (M variance : matrix F)
  (transform_variance : bool) :
  exists e,
    constrain_stationary_multivariate_python names (Stacked M) variance
      transform_variance = Err e.
Proof.
  destruct (constrain_stationary_multivariate_python names (Stacked M)
              variance transform_variance) as [r | e] eqn:E;
    [ exfalso | now exists e ].
  pose proof (constrain_multivariate_names _ _ _ _ E) as ->.
  rewrite constrain_multivariate_bound in E.
  destruct (unstack M) as [Ms | e]; cbn [bind] in E; [ | discriminate ].
  destruct (index Ms 0) as [A0 | e]; cbn [bind] in E; [ | discriminate ].
  destruct (_constrain_sv_less_than_one_python Ms _ _) as [sv | e];
    cbn [bind] in E; [ | discriminate ].
  destruct (_compute_coefficients_from_multivariate_pacf_python _ _ _ _ _)
    as [[c v] | e]; cbn [bind] in E; discriminate.
Qed.

Local Open Scope float_scope.

(** C2 with [transform_variance=True], on float64 arrays, at the
    coefficient matrix [[0, 0.75], [0, 0]] and the identity variance.
    In the module as imported the call of
    [constrain_stationary_multivariate_python] ends in a [NameError], so
    nothing makes the trip.  With the two helper names bound, the
    constrained coefficients come with the variance
    [[0.64, 0], [0, 1]].  Given that pair,
    [unconstrain_stationary_multivariate] hands the variance back as it
    is, whatever solver it runs with, so the identity is not restored;
    given the identity instead, it returns the coefficient 0.6, not
    0.75. *)
Lemma round_trip_transform_variance_diverges :
  constrain_stationary_multivariate_python as_imported
    (AsList [[[0; 0.75]; [0; 0]]]) [[1; 0]; [0; 1]] true
  = Err NameError
  /\
  exists constrained variance : matrix float,
    constrain_stationary_multivariate_python helpers_bound
      (AsList [[[0; 0.75]; [0; 0]]]) [[1; 0]; [0; 1]] true
    = Ok (Stacked constrained, variance)
    /\ PrimFloat.ltb (get2 variance 0 0) 0.75 = true
    /\ (forall lyapunov unconstrained v,
           unconstrain_stationary_multivariate lyapunov
             (Stacked constrained) variance true
           = Ok (unconstrained, v) ->
           v = variance)
    /\ exists unconstrained : matrix float,
         unconstrain_stationary_multivariate
           solve_discrete_lyapunov_direct (Stacked constrained)
           [[1; 0]; [0; 1]] true
         = Ok (Stacked unconstrained, [[1; 0]; [0; 1]])
         /\ PrimFloat.ltb (get2 unconstrained 0 1) 0.625 = true.
Proof.
  split; [ reflexivity | ].
  eexists. eexists. split; [ vm_compute; reflexivity | ].
  split; [ vm_compute; reflexivity | ]. split.
  - intros lyapunov u v E.
    unfold unconstrain_stationary_multivariate in E.
    apply bind_ok in E as (Ms & _ & E).
    apply bind_ok in E as (C0 & _ & E).
    apply bind_ok in E as (P & _ & E).
    apply bind_ok in E as (U & _ & E).
    now injection E as _ <-.
  - eexists. split; vm_compute; reflexivity.
Qed.

(** With [transform_variance=False] and the same input, the coefficients
    come back within [2^-30] of those that went in. *)
Lemma round_trip_without_transform_variance :
  exists constrained variance unconstrained : matrix float,
    constrain_stationary_multivariate_python helpers_bound
      (AsList [[[0; 0.75]; [0; 0]]]) [[1; 0]; [0; 1]] false
    = Ok (Stacked constrained, variance)
    /\ unconstrain_stationary_multivariate
         solve_discrete_lyapunov_direct (Stacked constrained)
         [[1; 0]; [0; 1]] false
       = Ok (Stacked unconstrained, [[1; 0]; [0; 1]])
    /\ forallb
         (fun ij : nat * nat =>
            PrimFloat.ltb
              (PrimFloat.abs
                 (get2 unconstrained (fst ij) (snd ij)
                  - get2 [[0; 0.75]; [0; 0]] (fst ij) (snd ij)))
              0x1p-30)
         [(0, 0); (0, 1); (1, 0); (1, 1)]%nat
       = true.
Proof.
  do 3 eexists. split; [ vm_compute; reflexivity | ].
  split; vm_compute; reflexivity.
Qed.

End RoundTrip.

(** * Validation of shapes *)

Section ValidateShapesProperties.
Local Open Scope Z_scope.

Ltac shape_cases :=
  repeat match goal with
         | |- context [Z.eqb ?a ?b] => destruct (Z.eqb_spec a b)
         | H : context [Z.eqb ?a ?b] |- _ => destruct (Z.eqb_spec a b)
         end.

(** [validate_matrix_shape] returns, instead of raising, exactly on the
    shapes [(nrows, ncols)], [(nrows, ncols, 1)] and, when [nobs] is
    given, [(nrows, ncols, nobs)]. *)
Theorem validate_matrix_shape_accepts (shape : list Z) (nrows ncols : Z)
  (nobs : option Z) :
  validate_matrix_shape shape nrows ncols nobs = None
  <-> shape = [nrows; ncols]
      \/ shape = [nrows; ncols; 1]
      \/ (exists t, nobs = Some t /\ shape = [nrows; ncols; t]).
Proof.
  unfold validate_matrix_shape, in_one_or_nobs. split.
  - destruct shape as [ | a [ | b [ | c [ | d shape]]]];
      cbn; try discriminate; destruct nobs as [t | ]; cbn;
      shape_cases; cbn; try discriminate; subst; intros _; eauto.
  - destruct nobs as [n | ];
      intros [-> | [-> | (t & E & ->)]]; try discriminate;
      try (injection E as ->); cbn;
      rewrite ?Z.eqb_refl, ?orb_true_r; reflexivity.
Qed.

(** [validate_vector_shape] returns, instead of raising, exactly on the
    shapes [(nrows,)], [(nrows, 1)] and, when [nobs] is given,
    [(nrows, nobs)]. *)
Theorem validate_vector_shape_accepts (shape : list Z) (nrows : Z)
  (nobs : option Z) :
  validate_vector_shape shape nrows nobs = None
  <-> shape = [nrows]
      \/ shape = [nrows; 1]
      \/ (exists t, nobs = Some t /\ shape = [nrows; t]).
Proof.
  unfold validate_vector_shape, in_one_or_nobs. split.
  - destruct shape as [ | a [ | b [ | c shape]]];
      cbn; try discriminate; destruct nobs as [t | ]; cbn;
      shape_cases; cbn; try discriminate; subst; intros _; eauto.
  - destruct nobs as [n | ];
      intros [-> | [-> | (t & E & ->)]]; try discriminate;
      try (injection E as ->); cbn;
      rewrite ?Z.eqb_refl, ?orb_true_r; reflexivity.
Qed.

(** The two validations agree: on the shape of a vector,
    [validate_vector_shape] does what [validate_matrix_shape] does on that
    shape with the expected number of columns put in second place: both
    return, or both raise at the same check. *)
Theorem validate_vector_shape_as_matrix (r ncols : Z) (rest : list Z)
  (nrows : Z) (nobs : option Z) :
  validate_vector_shape (r :: rest) nrows nobs
  = validate_matrix_shape (r :: ncols :: rest) nrows ncols nobs.
Proof.
  unfold validate_vector_shape, validate_matrix_shape, in_one_or_nobs.
  destruct rest as [ | c [ | d rest]]; cbn; rewrite ?Z.eqb_refl; cbn;
    destruct nobs as [t | ]; cbn; shape_cases; cbn; reflexivity.
Qed.

End ValidateShapesProperties.

(** * Differencing a series *)

Section DiffProperties.
Context {F : Type} `{Scalar F}.
Local Open Scope py_scope.

Lemma map2_firstn_r {A B C : Type} (f : A -> B -> C) (a : list A)
  (b : list B) :
  map2 f a (firstn (length a) b) = map2 f a b.
Proof.
  revert b. induction a as [ | x a IH]; intros [ | y b]; cbn;
    try reflexivity.
  now rewrite IH.
Qed.

Lemma skipn_min {A : Type} (s : nat) (x : list A) :
  skipn (Nat.min s (length x)) x = skipn s x.
Proof.
  destruct (Nat.le_ge_cases s (length x)) as [Hle | Hge].
  - now rewrite Nat.min_l.
  - rewrite Nat.min_r by assumption.
    now rewrite !skipn_all2 by lia.
Qed.

Lemma length_lag_differences (s : nat) (x : vector F) :
  length (lag_differences s x) = (length x - s)%nat.
Proof.
  unfold lag_differences. rewrite length_map2, length_skipn. lia.
Qed.

Lemma nth_lag_differences (s i : nat) (x : vector F) :
  (i < length x - s)%nat ->
  nth i (lag_differences s x) fzero
  = fsub (nth (i + s) x fzero) (nth i x fzero).
Proof.
  intros Hi. unfold lag_differences.
  rewrite (nth_map2 _ _ _ fzero fzero) by (rewrite ?length_skipn; lia).
  rewrite nth_skipn. f_equal. f_equal. lia.
Qed.

(** One pass of the seasonal loop, for a positive lag. *)
Lemma seasonal_step (s : Z) (x : vector F) :
  (0 < s)%Z ->
  np_sub (slice_from s x) (slice_upto (- s) x)
  = Ok (lag_differences (Z.to_nat s) x).
Proof.
  intros Hs. unfold slice_from, slice_upto, slice_bound.
  destruct (Z.ltb_spec s 0) as [Hneg | _]; [ lia | ].
  destruct (Z.ltb_spec (- s) 0) as [_ | Hpos]; [ | lia ].
  rewrite skipn_min.
  replace (Z.to_nat (Z.of_nat (length x) + - s))
    with (length (skipn (Z.to_nat s) x))
    by (rewrite length_skipn; lia).
  unfold np_sub.
  rewrite length_firstn, Nat.min_l by (rewrite length_skipn; lia).
  rewrite Nat.eqb_refl. unfold vsub, lag_differences.
  now rewrite map2_firstn_r.
Qed.

Lemma diff_once_lag (x : vector F) : diff_once x = lag_differences 1 x.
Proof.
  pose proof (@seasonal_step 1%Z x ltac:(lia)) as E.
  unfold np_sub in E. unfold diff_once.
  change (- (1))%Z with (-1)%Z in E.
  destruct (Nat.eqb _ _) eqn:El.
  - now injection E.
  - exfalso. apply Nat.eqb_neq in El. apply El.
    unfold slice_from, slice_upto, slice_bound. cbn [Z.ltb Z.compare].
    rewrite length_skipn, length_firstn. cbn. lia.
Qed.

Lemma iter_ext {A : Type} (f g : A -> A) (n : nat) (a : A) :
  (forall a, f a = g a) -> Nat.iter n f a = Nat.iter n g a.
Proof.
  intros E. induction n as [ | n IH]; [ reflexivity | ].
  now rewrite !Nat.iter_succ, IH, E.
Qed.

Lemma iter_shift {A : Type} (f : A -> A) (n : nat) (a : A) :
  Nat.iter n f (f a) = f (Nat.iter n f a).
Proof.
  induction n as [ | n IH]; [ reflexivity | ].
  now rewrite !Nat.iter_succ, IH.
Qed.

Lemma seasonal_differences_lag (count : nat) (s : Z) (x : vector F) :
  (0 < s)%Z ->
  seasonal_differences count s x
  = Ok (Nat.iter count (lag_differences (Z.to_nat s)) x).
Proof.
  intros Hs. revert x. induction count as [ | c IH]; intros x.
  - reflexivity.
  - cbn [seasonal_differences]. rewrite seasonal_step by assumption.
    cbn [bind]. rewrite IH. now rewrite Nat.iter_succ, <- iter_shift.
Qed.

Lemma np_diff_lag (x : vector F) (d : Z) :
  (0 <= d)%Z ->
  np_diff x d = Ok (Nat.iter (Z.to_nat d) (lag_differences 1) x).
Proof.
  intros Hd. unfold np_diff.
  destruct (Z.eqb_spec d 0) as [-> | Hne]; [ reflexivity | ].
  destruct (Z.ltb_spec d 0) as [Hneg | _]; [ lia | ].
  f_equal. apply iter_ext, diff_once_lag.
Qed.

Lemma diff_lag (x : vector F) (d : Z) (D : option Z) (s : Z) :
  (0 < s)%Z -> (0 <= d)%Z ->
  diff x d D s
  = Ok (Nat.iter (Z.to_nat d) (lag_differences 1)
          (Nat.iter (passes D) (lag_differences (Z.to_nat s)) x)).
Proof.
  intros Hs Hd. unfold diff.
  destruct D as [count | ]; cbn [passes].
  - rewrite seasonal_differences_lag by assumption. cbn [bind].
    now apply np_diff_lag.
  - cbn [bind Nat.iter]. now apply np_diff_lag.
Qed.

Lemma length_iter_lag (c s : nat) (x : vector F) :
  length (Nat.iter c (lag_differences s) x) = (length x - c * s)%nat.
Proof.
  induction c as [ | c IH].
  - cbn. lia.
  - rewrite Nat.iter_succ, length_lag_differences, IH. lia.
Qed.

End DiffProperties.

Section DiffTheorems.
Context {F : Type} `{Scalar F}.
Local Open Scope py_scope.

(** For a positive seasonal lag and a number of simple differences that
    is not negative, [diff] returns an array, shorter than the series by
    [k_seasons] for every seasonal difference and by one for every simple
    difference, and empty when the series is too short for that. *)
Theorem diff_length (series : vector F) (k_diff : Z)
  (k_seasonal_diff : option Z) (k_seasons : Z) :
  (0 < k_seasons)%Z -> (0 <= k_diff)%Z ->
  exists differenced,
    diff series k_diff k_seasonal_diff k_seasons = Ok differenced
    /\ length differenced
       = (length series
          - (passes k_seasonal_diff * Z.to_nat k_seasons
             + Z.to_nat k_diff))%nat.
Proof.
  intros Hs Hd. rewrite diff_lag by assumption.
  eexists. split; [ reflexivity | ].
  rewrite !length_iter_lag. lia.
Qed.

(** One seasonal difference is [x[t + k_seasons] - x[t]] and one simple
    difference is [x[t + 1] - x[t]], for every [t] that leaves both
    indices inside the series. *)
Theorem diff_single_difference (series : vector F) (k_seasons : Z) :
  (0 < k_seasons)%Z ->
  diff series 0 (Some 1%Z) k_seasons
  = Ok (map (fun t => fsub (nth (t + Z.to_nat k_seasons) series fzero)
                        (nth t series fzero))
          (seq 0 (length series - Z.to_nat k_seasons)))
  /\ diff series 1 None k_seasons
     = Ok (map (fun t => fsub (nth (t + 1) series fzero)
                           (nth t series fzero))
             (seq 0 (length series - 1))).
Proof.
  intros Hs. rewrite !diff_lag by lia. cbn [passes].
  change (Z.to_nat 0) with 0%nat. change (Z.to_nat 1) with 1%nat.
  cbn [Nat.iter nat_rect].
  assert (E : forall s, lag_differences s series
              = map (fun t => fsub (nth (t + s) series fzero)
                                (nth t series fzero))
                  (seq 0 (length series - s))).
  { intros s. apply nth_ext with (d := fzero) (d' := fzero).
    - now rewrite length_lag_differences, length_map, length_seq.
    - intros i Hi. rewrite length_lag_differences in Hi.
      rewrite nth_lag_differences by assumption.
      now rewrite (nth_map_seq _ fzero) by assumption. }
  now rewrite !E.
Qed.

(** With [k_seasons = 1] a seasonal difference is a simple difference:
    the two counts add up. *)
Theorem diff_lag_one (series : vector F) (k_diff k_seasonal_diff : Z) :
  (0 <= k_diff)%Z -> (0 <= k_seasonal_diff)%Z ->
  diff series k_diff (Some k_seasonal_diff) 1
  = diff series (k_diff + k_seasonal_diff) None 1.
Proof.
  intros Hd HD. rewrite !diff_lag by lia. cbn [passes Nat.iter nat_rect].
  change (Z.to_nat 1) with 1%nat.
  rewrite Z2Nat.inj_add by assumption.
  now rewrite Nat.iter_add.
Qed.

Lemma seasonal_differences_error (count : nat) (s : Z) (x : vector F)
  (e : pyerr) :
  seasonal_differences count s x = Err e -> e = ValueError.
Proof.
  revert x. induction count as [ | c IH]; intros x; cbn; [ discriminate | ].
  destruct (np_sub _ _) as [y | e'] eqn:E; cbn [bind].
  - apply IH.
  - intros E'. injection E' as <-. unfold np_sub in E.
    destruct (Nat.eqb _ _); [ discriminate | ].
    destruct (slice_from s x) as [ | a [ | b u]];
      destruct (slice_upto (- s) x) as [ | c' [ | d v]];
      congruence.
Qed.

(** A negative number of simple differences is a [ValueError], whatever
    the other arguments. *)
Theorem diff_negative_order (series : vector F) (k_diff : Z)
  (k_seasonal_diff : option Z) (k_seasons : Z) :
  (k_diff < 0)%Z ->
  diff series k_diff k_seasonal_diff k_seasons = Err ValueError.
Proof.
  intros Hd. unfold diff.
  assert (E : forall y, np_diff y k_diff = Err ValueError).
  { intros y. unfold np_diff.
    destruct (Z.eqb_spec k_diff 0); [ lia | ].
    destruct (Z.ltb_spec k_diff 0); [ reflexivity | lia ]. }
  destruct k_seasonal_diff as [count | ]; cbn [bind]; [ | apply E ].
  destruct (seasonal_differences _ _ _) as [y | e] eqn:Es; cbn [bind].
  - apply E.
  - now rewrite (seasonal_differences_error _ _ _ Es).
Qed.

Lemma seasonal_differences_nil (count : nat) (s : Z) :
  seasonal_differences count s (@nil F) = Ok [].
Proof.
  induction count as [ | c IH]; [ reflexivity | ].
  cbn [seasonal_differences].
  unfold slice_from, slice_upto. rewrite skipn_nil, firstn_nil.
  cbn [np_sub length Nat.eqb vsub map2 bind]. exact IH.
Qed.

(** With the seasonal lag [k_seasons = 0] and at least one seasonal
    difference asked for, [diff] subtracts the empty array [x[:-0]] from
    the whole series: a [ValueError] for a series of two or more values,
    and the empty array for a shorter one. *)
Theorem diff_zero_lag (series : vector F) (k_diff k_seasonal_diff : Z) :
  (1 <= k_seasonal_diff)%Z ->
  ((2 <= length series)%nat ->
   diff series k_diff (Some k_seasonal_diff) 0 = Err ValueError)
  /\ ((length series <= 1)%nat -> (0 <= k_diff)%Z ->
      diff series k_diff (Some k_seasonal_diff) 0 = Ok []).
Proof.
  intros HD. unfold diff.
  destruct (Z.to_nat k_seasonal_diff) as [ | c] eqn:Ec; [ lia | ].
  cbn [seasonal_differences].
  assert (E0 : slice_from 0 series = series) by reflexivity.
  assert (E1 : slice_upto (- 0) series = []) by reflexivity.
  rewrite E0, E1. split.
  - intros Hl. destruct series as [ | a [ | b u]]; cbn in Hl; try lia.
    reflexivity.
  - intros Hl Hd.
    assert (E : np_sub series [] = Ok []).
    { destruct series as [ | a [ | b u]]; cbn in Hl; try lia;
        reflexivity. }
    rewrite E. cbn [bind]. rewrite seasonal_differences_nil. cbn [bind].
    rewrite np_diff_lag by assumption. f_equal.
    induction (Z.to_nat k_diff) as [ | d IH]; [ reflexivity | ].
    rewrite Nat.iter_succ, IH. reflexivity.
Qed.

End DiffTheorems.

Section DiffOverReals.
Local Open Scope R_scope.
Local Open Scope py_scope.

Lemma lag_differences_comm (a b : nat) (x : vector R) :
  lag_differences a (lag_differences b x)
  = lag_differences b (lag_differences a x).
Proof.
  apply nth_ext with (d := 0) (d' := 0).
  - rewrite !length_lag_differences. lia.
  - intros i Hi. rewrite !length_lag_differences in Hi.
    pose proof (@nth_lag_differences R _) as E. cbn [fzero fsub R_Scalar] in E.
    rewrite !E by (rewrite ?length_lag_differences; lia).
    replace (i + a + b)%nat with (i + b + a)%nat by lia. ring.
Qed.

Lemma iter_lag_comm (c a b : nat) (x : vector R) :
  Nat.iter c (lag_differences a) (lag_differences b x)
  = lag_differences b (Nat.iter c (lag_differences a) x).
Proof.
  induction c as [ | c IH]; [ reflexivity | ].
  now rewrite !Nat.iter_succ, IH, lag_differences_comm.
Qed.

(** Over the real numbers the order of the two kinds of differences does
    not matter: the simple differences first and the seasonal ones after
    give what [diff] gives, which takes the seasonal ones first. *)
Theorem diff_differences_commute (series : vector R) (k_diff : Z)
  (k_seasonal_diff : option Z) (k_seasons : Z) :
  (0 < k_seasons)%Z -> (0 <= k_diff)%Z ->
  (differenced <- diff series k_diff None k_seasons ;;
   diff differenced 0 k_seasonal_diff k_seasons)
  = diff series k_diff k_seasonal_diff k_seasons.
Proof.
  intros Hs Hd. rewrite !diff_lag by lia. cbn [bind].
  rewrite diff_lag by lia. f_equal.
  change (Z.to_nat 0) with 0%nat. cbn [passes Nat.iter nat_rect].
  induction (passes k_seasonal_diff) as [ | c IH]; [ reflexivity | ].
  rewrite !Nat.iter_succ, IH. now rewrite iter_lag_comm.
Qed.

Lemma lag_differences_zeros (s m : nat) :
  lag_differences s (repeat 0 m) = repeat 0 (m - s).
Proof.
  apply nth_ext with (d := 0) (d' := 0).
  - now rewrite length_lag_differences, !repeat_length.
  - intros i Hi. rewrite length_lag_differences, repeat_length in Hi.
    pose proof (@nth_lag_differences R _) as E. cbn [fzero fsub R_Scalar] in E.
    rewrite E by (rewrite repeat_length; lia).
    rewrite !nth_repeat_zero. ring.
Qed.

Lemma iter_lag_zeros (c s m : nat) :
  Nat.iter c (lag_differences s) (repeat 0 m) = repeat 0 (m - c * s).
Proof.
  induction c as [ | c IH].
  - cbn. now rewrite Nat.sub_0_r.
  - rewrite Nat.iter_succ, IH, lag_differences_zeros. f_equal. lia.
Qed.

(** Over the real numbers seasonal differencing removes a pattern of
    period [k_seasons]: if [x[t + k_seasons] = x[t]] throughout the
    series and at least one seasonal difference is taken, every value
    returned is zero. *)
Theorem diff_periodic_series (series : vector R) (k_diff k_seasonal_diff : Z)
  (k_seasons : Z) :
  (0 < k_seasons)%Z -> (0 <= k_diff)%Z -> (1 <= k_seasonal_diff)%Z ->
  (forall t, (t + Z.to_nat k_seasons < length series)%nat ->
     nth (t + Z.to_nat k_seasons) series 0 = nth t series 0) ->
  exists differenced,
    diff series k_diff (Some k_seasonal_diff) k_seasons = Ok differenced
    /\ Forall (fun v => v = 0) differenced.
Proof.
  intros Hs Hd HD Hper. rewrite diff_lag by assumption.
  eexists. split; [ reflexivity | ]. cbn [passes].
  destruct (Z.to_nat k_seasonal_diff) as [ | c] eqn:Ec; [ lia | ].
  rewrite Nat.iter_succ, <- iter_shift.
  assert (E : lag_differences (Z.to_nat k_seasons) series
              = repeat 0 (length series - Z.to_nat k_seasons)).
  { apply nth_ext with (d := 0) (d' := 0).
    - now rewrite length_lag_differences, repeat_length.
    - intros i Hi. rewrite length_lag_differences in Hi.
      pose proof (@nth_lag_differences R _) as E.
      cbn [fzero fsub R_Scalar] in E.
      rewrite E by assumption. rewrite Hper by lia.
      rewrite nth_repeat_zero. ring. }
  rewrite E, !iter_lag_zeros.
  apply Forall_forall. intros v Hv. now apply repeat_spec in Hv.
Qed.

End DiffOverReals.

Section DiffWitnesses.
Local Open Scope py_scope.

Lemma diff_length_witness :
  exists differenced,
    diff [1; 4; 9; 16; 25]%float 1 (Some 1%Z) 2 = Ok differenced
    /\ length differenced = 2%nat.
Proof.
  apply (@diff_length float _ [1; 4; 9; 16; 25]%float 1 (Some 1%Z) 2); lia.
Defined.

Lemma diff_single_difference_witness :
  diff [1; 4; 9; 16; 25]%float 0 (Some 1%Z) 2
  = Ok [8; 12; 16]%float
  /\ diff [1; 4; 9; 16; 25]%float 1 None 2
     = Ok [3; 5; 7; 9]%float.
Proof.
  destruct (@diff_single_difference float _ [1; 4; 9; 16; 25]%float 2
              ltac:(lia)) as [E1 E2].
  split; [ rewrite E1 | rewrite E2 ]; vm_compute; reflexivity.
Defined.

Lemma diff_lag_one_witness :
  diff [1; 4; 9; 16; 25]%float 1 (Some 2%Z) 1
  = diff [1; 4; 9; 16; 25]%float 3 None 1.
Proof.
  apply (@diff_lag_one float _ [1; 4; 9; 16; 25]%float 1 2); lia.
Defined.

Lemma diff_negative_order_witness :
  diff [1; 4; 9]%float (-1) None 1 = Err ValueError.
Proof.
  apply (@diff_negative_order float _ [1; 4; 9]%float (-1) None 1). lia.
Defined.

Lemma diff_zero_lag_witness :
  diff [1; 4; 9]%float 1 (Some 1%Z) 0 = Err ValueError
  /\ diff [1]%float 1 (Some 1%Z) 0 = Ok [].
Proof.
  split.
  - apply (proj1 (@diff_zero_lag float _ [1; 4; 9]%float 1 1 ltac:(lia))).
    cbn. lia.
  - apply (proj2 (@diff_zero_lag float _ [1]%float 1 1 ltac:(lia)));
      cbn; lia.
Defined.

Lemma diff_differences_commute_witness :
  (differenced <- diff [1; 4; 9; 16; 25]%R 1 None 2 ;;
   diff differenced 0 (Some 1%Z) 2)
  = diff [1; 4; 9; 16; 25]%R 1 (Some 1%Z) 2.
Proof.
  apply (@diff_differences_commute [1; 4; 9; 16; 25]%R 1 (Some 1%Z) 2); lia.
Defined.

Lemma diff_periodic_series_witness :
  exists differenced,
    diff [1; 2; 1; 2; 1]%R 0 (Some 1%Z) 2 = Ok differenced
    /\ Forall (fun v => v = 0%R) differenced.
Proof.
  apply (@diff_periodic_series [1; 2; 1; 2; 1]%R 0 1 2); try lia.
  intros [ | [ | [ | t]]] Ht; cbn in *; try reflexivity; lia.
Defined.

End DiffWitnesses.

(** * The eigenvalues of the companion matrix of a scalar polynomial *)

Section CompanionRoots.
Local Open Scope R_scope.

Variable c0 : R.
Variable cs : vector R.
Hypothesis Hc0 : c0 <> 0.

Let partial (z : cx) (r : nat) : cx := horner z (c0, 0) (firstn r cs).

Lemma poly_eval_cons (z : cx) :
  poly_eval z (c0 :: cs) = horner z (c0, 0) cs.
Proof.
  unfold poly_eval. rewrite horner_cons. f_equal. apply cx_eq; cbn; ring.
Qed.

Lemma partial_S (z : cx) (r : nat) :
  (r < length cs)%nat ->
  partial z (S r) = cx_add (cx_mul z (partial z r)) (cx_real (nth r cs 0)).
Proof.
  intros Hr. unfold partial. rewrite (firstn_S_snoc _ 0) by assumption.
  apply horner_snoc.
Qed.

Lemma companion_eigenvalue_root (re im : R) :
  eigenvalue (scalar_companion (length cs) (c0 :: cs)) re im ->
  poly_eval (re, im) (c0 :: cs) = (0, 0).
Proof.
  intros (xr & xi & Hxr & Hxi & Hnz & Er & Ei).
  unfold nrows in Hxr, Hxi. rewrite length_scalar_companion in Hxr, Hxi.
  rewrite poly_eval_cons. set (z := (re, im)).
  assert (Hrow : forall r, (r < length cs)%nat ->
            nth (S r) xr 0
            = re * nth r xr 0 - im * nth r xi 0
              + nth r cs 0 / c0 * nth 0 xr 0
            /\ nth (S r) xi 0
               = re * nth r xi 0 + im * nth r xr 0
                 + nth r cs 0 / c0 * nth 0 xi 0).
  { intros r Hr.
    pose proof (@scalar_companion_row c0 cs xr r Hxr Hr) as E1.
    pose proof (@scalar_companion_row c0 cs xi r Hxi Hr) as E2.
    rewrite Er in E1. rewrite Ei in E2.
    rewrite nth_vsub, !nth_vscale in E1 by (rewrite length_vscale; lia).
    rewrite nth_vadd, !nth_vscale in E2 by (rewrite length_vscale; lia).
    cbn [fmul R_Scalar] in E1, E2.
    split.
    - transitivity (re * nth r xr 0 - im * nth r xi 0
                    - - nth r cs 0 / c0 * nth 0 xr 0); [ lra | ].
      field. exact Hc0.
    - transitivity (re * nth r xi 0 + im * nth r xr 0
                    - - nth r cs 0 / c0 * nth 0 xi 0); [ lra | ].
      field. exact Hc0. }
  assert (Hall : forall r, (r <= length cs)%nat ->
            cx_mul (cx_real c0) (nth r xr 0, nth r xi 0)
            = cx_mul (partial z r) (nth 0 xr 0, nth 0 xi 0)).
  { induction r as [ | r IH]; intros Hr.
    - unfold partial. cbn [firstn horner fold_left].
      apply cx_eq; cbn; ring.
    - rewrite partial_S by lia.
      destruct (Hrow r) as [E1 E2]; [ lia | ]. rewrite E1, E2.
      specialize (IH ltac:(lia)).
      pose proof (f_equal fst IH) as IH1.
      pose proof (f_equal snd IH) as IH2.
      cbn [cx_mul cx_real fst snd] in IH1, IH2.
      apply cx_eq; cbn [cx_mul cx_add cx_real fst snd z].
      + transitivity
          (re * (c0 * nth r xr 0 - 0 * nth r xi 0)
           - im * (c0 * nth r xi 0 + 0 * nth r xr 0)
           + nth r cs 0 * nth 0 xr 0); [ field; exact Hc0 | ].
        rewrite IH1, IH2. ring.
      + transitivity
          (re * (c0 * nth r xi 0 + 0 * nth r xr 0)
           + im * (c0 * nth r xr 0 - 0 * nth r xi 0)
           + nth r cs 0 * nth 0 xi 0); [ field; exact Hc0 | ].
        rewrite IH1, IH2. ring. }
  pose proof (Hall (length cs) (le_n _)) as Hend.
  unfold partial in Hend. rewrite firstn_all in Hend.
  rewrite !nth_overflow in Hend by lia.
  apply (f_equal cx_norm2) in Hend. rewrite !cx_norm2_mul in Hend.
  unfold cx_norm2 at 2 in Hend. cbn [fst snd] in Hend.
  apply cx_norm2_zero.
  destruct (Req_dec (cx_norm2 (nth 0 xr 0, nth 0 xi 0)) 0) as [H0 | H0].
  - exfalso. apply cx_norm2_zero in H0.
    assert (Hzero : forall r, (r <= length cs)%nat ->
              nth r xr 0 = 0 /\ nth r xi 0 = 0).
    { intros r Hr. specialize (Hall r Hr). rewrite H0 in Hall.
      apply (f_equal cx_norm2) in Hall. rewrite !cx_norm2_mul in Hall.
      unfold cx_norm2 in Hall. cbn [cx_real fst snd] in Hall.
      assert (Hc : 0 < c0 * c0) by nra.
      assert (Hs : nth r xr 0 * nth r xr 0 + nth r xi 0 * nth r xi 0 = 0).
      { apply Rmult_eq_reg_l with (c0 * c0 + 0 * 0); [ | lra ].
        rewrite Hall. ring. }
      split; nra. }
    destruct Hnz as [Hnz | Hnz]; revert Hnz; apply not_nonzero_entries;
      intros i Hi; apply Hzero; lia.
  - assert (E : cx_norm2 (horner z (c0, 0) cs)
                * cx_norm2 (nth 0 xr 0, nth 0 xi 0) = 0).
    { rewrite <- Hend. ring. }
    apply Rmult_integral in E as [E | E]; [ assumption | contradiction ].
Qed.

Lemma companion_root_eigenvalue (re im : R) :
  cs <> [] ->
  poly_eval (re, im) (c0 :: cs) = (0, 0) ->
  eigenvalue (scalar_companion (length cs) (c0 :: cs)) re im.
Proof.
  intros Hne Hroot. rewrite poly_eval_cons in Hroot.
  set (z := (re, im)) in *. pose (n := length cs).
  assert (Hn : (0 < n)%nat)
    by (subst n; destruct cs; [ contradiction | cbn; lia ]).
  set (xr := map (fun r => fst (partial z r) / c0) (seq 0 n)).
  set (xi := map (fun r => snd (partial z r) / c0) (seq 0 n)).
  assert (Hxr : length xr = n) by (subst xr; now rewrite length_map, length_seq).
  assert (Hxi : length xi = n) by (subst xi; now rewrite length_map, length_seq).
  assert (Hend : partial z n = (0, 0)).
  { unfold partial. subst n. now rewrite firstn_all. }
  assert (Nr : forall r, (r <= n)%nat -> nth r xr 0 = fst (partial z r) / c0).
  { intros r Hr. destruct (Nat.eq_dec r n) as [-> | Hne'].
    - rewrite nth_overflow by lia. rewrite Hend. cbn. field. exact Hc0.
    - subst xr. now rewrite (nth_map_seq _ 0) by lia. }
  assert (Ni : forall r, (r <= n)%nat -> nth r xi 0 = snd (partial z r) / c0).
  { intros r Hr. destruct (Nat.eq_dec r n) as [-> | Hne'].
    - rewrite nth_overflow by lia. rewrite Hend. cbn. field. exact Hc0.
    - subst xi. now rewrite (nth_map_seq _ 0) by lia. }
  assert (P0 : partial z 0 = (c0, 0)) by reflexivity.
  exists xr, xi. unfold nrows. rewrite length_scalar_companion.
  split; [ exact Hxr | ]. split; [ exact Hxi | ]. split; [ | split ].
  - left. subst xr. destruct n as [ | n']; [ lia | ].
    cbn [seq map]. apply Exists_cons_hd. rewrite P0. cbn [fst].
    intros E. apply Hc0.
    apply Rmult_eq_reg_r with (/ c0); [ | now apply Rinv_neq_0_compat ].
    unfold Rdiv in E. rewrite E. ring.
  - apply nth_ext with (d := 0) (d' := 0).
    + rewrite length_matvec, length_scalar_companion.
      unfold vsub. rewrite length_map2, !length_vscale. subst n. lia.
    + intros r Hr. rewrite length_matvec, length_scalar_companion in Hr.
      rewrite (@scalar_companion_row c0 cs xr r Hxr Hr).
      rewrite nth_vsub, !nth_vscale by (rewrite !length_vscale; lia).
      cbn [fmul R_Scalar].
      rewrite !Nr, !Ni by (subst n; lia).
      rewrite partial_S, P0 by assumption.
      cbn [cx_add cx_mul cx_real fst snd z]. field. exact Hc0.
  - apply nth_ext with (d := 0) (d' := 0).
    + rewrite length_matvec, length_scalar_companion.
      unfold vadd. rewrite length_map2, !length_vscale. subst n. lia.
    + intros r Hr. rewrite length_matvec, length_scalar_companion in Hr.
      rewrite (@scalar_companion_row c0 cs xi r Hxi Hr).
      rewrite nth_vadd, !nth_vscale by (rewrite !length_vscale; lia).
      cbn [fmul R_Scalar].
      rewrite !Nr, !Ni by (subst n; lia).
      rewrite partial_S, P0 by assumption.
      cbn [cx_add cx_mul cx_real fst snd z]. field. exact Hc0.
Qed.

End CompanionRoots.

(** The eigenvalues of the companion matrix of an array
    [(c_0, c_1, ..., c_n)] of real coefficients, [c_0 <> 0] and [n >= 1],
    are exactly the complex roots of [c_0 z^n + c_1 z^(n-1) + ... + c_n];
    so [is_invertible] is true exactly when every root has modulus below
    the threshold. *)
Theorem companion_eigenvalues_are_roots (c0 : R) (cs : vector R) :
  c0 <> 0%R -> cs <> [] ->
  exists M,
    fst (companion_matrix (PyArr1 (c0 :: cs))) = Ok M
    /\ (forall re im : R,
           eigenvalue M re im <-> poly_eval (re, im) (c0 :: cs) = (0, 0)%R)
    /\ (forall threshold : R,
           is_invertible (PyArr1 (c0 :: cs)) threshold
           <-> forall re im : R,
                 poly_eval (re, im) (c0 :: cs) = (0, 0)%R ->
                 (cabs re im < threshold)%R).
Proof.
  intros Hc0 Hne.
  assert (E : fst (companion_matrix (PyArr1 (c0 :: cs)))
              = Ok (scalar_companion (length cs) (c0 :: cs))).
  { unfold companion_matrix. cbn [fst length Nat.sub].
    rewrite Nat.sub_0_r.
    destruct cs as [ | c1 cs']; [ contradiction | reflexivity ]. }
  assert (Hiff : forall re im : R,
            eigenvalue (scalar_companion (length cs) (c0 :: cs)) re im
            <-> poly_eval (re, im) (c0 :: cs) = (0, 0)%R).
  { intros re im. split.
    - now apply companion_eigenvalue_root.
    - now apply companion_root_eigenvalue. }
  eexists. split; [ exact E | ]. split; [ exact Hiff | ].
  intros t. unfold is_invertible. rewrite E. split.
  - intros Hall re im Hroot. apply Hall, Hiff, Hroot.
  - intros Hall re im Hev. apply Hall, Hiff, Hev.
Qed.

Lemma companion_eigenvalues_are_roots_witness :
  exists M,
    fst (companion_matrix (PyArr1 [1; -1; 0.25]%R)) = Ok M
    /\ (forall re im : R,
           eigenvalue M re im
           <-> poly_eval (re, im) [1; -1; 0.25]%R = (0, 0)%R)
    /\ (forall threshold : R,
           is_invertible (PyArr1 [1; -1; 0.25]%R) threshold
           <-> forall re im : R,
                 poly_eval (re, im) [1; -1; 0.25]%R = (0, 0)%R ->
                 (cabs re im < threshold)%R).
Proof.
  apply (@companion_eigenvalues_are_roots 1%R [-1; 0.25]%R).
  - lra.
  - discriminate.
Defined.

(** * The companion matrix of a polynomial of scalars *)

Section CompanionOfScalars.
Context {F : Type} `{Scalar F}.
Local Open Scope py_scope.

Lemma get2_build (r c : nat) (f : nat -> nat -> F) (i j : nat) :
  (i < r)%nat -> (j < c)%nat -> get2 (build r c f) i j = f i j.
Proof.
  intros Hi Hj. unfold get2, build.
  rewrite (nth_map_seq _ []) by assumption.
  now rewrite (nth_map_seq _ fzero) by assumption.
Qed.

Lemma get2_set_col0 (M : matrix F) (v : vector F) (i j : nat) :
  (i < length M)%nat -> (i < length v)%nat ->
  get2 (set_col0 M v) i j
  = match j with
    | 0 => nth i v fzero
    | S j' => nth j' (tl (nth i M [])) fzero
    end.
Proof.
  intros HM Hv. unfold get2, set_col0.
  rewrite (nth_map2 _ _ _ [] fzero) by assumption.
  now destruct j.
Qed.

(** [companion_matrix] on an array [c] of one dimension: a [ValueError]
    for fewer than two coefficients; otherwise the square matrix of
    [len(c) - 1] rows whose first column is [-c[i+1] / c[0]] and whose
    other entries are the ones immediately above the main diagonal, and
    zeros. *)
Theorem companion_matrix_of_array (c : vector F) :
  let n := (length c - 1)%nat in
  match fst (companion_matrix (PyArr1 c)) with
  | Ok M =>
      (2 <= length c)%nat /\ has_shape n n M
      /\ forall i j, (i < n)%nat -> (j < n)%nat ->
           get2 M i j
           = if Nat.eqb j 0 then
               fdiv (fopp (nth (S i) c fzero)) (nth 0 c fzero)
             else if Nat.eqb j (S i) then fone else fzero
  | Err e => (length c <= 1)%nat /\ e = ValueError
  end.
Proof.
  intros n. unfold companion_matrix. cbn [fst]. fold n.
  destruct (Nat.ltb_spec n 1) as [Hlt | Hge]; [ split; [ lia | reflexivity ] | ].
  assert (Hl : length (map (fun ci => fdiv (fopp ci) (hd fzero c)) (tl c)) = n).
  { rewrite length_map. subst n. destruct c; cbn; lia. }
  assert (Hs : has_shape n n (shift_matrix (F:=F) n 1)).
  { unfold shift_matrix. rewrite Nat.mul_1_r. apply has_shape_build. }
  split; [ lia | ]. split.
  - unfold scalar_companion, set_col0. destruct Hs as [HsL HsF]. split.
    + rewrite length_map2, HsL, Hl. lia.
    + apply Forall_map2. rewrite Forall_forall in HsF.
      intros row x Hrow _. specialize (HsF row Hrow).
      destruct row; cbn in *; lia.
  - intros i j Hi Hj. unfold scalar_companion.
    rewrite get2_set_col0 by (rewrite ?(proj1 Hs), ?Hl; lia).
    destruct j as [ | j']; cbn [Nat.eqb].
    + rewrite (nth_indep _ fzero (fdiv (fopp fzero) (hd fzero c)))
        by (rewrite Hl; lia).
      rewrite (map_nth (fun ci => fdiv (fopp ci) (hd fzero c))).
      destruct c as [ | a c']; [ cbn in *; lia | reflexivity ].
    + pose proof (@get2_build (n * 1) (n * 1)
                    (fun i j => if Nat.eqb j (i + 1) then fone else fzero)
                    i (S j') ltac:(lia) ltac:(lia)) as E.
      unfold get2 in E. fold (shift_matrix (F:=F) n 1) in E.
      assert (Et : forall row : vector F,
                nth j' (tl row) fzero = nth (S j') row fzero)
        by (intros [ | a row]; [ now destruct j' | reflexivity ]).
      rewrite Et, E. now rewrite Nat.add_1_r.
Qed.

Lemma scalar_sequence_numbers (n : nat) (c : vector F) :
  scalar_sequence n (map INum c) = Ok (scalar_companion n c).
Proof.
  unfold scalar_sequence.
  replace (forallb is_number (map INum c)) with true
    by (symmetry; apply forallb_forall; intros x Hx;
        apply in_map_iff in Hx as (a & <- & _); reflexivity).
  now rewrite map_map, map_id.
Qed.

(** A list or a tuple of plain numbers is treated as the array of those
    numbers: the same result, and the sequence is left as it was. *)
Theorem companion_matrix_of_numbers (c : vector F) :
  companion_matrix (PyList (map INum c))
  = (fst (companion_matrix (PyArr1 c)), PyList (map INum c))
  /\ companion_matrix (PyTuple (map INum c))
     = (fst (companion_matrix (PyArr1 c)), PyTuple (map INum c)).
Proof.
  assert (E : forall mutable,
            companion_of_sequence mutable (map INum c)
            = (fst (companion_matrix (PyArr1 c)), map INum c)).
  { intros mutable. unfold companion_of_sequence, companion_matrix.
    cbn [fst]. rewrite length_map.
    destruct (Nat.ltb (length c - 1) 1); [ reflexivity | ].
    change (INum (F:=F) fzero) with (INum (F:=F) fzero).
    rewrite (map_nth INum c fzero 1). cbn [item_len Nat.eqb].
    now rewrite scalar_sequence_numbers. }
  split; unfold companion_matrix at 1; now rewrite E.
Qed.

End CompanionOfScalars.

(** * The univariate transforms *)

Section UnivariateLength.
Context {F : Type} `{Scalar F}.

Lemma has_shape_set2_any (n : nat) (y : matrix F) (k i : nat) (v : F) :
  has_shape n n y -> has_shape n n (set2 y k i v).
Proof.
  intros [Hl Hf]. unfold set2. split.
  - now rewrite length_set_nth.
  - rewrite Forall_forall in *. intros row Hrow.
    apply In_nth with (d := []) in Hrow as (a & Ha & <-).
    rewrite length_set_nth in Ha.
    destruct (Nat.eq_dec k a) as [-> | Hne].
    + rewrite nth_set_nth_same by lia. rewrite length_set_nth.
      apply Hf, nth_In. lia.
    + rewrite nth_set_nth_other by assumption. apply Hf, nth_In. lia.
Qed.

Lemma has_shape_fold_set2 (n k : nat) (g : matrix F -> nat -> F)
  (l : list nat) (y : matrix F) :
  has_shape n n y ->
  has_shape n n (fold_left (fun y i => set2 y k i (g y i)) l y).
Proof.
  revert y. induction l as [ | i l IH]; intros y Hy; [ exact Hy | ].
  cbn [fold_left]. apply IH. now apply has_shape_set2_any.
Qed.

Lemma has_shape_zeros_any (r c : nat) : has_shape r c (zeros (F:=F) r c).
Proof.
  unfold zeros. split; [ apply repeat_length | ].
  apply Forall_forall. intros row Hrow. apply repeat_spec in Hrow as ->.
  apply repeat_length.
Qed.

Lemma has_shape_constrain_table (u : vector F) :
  has_shape (length u) (length u) (constrain_table u).
Proof.
  unfold constrain_table.
  generalize (seq 0 (length u)). intros l.
  generalize (has_shape_zeros_any (length u) (length u)).
  generalize (zeros (F:=F) (length u) (length u)).
  induction l as [ | k l IH]; intros y Hy; [ exact Hy | ].
  cbn [fold_left]. apply IH. unfold constrain_row.
  apply has_shape_set2_any.
  apply (has_shape_fold_set2 k
           (fun y i =>
              fadd (get2 y (k - 1) i)
                (fmul (nth k (map squash u) fzero)
                   (get2 y (k - 1) (k - i - 1))))).
  exact Hy.
Qed.

(** [constrain_stationary_univariate] raises an [IndexError] on the empty
    array, and on every other array returns an array of the same
    length. *)
Theorem constrain_univariate_length (unconstrained : vector F) :
  match constrain_stationary_univariate unconstrained with
  | Ok constrained =>
      unconstrained <> [] /\ length constrained = length unconstrained
  | Err e => unconstrained = [] /\ e = IndexError
  end.
Proof.
  unfold constrain_stationary_univariate.
  destruct (length unconstrained) as [ | n'] eqn:En.
  - split; [ | reflexivity ]. now destruct unconstrained.
  - split; [ intros ->; discriminate | ].
    unfold vopp. rewrite length_map.
    destruct (has_shape_constrain_table unconstrained) as [Hl Hf].
    rewrite Forall_forall in Hf. rewrite <- En. apply Hf, nth_In. lia.
Qed.

End UnivariateLength.

Section UnivariateRoundTrip.
Local Open Scope R_scope.

Lemma unsquash_squash (x : R) : unsquash (squash x) = x.
Proof.
  unfold unsquash, squash. cbn [fone fadd fsub fmul fdiv fsqrt R_Scalar].
  assert (Hp : 0 < 1 + x * x) by nra.
  pose proof (sqrt_lt_R0 _ Hp) as Hs.
  pose proof (sqrt_sqrt _ (Rlt_le _ _ Hp)) as Hss.
  set (s := R_sqrt.sqrt (1 + x * x)) in *.
  assert (Hx : x * x = s * s - 1) by lra.
  assert (E : 1 - x / s * (x / s) = / s * / s).
  { transitivity (1 - (x * x) / (s * s)); [ field; lra | ].
    rewrite Hx. field. lra. }
  rewrite E. rewrite sqrt_square by (left; now apply Rinv_0_lt_compat).
  field. lra.
Qed.

Lemma squash_unsquash (r : R) : r * r < 1 -> squash (unsquash r) = r.
Proof.
  intros Hr. unfold unsquash, squash.
  cbn [fone fadd fsub fmul fdiv fsqrt R_Scalar].
  assert (Hp : 0 < 1 - r * r) by lra.
  pose proof (sqrt_lt_R0 _ Hp) as Hs.
  pose proof (sqrt_sqrt _ (Rlt_le _ _ Hp)) as Hss.
  set (t := R_sqrt.sqrt (1 - r * r)) in *.
  assert (Hx : r * r = 1 - t * t) by lra.
  assert (E : 1 + r / t * (r / t) = / t * / t).
  { transitivity (1 + (r * r) / (t * t)); [ field; lra | ].
    rewrite Hx. field. lra. }
  rewrite E. rewrite sqrt_square by (left; now apply Rinv_0_lt_compat).
  field. lra.
Qed.

Lemma length_unreflect_step (W : vector R) :
  length (unreflect_step W) = (length W - 1)%nat.
Proof. unfold unreflect_step. now rewrite length_map, length_seq. Qed.

Lemma nth_unreflect_step (W : vector R) (i : nat) :
  (i < length W - 1)%nat ->
  nth i (unreflect_step W) 0
  = (nth i W 0
     - nth (length W - 1) W 0 * nth (length W - 1 - i - 1) W 0)
    / (1 - nth (length W - 1) W 0 * nth (length W - 1) W 0).
Proof.
  intros Hi. unfold unreflect_step.
  now rewrite (nth_map_seq _ 0) by assumption.
Qed.

Lemma length_iter_unreflect (q : nat) (W : vector R) :
  length (Nat.iter q unreflect_step W) = (length W - q)%nat.
Proof.
  induction q as [ | q IH]; [ cbn; lia | ].
  rewrite Nat.iter_succ, length_unreflect_step, IH. lia.
Qed.

(** The two steps undo each other, unless the coefficient of reflection
    is 1 or -1. *)
Lemma unreflect_reflect (r : R) (Y : vector R) :
  1 - r * r <> 0 -> unreflect_step (reflect_step r Y) = Y.
Proof.
  intros Hr. apply nth_ext with (d := 0) (d' := 0).
  - rewrite length_unreflect_step, length_reflect_step. lia.
  - intros i Hi.
    rewrite length_unreflect_step, length_reflect_step in Hi.
    rewrite nth_unreflect_step by (rewrite length_reflect_step; lia).
    rewrite length_reflect_step.
    replace (S (length Y) - 1)%nat with (length Y) by lia.
    rewrite !nth_reflect_step by lia.
    rewrite Nat.eqb_refl.
    destruct (Nat.eqb_spec i (length Y)) as [E | _]; [ lia | ].
    destruct (Nat.eqb_spec (length Y - i - 1) (length Y)) as [E | _];
      [ lia | ].
    replace (length Y - (length Y - i - 1) - 1)%nat with i by lia.
    field. exact Hr.
Qed.

Lemma reflect_unreflect (W : vector R) :
  W <> [] ->
  1 - nth (length W - 1) W 0 * nth (length W - 1) W 0 <> 0 ->
  reflect_step (nth (length W - 1) W 0) (unreflect_step W) = W.
Proof.
  intros Hne Hr.
  assert (Hl : (0 < length W)%nat) by (destruct W; [ contradiction | cbn; lia ]).
  apply nth_ext with (d := 0) (d' := 0).
  - rewrite length_reflect_step, length_unreflect_step. lia.
  - intros i Hi.
    rewrite length_reflect_step, length_unreflect_step in Hi.
    rewrite nth_reflect_step by (rewrite length_unreflect_step; lia).
    rewrite length_unreflect_step.
    destruct (Nat.eqb_spec i (length W - 1)) as [-> | Hne'];
      [ reflexivity | ].
    rewrite !nth_unreflect_step by lia.
    replace (length W - 1 - (length W - 1 - i - 1) - 1)%nat with i by lia.
    field. exact Hr.
Qed.

(** The loop [for i in range(k)] writes the entries of row [k - 1] from
    those of row [k]. *)
Lemma unconstrain_inner (n k m : nat) (y : matrix R) :
  has_shape n n y -> (1 <= k < n)%nat -> (m <= k)%nat ->
  let y' :=
    fold_left
      (fun y i =>
         set2 y (k - 1) i
           ((get2 y k i - get2 y k k * get2 y k (k - i - 1))
            / (1 - get2 y k k * get2 y k k)))
      (seq 0 m) y in
  has_shape n n y'
  /\ (forall a i, a <> (k - 1)%nat -> get2 y' a i = get2 y a i)
  /\ (forall i, (i < m)%nat ->
        get2 y' (k - 1) i
        = (get2 y k i - get2 y k k * get2 y k (k - i - 1))
          / (1 - get2 y k k * get2 y k k))
  /\ (forall i, (m <= i)%nat -> get2 y' (k - 1) i = get2 y (k - 1) i).
Proof.
  intros Hy Hk. induction m as [ | m IH]; intros Hm; cbn zeta.
  - cbn [seq fold_left].
    split; [ assumption | ]. split; [ reflexivity | ].
    split; [ intros i Hi; lia | reflexivity ].
  - rewrite seq_S, fold_left_app. cbn [fold_left Nat.add].
    destruct IH as (Hs & Hrows & Hlow & Hhigh); [ lia | ].
    cbn zeta in Hs, Hrows, Hlow, Hhigh.
    set (y' := fold_left _ (seq 0 m) y) in *.
    split; [ now apply has_shape_set2 | ].
    split; [ | split ].
    + intros a i Ha. rewrite (get2_set2_other _ Hs) by (left; lia).
      now apply Hrows.
    + intros i Hi. destruct (Nat.eq_dec i m) as [-> | Hne].
      * rewrite (get2_set2_same _ Hs) by lia.
        rewrite !Hrows by lia. reflexivity.
      * rewrite (get2_set2_other _ Hs) by (right; lia).
        apply Hlow. lia.
    + intros i Hi. rewrite (get2_set2_other _ Hs) by (right; lia).
      apply Hhigh. lia.
Qed.

Lemma has_shape_set_row (n a : nat) (row : vector R) (y : matrix R) :
  has_shape n n y -> length row = n -> has_shape n n (set_nth a row y).
Proof.
  intros [Hl Hf] Hrow. split; [ now rewrite length_set_nth | ].
  rewrite Forall_forall in *. intros r Hr.
  apply In_nth with (d := []) in Hr as (b & Hb & <-).
  rewrite length_set_nth in Hb.
  destruct (Nat.eq_dec a b) as [-> | Hne].
  - now rewrite nth_set_nth_same by lia.
  - rewrite nth_set_nth_other by assumption. apply Hf, nth_In. lia.
Qed.

(** The rows of the table of [unconstrain_stationary_univariate], after
    [p] passes of its outer loop. *)
Lemma unconstrain_table_passes (c : vector R) (p : nat) :
  let n := length c in
  let y0 := set_nth (n - 1) (vopp c) (zeros n n) in
  let T := fold_left unconstrain_row (rev (seq (n - p) p)) y0 in
  (p < n)%nat ->
  has_shape n n T
  /\ forall q i, (q <= p)%nat -> (i <= n - 1 - q)%nat ->
       get2 T (n - 1 - q) i = nth i (Nat.iter q unreflect_step (vopp c)) 0.
Proof.
  intros n y0. induction p as [ | p IH]; intros T Hp.
  - subst T. cbn [seq rev fold_left].
    assert (Hy0 : has_shape n n y0).
    { apply has_shape_set_row; [ apply has_shape_zeros | ].
      apply length_vopp. }
    split; [ exact Hy0 | ].
    intros q i Hq Hi. assert (q = 0%nat) as -> by lia.
    cbn [Nat.iter nat_rect]. rewrite Nat.sub_0_r.
    unfold get2, y0. rewrite nth_set_nth_same; [ reflexivity | ].
    unfold zeros. rewrite repeat_length. lia.
  - subst T.
    replace (n - S p)%nat with (n - p - 1)%nat by lia.
    replace (seq (n - p - 1) (S p))
      with ((n - p - 1)%nat :: seq (n - p) p)
      by (cbn [seq]; do 2 f_equal; lia).
    cbn [rev]. rewrite fold_left_app. cbn [fold_left].
    destruct IH as [Hs Hrows]; [ lia | ].
    set (T := fold_left unconstrain_row (rev (seq (n - p) p)) y0) in *.
    remember (n - p - 1)%nat as k eqn:Ek.
    destruct (@unconstrain_inner n k k T Hs) as (Hs' & Hother & Hlow & _);
      [ lia | lia | ].
    cbn zeta in Hs', Hother, Hlow. unfold unconstrain_row.
    split; [ exact Hs' | ].
    intros q i Hq Hi.
    destruct (Nat.eq_dec q (S p)) as [-> | Hne].
    + replace (n - 1 - S p)%nat with (k - 1)%nat by lia.
      rewrite Hlow by lia.
      set (W := Nat.iter p unreflect_step (vopp c)).
      assert (HT : forall j, (j <= k)%nat -> get2 T k j = nth j W 0).
      { intros j Hj. replace k with (n - 1 - p)%nat by lia.
        apply Hrows; lia. }
      rewrite !HT by lia.
      pose proof (length_iter_unreflect p (vopp c)) as Hlen.
      rewrite length_vopp in Hlen. fold n W in Hlen.
      rewrite Nat.iter_succ. fold W.
      rewrite nth_unreflect_step by (rewrite Hlen; lia).
      rewrite Hlen. replace (n - p - 1)%nat with k by lia.
      reflexivity.
    + rewrite Hother by lia. apply Hrows; lia.
Qed.

Lemma unconstrain_table_rows (c : vector R) (a i : nat) :
  (a < length c)%nat -> (i <= a)%nat ->
  get2 (unconstrain_table c) a i = nth i (unreflect_rows c a) 0.
Proof.
  intros Ha Hi. set (n := length c).
  destruct (@unconstrain_table_passes c (n - 1)) as [_ Hrows];
    [ subst n; lia | ].
  cbn zeta in Hrows. fold n in Hrows.
  replace (n - (n - 1))%nat with 1%nat in Hrows by (subst n; lia).
  fold (unconstrain_table c) in Hrows.
  specialize (Hrows (n - 1 - a)%nat i).
  replace (n - 1 - (n - 1 - a))%nat with a in Hrows by (subst n; lia).
  unfold unreflect_rows. fold n. apply Hrows; subst n; lia.
Qed.

Lemma length_unreflect_rows (c : vector R) (a : nat) :
  (a < length c)%nat -> length (unreflect_rows c a) = S a.
Proof.
  intros Ha. unfold unreflect_rows.
  rewrite length_iter_unreflect, length_vopp. lia.
Qed.

Lemma nth_unconstrain_reflection (c : vector R) (a : nat) :
  (a < length c)%nat ->
  nth a (unconstrain_reflection c) 0 = nth a (unreflect_rows c a) 0.
Proof.
  intros Ha. unfold unconstrain_reflection, diagonal.
  rewrite (nth_map_seq _ 0) by assumption. cbn [Nat.add].
  now apply unconstrain_table_rows.
Qed.

Lemma unreflect_rows_pred (c : vector R) (a : nat) :
  (S a < length c)%nat ->
  unreflect_rows c a = unreflect_step (unreflect_rows c (S a)).
Proof.
  intros Ha. unfold unreflect_rows.
  replace (length c - 1 - a)%nat with (S (length c - 1 - S a)) by lia.
  now rewrite Nat.iter_succ.
Qed.

End UnivariateRoundTrip.

Section UnivariateRoundTripTheorems.
Local Open Scope R_scope.

Lemma nth_map_squash (u : vector R) (a : nat) :
  (a < length u)%nat -> nth a (map squash u) 0 = squash (nth a u 0).
Proof.
  intros Ha.
  rewrite (nth_indep _ 0 (squash 0)) by (rewrite length_map; lia).
  apply map_nth.
Qed.

(** The rows of the inverse table are the rows of the table of
    [constrain_stationary_univariate]. *)
Lemma unreflect_reflect_rows (u : vector R) (q : nat) :
  (q < length u)%nat ->
  Nat.iter q unreflect_step (reflect_rows (map squash u))
  = reflect_rows (firstn (length u - q) (map squash u)).
Proof.
  induction q as [ | q IH]; intros Hq.
  - cbn [Nat.iter nat_rect]. rewrite Nat.sub_0_r.
    now rewrite firstn_all2 by (rewrite length_map; lia).
  - rewrite Nat.iter_succ, IH by lia.
    replace (length u - q)%nat with (S (length u - S q)) by lia.
    rewrite (firstn_S_snoc _ 0) by (rewrite length_map; lia).
    rewrite reflect_rows_snoc. apply unreflect_reflect.
    rewrite nth_map_squash by lia.
    pose proof (squash_square (nth (length u - S q) u 0)). lra.
Qed.

(** Over the real numbers, [unconstrain_stationary_univariate] undoes
    [constrain_stationary_univariate]: applied to the array returned for
    [unconstrained], it returns [unconstrained]. *)
Theorem unconstrain_constrain_univariate (unconstrained constrained : vector R) :
  constrain_stationary_univariate unconstrained = Ok constrained ->
  unconstrain_stationary_univariate constrained = unconstrained.
Proof.
  intros E. apply constrain_univariate_rows in E as [Hne ->].
  set (u := unconstrained) in *. set (rs := map squash u).
  set (c := vopp (reflect_rows rs)).
  assert (Hlc : length c = length u).
  { subst c rs. now rewrite length_vopp, length_reflect_rows, length_map. }
  assert (Hrefl : unconstrain_reflection c = rs).
  { apply nth_ext with (d := 0) (d' := 0).
    - unfold unconstrain_reflection, diagonal.
      rewrite length_map, length_seq. subst rs. now rewrite length_map.
    - intros a Ha. unfold unconstrain_reflection, diagonal in Ha.
      rewrite length_map, length_seq in Ha.
      rewrite nth_unconstrain_reflection by assumption.
      unfold unreflect_rows. rewrite Hlc.
      replace (vopp c) with (reflect_rows rs)
        by (subst c; now rewrite vopp_involutive).
      subst rs.
      rewrite unreflect_reflect_rows by lia.
      replace (length u - (length u - 1 - a))%nat with (S a) by lia.
      rewrite (firstn_S_snoc _ 0) by (rewrite length_map; lia).
      rewrite reflect_rows_snoc.
      rewrite nth_reflect_step
        by (rewrite length_reflect_rows, length_firstn, length_map; lia).
      rewrite length_reflect_rows, length_firstn, length_map.
      replace (Nat.min a (length u)) with a by lia.
      now rewrite Nat.eqb_refl. }
  unfold unconstrain_stationary_univariate. rewrite Hrefl. subst rs.
  rewrite map_map. rewrite <- (map_id u) at 2.
  apply map_ext. intros x. apply unsquash_squash.
Qed.

Lemma unconstrain_constrain_univariate_witness :
  exists constrained,
    constrain_stationary_univariate [0; 0] = Ok constrained
    /\ unconstrain_stationary_univariate constrained = [0; 0].
Proof.
  eexists. split; [ reflexivity | ].
  apply unconstrain_constrain_univariate. reflexivity.
Defined.

(** Over the real numbers, [constrain_stationary_univariate] undoes
    [unconstrain_stationary_univariate] on every array, not empty, for
    which the values [r] on the diagonal of the table of the latter (the
    partial autocorrelations) lie strictly between -1 and 1. *)
Theorem constrain_unconstrain_univariate (constrained : vector R) :
  constrained <> [] ->
  Forall (fun r => r * r < 1) (unconstrain_reflection constrained) ->
  constrain_stationary_univariate
    (unconstrain_stationary_univariate constrained)
  = Ok constrained.
Proof.
  intros Hne Hr. set (c := constrained) in *.
  set (rho := unconstrain_reflection c) in *.
  set (n := length c).
  assert (Hn : (0 < n)%nat)
    by (subst n; destruct c; [ contradiction | cbn; lia ]).
  assert (Hlr : length rho = n).
  { subst rho. unfold unconstrain_reflection, diagonal.
    now rewrite length_map, length_seq. }
  assert (Hsq : map squash (unconstrain_stationary_univariate c) = rho).
  { unfold unconstrain_stationary_univariate. fold rho.
    rewrite map_map. rewrite <- (map_id rho) at 2.
    apply map_ext_in. intros r Hin. apply squash_unsquash.
    rewrite Forall_forall in Hr. now apply Hr. }
  assert (Hrows : forall a, (a < n)%nat ->
            reflect_rows (firstn (S a) rho) = unreflect_rows c a).
  { induction a as [ | a IH]; intros Ha.
    - destruct rho as [ | r0 rho'] eqn:Erho; [ cbn in Hlr; lia | ].
      cbn [firstn reflect_rows fold_left reflect_step map2 rev app].
      pose proof (@length_unreflect_rows c 0 Ha) as Hl.
      pose proof (@nth_unconstrain_reflection c 0 Ha) as E0.
      fold rho in E0. rewrite Erho in E0. cbn [nth] in E0.
      destruct (unreflect_rows c 0) as [ | w [ | w' W]];
        cbn in Hl; try lia.
      cbn [nth] in E0. now rewrite E0.
    - rewrite (firstn_S_snoc _ 0) by lia.
      rewrite reflect_rows_snoc, IH by lia.
      rewrite unreflect_rows_pred by assumption.
      pose proof (@length_unreflect_rows c (S a) Ha) as Hl.
      pose proof (@nth_unconstrain_reflection c (S a) Ha) as E.
      fold rho in E. rewrite E.
      replace (S a) with (length (unreflect_rows c (S a)) - 1)%nat at 1
        by (rewrite Hl; lia).
      apply reflect_unreflect.
      + intros Enil. rewrite Enil in Hl. discriminate.
      + rewrite Hl. replace (S (S a) - 1)%nat with (S a) by lia.
        rewrite <- E.
        rewrite Forall_forall in Hr.
        pose proof (Hr (nth (S a) rho 0) ltac:(apply nth_In; lia)). lra. }
  unfold constrain_stationary_univariate.
  assert (Hlx : length (unconstrain_stationary_univariate c) = n).
  { unfold unconstrain_stationary_univariate. fold rho.
    now rewrite length_map. }
  destruct (constrain_stationary_univariate
              (unconstrain_stationary_univariate c)) as [c' | e] eqn:E.
  - unfold constrain_stationary_univariate in E. rewrite E. f_equal.
    fold (constrain_stationary_univariate
            (unconstrain_stationary_univariate c)) in E.
    assert (E' : constrain_stationary_univariate
                   (unconstrain_stationary_univariate c) = Ok c').
    { unfold constrain_stationary_univariate. exact E. }
    apply constrain_univariate_rows in E' as [_ ->].
    rewrite Hsq. specialize (Hrows (n - 1)%nat ltac:(lia)).
    replace (S (n - 1)) with n in Hrows by lia.
    rewrite firstn_all2 in Hrows by lia. rewrite Hrows.
    unfold unreflect_rows. fold n. rewrite Nat.sub_diag.
    cbn [Nat.iter nat_rect]. apply vopp_involutive.
  - exfalso. unfold constrain_stationary_univariate in E.
    rewrite Hlx in E. destruct n; [ lia | discriminate ].
Qed.

Lemma constrain_unconstrain_univariate_witness :
  constrain_stationary_univariate
    (unconstrain_stationary_univariate [0.5])
  = Ok [0.5].
Proof.
  apply constrain_unconstrain_univariate.
  - discriminate.
  - cbn. constructor; [ lra | constructor ].
Defined.

End UnivariateRoundTripTheorems.

(** * The round trip through the singular-value transforms *)

Section SingularValueRoundTrip.
Local Open Scope R_scope.
Local Open Scope py_scope.

(** Two lower triangular matrices with positive diagonals whose product
    preserves the length of every vector multiply to the identity. *)
Lemma lower_pos_isometry (n : nat) (L1 L2 : matrix R) :
  lower_pos n L1 -> lower_pos n L2 ->
  (forall y, length y = n ->
     dotv (vecmat n (vecmat n y L1) L2) (vecmat n (vecmat n y L1) L2)
     = dotv y y) ->
  forall y, length y = n -> vecmat n (vecmat n y L1) L2 = y.
Proof.
  intros H1. revert L2.
  induction H1 as [ | n d1 c1 M1 Hd1 Hc1 HM1 IH]; intros L2 H2 Hiso y Hy.
  - now destruct y.
  - inversion H2 as [ | n' d2 c2 M2 Hd2 Hc2 HM2 En EL]; subst n'.
    subst L2.
    pose proof (has_shape_lower_pos HM1) as HsM1.
    pose proof (has_shape_lower_pos HM2) as HsM2.
    assert (Hstep : forall x w, length w = n ->
              vecmat (S n)
                (vecmat (S n) (x :: w)
                   ((d1 :: repeat 0 n) :: map2 cons c1 M1))
                ((d2 :: repeat 0 n) :: map2 cons c2 M2)
              = ((x * d1 + dotv w c1) * d2 + dotv (vecmat n w M1) c2)
                  :: vecmat n (vecmat n w M1) M2).
    { intros x w Hw. rewrite (@vecmat_lower_cons n d1 x c1 w M1 Hc1 HsM1).
      now rewrite (@vecmat_lower_cons n d2 _ c2 _ M2 Hc2 HsM2). }
    assert (Hsq : forall x w, length w = n ->
              ((x * d1 + dotv w c1) * d2 + dotv (vecmat n w M1) c2)
              * ((x * d1 + dotv w c1) * d2 + dotv (vecmat n w M1) c2)
              + dotv (vecmat n (vecmat n w M1) M2)
                  (vecmat n (vecmat n w M1) M2)
              = x * x + dotv w w).
    { intros x w Hw.
      pose proof (Hiso (x :: w) ltac:(cbn; lia)) as E.
      rewrite (Hstep x w Hw) in E. cbn [dotv] in E.
      cbn [fadd fmul R_Scalar] in E. exact E. }
    assert (Hdd : d1 * d2 = 1).
    { pose proof (Hsq 1 (repeat 0 n) (repeat_length _ _)) as E.
      rewrite !dotv_zeros in E.
      rewrite (vecmat_zeros_l n (proj2 HsM1)) in E.
      rewrite !dotv_zeros in E.
      rewrite (vecmat_zeros_l n (proj2 HsM2)) in E.
      rewrite !dotv_zeros in E.
      assert (Hp : 0 < d1 * d2) by nra. nra. }
    destruct y as [ | x w]; [ discriminate | ]. injection Hy as Hw.
    pose proof (Hsq 0 w Hw) as E0. pose proof (Hsq 1 w Hw) as E1.
    set (alpha := dotv w c1 * d2 + dotv (vecmat n w M1) c2) in *.
    set (beta := dotv (vecmat n (vecmat n w M1) M2)
                   (vecmat n (vecmat n w M1) M2)) in *.
    assert (Ha : alpha = 0).
    { assert (E0' : alpha * alpha + beta = dotv w w).
      { transitivity (0 * 0 + dotv w w); [ | ring ].
        rewrite <- E0. subst alpha. ring. }
      assert (E1' : (d1 * d2 + alpha) * (d1 * d2 + alpha) + beta
                    = 1 + dotv w w).
      { transitivity (1 * 1 + dotv w w); [ | ring ].
        rewrite <- E1. subst alpha. ring. }
      rewrite Hdd in E1'. nra. }
    rewrite (Hstep x w Hw). f_equal.
    + transitivity (x * (d1 * d2) + alpha); [ subst alpha; ring | ].
      rewrite Hdd, Ha. ring.
    + apply IH; [ exact HM2 | | exact Hw ].
      intros w' Hw'. pose proof (Hsq 0 w' Hw') as E0'.
      pose proof (Hsq 1 w' Hw') as E1'.
      set (a' := dotv w' c1 * d2 + dotv (vecmat n w' M1) c2) in *.
      assert (Ha' : a' = 0).
      { assert (F0 : a' * a'
                     + dotv (vecmat n (vecmat n w' M1) M2)
                         (vecmat n (vecmat n w' M1) M2)
                     = dotv w' w').
        { transitivity (0 * 0 + dotv w' w'); [ | ring ].
          rewrite <- E0'. subst a'. ring. }
        assert (F1 : (d1 * d2 + a') * (d1 * d2 + a')
                     + dotv (vecmat n (vecmat n w' M1) M2)
                         (vecmat n (vecmat n w' M1) M2)
                     = 1 + dotv w' w').
        { transitivity (1 * 1 + dotv w' w'); [ | ring ].
          rewrite <- E1'. subst a'. ring. }
        rewrite Hdd in F1. nra. }
      transitivity
        (((0 * d1 + dotv w' c1) * d2 + dotv (vecmat n w' M1) c2)
         * ((0 * d1 + dotv w' c1) * d2 + dotv (vecmat n w' M1) c2)
         + dotv (vecmat n (vecmat n w' M1) M2)
             (vecmat n (vecmat n w' M1) M2)
         - a' * a'); [ subst a'; ring | ].
      rewrite E0', Ha'. ring.
Qed.

(** Two matrices that act alike on every row vector are equal. *)
Lemma vecmat_ext (n c : nat) (A A' : matrix R) :
  has_shape n c A -> has_shape n c A' ->
  (forall y, length y = n -> vecmat c y A = vecmat c y A') -> A = A'.
Proof.
  intros HA HA' E. apply nth_ext with (d := []) (d' := []).
  - now rewrite (proj1 HA), (proj1 HA').
  - intros i Hi. rewrite (proj1 HA) in Hi.
    rewrite <- (vecmat_unit HA Hi), <- (vecmat_unit HA' Hi).
    apply E, length_unit_vec.
Qed.

(** The two steps of [_constrain_sv_less_than_one_python] on a matrix. *)
Lemma constrain_sv_step_parts (k : nat) (A : matrix R) :
  has_shape k k A ->
  exists B P,
    cholesky (madd (eye k) (dot A (transpose A))) = Ok B
    /\ solve_triangular B A NoTrans = Ok P
    /\ lower_pos k B
    /\ (forall v, length v = k ->
          dotv (vecmat k v B) (vecmat k v B)
          = dotv v v + dotv (vecmat k v A) (vecmat k v A))
    /\ has_shape k k P
    /\ (forall y, length y = k ->
          vecmat k (vecmat k y B) P = vecmat k y A).
Proof.
  intros HA. rewrite (dot_transpose_self HA).
  set (M := madd (eye k) (dot_T A A)).
  assert (HM : has_shape k k M)
    by (apply has_shape_madd; auto using has_shape_eye, has_shape_gram).
  assert (Hq : forall v, length v = k ->
                 qform_low M v
                 = dotv v v + dotv (vecmat k v A) (vecmat k v A)).
  { intros v Hv. subst M.
    rewrite (qform_low_madd (n:=k)) by (auto using has_shape_eye, has_shape_gram).
    now rewrite qform_low_eye, (qform_low_gram _ HA) by assumption. }
  assert (Hpd : pos_def k M).
  { intros v Hv Hnz. rewrite (Hq v Hv).
    pose proof (dotv_self_pos Hnz).
    pose proof (dotv_self_nonneg (vecmat k v A)). lra. }
  destruct (cholesky_n_spec HM) as (Hex & _ & _).
  destruct (Hex Hpd) as (L & E & HL & HqL).
  destruct (solve_lower_n_dot HL HA) as (P & EP & HP & _ & Hsol).
  exists L, P. rewrite cholesky_real, solve_triangular_real. unfold nrows.
  rewrite (proj1 HM), (proj1 (has_shape_lower_pos HL)).
  repeat split; auto; try apply HP.
  intros v Hv. now rewrite <- (HqL v Hv), (Hq v Hv).
Qed.

Lemma unconstrain_sv_step_parts (k : nat) (P : matrix R) :
  has_shape k k P -> sv_lt_one k P ->
  exists L A,
    cholesky (msub (eye k) (dot P (transpose P))) = Ok L
    /\ solve_triangular L P NoTrans = Ok A
    /\ lower_pos k L
    /\ (forall v, length v = k ->
          dotv (vecmat k v L) (vecmat k v L)
          = dotv v v - dotv (vecmat k v P) (vecmat k v P))
    /\ has_shape k k A
    /\ (forall y, length y = k ->
          vecmat k (vecmat k y L) A = vecmat k y P).
Proof.
  intros HP Hsv.
  destruct (unconstrain_sv_step HP Hsv)
    as (L & A & EL & EA & HL & HqL & HA & _).
  destruct (solve_lower_n_dot HL HP) as (X & EX & _ & _ & Hsol).
  rewrite solve_triangular_real in EA. unfold nrows in EA.
  rewrite (proj1 (has_shape_lower_pos HL)), EX in EA.
  injection EA as ->.
  exists L, A. rewrite solve_triangular_real. unfold nrows.
  rewrite (proj1 (has_shape_lower_pos HL)). auto 10.
Qed.

Lemma vecmat_lower_length (k : nat) (L : matrix R) (y : vector R) :
  lower_pos k L -> length (vecmat k y L) = k.
Proof.
  intros HL. apply length_vecmat, (has_shape_lower_pos HL).
Qed.

(** One matrix through the two transforms, in either order. *)
Lemma sv_step_there_and_back (k : nat) (A : matrix R) :
  has_shape k k A ->
  exists P,
    (B <- cholesky (madd (eye k) (dot A (transpose A))) ;;
     solve_triangular B A NoTrans) = Ok P
    /\ has_shape k k P
    /\ (B_inv <- cholesky (msub (eye k) (dot P (transpose P))) ;;
        solve_triangular B_inv P NoTrans) = Ok A.
Proof.
  intros HA.
  destruct (constrain_sv_step_parts HA)
    as (B & P & EB & EP & HB & HqB & HP & HsolB).
  destruct (constrain_sv_step HA) as (P' & EP' & _ & Hsv).
  rewrite EB in EP'. cbn [bind] in EP'. rewrite EP in EP'.
  injection EP' as <-.
  destruct (unconstrain_sv_step_parts HP Hsv)
    as (L & A' & EL & EA' & HL & HqL & HA' & HsolL).
  exists P. rewrite EB, EL. cbn [bind]. rewrite EP, EA'.
  split; [ reflexivity | ]. split; [ exact HP | ]. f_equal.
  assert (Hid : forall y, length y = k ->
            vecmat k (vecmat k y B) L = y).
  { apply lower_pos_isometry; [ assumption | assumption | ].
    intros y Hy.
    rewrite HqL by now apply vecmat_lower_length.
    rewrite HsolB, HqB by assumption. ring. }
  apply (vecmat_ext HA' HA). intros y Hy.
  rewrite <- (Hid y Hy) at 1.
  rewrite HsolL by now apply vecmat_lower_length.
  now apply HsolB.
Qed.

Lemma sv_step_back_and_there (k : nat) (P : matrix R) :
  has_shape k k P -> sv_lt_one k P ->
  exists A,
    (B_inv <- cholesky (msub (eye k) (dot P (transpose P))) ;;
     solve_triangular B_inv P NoTrans) = Ok A
    /\ has_shape k k A
    /\ (B <- cholesky (madd (eye k) (dot A (transpose A))) ;;
        solve_triangular B A NoTrans) = Ok P.
Proof.
  intros HP Hsv.
  destruct (unconstrain_sv_step_parts HP Hsv)
    as (L & A & EL & EA & HL & HqL & HA & HsolL).
  destruct (constrain_sv_step_parts HA)
    as (B & P' & EB & EP' & HB & HqB & HP' & HsolB).
  exists A. rewrite EL, EB. cbn [bind]. rewrite EA, EP'.
  split; [ reflexivity | ]. split; [ exact HA | ]. f_equal.
  assert (Hid : forall y, length y = k ->
            vecmat k (vecmat k y L) B = y).
  { apply lower_pos_isometry; [ assumption | assumption | ].
    intros y Hy.
    rewrite HqB by now apply vecmat_lower_length.
    rewrite HsolL, HqL by assumption. ring. }
  apply (vecmat_ext HP' HP). intros y Hy.
  rewrite <- (Hid y Hy) at 1.
  rewrite HsolB by now apply vecmat_lower_length.
  now apply HsolL.
Qed.

Lemma map_result_inverse {A B : Type} (f : A -> result B)
  (g : B -> result A) (Q : B -> Prop) (xs : list A) :
  Forall (fun x => exists y, f x = Ok y /\ Q y /\ g y = Ok x) xs ->
  exists ys, map_result f xs = Ok ys /\ Forall Q ys
             /\ length ys = length xs /\ map_result g ys = Ok xs.
Proof.
  induction 1 as [ | x xs (y & Ef & HQ & Eg) _ (ys & E & HQs & Hl & E')].
  - exists []. repeat split; constructor.
  - exists (y :: ys). cbn [map_result]. rewrite Ef, Eg. cbn [bind].
    rewrite E, E'. cbn [bind length].
    repeat split; [ now constructor | now rewrite Hl ].
Qed.

Lemma map_result_all_index {A B : Type} (f : A -> result B) (xs : list A) :
  map_result (fun i => x <- index xs i ;; f x) (seq 0 (length xs))
  = map_result f xs.
Proof.
  rewrite (map_result_index f xs) by (cbn; lia).
  cbn [skipn]. now rewrite firstn_all.
Qed.

(** Over the real numbers, [_unconstrain_sv_less_than_one] undoes
    [_constrain_sv_less_than_one_python] on every list of square matrices
    of one size (the arguments [order] and [k_endog] left to their
    defaults): whenever the latter returns, the former returns the
    matrices that went in. *)
Theorem unconstrain_constrain_sv (k : nat)
  (unconstrained constrained : list (matrix R)) :
  Forall (has_shape k k) unconstrained ->
  _constrain_sv_less_than_one_python unconstrained None None
  = Ok constrained ->
  _unconstrain_sv_less_than_one constrained None None = Ok unconstrained.
Proof.
  intros HAs E.
  assert (Hne : unconstrained <> []) by (intros ->; discriminate).
  unfold _constrain_sv_less_than_one_python in E.
  rewrite (default_k_endog_shape HAs (k_endog:=None)) in E
    by (right; split; [ reflexivity | assumption ]).
  cbn [bind default_order] in E. rewrite map_result_all_index in E.
  destruct (map_result_inverse
              (fun A => B <- cholesky (madd (eye k) (dot A (transpose A))) ;;
                        solve_triangular B A NoTrans)
              (fun P => B_inv <- cholesky (msub (eye k) (dot P (transpose P))) ;;
                        solve_triangular B_inv P NoTrans)
              (has_shape k k) (xs := unconstrained))
    as (Ps & EPs & HPs & Hl & Eback).
  { eapply Forall_impl; [ | exact HAs ]. intros A HA.
    destruct (sv_step_there_and_back HA) as (P & EP & HP & EA). eauto. }
  rewrite EPs in E. injection E as <-.
  assert (HPne : Ps <> []).
  { destruct Ps; [ | discriminate ].
    destruct unconstrained; [ contradiction | discriminate ]. }
  unfold _unconstrain_sv_less_than_one.
  rewrite (default_k_endog_shape HPs (k_endog:=None))
    by (right; split; [ reflexivity | assumption ]).
  cbn [bind default_order]. now rewrite map_result_all_index.
Qed.

Lemma unconstrain_constrain_sv_witness :
  exists constrained,
    _constrain_sv_less_than_one_python [[[0]]] None None = Ok constrained
    /\ _unconstrain_sv_less_than_one constrained None None = Ok [[[0]]].
Proof.
  assert (Hs : Forall (has_shape 1 1) [[[0]]]) by (repeat constructor).
  destruct (_constrain_sv_less_than_one_python [[[0]]] None None)
    as [Ps | e] eqn:E.
  - exists Ps. split; [ reflexivity | ].
    exact (unconstrain_constrain_sv Hs E).
  - exfalso. revert E.
    unfold _constrain_sv_less_than_one_python. cbn -[Rltb Reqb].
    rewrite Rltb_true by lra. cbn -[Rltb Reqb].
    rewrite Reqb_false. 
    + discriminate.
    + replace (1 + (0 * 0 + 0)) with 1 by ring. rewrite sqrt_1. lra.
Defined.

(** Over the real numbers, [_constrain_sv_less_than_one_python] undoes
    [_unconstrain_sv_less_than_one] on every list, not empty, of square
    matrices of one size whose singular values are below one: the latter
    returns, and the former returns from its result the matrices that went
    in. *)
Theorem constrain_unconstrain_sv (k : nat) (constrained : list (matrix R)) :
  constrained <> [] ->
  Forall (has_shape k k) constrained ->
  Forall (sv_lt_one k) constrained ->
  exists unconstrained,
    _unconstrain_sv_less_than_one constrained None None = Ok unconstrained
    /\ _constrain_sv_less_than_one_python unconstrained None None
       = Ok constrained.
Proof.
  intros Hne HPs Hsv.
  destruct (map_result_inverse
              (fun P => B_inv <- cholesky (msub (eye k) (dot P (transpose P))) ;;
                        solve_triangular B_inv P NoTrans)
              (fun A => B <- cholesky (madd (eye k) (dot A (transpose A))) ;;
                        solve_triangular B A NoTrans)
              (has_shape k k) (xs := constrained))
    as (As & EAs & HAs & Hl & Eback).
  { rewrite Forall_forall in *. intros P HP.
    destruct (sv_step_back_and_there (HPs P HP) (Hsv P HP))
      as (A & EA & HA & EP). eauto. }
  assert (HAne : As <> []).
  { destruct As; [ | discriminate ].
    destruct constrained; [ contradiction | discriminate ]. }
  exists As. split.
  - unfold _unconstrain_sv_less_than_one.
    rewrite (default_k_endog_shape HPs (k_endog:=None))
      by (right; split; [ reflexivity | assumption ]).
    cbn [bind default_order]. now rewrite map_result_all_index.
  - unfold _constrain_sv_less_than_one_python.
    rewrite (default_k_endog_shape HAs (k_endog:=None))
      by (right; split; [ reflexivity | assumption ]).
    cbn [bind default_order]. now rewrite map_result_all_index.
Qed.

Lemma constrain_unconstrain_sv_witness :
  exists unconstrained,
    _unconstrain_sv_less_than_one [[[0]]] None None = Ok unconstrained
    /\ _constrain_sv_less_than_one_python unconstrained None None
       = Ok [[[0]]].
Proof.
  apply (@constrain_unconstrain_sv 1 [[[0]]]).
  - discriminate.
  - repeat constructor.
  - constructor; [ | constructor ].
    intros [ | x [ | ]] Hx Hnz; try discriminate.
    apply dotv_self_pos in Hnz. cbn in *. lra.
Defined.

End SingularValueRoundTrip.

(** * The arrays [constrain_stationary_multivariate_python] returns *)

Section MultivariateShape.
Local Open Scope R_scope.
Local Open Scope py_scope.

(** Called with a list of [order] square matrices of [k_endog] rows and a
    symmetric variance of that size, over the real numbers,
    [constrain_stationary_multivariate_python] returns, when it returns and
    whatever the module's global names are bound to, the coefficients as
    one array of [k_endog] rows and [k_endog * order] columns (not as a
    list), and a variance of [k_endog] rows and columns. *)
Theorem constrain_multivariate_shape (names : module_names)
  (k_endog : nat)
  (unconstrained : list (matrix R)) (variance : matrix R)
  (transform_variance : bool) (constrained : coeffs R)
  (transformed_variance : matrix R) :
  (0 < k_endog)%nat ->
  Forall (has_shape k_endog k_endog) unconstrained ->
  has_shape k_endog k_endog variance ->
  transpose variance = variance ->
  constrain_stationary_multivariate_python names (AsList unconstrained)
    variance transform_variance
  = Ok (constrained, transformed_variance) ->
  exists M,
    constrained = Stacked M
    /\ has_shape k_endog (k_endog * length unconstrained) M
    /\ has_shape k_endog k_endog transformed_variance.
Proof.
  intros Hk HMs HV Hsym E.
  destruct k_endog as [ | k']; [ lia | ].
  pose proof (constrain_multivariate_names _ _ _ _ E) as ->.
  rewrite constrain_multivariate_bound in E. cbn [bind] in E.
  destruct unconstrained as [ | A0 Ms']; [ discriminate | ].
  set (Ms := A0 :: Ms') in *.
  change (index Ms 0) with (Ok (A := matrix R) A0) in E. cbn [bind] in E.
  assert (HA0 : nrows A0 = S k').
  { inversion HMs; subst. unfold nrows. firstorder. }
  rewrite HA0 in E.
  apply bind_ok in E as (Ps & EPs & E).
  apply bind_ok in E as ([fw0 var0] & Er & E). injection E as <- <-.
  destruct (constrain_sv_shapes HMs EPs) as [HlP HPs].
  set (order := length Ms) in *.
  unfold _compute_coefficients_from_multivariate_pacf_python in Er.
  destruct Ps as [ | P0 Ps']; [ subst order; cbn in HlP; lia | ].
  set (Ps := P0 :: Ps') in *. cbn [bind] in Er.
  assert (HP0 : nrows P0 = S k').
  { inversion HPs; subst. unfold nrows. firstorder. }
  rewrite HP0 in Er.
  pose proof (has_shape_hstack HPs) as HP. rewrite HlP in HP.
  fold order in HP.
  exists fw0. split; [ reflexivity | ].
  destruct transform_variance.
  - destruct (@pacf_recursion_stable k' order _ _ _ _ HP HV
                (@sym_form_transpose k' _ HV Hsym) Er)
      as (Hfw & Hvar & _).
    now split.
  - apply bind_ok in Er as ([fw var1] & Erec & Er). cbn beta iota in Er.
    apply bind_ok in Er as (L0 & EL0 & Er).
    apply bind_ok in Er as (Lt & ELt & Er).
    apply bind_ok in Er as (D & ED & Er).
    apply bind_ok in Er as (Ti & ETi & Er). injection Er as <- <-.
    rewrite np_linalg_cholesky_real in EL0, ELt.
    destruct (surrogate_variance_form order (S k')) as [HSs HSsym].
    destruct (@pacf_recursion_stable k' order _ _ _ _ HP HSs HSsym Erec)
      as (Hfw & Hvar & _).
    pose proof (has_shape_lower_pos (cholesky_lower_pos HV EL0)) as HL0.
    pose proof (has_shape_lower_pos (cholesky_lower_pos Hvar ELt)) as HLt.
    destruct (inv_left_inverse HLt ED) as [HD _].
    assert (HT : has_shape (S k') (S k') (dot L0 D))
      by (apply has_shape_dot; [ apply HL0 | assumption ]).
    destruct (inv_left_inverse HT ETi) as [HTi _].
    destruct (@has_shape_conjugate_blocks k' order _ _ _ HT HTi Hfw)
      as [Hcfw _].
    now split.
Qed.

Lemma constrain_multivariate_shape_witness :
  exists constrained transformed_variance M,
    constrain_stationary_multivariate_python helpers_bound
      (AsList [[[0]]]) [[1]] true
    = Ok (constrained, transformed_variance)
    /\ constrained = Stacked M
    /\ has_shape 1 (1 * 1) M
    /\ has_shape 1 1 transformed_variance.
Proof.
  assert (E : exists r,
             constrain_stationary_multivariate_python helpers_bound
               (AsList [[[0]]]) [[1]] true = Ok r).
  { eexists. rewrite constrain_multivariate_bound.
    unfold _compute_coefficients_from_multivariate_pacf_python,
      pacf_recursion, pacf_step.
    repeat (cbn -[Rltb Reqb];
            repeat match goal with
              | |- context [R_sqrt.sqrt ?a] =>
                  replace (R_sqrt.sqrt a) with 1
                    by (replace a with 1 by lra; symmetry; apply sqrt_1)
              end;
            first [ rewrite Rltb_true by lra | rewrite Reqb_false by lra ]).
    cbn -[Rltb Reqb]. reflexivity. }
  destruct E as ([c v] & E).
  destruct (@constrain_multivariate_shape helpers_bound 1 [[[0]]] [[1]]
              true c v)
    as (M & EM & HM & Hv); auto.
  - repeat constructor.
  - repeat constructor.
  - exists c, v, M. auto.
Defined.

End MultivariateShape.

(** * The recursion of Lemma 2.1 does not fail *)

Section CauchySchwarz.
Local Open Scope R_scope.

Lemma cauchy_schwarz (u v : vector R) :
  dotv u v * dotv u v <= dotv u u * dotv v v.
Proof.
  revert v. induction u as [ | a u IH]; intros [ | b v];
    cbn [dotv fadd fmul fzero R_Scalar]; try lra.
  specialize (IH v).
  pose proof (dotv_self_nonneg u) as HU.
  pose proof (dotv_self_nonneg v) as HV.
  set (s := dotv u v) in *. set (U := dotv u u) in *.
  set (V := dotv v v) in *.
  assert (Hx : 2 * (a * b) * s <= a * a * V + b * b * U).
  { destruct (Rle_dec (2 * (a * b) * s) 0) as [Hneg | Hpos].
    - nra.
    - assert (Hq : (2 * (a * b) * s) * (2 * (a * b) * s)
                   <= (a * a * V + b * b * U) * (a * a * V + b * b * U)).
      { assert (H1 : 4 * (a * a) * (b * b) * (s * s)
                     <= 4 * (a * a) * (b * b) * (U * V)).
        { apply Rmult_le_compat_l; [ nra | exact IH ]. }
        assert (H2 : 0 <= (a * a * V - b * b * U) * (a * a * V - b * b * U))
          by apply Rle_0_sqr.
        replace ((2 * (a * b) * s) * (2 * (a * b) * s))
          with (4 * (a * a) * (b * b) * (s * s)) by ring.
        replace ((a * a * V + b * b * U) * (a * a * V + b * b * U))
          with ((a * a * V - b * b * U) * (a * a * V - b * b * U)
                + 4 * (a * a) * (b * b) * (U * V)) by ring.
        lra. }
      assert (Hnn : 0 <= a * a * V + b * b * U) by nra.
      apply Rnot_lt_le. intros Hlt.
      assert (Hsq : (a * a * V + b * b * U) * (a * a * V + b * b * U)
                    < (2 * (a * b) * s) * (2 * (a * b) * s)).
      { apply Rmult_le_0_lt_compat; assumption. }
      lra. }
  replace ((a * b + s) * (a * b + s))
    with (a * a * (b * b) + 2 * (a * b) * s + s * s) by ring.
  replace ((a * a + U) * (b * b + V))
    with (a * a * (b * b) + (a * a * V + b * b * U) + U * V) by ring.
  lra.
Qed.

(** A matrix whose singular values are below one shortens every vector,
    applied from either side. *)
Lemma sv_lt_one_matvec (k : nat) (P : matrix R) (w : vector R) :
  has_shape k k P -> sv_lt_one k P -> length w = k -> nonzero w ->
  dotv (matvec P w) (matvec P w) < dotv w w.
Proof.
  intros HP Hsv Hw Hnz. set (y := matvec P w).
  assert (Hy : length y = k)
    by (subst y; rewrite length_matvec; apply HP).
  pose proof (dotv_self_pos Hnz) as Hwpos.
  destruct (nonzero_dec y) as [Hynz | Hy0].
  - pose proof (dotv_self_pos Hynz) as Hypos.
    pose proof (Hsv y Hy Hynz) as Hlt.
    assert (E : dotv y y = dotv w (vecmat k y P)).
    { unfold y at 1. apply dotv_matvec; [ assumption | apply HP ]. }
    pose proof (cauchy_schwarz w (vecmat k y P)) as Hcs.
    rewrite <- E in Hcs.
    pose proof (dotv_self_nonneg (vecmat k y P)) as Hnn.
    assert (H1 : dotv y y * dotv y y < dotv w w * dotv y y) by nra.
    nra.
  - rewrite Hy0, dotv_zeros. exact Hwpos.
Qed.

Lemma nonzero_of_pos (v : vector R) : 0 < dotv v v -> nonzero v.
Proof.
  intros Hp. destruct (nonzero_dec v) as [Hnz | E]; [ exact Hnz | ].
  rewrite E, dotv_zeros in Hp. lra.
Qed.

End CauchySchwarz.

Section CholeskyTotal.
Local Open Scope R_scope.

(** The Cholesky factorisation of a symmetric positive definite matrix
    does not fail. *)
Lemma cholesky_total (k : nat) (M : matrix R) :
  has_shape k k M -> sym_form k M ->
  (forall v, length v = k -> nonzero v -> 0 < bform k M v v) ->
  exists L, cholesky M = Ok L.
Proof.
  intros HM Hsym Hpd.
  destruct (cholesky_n_spec HM) as (Hex & _ & _).
  destruct Hex as (L & E & _).
  - intros v Hv Hnz. rewrite (@qform_low_bform k M v HM Hsym Hv).
    now apply Hpd.
  - exists L. rewrite cholesky_real. unfold nrows. now rewrite (proj1 HM).
Qed.

End CholeskyTotal.

Section PacfTotal.
Local Open Scope R_scope.
Local Open Scope py_scope.

Variable k' : nat.
Local Abbreviation k := (S k').
Variable order : nat.
Variable z : cx.
Hypothesis Hz : 1 <= cx_norm2 z.
Variable P : matrix R.
Hypothesis HP : has_shape k (k * order) P.

(** A step of the recursion on a partial autocorrelation matrix whose
    singular values are below one does not fail. *)
Lemma pacf_step_total (s : nat) (st : ladder R) :
  (s < order)%nat ->
  ladder_ok k order z s st ->
  sv_lt_one k (blk k s P) ->
  exists st', pacf_step k P s st = Ok st'.
Proof.
  intros Hs (Hfw & Hbw & Hfv & Hbv & Hsf & Hsb & Ecf & Ecb & Hst) Hsv.
  destruct (cholesky_bform Hfv Hsf Ecf) as (HLf & Hff & Hpdf).
  destruct (cholesky_bform Hbv Hsb Ecb) as (HLb & Hfb & Hpdb).
  pose proof (has_shape_lower_pos HLf) as HLfs.
  pose proof (has_shape_lower_pos HLb) as HLbs.
  pose proof (has_shape_blk HP Hs) as HPs.
  pose proof (has_shape_transpose HPs) as HPt.
  unfold pacf_step. rewrite !solve_triangular_real. unfold nrows.
  rewrite (proj1 HLfs), (proj1 HLbs).
  destruct (solve_lower_T_n_spec HLb HPt) as (X & EX & HX & HsX).
  destruct (solve_lower_T_n_spec HLf HPs) as (Y & EY & HY & HsY).
  rewrite EX. cbn [bind]. rewrite EY. cbn [bind].
  set (phi := dot (forward_factors st) (transpose X)) in *.
  set (phib := dot (backward_factors st) (transpose Y)) in *.
  assert (Hphi : has_shape k k phi).
  { apply has_shape_dot; [ apply HLfs | now apply has_shape_transpose ]. }
  assert (Hphib : has_shape k k phib).
  { apply has_shape_dot; [ apply HLbs | now apply has_shape_transpose ]. }
  set (fw1 := set_blk k s (forwards st) phi) in *.
  set (bw1 := set_blk k s (backwards st) phib) in *.
  assert (Hfw1 : has_shape k (k * order) fw1)
    by now apply has_shape_set_blk.
  assert (Hbw1 : has_shape k (k * order) bw1)
    by now apply has_shape_set_blk.
  assert (Ephi : blk k s fw1 = phi) by now apply (blk_set_blk_same Hfw).
  assert (Ephib : blk k s bw1 = phib) by now apply (blk_set_blk_same Hbw).
  rewrite Ephi.
  match goal with
  | |- context [fold_left ?f ?l ?a] =>
      destruct (@pacf_inner_fold k order s (forwards st) (backwards st)
                  Hfw Hbw Hs s fw1 bw1
                  (set_blk k (s + 1) (autocovariances st)
                     (transpose (dot phi (backward_variance st))))
                  Hfw1 Hbw1 (le_n s)) as (HfF & HbF & Hblk);
      destruct (fold_left f l a) as [[fwF bwF] acF]
  end.
  cbn [fst snd] in HfF, HbF, Hblk.
  destruct (Hblk s Hs) as [EfF EbF].
  rewrite Nat.ltb_irrefl, Ephi in EfF. rewrite Nat.ltb_irrefl, Ephib in EbF.
  rewrite EfF, EbF.
  set (Sf := forward_variance st) in *.
  set (Sb := backward_variance st) in *.
  set (Pb := blk k s P) in *.
  assert (HSf' : has_shape k k
            (msub Sf (dot (dot phi Sb) (transpose phi)))).
  { apply has_shape_msub; [ assumption | ].
    apply has_shape_dot; [ | now apply has_shape_transpose ].
    unfold dot, dot_T. rewrite length_map. apply Hphi. }
  assert (HSb' : has_shape k k
            (msub Sb (dot (dot phib Sf) (transpose phib)))).
  { apply has_shape_msub; [ assumption | ].
    apply has_shape_dot; [ | now apply has_shape_transpose ].
    unfold dot, dot_T. rewrite length_map. apply Hphib. }
  assert (Hact : forall v, length v = k ->
            vecmat k (vecmat k v phi) (backward_factors st)
            = vecmat k (vecmat k v (forward_factors st)) Pb).
  { intros v Hv. unfold phi.
    rewrite (vecmat_dot (n:=k') (c:=k))
      by (try apply has_shape_transpose; try apply HLfs; assumption).
    assert (Hl : length (vecmat k v (forward_factors st)) = k)
      by (apply length_vecmat, HLfs).
    rewrite (vecmat_transpose _ HX) by assumption.
    rewrite HsX by assumption.
    now rewrite (matvec_transpose _ HPs) by assumption. }
  assert (Hactb : forall u, length u = k ->
            vecmat k (vecmat k u phib) (forward_factors st)
            = matvec Pb (vecmat k u (backward_factors st))).
  { intros u Hu. unfold phib.
    rewrite (vecmat_dot (n:=k') (c:=k))
      by (try apply has_shape_transpose; try apply HLbs; assumption).
    assert (Hl : length (vecmat k u (backward_factors st)) = k)
      by (apply length_vecmat, HLbs).
    rewrite (vecmat_transpose _ HY) by assumption.
    now rewrite HsY by assumption. }
  destruct (@cholesky_total k (msub Sf (dot (dot phi Sb) (transpose phi))))
    as (ffac & Eff); [ exact HSf' | | | ].
  { intros x y Hx Hy. rewrite !bform_update by assumption.
    rewrite (Hsf x y Hx Hy).
    rewrite (Hsb (vecmat k x phi) (vecmat k y phi)) by len_tac.
    reflexivity. }
  { intros v Hv Hnz. rewrite bform_update by assumption.
    assert (Hlv : length (vecmat k v phi) = k)
      by (apply length_vecmat, Hphi).
    rewrite (Hfb _ _ Hlv Hlv), (Hact v Hv), (Hff v v Hv Hv).
    pose proof (Hpdf v Hv Hnz) as Hpos. rewrite (Hff v v Hv Hv) in Hpos.
    assert (Hl : length (vecmat k v (forward_factors st)) = k)
      by (apply length_vecmat, HLfs).
    pose proof (Hsv _ Hl (nonzero_of_pos _ Hpos)). lra. }
  destruct (@cholesky_total k (msub Sb (dot (dot phib Sf) (transpose phib))))
    as (bfac & Ebf); [ exact HSb' | | | ].
  { intros x y Hx Hy. rewrite !bform_update by assumption.
    rewrite (Hsb x y Hx Hy).
    rewrite (Hsf (vecmat k x phib) (vecmat k y phib)) by len_tac.
    reflexivity. }
  { intros u Hu Hnz. rewrite bform_update by assumption.
    assert (Hlu : length (vecmat k u phib) = k)
      by (apply length_vecmat, Hphib).
    rewrite (Hff _ _ Hlu Hlu), (Hactb u Hu), (Hfb u u Hu Hu).
    pose proof (Hpdb u Hu Hnz) as Hpos. rewrite (Hfb u u Hu Hu) in Hpos.
    assert (Hl : length (vecmat k u (backward_factors st)) = k)
      by (apply length_vecmat, HLbs).
    pose proof (sv_lt_one_matvec HPs Hsv Hl (nonzero_of_pos _ Hpos)).
    lra. }
  rewrite Eff. cbn [bind]. rewrite Ebf. cbn [bind]. eauto.
Qed.

End PacfTotal.

Section RecursionTotal.
Local Open Scope R_scope.
Local Open Scope py_scope.

Lemma for_each_total {S : Type} (body : nat -> S -> result S)
  (Inv : nat -> S -> Prop) (n a : nat) (st0 : S) :
  Inv a st0 ->
  (forall s st, (a <= s < a + n)%nat -> Inv s st ->
     exists st', body s st = Ok st' /\ Inv (Datatypes.S s) st') ->
  exists st, for_each (seq a n) body st0 = Ok st /\ Inv (a + n)%nat st.
Proof.
  revert a st0. induction n as [ | n IH]; intros a st0 H0 Hstep.
  - exists st0. rewrite Nat.add_0_r. now split.
  - cbn [seq for_each].
    destruct (Hstep a st0 ltac:(lia) H0) as (st1 & E1 & H1).
    rewrite E1. cbn [bind].
    destruct (IH (Datatypes.S a) st1 H1) as (st & E & Hst).
    + intros s st' Hs Hinv. apply Hstep; [ lia | assumption ].
    + exists st. split; [ exact E | ].
      now replace (a + Datatypes.S n)%nat with (Datatypes.S a + n)%nat by lia.
Qed.

Lemma nth_get_cols (a w i : nat) (M : matrix R) :
  nth i (get_cols a w M) [] = firstn w (skipn a (nth i M [])).
Proof.
  unfold get_cols.
  assert (E : firstn w (skipn a (@nil R)) = [])
    by (destruct a, w; reflexivity).
  rewrite <- E at 1.
  apply (map_nth (fun row : vector R => firstn w (skipn a row))).
Qed.

(** Block [s] of the array of the matrices side by side. *)
Lemma blk_hstack (k : nat) (Ps : list (matrix R)) (s : nat) :
  Forall (has_shape k k) Ps -> (s < length Ps)%nat ->
  blk k s (hstack k Ps) = nth s Ps [].
Proof.
  intros HPs. revert s.
  induction HPs as [ | P0 Ps HP0 HPs IH]; intros s Hs; [ cbn in Hs; lia | ].
  pose proof (has_shape_hstack HPs) as [HlH HfH].
  assert (Hall : Forall (has_shape k k) (P0 :: Ps))
    by (constructor; assumption).
  destruct HP0 as [HlP HfP].
  unfold blk. cbn [hstack].
  apply nth_ext with (d := []) (d' := []).
  - unfold get_cols.
    rewrite length_map, length_map2, HlP, HlH, Nat.min_id.
    rewrite Forall_forall in Hall. symmetry.
    apply (Hall (nth s (P0 :: Ps) [])). now apply nth_In.
  - intros i Hi. unfold get_cols in Hi.
    rewrite length_map, length_map2, HlP, HlH in Hi.
    rewrite nth_get_cols.
    rewrite (nth_map2 _ _ _ [] []) by lia.
    rewrite Forall_forall in HfP.
    assert (Hrow : length (nth i P0 []) = k)
      by (apply HfP, nth_In; lia).
    destruct s as [ | s']; cbn [nth].
    + cbn [Nat.mul skipn]. rewrite firstn_app, Hrow, Nat.sub_diag.
      cbn [firstn]. rewrite app_nil_r. apply firstn_all2. lia.
    + cbn [length] in Hs.
      rewrite <- (IH s' ltac:(lia)). unfold blk.
      rewrite nth_get_cols. f_equal. cbn [Nat.mul].
      rewrite skipn_app, Hrow.
      rewrite (skipn_all2 (nth i P0 [])) by lia.
      cbn [app]. f_equal. lia.
Qed.

Variable k' : nat.
Local Abbreviation k := (S k').

(** The recursion of Lemma 2.1, run on matrices whose singular values are
    below one and on a symmetric positive definite variance, does not
    fail. *)
Lemma pacf_recursion_total (order : nat) (P V : matrix R) :
  has_shape k (k * order) P ->
  (forall s, (s < order)%nat -> sv_lt_one k (blk k s P)) ->
  has_shape k k V -> sym_form k V ->
  (forall v, length v = k -> nonzero v -> 0 < bform k V v v) ->
  exists fw var L,
    pacf_recursion P V order k = Ok (fw, var)
    /\ has_shape k (k * order) fw /\ has_shape k k var
    /\ cholesky var = Ok L.
Proof.
  intros HP Hsv HV Hsym Hpd. unfold pacf_recursion.
  destruct (cholesky_total HV Hsym Hpd) as (L & EL).
  rewrite EL. cbn [bind].
  set (st0 := Ladder _ _ _ _ _ _ _).
  assert (H1 : 1 <= cx_norm2 (1, 0)) by (unfold cx_norm2; cbn; lra).
  destruct (@for_each_total _ (pacf_step k P) (ladder_ok k order (1, 0))
              order 0 st0) as (st & Est & Hend).
  - unfold ladder_ok, st0. cbn [forwards backwards forward_variance
      backward_variance forward_factors backward_factors].
    repeat (split; [ first [ apply has_shape_zeros | assumption ] | ]).
    apply stable_pair_init, HV.
  - intros s sa Hs Hinv.
    destruct (@pacf_step_total k' order (1, 0) P HP s sa)
      as (sb & Esb); [ lia | assumption | apply Hsv; lia | ].
    exists sb. split; [ exact Esb | ].
    apply (pacf_step_ok H1 HP) with (st := sa); [ lia | assumption | exact Esb ].
  - rewrite Est. cbn [bind].
    destruct Hend as (Hfw & _ & Hfv & _ & _ & _ & Ecf & _).
    exists (forwards st), (forward_variance st), (forward_factors st).
    auto.
Qed.

(** The matrices [P_i] of Lemma 2.2, with their properties. *)
Lemma constrain_sv_total (Ms : list (matrix R)) :
  Forall (has_shape k k) Ms ->
  exists Ps,
    _constrain_sv_less_than_one_python Ms (Some (length Ms)) (Some k)
    = Ok Ps
    /\ length Ps = length Ms
    /\ Forall (fun P => has_shape k k P /\ sv_lt_one k P) Ps.
Proof.
  intros HMs. unfold _constrain_sv_less_than_one_python.
  cbn [default_order default_k_endog bind].
  rewrite (map_result_index
             (fun A => B <- cholesky (madd (eye k) (dot A (transpose A))) ;;
                       solve_triangular B A NoTrans)) by (cbn; lia).
  cbn [skipn]. rewrite firstn_all.
  destruct (map_result_ok
              (fun (_ : matrix R) P => has_shape k k P /\ sv_lt_one k P)
              (fun A => B <- cholesky (madd (eye k) (dot A (transpose A))) ;;
                        solve_triangular B A NoTrans)
              (xs := Ms))
    as (Ps & E & HPs).
  { eapply Forall_impl; [ | exact HMs ].
    intros A HA. destruct (constrain_sv_step HA) as (P & EP & HP).
    now exists P. }
  exists Ps. split; [ exact E | ]. split.
  - apply (Forall2_length_eq HPs).
  - eapply Forall2_right; [ | exact HPs ]. auto.
Qed.

End RecursionTotal.

(** * The inverse of a triangular matrix *)

Section TriangularInverse.
Local Open Scope R_scope.
Local Open Scope py_scope.

Variable n : nat.
Variable T : matrix R.
Hypothesis HT : low_tri n T.

Lemma length_eliminate (j : nat) (p row : vector R) :
  length p = length row -> length (eliminate j p row) = length row.
Proof.
  intros E. unfold eliminate, vsub.
  rewrite length_map2, length_vscale, E. apply Nat.min_id.
Qed.

Lemma gj_tri_step (j : nat) (used todo : list (vector R)) :
  (j < n)%nat -> gj_tri n T j used todo ->
  exists p rest,
    pick_pivot j todo = Some (p, rest)
    /\ gj_tri n T (S j)
         (map (eliminate j (map (fun x => x / nth j p 0) p)) used
          ++ [map (fun x => x / nth j p 0) p])
         (map (eliminate j (map (fun x => x / nth j p 0) p)) rest).
Proof.
  intros Hj (Hlu & Hlt & Hused & Htodo).
  destruct todo as [ | r rest]; [ cbn in Hlt; lia | ].
  cbn [length] in Hlt.
  destruct (Htodo j ltac:(lia)) as (Hlr & Har & Hbr & Hzr).
  rewrite Nat.sub_diag in Hlr, Har, Hbr, Hzr. cbn [nth] in Hlr, Har, Hbr, Hzr.
  destruct HT as [HTs HTd].
  destruct (HTd j Hj) as [Hdj Hzj].
  assert (Ed : nth j r 0 = nth j (nth j T []) 0).
  { rewrite (Har j Hj). now rewrite Nat.ltb_irrefl. }
  exists r, rest. split.
  { cbn [pick_pivot]. cbn [feqb fzero R_Scalar].
    rewrite Reqb_false; [ reflexivity | ]. now rewrite Ed. }
  set (d := nth j r 0) in *.
  assert (Hd : d <> 0) by now rewrite Ed.
  set (p' := map (fun x => x / d) r).
  assert (Hlp : length p' = (n + n)%nat)
    by (subst p'; now rewrite length_map).
  assert (Np : forall c, nth c p' 0 = nth c r 0 / d)
    by (intros c; subst p'; apply nth_map_div).
  assert (Hp : used_row n j p').
  { split; [ exact Hlp | ]. split; [ | split ].
    - intros c Hc. rewrite Np, (Har c Hc).
      destruct (Nat.ltb_spec c j) as [Hlt' | Hge].
      + destruct (Nat.eqb_spec c j); [ lia | ]. unfold Rdiv. ring.
      + destruct (Nat.eqb_spec c j) as [-> | Hne].
        * fold d. rewrite <- Ed. now field.
        * rewrite (Hzj c) by lia. unfold Rdiv. ring.
    - rewrite Np. intros E. apply Hbr.
      apply Rmult_eq_reg_r with (/ d); [ | now apply Rinv_neq_0_compat ].
      unfold Rdiv in E. rewrite E. ring.
    - intros c Hc. rewrite Np, (Hzr c Hc). unfold Rdiv. ring. }
  split; [ rewrite length_app, length_map; cbn; lia | ].
  split; [ rewrite length_map; lia | ].
  split.
  - intros i Hi. destruct (Nat.eq_dec i j) as [-> | Hne].
    + rewrite app_nth2 by (rewrite length_map; lia).
      rewrite length_map, Hlu, Nat.sub_diag. exact Hp.
    + rewrite app_nth1 by (rewrite length_map; lia).
      assert (Hel : eliminate j p' [] = []) by reflexivity.
      rewrite <- Hel at 1.
      rewrite (map_nth (eliminate j p')).
      destruct (Hused i ltac:(lia)) as (Hlrow & Harow & Hbrow & Hzrow).
      unfold eliminate. cbn [fzero R_Scalar]. rewrite (Harow j Hj).
      destruct (Nat.eqb_spec j i); [ lia | ].
      rewrite vsub_vscale_zero by lia.
      now repeat split.
  - intros i Hi.
    assert (Hel : eliminate j p' [] = []) by reflexivity.
    rewrite <- Hel at 1.
    rewrite (map_nth (eliminate j p')).
    destruct (Htodo i ltac:(lia)) as (Hlrow & Harow & Hbrow & Hzrow).
    replace (i - j)%nat with (S (i - S j)) in Hlrow, Harow, Hbrow, Hzrow
      by lia.
    cbn [nth] in Hlrow, Harow, Hbrow, Hzrow.
    set (row := nth (i - S j) rest []) in *.
    assert (Hrj : nth j row 0 = nth j (nth i T []) 0).
    { rewrite (Harow j Hj). now rewrite Nat.ltb_irrefl. }
    destruct Hp as (_ & Hap & _ & Hzp).
    split; [ rewrite length_eliminate; lia | ].
    split; [ | split ].
    + intros c Hc. rewrite nth_eliminate by lia.
      rewrite (Harow c Hc), (Hap c Hc), Hrj.
      destruct (Nat.ltb_spec c j) as [Hlt' | Hge].
      * destruct (Nat.ltb_spec c (S j)); [ | lia ].
        destruct (Nat.eqb_spec c j); [ lia | ]. ring.
      * destruct (Nat.eqb_spec c j) as [-> | Hne].
        -- destruct (Nat.ltb_spec j (S j)); [ | lia ]. ring.
        -- destruct (Nat.ltb_spec c (S j)); [ lia | ]. ring.
    + rewrite nth_eliminate by lia.
      rewrite (Hzp i) by lia.
      intros E. apply Hbrow. lra.
    + intros c Hc. rewrite nth_eliminate by lia.
      rewrite (Hzrow c Hc), (Hzp c) by lia. ring.
Qed.

Lemma gauss_jordan_tri (steps j : nat) (used todo : list (vector R)) :
  (j + steps = n)%nat -> gj_tri n T j used todo ->
  exists rows,
    gauss_jordan steps j used todo = Ok rows /\ gj_tri n T n rows [].
Proof.
  revert j used todo. induction steps as [ | steps IH];
    intros j used todo Hjs Hinv.
  - assert (j = n) as -> by lia.
    destruct Hinv as (Hlu & Hlt & Hused & Htodo).
    rewrite Nat.sub_diag in Hlt. destruct todo; [ | discriminate ].
    exists used. split; [ reflexivity | ].
    split; [ exact Hlu | ]. split; [ now rewrite Nat.sub_diag | ].
    split; [ exact Hused | intros i Hi; lia ].
  - destruct (@gj_tri_step j used todo ltac:(lia) Hinv)
      as (p & rest & Ep & Hnext).
    cbn [gauss_jordan]. rewrite Ep.
    apply IH; [ lia | exact Hnext ].
Qed.

(** [np.linalg.inv] does not fail on a lower triangular matrix whose
    diagonal has no zero, and its result is one. *)
Lemma inv_low_tri : exists D, inv T = Ok D /\ low_tri n D.
Proof.
  pose proof HT as [HTs HTd].
  unfold inv, nrows. rewrite (proj1 HTs), (is_shape_true HTs).
  assert (H0 : gj_tri n T 0 [] (map2 (@app R) T (eye n))).
  { split; [ reflexivity | ].
    split; [ now rewrite length_map2, length_eye, (proj1 HTs), Nat.min_id,
               Nat.sub_0_r | ].
    split; [ intros i Hi; lia | ].
    intros i Hi. rewrite Nat.sub_0_r.
    rewrite (nth_map2 _ _ _ [] [])
      by (rewrite ?length_eye, ?(proj1 HTs); lia).
    assert (Hti : length (nth i T []) = n).
    { destruct HTs as [Hl Hf]. rewrite Forall_forall in Hf.
      apply Hf, nth_In. lia. }
    rewrite eye_rows. rewrite (nth_map_seq _ []) by lia. cbn [Nat.add].
    split; [ now rewrite length_app, Hti, length_unit_vec | ].
    split; [ | split ].
    - intros c Hc. rewrite app_nth1 by lia. reflexivity.
    - rewrite app_nth2 by lia. rewrite Hti.
      replace (n + i - n)%nat with i by lia.
      rewrite nth_unit_vec by lia. rewrite Nat.eqb_refl. lra.
    - intros c Hc. rewrite app_nth2 by lia. rewrite Hti.
      replace (n + c - n)%nat with c by lia.
      destruct (Nat.lt_ge_cases c n) as [Hcn | Hcn].
      + rewrite nth_unit_vec by lia.
        destruct (Nat.eqb_spec c i); [ lia | reflexivity ].
      + apply nth_overflow. rewrite length_unit_vec. lia. }
  destruct (@gauss_jordan_tri n 0 [] _ ltac:(lia) H0)
    as (rows & E & (Hlr & _ & Hrows & _)).
  rewrite E. cbn [bind]. eexists. split; [ reflexivity | ].
  assert (Hnth : forall i, nth i (map (skipn n) rows) []
                           = skipn n (nth i rows [])).
  { intros i. assert (E0 : skipn n (@nil R) = []) by now destruct n.
    rewrite <- E0 at 1. apply map_nth. }
  split; [ split | ].
  - now rewrite length_map.
  - apply Forall_forall. intros r Hr.
    apply In_nth with (d := []) in Hr as (i & Hi & <-).
    rewrite length_map in Hi. rewrite Hnth.
    destruct (Hrows i ltac:(lia)) as (Hl & _).
    rewrite length_skipn, Hl. lia.
  - intros i Hi. rewrite Hnth.
    destruct (Hrows i Hi) as (Hl & _ & Hb & Hz).
    split.
    + now rewrite nth_skipn.
    + intros j Hj. rewrite nth_skipn. now apply Hz.
Qed.

End TriangularInverse.

(** * Products of triangular matrices *)

Section TriangularProducts.
Local Open Scope R_scope.
Local Open Scope py_scope.

Lemma lower_pos_low_tri (n : nat) (L : matrix R) :
  lower_pos n L -> low_tri n L.
Proof.
  intros HL. split; [ now apply has_shape_lower_pos | ].
  induction HL as [ | n d col M Hd Hcol HM IH]; intros i Hi; [ lia | ].
  pose proof (has_shape_lower_pos HM) as [HlM _].
  destruct i as [ | i']; cbn [nth].
  - split; [ lra | ]. intros j Hj.
    destruct j as [ | j']; [ lia | ]. cbn [nth]. apply nth_repeat_zero.
  - rewrite (nth_map2 _ _ _ 0 []) by lia. cbn [nth].
    destruct (IH i' ltac:(lia)) as [Hd' Hz'].
    split; [ exact Hd' | ]. intros j Hj.
    destruct j as [ | j']; [ lia | ]. cbn [nth]. apply Hz'. lia.
Qed.

(** An entry of [l^T X] to which one row of [X] at most contributes. *)
Lemma vecmat_entry_single (n j : nat) (l : vector R) (X : matrix R) (i : nat) :
  Forall (fun row => length row = n) X -> (j < n)%nat ->
  (forall m, m <> i -> nth m l 0 * nth j (nth m X []) 0 = 0) ->
  nth j (vecmat n l X) 0 = nth i l 0 * nth j (nth i X []) 0.
Proof.
  intros HX Hj. revert l i.
  assert (Hnil : forall (A : Type) (a : nat) (d : A), nth a [] d = d)
    by (intros A [ | a] d; reflexivity).
  induction HX as [ | x X Hx HX IH]; intros l i Hz.
  - destruct l; cbn [vecmat]; rewrite nth_repeat_zero, !Hnil; ring.
  - destruct l as [ | li l'].
    + cbn [vecmat]. rewrite nth_repeat_zero, Hnil. ring.
    + cbn [vecmat].
      rewrite nth_vadd, nth_vscale
        by (rewrite ?length_vscale, ?Hx, ?(length_vecmat _ HX); lia).
      destruct i as [ | i']; cbn [nth].
      * rewrite (IH l' (length l')).
        -- rewrite (nth_overflow l') by lia. ring.
        -- intros m Hm. apply (Hz (S m)). lia.
      * rewrite (IH l' i').
        -- pose proof (Hz 0%nat ltac:(lia)) as H0. cbn [nth] in H0.
           rewrite H0. ring.
        -- intros m Hm. apply (Hz (S m)). lia.
Qed.

(** The product of two lower triangular matrices whose diagonals have no
    zero is one. *)
Lemma low_tri_dot (n : nat) (A B : matrix R) :
  low_tri n A -> low_tri n B -> low_tri n (dot A B).
Proof.
  intros [HAs HAd] [HBs HBd].
  assert (Hshape : has_shape n n (dot A B))
    by (apply has_shape_dot; [ apply HAs | exact HBs ]).
  split; [ exact Hshape | ].
  intros i Hi.
  rewrite (dot_as_rows HBs HAs).
  assert (Hrow : nth i (map (fun row => vecmat n row B) A) []
                 = vecmat n (nth i A []) B).
  { rewrite (nth_indep _ [] ((fun row => vecmat n row B) []))
      by (rewrite length_map, (proj1 HAs); lia).
    apply (map_nth (fun row => vecmat n row B)). }
  rewrite Hrow.
  destruct (HAd i Hi) as [HAi HAz]. destruct (HBd i Hi) as [HBi HBz].
  split.
  - rewrite (@vecmat_entry_single n i (nth i A []) B i (proj2 HBs) Hi).
    + intros E. apply Rmult_integral in E as [E | E]; contradiction.
    + intros m Hm. destruct (Nat.lt_ge_cases i m) as [Hlt | Hge].
      * rewrite (HAz m Hlt). ring.
      * destruct (Nat.lt_ge_cases m n) as [Hmn | Hmn]; [ | lia ].
        destruct (HBd m Hmn) as [_ HBmz].
        rewrite (HBmz i) by lia. ring.
  - intros j Hj.
    destruct (Nat.lt_ge_cases j n) as [Hjn | Hjn].
    + rewrite (@vecmat_entry_single n j (nth i A []) B n (proj2 HBs) Hjn).
      * rewrite (HAz n) by lia. ring.
      * intros m Hm. destruct (Nat.lt_ge_cases i m) as [Hlt | Hge].
        -- rewrite (HAz m Hlt). ring.
        -- destruct (HBd m ltac:(lia)) as [_ HBmz].
           rewrite (HBmz j) by lia. ring.
    + apply nth_overflow.
      rewrite (length_vecmat _ (proj2 HBs)). lia.
Qed.

End TriangularProducts.

(** * When [constrain_stationary_multivariate_python] returns *)

Section MultivariateTotal.
Local Open Scope R_scope.
Local Open Scope py_scope.

Lemma surrogate_variance_pd (order k' : nat) (v : vector R) :
  length v = S k' -> nonzero v ->
  0 < bform (S k') (surrogate_variance order (S k')) v v.
Proof.
  intros Hv Hnz. unfold surrogate_variance, bform.
  rewrite vecmat_mscale by apply has_shape_eye.
  rewrite vecmat_eye by assumption.
  rewrite dotv_vscale_l.
  pose proof (dotv_self_pos Hnz) as Hpos.
  apply Rmult_lt_0_compat; [ | exact Hpos ].
  cbn [of_int R_Scalar]. apply IZR_lt.
  apply Z.pow_pos_nonneg; lia.
Qed.

(** On a list, not empty, of square matrices of [k_endog >= 1] rows and a
    symmetric positive definite variance of that size,
    [constrain_stationary_multivariate_python] ends in a [NameError] in
    the module as imported, where the two helper names it calls are not
    bound.  Once they are bound to the [_python] helpers it raises
    nothing, over the real numbers: it returns, with either setting of
    [transform_variance]. *)
Theorem constrain_multivariate_total_once_bound (k_endog : nat)
  (unconstrained : list (matrix R)) (variance : matrix R)
  (transform_variance : bool) :
  (0 < k_endog)%nat -> unconstrained <> [] ->
  Forall (has_shape k_endog k_endog) unconstrained ->
  has_shape k_endog k_endog variance ->
  transpose variance = variance ->
  (forall v, length v = k_endog -> nonzero v ->
     0 < bform k_endog variance v v) ->
  constrain_stationary_multivariate_python as_imported
    (AsList unconstrained) variance transform_variance
  = Err NameError
  /\ exists constrained transformed_variance,
       constrain_stationary_multivariate_python helpers_bound
         (AsList unconstrained) variance transform_variance
       = Ok (constrained, transformed_variance).
Proof.
  intros Hk Hne HMs HV Hsym Hpd.
  split; [ now apply constrain_multivariate_as_imported | ].
  destruct k_endog as [ | k']; [ lia | ].
  rewrite constrain_multivariate_bound. cbn [bind].
  destruct unconstrained as [ | A0 Ms']; [ contradiction | ].
  set (Ms := A0 :: Ms') in *.
  change (index Ms 0) with (Ok (A := matrix R) A0). cbn [bind].
  assert (HA0 : nrows A0 = S k').
  { inversion HMs; subst. unfold nrows. firstorder. }
  rewrite HA0.
  destruct (constrain_sv_total HMs) as (Ps & EPs & HlP & HPs).
  rewrite EPs. cbn [bind].
  assert (HPshape : Forall (has_shape (S k') (S k')) Ps).
  { eapply Forall_impl; [ | exact HPs ]. now intros P [HP _]. }
  unfold _compute_coefficients_from_multivariate_pacf_python.
  destruct Ps as [ | P0 Ps']; [ subst Ms; cbn in HlP; lia | ].
  set (Ps := P0 :: Ps') in *. cbn [bind].
  assert (HP0 : nrows P0 = S k').
  { inversion HPshape; subst. unfold nrows. firstorder. }
  rewrite HP0.
  pose proof (has_shape_hstack HPshape) as HP. rewrite HlP in HP.
  assert (Hsv : forall s, (s < length Ms)%nat ->
            sv_lt_one (S k') (blk (S k') s (hstack (S k') Ps))).
  { intros s Hs. rewrite (@blk_hstack (S k') Ps s HPshape) by lia.
    rewrite Forall_forall in HPs. apply HPs, nth_In. lia. }
  pose proof (sym_form_transpose HV Hsym) as Hsf.
  destruct transform_variance.
  - destruct (@pacf_recursion_total k' (length Ms) (hstack (S k') Ps)
                variance HP Hsv HV Hsf Hpd)
      as (fw & var & L & E & _).
    rewrite E. cbn [bind]. eauto.
  - destruct (surrogate_variance_form (length Ms) (S k')) as [HSs HSsym].
    destruct (@pacf_recursion_total k' (length Ms) (hstack (S k') Ps)
                (surrogate_variance (length Ms) (S k')) HP Hsv HSs HSsym
                (@surrogate_variance_pd (length Ms) k'))
      as (fw & var & Lt & E & Hfw & Hvar & ELt).
    rewrite E. cbn [bind]. rewrite !np_linalg_cholesky_real.
    destruct (cholesky_total HV Hsf Hpd) as (L0 & EL0).
    rewrite EL0. cbn [bind]. rewrite ELt. cbn [bind].
    pose proof (lower_pos_low_tri (cholesky_lower_pos HV EL0)) as HL0.
    pose proof (lower_pos_low_tri (cholesky_lower_pos Hvar ELt)) as HLt.
    destruct (inv_low_tri HLt) as (D & ED & HD).
    rewrite ED. cbn [bind].
    destruct (inv_low_tri (low_tri_dot HL0 HD)) as (Ti & ETi & _).
    rewrite ETi. cbn [bind]. eauto.
Qed.

Lemma identity_positive_definite (v : vector R) :
  length v = 2%nat -> nonzero v -> 0 < bform 2 [[1; 0]; [0; 1]] v v.
Proof.
  intros Hv Hnz. pose proof (dotv_self_pos Hnz) as Hpos.
  destruct v as [ | a [ | b [ | c v]]]; try discriminate.
  unfold bform. cbn in *. lra.
Qed.

Lemma constrain_multivariate_total_once_bound_witness :
  constrain_stationary_multivariate_python as_imported
    (AsList [[[0; 0.75]; [0; 0]]]) [[1; 0]; [0; 1]] false
  = Err NameError
  /\ exists constrained transformed_variance,
       constrain_stationary_multivariate_python helpers_bound
         (AsList [[[0; 0.75]; [0; 0]]]) [[1; 0]; [0; 1]] false
       = Ok (constrained, transformed_variance).
Proof.
  apply (@constrain_multivariate_total_once_bound 2
           [[[0; 0.75]; [0; 0]]] [[1; 0]; [0; 1]] false).
  - lia.
  - discriminate.
  - repeat constructor.
  - repeat constructor.
  - reflexivity.
  - exact identity_positive_definite.
Defined.

End MultivariateTotal.


(** * The two representations of the coefficient matrices *)

Section Representations.
Local Open Scope R_scope.
Local Open Scope py_scope.

(** Cutting into blocks the array of the matrices side by side gives the
    matrices back. *)
Lemma unstack_hstack (k' : nat) (Ms : list (matrix R)) :
  Forall (has_shape (S k') (S k')) Ms ->
  unstack (hstack (S k') Ms) = Ok Ms.
Proof.
  intros HMs. pose proof (has_shape_hstack HMs) as HH.
  rewrite (@unstack_blocks k' (length Ms) _ HH). f_equal.
  unfold blocks. apply nth_ext with (d := []) (d' := []).
  - now rewrite length_map, length_seq.
  - intros i Hi. rewrite length_map, length_seq in Hi.
    rewrite (nth_map_seq _ []) by assumption. cbn [Nat.add].
    now apply blk_hstack.
Qed.

(** [unconstrain_stationary_multivariate] computes the same matrices from
    the two representations of its argument: called with the array of the
    matrices side by side it returns, side by side, the matrices it
    returns when called with the list, or raises what it raises then. *)
Theorem unconstrain_multivariate_stacked
  (lyapunov : matrix R -> matrix R -> result (matrix R))
  (k_endog : nat) (constrained : list (matrix R))
  (error_variance : matrix R) (transform_variance : bool) :
  (0 < k_endog)%nat ->
  Forall (has_shape k_endog k_endog) constrained ->
  unconstrain_stationary_multivariate lyapunov
    (Stacked (hstack k_endog constrained)) error_variance
    transform_variance
  = (r <- unconstrain_stationary_multivariate lyapunov
            (AsList constrained) error_variance transform_variance ;;
     match fst r with
     | AsList unconstrained =>
         Ok (Stacked (hstack k_endog unconstrained), snd r)
     | Stacked _ => Ok r
     end).
Proof.
  intros Hk HMs. destruct k_endog as [ | k']; [ lia | ].
  unfold unconstrain_stationary_multivariate.
  rewrite (unstack_hstack HMs). cbn [bind].
  destruct constrained as [ | C0 Ms']; [ reflexivity | ].
  set (Ms := C0 :: Ms') in *.
  change (index Ms 0) with (Ok (A := matrix R) C0). cbn [bind].
  assert (HC0 : nrows C0 = S k').
  { inversion HMs; subst. unfold nrows. firstorder. }
  rewrite HC0.
  destruct (_compute_multivariate_pacf_from_coefficients _ _ _ _ _)
    as [P | e]; cbn [bind]; [ | reflexivity ].
  destruct (_unconstrain_sv_less_than_one _ _ _) as [U | e]; cbn [bind];
    reflexivity.
Qed.

Lemma unconstrain_multivariate_stacked_witness :
  unconstrain_stationary_multivariate solve_discrete_lyapunov_direct
    (Stacked (hstack 1 [[[0]]])) [[1]] false
  = (r <- unconstrain_stationary_multivariate
            solve_discrete_lyapunov_direct (AsList [[[0]]]) [[1]] false ;;
     match fst r with
     | AsList unconstrained => Ok (Stacked (hstack 1 unconstrained), snd r)
     | Stacked _ => Ok r
     end).
Proof.
  apply (@unconstrain_multivariate_stacked solve_discrete_lyapunov_direct
           1 [[[0]]] [[1]] false).
  - lia.
  - repeat constructor.
Defined.

End Representations.

Section EmptyArguments.
Context {F : Type} `{Scalar F}.

(** The multivariate transforms on nothing: an empty list is an
    [IndexError] ([unconstrained[0]]), and an array without rows a
    [ZeroDivisionError] ([order //= k_endog]), whatever the variance,
    [transform_variance] and the module's global names. *)
Theorem multivariate_transforms_empty_input (names : module_names)
  (lyapunov : matrix F -> matrix F -> result (matrix F))
  (variance : matrix F) (transform_variance : bool) :
  constrain_stationary_multivariate_python names (AsList []) variance
    transform_variance = Err IndexError
  /\ constrain_stationary_multivariate_python names (Stacked []) variance
       transform_variance = Err ZeroDivisionError
  /\ unconstrain_stationary_multivariate lyapunov (AsList []) variance
       transform_variance = Err IndexError
  /\ unconstrain_stationary_multivariate lyapunov (Stacked []) variance
       transform_variance = Err ZeroDivisionError.
Proof. repeat split. Qed.

End EmptyArguments.


(** * The argument [order] of the singular-value transform *)

Section OrderArgument.
Local Open Scope R_scope.
Local Open Scope py_scope.

(** [_constrain_sv_less_than_one_python] reads the first [order] matrices
    of its list only: for an [order] up to the length of the list it
    returns what it returns on those matrices alone, and for a larger
    [order] it raises an [IndexError] (over the real numbers, on square
    matrices of [k_endog] rows). *)
Theorem constrain_sv_order (k_endog order : nat)
  (unconstrained : list (matrix R)) :
  Forall (has_shape k_endog k_endog) unconstrained ->
  ((order <= length unconstrained)%nat ->
   _constrain_sv_less_than_one_python unconstrained (Some order)
     (Some k_endog)
   = _constrain_sv_less_than_one_python (firstn order unconstrained)
       (Some order) (Some k_endog))
  /\ ((length unconstrained < order)%nat ->
      _constrain_sv_less_than_one_python unconstrained (Some order)
        (Some k_endog)
      = Err IndexError).
Proof.
  intros HMs. unfold _constrain_sv_less_than_one_python.
  cbn [default_order default_k_endog bind]. split.
  - intros Ho.
    rewrite !(map_result_index
                (fun A =>
                   B <- cholesky (madd (eye k_endog) (dot A (transpose A))) ;;
                   solve_triangular B A NoTrans))
      by (cbn; rewrite ?length_firstn; lia).
    cbn [skipn]. now rewrite firstn_firstn, Nat.min_id.
  - intros Ho. apply map_result_err.
    + apply Forall_forall. intros i Hi. apply in_seq in Hi.
      destruct (Nat.lt_ge_cases i (length unconstrained)) as [Hlt | Hge].
      * left. rewrite (index_nth _ [] Hlt). cbn [bind].
        assert (HA : has_shape k_endog k_endog (nth i unconstrained [])).
        { rewrite Forall_forall in HMs. now apply HMs, nth_In. }
        destruct (constrain_sv_step HA) as (P & EP & _). eauto.
      * right. unfold index.
        now rewrite (proj2 (nth_error_None unconstrained i) Hge).
    + apply Exists_exists. exists (length unconstrained). split.
      * apply in_seq. lia.
      * unfold index.
        now rewrite (proj2 (nth_error_None unconstrained _) (le_n _)).
Qed.

Lemma constrain_sv_order_witness :
  _constrain_sv_less_than_one_python [[[0]]; [[1]]] (Some 1%nat)
    (Some 1%nat)
  = _constrain_sv_less_than_one_python (firstn 1 [[[0]]; [[1]]])
      (Some 1%nat) (Some 1%nat)
  /\ _constrain_sv_less_than_one_python [[[0]]; [[1]]] (Some 3%nat)
       (Some 1%nat)
     = Err IndexError.
Proof.
  assert (Hs : Forall (has_shape 1 1) [[[0]]; [[1]]])
    by (repeat constructor).
  split.
  - apply (proj1 (@constrain_sv_order 1 1 [[[0]]; [[1]]] Hs)). cbn. lia.
  - apply (proj2 (@constrain_sv_order 1 3 [[[0]]; [[1]]] Hs)). cbn. lia.
Defined.

End OrderArgument.


(** * The multivariate transform on one scalar coefficient *)

Section ScalarOrderOne.
Local Open Scope R_scope.
Local Open Scope py_scope.

Lemma squash_unfold (x : R) : squash x = x / R_sqrt.sqrt (1 + x * x).
Proof. reflexivity. Qed.

Lemma constrain_multivariate_scalar_value (x v : R) : 0 < v ->
  constrain_stationary_multivariate_python helpers_bound (AsList [[[x]]])
    [[v]] true
  = Ok (Stacked [[squash x]], [[v * (1 - squash x * squash x)]]).
Proof.
  intros Hv.
  pose proof (squash_square x) as Hsq.
  assert (H1 : 0 < 1 + x * x) by nra.
  pose proof (sqrt_lt_R0 _ H1) as Hs1.
  pose proof (sqrt_lt_R0 _ Hv) as Hs2.
  rewrite constrain_multivariate_bound.
  cbn -[Rltb Reqb R_sqrt.sqrt].
  replace (1 + (x * x + 0)) with (1 + x * x) by ring.
  rewrite (Rltb_true H1). cbn -[Rltb Reqb R_sqrt.sqrt].
  rewrite Reqb_false by lra. cbn -[Rltb Reqb R_sqrt.sqrt].
  rewrite <- squash_unfold.
  unfold _compute_coefficients_from_multivariate_pacf_python, pacf_recursion.
  cbn -[Rltb Reqb R_sqrt.sqrt pacf_step squash].
  rewrite (Rltb_true Hv). cbn -[Rltb Reqb R_sqrt.sqrt pacf_step squash].
  unfold pacf_step. cbn -[Rltb Reqb R_sqrt.sqrt squash].
  rewrite Reqb_false by lra. cbn -[Rltb Reqb R_sqrt.sqrt squash].
  replace (R_sqrt.sqrt v * ((squash x - 0) / R_sqrt.sqrt v) + 0)
    with (squash x) by (field; lra).
  replace (v - ((squash x * v + 0) * squash x + 0))
    with (v * (1 - squash x * squash x)) by ring.
  assert (Hvar : 0 < v * (1 - squash x * squash x)) by nra.
  rewrite (Rltb_true Hvar). cbn -[Rltb Reqb R_sqrt.sqrt squash].
  reflexivity.
Qed.

(** One scalar coefficient [x], one lag and the variance [v > 0], with
    [transform_variance=True].  In the module as imported
    [constrain_stationary_multivariate_python] ends in a [NameError].
    With the two helper names bound it returns, in exact arithmetic, the
    coefficient [x / sqrt(1 + x^2)] and the variance
    [v * (1 - x^2 / (1 + x^2))], while [constrain_stationary_univariate]
    returns [- x / sqrt(1 + x^2)] for the same [x]: the two
    transformations have opposite signs on an AR(1) parameter. *)
Theorem constrain_multivariate_scalar_order_one (x v : R) : 0 < v ->
  constrain_stationary_multivariate_python as_imported (AsList [[[x]]])
    [[v]] true
  = Err NameError
  /\ (exists c : R,
        constrain_stationary_univariate [x] = Ok [c]
        /\ c = - (x / R_sqrt.sqrt (1 + x * x))
        /\ constrain_stationary_multivariate_python helpers_bound
             (AsList [[[x]]]) [[v]] true
           = Ok (Stacked [[- c]], [[v * (1 - c * c)]])).
Proof.
  intros Hv. split; [ reflexivity | ].
  exists (- squash x). split; [ reflexivity | ]. split; [ reflexivity | ].
  rewrite (constrain_multivariate_scalar_value x Hv).
  do 3 f_equal.
  - f_equal. cbn [fopp R_Scalar]. f_equal. lra.
  - cbn [fopp R_Scalar]. do 2 f_equal. ring.
Qed.

Lemma constrain_multivariate_scalar_order_one_witness :
  0 < 2 /\
  (constrain_stationary_multivariate_python as_imported (AsList [[[3]]])
     [[2]] true
   = Err NameError
   /\ (exists c : R,
         constrain_stationary_univariate [3] = Ok [c]
         /\ c = - (3 / R_sqrt.sqrt (1 + 3 * 3))
         /\ constrain_stationary_multivariate_python helpers_bound
              (AsList [[[3]]]) [[2]] true
            = Ok (Stacked [[- c]], [[2 * (1 - c * c)]]))).
Proof.
  split; [ lra | apply (@constrain_multivariate_scalar_order_one 3 2); lra ].
Defined.
End ScalarOrderOne.

(** * The variance the recursion of Lemma 2.1 runs on *)

Section VarianceHandling.
Local Open Scope R_scope.
Local Open Scope py_scope.

(** The surrogate variance, entry by entry. *)
Lemma surrogate_variance_entries (order k i j : nat) :
  (i < k)%nat -> (j < k)%nat ->
  get2 (surrogate_variance (F:=R) order k) i j
  = if Nat.eqb i j then IZR (Z.of_nat (order + k)) ^ 10 else 0.
Proof.
  intros Hi Hj. unfold surrogate_variance, get2, mscale.
  rewrite eye_rows, map_map.
  rewrite (nth_map_seq _ []) by assumption. cbn [Nat.add fzero R_Scalar].
  rewrite nth_vscale, nth_unit_vec by assumption.
  cbn [of_int R_Scalar]. rewrite Nat.eqb_sym.
  change 10%Z with (Z.of_nat 10). rewrite <- pow_IZR.
  destruct (Nat.eqb i j); ring.
Qed.

(** [(A D) L = A] when [D] is a left inverse of [L]. *)
Lemma dot_cancel_inverse (k' : nat) (A D L : matrix R) :
  has_shape (S k') (S k') A -> has_shape (S k') (S k') D ->
  has_shape (S k') (S k') L ->
  (forall w, length w = S k' ->
     vecmat (S k') (vecmat (S k') w D) L = w) ->
  dot (dot A D) L = A.
Proof.
  intros HA HD HL Hinv.
  assert (HAD : has_shape (S k') (S k') (dot A D))
    by (apply has_shape_dot; [ apply HA | exact HD ]).
  apply vecmat_ext with (n := S k') (c := S k').
  - apply has_shape_dot; [ apply HAD | exact HL ].
  - exact HA.
  - intros y Hy.
    rewrite (vecmat_dot y HL (proj2 HAD)).
    rewrite (vecmat_dot y HD (proj2 HA)).
    apply Hinv. apply length_vecmat, HA.
Qed.

(** A left inverse, as a product of matrices. *)
Lemma dot_left_inverse (k' : nat) (T Ti : matrix R) :
  has_shape (S k') (S k') T -> has_shape (S k') (S k') Ti ->
  (forall w, length w = S k' ->
     vecmat (S k') (vecmat (S k') w Ti) T = w) ->
  dot Ti T = eye (S k').
Proof.
  intros HT HTi Hinv.
  apply vecmat_ext with (n := S k') (c := S k').
  - apply has_shape_dot; [ apply HTi | exact HT ].
  - apply has_shape_eye.
  - intros y Hy.
    rewrite (vecmat_dot y HT (proj2 HTi)), vecmat_eye by assumption.
    now apply Hinv.
Qed.

(** On partial autocorrelation matrices with singular values below one
    and a symmetric positive definite variance the transform returns. *)
Lemma compute_coefficients_total (k' : nat) (Ps : list (matrix R))
  (variance : matrix R) (transform_variance : bool) :
  Ps <> [] -> Forall (has_shape (S k') (S k')) Ps ->
  Forall (sv_lt_one (S k')) Ps ->
  has_shape (S k') (S k') variance -> transpose variance = variance ->
  (forall v, length v = S k' -> nonzero v ->
     0 < bform (S k') variance v v) ->
  exists coefficients transformed_variance,
    _compute_coefficients_from_multivariate_pacf_python Ps variance
      (length Ps) (S k') transform_variance
    = Ok (coefficients, transformed_variance).
Proof.
  intros Hne HPshape HPsv HV Hsym Hpd.
  unfold _compute_coefficients_from_multivariate_pacf_python.
  destruct Ps as [ | P0 Ps']; [ congruence | ].
  set (Ps := P0 :: Ps') in *. cbn [bind].
  assert (HP0 : nrows P0 = S k').
  { inversion HPshape; subst. unfold nrows. firstorder. }
  rewrite HP0.
  pose proof (has_shape_hstack HPshape) as HP.
  assert (Hsv : forall s, (s < length Ps)%nat ->
            sv_lt_one (S k') (blk (S k') s (hstack (S k') Ps))).
  { intros s Hs. rewrite (@blk_hstack (S k') Ps s HPshape) by lia.
    rewrite Forall_forall in HPsv. apply HPsv, nth_In. lia. }
  pose proof (sym_form_transpose HV Hsym) as Hsf.
  destruct transform_variance.
  - destruct (@pacf_recursion_total k' (length Ps) (hstack (S k') Ps)
                variance HP Hsv HV Hsf Hpd)
      as (fw & var & L & E & _).
    rewrite E. eauto.
  - destruct (surrogate_variance_form (length Ps) (S k')) as [HSs HSsym].
    destruct (@pacf_recursion_total k' (length Ps) (hstack (S k') Ps)
                (surrogate_variance (length Ps) (S k')) HP Hsv HSs HSsym
                (@surrogate_variance_pd (length Ps) k'))
      as (fw & var & Lt & E & Hfw & Hvar & ELt).
    rewrite E. cbn [bind]. rewrite !np_linalg_cholesky_real.
    destruct (cholesky_total HV Hsf Hpd) as (L0 & EL0).
    rewrite EL0. cbn [bind]. rewrite ELt. cbn [bind].
    pose proof (lower_pos_low_tri (cholesky_lower_pos HV EL0)) as HL0.
    pose proof (lower_pos_low_tri (cholesky_lower_pos Hvar ELt)) as HLt.
    destruct (inv_low_tri HLt) as (D & ED & HD).
    rewrite ED. cbn [bind].
    destruct (inv_low_tri (low_tri_dot HL0 HD)) as (Ti & ETi & _).
    rewrite ETi. cbn [bind]. eauto.
Qed.

(** C4.  [_compute_coefficients_from_multivariate_pacf_python] on [order]
    partial autocorrelation matrices of [k_endog >= 1] rows and columns,
    over the real numbers.

    With [transform_variance] true it is the recursion run on the variance
    provided, whose coefficients and variance it returns as they are.

    With [transform_variance] false the recursion runs on the surrogate,
    the matrix with [(order + k_endog)^10] on its diagonal and zero
    elsewhere: when the call returns [(coefficients, variance)], the same
    call on the surrogate with [transform_variance] true returns some
    [(fw, variance)], the variance provided has a Cholesky factor
    [L_init] and the variance returned a Cholesky factor [L_out], and
    block [s] of the coefficients is [T fw_s T^-1] for the matrix
    [T = L_init L_out^-1] (that is, [T L_out = L_init]).

    Both calls return when the variance provided is symmetric positive
    definite and the partial autocorrelations have singular values below
    one. *)
Theorem pacf_variance_handling (order k_endog : nat)
  (partial_autocorrelations : list (matrix R)) (error_variance : matrix R) :
  (0 < k_endog)%nat ->
  length partial_autocorrelations = order -> (0 < order)%nat ->
  Forall (has_shape k_endog k_endog) partial_autocorrelations ->
  has_shape k_endog k_endog error_variance ->
  _compute_coefficients_from_multivariate_pacf_python
    partial_autocorrelations error_variance order k_endog true
  = pacf_recursion (hstack k_endog partial_autocorrelations)
      error_variance order k_endog
  /\ (exists surrogate : matrix R,
        has_shape k_endog k_endog surrogate
        /\ (forall i j, (i < k_endog)%nat -> (j < k_endog)%nat ->
              get2 surrogate i j
              = if Nat.eqb i j
                then IZR (Z.of_nat (order + k_endog)) ^ 10
                else 0)
        /\ forall coefficients variance : matrix R,
             _compute_coefficients_from_multivariate_pacf_python
               partial_autocorrelations error_variance order k_endog false
             = Ok (coefficients, variance) ->
             exists fw L_init L_out T T_inv : matrix R,
               _compute_coefficients_from_multivariate_pacf_python
                 partial_autocorrelations surrogate order k_endog true
               = Ok (fw, variance)
               /\ np_linalg_cholesky error_variance = Ok L_init
               /\ np_linalg_cholesky variance = Ok L_out
               /\ has_shape k_endog k_endog T
               /\ has_shape k_endog k_endog T_inv
               /\ dot T L_out = L_init
               /\ dot T_inv T = eye k_endog
               /\ forall s, (s < order)%nat ->
                    blk k_endog s coefficients
                    = dot (dot T (blk k_endog s fw)) T_inv)
  /\ (transpose error_variance = error_variance ->
      (forall v, length v = k_endog -> nonzero v ->
         0 < bform k_endog error_variance v v) ->
      Forall (sv_lt_one k_endog) partial_autocorrelations ->
      forall transform_variance : bool,
      exists coefficients variance : matrix R,
        _compute_coefficients_from_multivariate_pacf_python
          partial_autocorrelations error_variance order k_endog
          transform_variance
        = Ok (coefficients, variance)).
Proof.
  intros Hk Hord Hpos HPs HV.
  destruct k_endog as [ | k']; [ lia | ].
  destruct partial_autocorrelations as [ | P0 Ps'];
    [ cbn in Hord; lia | ].
  set (Ps := P0 :: Ps') in *.
  assert (HP0 : nrows P0 = S k').
  { inversion HPs; subst. unfold nrows. firstorder. }
  assert (Etrue : forall V : matrix R,
            _compute_coefficients_from_multivariate_pacf_python Ps V order
              (S k') true
            = pacf_recursion (hstack (S k') Ps) V order (S k')).
  { intros V. unfold _compute_coefficients_from_multivariate_pacf_python.
    subst Ps. cbn [bind]. now rewrite HP0. }
  pose proof (has_shape_hstack HPs) as HP. rewrite Hord in HP.
  split; [ apply Etrue | ]. split.
  - exists (surrogate_variance order (S k')).
    destruct (surrogate_variance_form order (S k')) as [HSs HSsym].
    split; [ exact HSs | ].
    split; [ intros i j; apply surrogate_variance_entries | ].
    intros coefficients variance E.
    unfold _compute_coefficients_from_multivariate_pacf_python in E.
    subst Ps. cbn [bind] in E. rewrite HP0 in E.
    set (Ps := P0 :: Ps') in *.
    apply bind_ok in E as ([fw var1] & Erec & E). cbn beta iota in E.
    apply bind_ok in E as (L0 & EL0 & E).
    apply bind_ok in E as (Lt & ELt & E).
    apply bind_ok in E as (D & ED & E).
    apply bind_ok in E as (Ti & ETi & E). injection E as <- <-.
    destruct (@pacf_recursion_stable k' order _ _ _ _ HP HSs HSsym Erec)
      as (Hfw & Hvar & _).
    pose proof EL0 as EL0'. pose proof ELt as ELt'.
    rewrite np_linalg_cholesky_real in EL0', ELt'.
    pose proof (has_shape_lower_pos (cholesky_lower_pos HV EL0')) as HL0.
    pose proof (has_shape_lower_pos (cholesky_lower_pos Hvar ELt')) as HLt.
    destruct (inv_left_inverse HLt ED) as [HD HDinv].
    assert (HT : has_shape (S k') (S k') (dot L0 D))
      by (apply has_shape_dot; [ apply HL0 | assumption ]).
    destruct (inv_left_inverse HT ETi) as [HTi HTinv].
    exists fw, L0, Lt, (dot L0 D), Ti.
    split; [ now rewrite Etrue | ].
    split; [ exact EL0 | ]. split; [ exact ELt | ].
    split; [ exact HT | ]. split; [ exact HTi | ].
    split; [ exact (@dot_cancel_inverse k' L0 D Lt HL0 HD HLt HDinv) | ].
    split; [ exact (@dot_left_inverse k' (dot L0 D) Ti HT HTi HTinv) | ].
    intros s Hs. now apply conjugate_blocks_spec.
  - intros Hsym Hpd Hsv tv. rewrite <- Hord.
    apply compute_coefficients_total; auto. discriminate.
Qed.

Lemma positive_definite_example (v : vector R) :
  length v = 2%nat -> nonzero v -> 0 < bform 2 [[2; 1]; [1; 2]] v v.
Proof.
  intros Hv Hnz. pose proof (dotv_self_pos Hnz) as Hpos.
  destruct v as [ | a [ | b [ | c v]]]; try discriminate.
  unfold bform. cbn in *. nra.
Qed.

Lemma sv_lt_one_example : sv_lt_one 2 [[0; 1 / 2]; [0; 0]].
Proof.
  intros v Hv Hnz. pose proof (dotv_self_pos Hnz) as Hpos.
  destruct v as [ | a [ | b [ | c v]]]; try discriminate.
  cbn in *. nra.
Qed.

Lemma pacf_variance_handling_witness :
  (0 < 2)%nat /\ length [[[0; 1 / 2]; [0; 0]]] = 1%nat /\ (0 < 1)%nat
  /\ Forall (has_shape 2 2) [[[0; 1 / 2]; [0; 0]]]
  /\ has_shape 2 2 [[2; 1]; [1; 2]]
  /\ exists coefficients variance fw L_init L_out T T_inv : matrix R,
       _compute_coefficients_from_multivariate_pacf_python
         [[[0; 1 / 2]; [0; 0]]] [[2; 1]; [1; 2]] 1 2 false
       = Ok (coefficients, variance)
       /\ np_linalg_cholesky [[2; 1]; [1; 2]] = Ok L_init
       /\ np_linalg_cholesky variance = Ok L_out
       /\ dot T L_out = L_init
       /\ dot T_inv T = eye 2
       /\ blk 2 0 coefficients = dot (dot T (blk 2 0 fw)) T_inv.
Proof.
  assert (H1 : (0 < 2)%nat) by lia.
  assert (H2 : length [[[0; 1 / 2]; [0; 0]]] = 1%nat) by reflexivity.
  assert (H3 : (0 < 1)%nat) by lia.
  assert (H4 : Forall (has_shape 2 2) [[[0; 1 / 2]; [0; 0]]])
    by repeat constructor.
  assert (H5 : has_shape 2 2 [[2; 1]; [1; 2]]) by repeat constructor.
  repeat (split; [ assumption | ]).
  destruct (@pacf_variance_handling 1 2 [[[0; 1 / 2]; [0; 0]]]
              [[2; 1]; [1; 2]] H1 H2 H3 H4 H5)
    as (_ & (S & _ & _ & Hfalse) & Htotal).
  destruct (Htotal eq_refl positive_definite_example
              (Forall_cons _ sv_lt_one_example (Forall_nil _)) false)
    as (coefficients & variance & E).
  destruct (Hfalse coefficients variance E)
    as (fw & L_init & L_out & T & T_inv & _ & E1 & E2 & _ & _ & E3 & E4
        & E5).
  exists coefficients, variance, fw, L_init, L_out, T, T_inv.
  repeat (split; [ assumption | ]). apply E5. lia.
Defined.

End VarianceHandling.

(** * The first block column at the inputs where the claim fails *)

Section FirstBlockColumnDiverges.
Local Open Scope float_scope.

(** C6 at two failing inputs, on float64 arrays.

    For [C_0 = [[1, 1], [0, 1]]], given as a nested list, and
    [C_1 = [[0, 0], [1, 0]]], block 1 of the first block column of the
    matrix returned is [-(C_0^{-1} C_1)^T], the transpose of the whole
    product, whose first entry is 1; the [-C_0^{-1} C_1^T] of the claim and
    of the docstring has the first entry [-0].

    For [C_0] the identity, the marker 1 and the identity matrix given as
    a nested list lead to one result, but the identity matrix given as an
    array, [np.eye(2)], ends in a [ValueError] at [polynomial[0] == 1]. *)
Theorem companion_matrix_first_block_column_diverges :
  (exists M D : matrix float,
      fst (companion_matrix
             (PyList [INested [[1; 1]; [0; 1]]; IArr [[0; 0]; [1; 0]]]))
      = Ok M
      /\ inv [[1; 1]; [0; 1]] = Ok D
      /\ get_block 0 2 M = mopp (transpose (dot D [[0; 0]; [1; 0]]))
      /\ get2 M 0 0 = 1
      /\ get2 (mopp (dot D (transpose [[0; 0]; [1; 0]]))) 0 0 = (-0))
  /\ (exists M : matrix float,
         fst (companion_matrix
                (PyList [INum 1; IArr [[0; 0]; [1; 0]]]))
         = Ok M
         /\ fst (companion_matrix
                   (PyList [INested [[1; 0]; [0; 1]];
                            IArr [[0; 0]; [1; 0]]]))
            = Ok M
         /\ fst (companion_matrix
                   (PyList [IArr [[1; 0]; [0; 1]]; IArr [[0; 0]; [1; 0]]]))
            = Err ValueError).
Proof.
  split.
  - eexists. eexists. repeat split; vm_compute; reflexivity.
  - eexists. repeat split; vm_compute; reflexivity.
Qed.

End FirstBlockColumnDiverges.

(** * The singular-value transform back on float64 arrays *)

Section UnconstrainInBinary64.
Local Open Scope R_scope.

Lemma float_to_R_large : 1 <= float_to_R 0x1.4e718d7d7625ap+664%float.
Proof.
  unfold float_to_R.
  replace (Prim2SF 0x1.4e718d7d7625ap+664%float)
    with (S754_finite false 5883593420661338 612)
    by (vm_compute; reflexivity).
  unfold powerRZ.
  assert (Hm : 1 <= IZR (Z.pos 5883593420661338)) by (apply IZR_le; lia).
  assert (Hp : 1 <= 2 ^ Pos.to_nat 612).
  { apply pow_R1_Rle. lra. }
  replace (1 * IZR (Z.pos 5883593420661338) * 2 ^ Pos.to_nat 612)
    with (IZR (Z.pos 5883593420661338) * 2 ^ Pos.to_nat 612) by ring.
  replace 1 with (1 * 1) at 1 by ring.
  apply Rmult_le_compat; lra.
Qed.

(** C9 on float64 arrays, at the matrix [[1e200]] ([0x1.4e718d7d7625ap+664]
    is the float64 number Python reads [1e200] as): its singular value is
    1e200, and the call ends in the [ValueError] of scipy's check for
    infinities ([1 - 1e200 * 1e200] is [-inf]), not in the [LinAlgError]
    of a factorisation that fails. *)
Lemma unconstrain_sv_overflow_in_binary64 :
  sv_ge_one 1 (map (map float_to_R) [[0x1.4e718d7d7625ap+664%float]])
  /\ _unconstrain_sv_less_than_one (F:=float) [[[0x1.4e718d7d7625ap+664%float]]] None None
     = Err ValueError
  /\ _unconstrain_sv_less_than_one (F:=float) [[[0x1.4e718d7d7625ap+664%float]]] None None
     <> Err LinAlgError.
Proof.
  split; [ | split ].
  - exists [1]. split; [ reflexivity | ]. split.
    + apply Exists_cons_hd. lra.
    + cbn [map vecmat dotv vadd vscale map2 repeat fadd fmul fzero
           R_Scalar].
      pose proof float_to_R_large as H.
      set (a := float_to_R 0x1.4e718d7d7625ap+664%float) in *.
      assert (H2 : 1 * 1 <= a * a) by (apply Rmult_le_compat; lra).
      lra.
  - vm_compute. reflexivity.
  - vm_compute. discriminate.
Qed.

End UnconstrainInBinary64.

(** * The transform of one scalar partial autocorrelation *)

Section ScalarPacf.
Local Open Scope R_scope.
Local Open Scope py_scope.

Lemma pacf_recursion_scalar (p V : R) : p * p < 1 -> 0 < V ->
  pacf_recursion [[p]] [[V]] 1 1 = Ok ([[p]], [[V * (1 - p * p)]]).
Proof.
  intros Hp HV.
  pose proof (sqrt_lt_R0 _ HV) as Hs.
  assert (Hvar : 0 < V * (1 - p * p)) by nra.
  unfold pacf_recursion.
  cbn -[Rltb Reqb R_sqrt.sqrt pacf_step].
  rewrite (Rltb_true HV). cbn -[Rltb Reqb R_sqrt.sqrt pacf_step].
  unfold pacf_step. cbn -[Rltb Reqb R_sqrt.sqrt].
  rewrite Reqb_false by lra. cbn -[Rltb Reqb R_sqrt.sqrt].
  replace (R_sqrt.sqrt V * ((p - 0) / R_sqrt.sqrt V) + 0)
    with p by (field; lra).
  replace (V - ((p * V + 0) * p + 0)) with (V * (1 - p * p)) by ring.
  rewrite (Rltb_true Hvar). reflexivity.
Qed.

(** One partial autocorrelation [p], [p^2 < 1], of a scalar process
    ([order = k_endog = 1]) and the variance [v > 0], in exact
    arithmetic.  With [transform_variance] true
    [_compute_coefficients_from_multivariate_pacf_python] returns the
    coefficient [p] and the variance [v (1 - p^2)].  With
    [transform_variance] false it returns the coefficient [p] and the
    variance [1024 (1 - p^2)], the one of the recursion on the surrogate
    [(1 + 1)^10], whatever [v] is. *)
Theorem compute_coefficients_scalar (p v : R) : p * p < 1 -> 0 < v ->
  _compute_coefficients_from_multivariate_pacf_python [[[p]]] [[v]] 1 1 true
  = Ok ([[p]], [[v * (1 - p * p)]])
  /\ _compute_coefficients_from_multivariate_pacf_python [[[p]]] [[v]] 1 1
       false
     = Ok ([[p]], [[1024 * (1 - p * p)]]).
Proof.
  intros Hp Hv. split.
  { unfold _compute_coefficients_from_multivariate_pacf_python.
    cbn [bind hstack nrows length map2 app repeat].
    now apply pacf_recursion_scalar. }
  pose proof (sqrt_lt_R0 _ Hv) as Hs.
  unfold _compute_coefficients_from_multivariate_pacf_python.
  cbn [bind hstack nrows length map2 app repeat].
  replace (surrogate_variance (F:=R) 1 1) with [[1024]].
  2:{ unfold surrogate_variance. cbn. do 2 f_equal. lra. }
  rewrite pacf_recursion_scalar by lra. cbn [bind].
  assert (Hvar : 0 < 1024 * (1 - p * p)) by nra.
  pose proof (sqrt_lt_R0 _ Hvar) as Hs2.
  unfold np_linalg_cholesky. cbn -[Rltb Reqb R_sqrt.sqrt inv].
  rewrite (Rltb_true Hv), (Rltb_true Hvar). cbn -[Rltb Reqb R_sqrt.sqrt inv].
  unfold inv at 1. cbn -[Rltb Reqb R_sqrt.sqrt inv].
  rewrite Reqb_false by lra. cbn -[Rltb Reqb R_sqrt.sqrt inv].
  set (T := R_sqrt.sqrt v * (1 / R_sqrt.sqrt (1024 * (1 - p * p))) + 0).
  assert (HT : 0 < T).
  { subst T. rewrite Rplus_0_r. apply Rmult_lt_0_compat; [ exact Hs | ].
    apply Rdiv_lt_0_compat; lra. }
  unfold inv. cbn -[Rltb Reqb R_sqrt.sqrt].
  rewrite Reqb_false by lra. cbn -[Rltb Reqb R_sqrt.sqrt].
  do 4 f_equal. field. lra.
Qed.

Lemma compute_coefficients_scalar_witness :
  (1 / 2) * (1 / 2) < 1 /\ 0 < 3
  /\ _compute_coefficients_from_multivariate_pacf_python [[[1 / 2]]] [[3]]
       1 1 true
     = Ok ([[1 / 2]], [[3 * (1 - 1 / 2 * (1 / 2))]])
  /\ _compute_coefficients_from_multivariate_pacf_python [[[1 / 2]]] [[3]]
       1 1 false
     = Ok ([[1 / 2]], [[1024 * (1 - 1 / 2 * (1 / 2))]]).
Proof.
  assert (H1 : (1 / 2) * (1 / 2) < 1) by lra.
  assert (H2 : 0 < 3) by lra.
  split; [ exact H1 | ]. split; [ exact H2 | ].
  exact (@compute_coefficients_scalar (1 / 2) 3 H1 H2).
Defined.

End ScalarPacf.
